(** * LogicGates-Emulator: circuit engine, minimizer, synthesizer, loader

    A shallow embedding of the computational core of the emulator
    (services/circuitEngine.ts, services/quineMcCluskey.ts and the project
    loader of the App component) together with the properties stated about
    it. *)

From Stdlib Require Import String Ascii.
From Stdlib Require Import List Bool Arith NArith QArith Lia.
From Stdlib Require Import Permutation Sorted.
Import ListNotations.

Local Open Scope nat_scope.
Local Open Scope list_scope.

(* ================================================================== *)
(** * The shared types (GateType, CircuitNode, Wire) *)
(* ================================================================== *)

Inductive GateType : Type :=
| AND | OR | NOT | NAND | NOR | XOR | INPUT_SWITCH | OUTPUT_LAMP | CLOCK.

Definition GateType_eqb (a b : GateType) : bool :=
  match a, b with
  | AND, AND | OR, OR | NOT, NOT | NAND, NAND | NOR, NOR | XOR, XOR
  | INPUT_SWITCH, INPUT_SWITCH | OUTPUT_LAMP, OUTPUT_LAMP | CLOCK, CLOCK => true
  | _, _ => false
  end.

(** JS numbers used for geometry are carried as rationals; the engine never
    computes with them. *)
Record Position : Type := mkPosition { pos_x : Q; pos_y : Q }.

Record CircuitNode : Type := mkNode {
  n_id : string;
  n_type : GateType;
  n_position : Position;
  n_state : bool;
  n_inputs : list bool;
  n_width : Q;
  n_height : Q;
  n_label : string;
  n_color : option string
}.

Inductive WireCurveType : Type := bezier | straight | step.

Record Wire : Type := mkWire {
  w_id : string;
  sourceNodeId : string;
  sourcePinIndex : nat;
  targetNodeId : string;
  targetPinIndex : nat;
  w_state : bool;
  w_curveType : option WireCurveType;
  w_color : option string
}.

(** Field assignments [node.state = b], [node.inputs = l], [wire.state = b]. *)
Definition set_n_state (n : CircuitNode) (b : bool) : CircuitNode :=
  mkNode (n_id n) (n_type n) (n_position n) b (n_inputs n)
         (n_width n) (n_height n) (n_label n) (n_color n).

Definition set_n_inputs (n : CircuitNode) (l : list bool) : CircuitNode :=
  mkNode (n_id n) (n_type n) (n_position n) (n_state n) l
         (n_width n) (n_height n) (n_label n) (n_color n).

Definition set_w_state (w : Wire) (b : bool) : Wire :=
  mkWire (w_id w) (sourceNodeId w) (sourcePinIndex w) (targetNodeId w)
         (targetPinIndex w) b (w_curveType w) (w_color w).

(* ================================================================== *)
(** * services/circuitEngine.ts *)
(* ================================================================== *)

Module CircuitEngine.

(** [node.type === INPUT_SWITCH || node.type === CLOCK] *)
Definition isSource (t : GateType) : bool :=
  match t with INPUT_SWITCH | CLOCK => true | _ => false end.

(** [!inputStates[0]]: an absent entry is [undefined], whose negation is true. *)
Definition notFirst (inputStates : list bool) : bool :=
  match nth_error inputStates 0 with
  | Some b => negb b
  | None => true
  end.

(** [inputStates[0] || false] *)
Definition firstOrFalse (inputStates : list bool) : bool :=
  match nth_error inputStates 0 with
  | Some b => b || false
  | None => false
  end.

Definition computeNodeLogic (node : CircuitNode) (inputStates : list bool) : bool :=
  if (length inputStates =? 0) && negb (isSource (n_type node)) then false
  else
    match n_type node with
    | AND => forallb (fun s => s) inputStates
    | OR => existsb (fun s => s) inputStates
    | NOT => notFirst inputStates
    | NAND => negb (forallb (fun s => s) inputStates)
    | NOR => negb (existsb (fun s => s) inputStates)
    | XOR => length (filter (fun s => s) inputStates) mod 2 =? 1
    | INPUT_SWITCH => n_state node
    | CLOCK => n_state node
    | OUTPUT_LAMP => firstOrFalse inputStates
    end.

(** [nodeMap]: built by [nextNodes.forEach(n => nodeMap.set(n.id, n))], so the
    last element carrying an id is the one the map returns.  The map holds the
    very objects of [nextNodes]; looking an id up in the current list is what
    [nodeMap.get] observes after any mutation. *)
Fixpoint nodeMap_get (nodes : list CircuitNode) (key : string) : option CircuitNode :=
  match nodes with
  | [] => None
  | n :: rest =>
      match nodeMap_get rest key with
      | Some m => Some m
      | None => if String.eqb (n_id n) key then Some n else None
      end
  end.

(** Phase 1, body of [nextWires.forEach]: the wire after the step and whether
    it cleared [stabilityReached]. *)
Definition updateWire (nodes : list CircuitNode) (wire : Wire) : Wire * bool :=
  match nodeMap_get nodes (sourceNodeId wire) with
  | Some sourceNode =>
      let newSignal := n_state sourceNode in
      if Bool.eqb (w_state wire) newSignal then (wire, false)
      else (set_w_state wire newSignal, true)
  | None => (wire, false)
  end.

Definition updateWires (nodes : list CircuitNode) (wires : list Wire)
  : list Wire * bool :=
  (map (fun w => fst (updateWire nodes w)) wires,
   existsb (fun w => snd (updateWire nodes w)) wires).

(** [const wire = incomingWires.find(w => w.targetPinIndex === i);
     const signal = wire ? wire.state : false;] *)
Definition pinSignal (incomingWires : list Wire) (i : nat) : bool :=
  match find (fun w => targetPinIndex w =? i) incomingWires with
  | Some wire => w_state wire
  | None => false
  end.

(** The [for] loop over [currentInputs], from index [i] on: the refreshed
    vector and [inputsChanged]. *)
Fixpoint refreshInputs (incomingWires : list Wire) (i : nat)
         (currentInputs : list bool) : list bool * bool :=
  match currentInputs with
  | [] => ([], false)
  | b :: rest =>
      let signal := pinSignal incomingWires i in
      let r := refreshInputs incomingWires (S i) rest in
      if Bool.eqb b signal then (b :: fst r, snd r)
      else (signal :: fst r, true)
  end.

(** Phase 2, body of [nextNodes.forEach]. *)
Definition updateNode (wires : list Wire) (node : CircuitNode) : CircuitNode * bool :=
  if isSource (n_type node) then (node, false)
  else
    let incomingWires :=
      filter (fun w => String.eqb (targetNodeId w) (n_id node)) wires in
    let r := refreshInputs incomingWires 0 (n_inputs node) in
    if snd r then
      let node1 := set_n_inputs node (fst r) in
      let newOutputState := computeNodeLogic node1 (fst r) in
      if Bool.eqb (n_state node1) newOutputState then (node1, false)
      else (set_n_state node1 newOutputState, true)
    else (node, false).

Definition updateNodes (wires : list Wire) (nodes : list CircuitNode)
  : list CircuitNode * bool :=
  (map (fun n => fst (updateNode wires n)) nodes,
   existsb (fun n => snd (updateNode wires n)) nodes).

(** One pass of the [while] body: the snapshot after it and the value of
    [stabilityReached] at its end. *)
Definition round (nodes : list CircuitNode) (wires : list Wire)
  : list CircuitNode * list Wire * bool :=
  let w := updateWires nodes wires in
  let n := updateNodes (fst w) nodes in
  (fst n, fst w, negb (snd w) && negb (snd n)).

Definition MAX_ITERATIONS : nat := 20.

(** The [while (!stabilityReached && iteration < MAX_ITERATIONS)] loop with
    [remaining = MAX_ITERATIONS - iteration]. *)
Fixpoint propagateLoop (remaining : nat) (nodes : list CircuitNode)
         (wires : list Wire) : list CircuitNode * list Wire :=
  match remaining with
  | 0 => (nodes, wires)
  | S k =>
      let '(nodes1, wires1, stabilityReached) := round nodes wires in
      if stabilityReached then (nodes1, wires1)
      else propagateLoop k nodes1 wires1
  end.

Definition propagateCircuit (nodes : list CircuitNode) (wires : list Wire)
  : list CircuitNode * list Wire :=
  propagateLoop MAX_ITERATIONS nodes wires.

End CircuitEngine.

(** ** Notions used to state the engine's properties *)

Module EngineSpec.
Import CircuitEngine.

(** Wires that target [node] and the signal vector they induce on its pins. *)
Definition incoming (wires : list Wire) (node : CircuitNode) : list Wire :=
  filter (fun w => String.eqb (targetNodeId w) (n_id node)) wires.

Definition signals (wires : list Wire) (node : CircuitNode) : list bool :=
  map (pinSignal (incoming wires node)) (seq 0 (length (n_inputs node))).

(** A node agrees with the wires when its input vector is the signal
    vector (sources are never evaluated). *)
Definition nodeOK (wires : list Wire) (n : CircuitNode) : Prop :=
  isSource (n_type n) = true \/ n_inputs n = signals wires n.

(** A wire agrees with the nodes when it mirrors its source's output, or has
    no source at all. *)
Definition wireOK (nodes : list CircuitNode) (w : Wire) : Prop :=
  match nodeMap_get nodes (sourceNodeId w) with
  | Some s => w_state w = n_state s
  | None => True
  end.

(** The elements and the connections one round leaves behind. *)
Definition roundNodes (nodes : list CircuitNode) (wires : list Wire) :=
  fst (fst (round nodes wires)).
Definition roundWires (nodes : list CircuitNode) (wires : list Wire) :=
  snd (fst (round nodes wires)).

(** Two element records describe the same element: everything but the output
    state and the contents of the input vector coincides. *)
Definition sameElement (a b : CircuitNode) : Prop :=
  n_id a = n_id b /\ n_type a = n_type b /\ n_position a = n_position b /\
  n_width a = n_width b /\ n_height a = n_height b /\
  n_label a = n_label b /\ n_color a = n_color b /\
  length (n_inputs a) = length (n_inputs b).

(** Two connection records describe the same connection: everything but the
    cached state coincides. *)
Definition sameConnection (a b : Wire) : Prop :=
  w_id a = w_id b /\ sourceNodeId a = sourceNodeId b /\
  sourcePinIndex a = sourcePinIndex b /\ targetNodeId a = targetNodeId b /\
  targetPinIndex a = targetPinIndex b /\ w_curveType a = w_curveType b /\
  w_color a = w_color b.

(** An AND gate at position [k] that no wire targets. *)
Definition looseAnd (k : nat) (ident : string) (good : CircuitNode -> Prop)
           (nodes : list CircuitNode) (wires : list Wire) : Prop :=
  (exists g, nth_error nodes k = Some g /\ n_id g = ident /\
             n_type g = AND /\ length (n_inputs g) = 3 /\ good g) /\
  (forall w, In w wires -> targetNodeId w <> ident).

(** The wire graph is acyclic: element ids can be ranked so that every wire
    goes from a lower to a higher rank. *)
Definition acyclic (wires : list Wire) : Prop :=
  exists rk : string -> nat,
    forall w, In w wires -> rk (sourceNodeId w) < rk (targetNodeId w).

(** Acyclic, and no wire path visits more than [depth] elements: the ranks
    of wire targets stay below [depth]. *)
Definition acyclicWithin (depth : nat) (wires : list Wire) : Prop :=
  exists rk : string -> nat,
    forall w, In w wires ->
      rk (sourceNodeId w) < rk (targetNodeId w) /\ rk (targetNodeId w) < depth.

(** A snapshot no round can change. *)
Definition fixedPoint (nodes : list CircuitNode) (wires : list Wire) : Prop :=
  (forall w, In w wires -> wireOK nodes w) /\
  (forall n, In n nodes -> nodeOK wires n).

(** What [j] rounds have settled, for a ranking [rk] of the ids. *)
Definition settled (rk : string -> nat) (j : nat)
           (nodes : list CircuitNode) (wires : list Wire) : Prop :=
  (forall w, In w wires -> rk (sourceNodeId w) < rk (targetNodeId w)) /\
  (1 <= j -> forall n, In n nodes -> nodeOK wires n) /\
  (forall w, In w wires -> rk (targetNodeId w) < j -> wireOK nodes w).

(** No element of the model carries the id [key]. *)
Definition noElement (nodes : list CircuitNode) (key : string) : Prop :=
  forall n, In n nodes -> n_id n <> key.

(** The [k]-th wire targets [key], an id no element carries. *)
Definition strayWire (k : nat) (key : string)
           (nodes : list CircuitNode) (wires : list Wire) : Prop :=
  noElement nodes key /\
  exists w, nth_error wires k = Some w /\ targetNodeId w = key.

(** The list without its [k]-th entry. *)
Definition removeAt {A} (k : nat) (l : list A) : list A :=
  firstn k l ++ skipn (S k) l.

End EngineSpec.

(** ** Concrete snapshots *)

Module Examples.

(** A NOT gate as [handleMouseDown] places it: one input, everything low. *)
Definition freshNot : CircuitNode :=
  mkNode "n1" NOT (mkPosition 0 0) false [false] 100 40 "NOT" None.

(** A three-input AND gate whose stored output is high although its stored
    inputs are all low. *)
Definition staleAnd : CircuitNode :=
  mkNode "a1" AND (mkPosition 0 0) true [false; false; false] 120 80 "AND" None.

(** A lamp and a wire into it whose source element does not exist; the wire
    still carries a high state. *)
Definition lonelyLamp : CircuitNode :=
  mkNode "L" OUTPUT_LAMP (mkPosition 0 0) false [false] 50 50 "LED" None.

Definition ghostWire : Wire :=
  mkWire "w" "ghost" 0 "L" 0 true None None.

(** A wire from switch "A" to an element that does not exist. *)
Definition strayWireA : Wire :=
  mkWire "v" "A" 0 "gone" 0 false None None.

(** Ids "A", "B", "C", ... and the rank they stand for. *)
Definition idOf (k : nat) : string := String (ascii_of_nat (65 + k)) EmptyString.

Definition rankOf (s : string) : nat :=
  match s with
  | String c _ => nat_of_ascii c - 65
  | EmptyString => 0
  end.

(** A switch feeding a chain of [len] NOT gates.  Gates and wires hold the
    states they settled to while the switch was low; the switch has just been
    set high. *)
Definition chainGate (k : nat) : CircuitNode :=
  mkNode (idOf k) NOT (mkPosition 0 0) (Nat.odd k) [Nat.even k] 100 40 "NOT" None.

Definition chainWire (k : nat) : Wire :=
  mkWire (String "w" (idOf k)) (idOf (k - 1)) 0 (idOf k) 0 (Nat.even k) None None.

Definition chainNodes (len : nat) : list CircuitNode :=
  mkNode (idOf 0) INPUT_SWITCH (mkPosition 0 0) true [] 50 50 "SW" None
  :: map chainGate (seq 1 len).

Definition chainWires (len : nat) : list Wire := map chainWire (seq 1 len).

(** A chain of NOT gates, [len] of them behind a first one whose input wire
    has just been deleted: its stored input is still high, and everything
    else holds the states settled while that wire was there. *)
Definition cutChainNodes (len : nat) : list CircuitNode :=
  mkNode (idOf 0) NOT (mkPosition 0 0) false [true] 100 40 "NOT" None
  :: map chainGate (seq 1 len).

End Examples.

(* ================================================================== *)
(** * services/circuitEngine.ts on the object heap *)
(* ================================================================== *)

(** propagateCircuit once more, this time with the objects it touches made
    explicit: element and wire records and input arrays live in a store and
    are reached through references, [{ ...n }] allocates a record that still
    shares the input array of the original, [[...node.inputs]] allocates an
    array, and every assignment is a write to a store cell.  The value model
    above is what this one computes on the contents of the cells. *)

Module HeapEngine.
Import CircuitEngine.

Definition loc : Type := nat.

(** An element record; [inputs] is a reference to an array. *)
Record NodeObj : Type := mkNodeObj {
  o_id : string;
  o_type : GateType;
  o_position : Position;
  o_state : bool;
  o_inputs : loc;
  o_width : Q;
  o_height : Q;
  o_label : string;
  o_color : option string
}.

Inductive Obj : Type :=
| ONode (o : NodeObj)
| OWire (w : Wire)
| OArray (items : list bool).

Definition Store : Type := list Obj.

(** Store-passing computations; [None] is a dereference of something that is
    not there. *)
Definition M (A : Type) : Type := Store -> option (A * Store).

Definition ret {A} (a : A) : M A := fun h => Some (a, h).

Definition bind {A B} (m : M A) (f : A -> M B) : M B :=
  fun h =>
    match m h with
    | Some (a, h') => f a h'
    | None => None
    end.

Notation "x <-- m ;; f" := (bind m (fun x => f))
  (at level 61, m at next level, right associativity).

Definition alloc (o : Obj) : M loc := fun h => Some (length h, h ++ [o]).

Definition readNode (l : loc) : M NodeObj :=
  fun h => match nth_error h l with Some (ONode o) => Some (o, h) | _ => None end.

Definition readWire (l : loc) : M Wire :=
  fun h => match nth_error h l with Some (OWire w) => Some (w, h) | _ => None end.

Definition readArray (l : loc) : M (list bool) :=
  fun h => match nth_error h l with Some (OArray a) => Some (a, h) | _ => None end.

Fixpoint upd (h : Store) (l : loc) (o : Obj) : Store :=
  match h, l with
  | [], _ => []
  | _ :: t, 0 => o :: t
  | x :: t, S l' => x :: upd t l' o
  end.

Definition write (l : loc) (o : Obj) : M unit :=
  fun h => if l <? length h then Some (tt, upd h l o) else None.

Fixpoint mapM {A B} (f : A -> M B) (l : list A) : M (list B) :=
  match l with
  | [] => ret []
  | a :: rest => b <-- f a ;; bs <-- mapM f rest ;; ret (b :: bs)
  end.

(** [list.forEach(body)] where the body reports whether it cleared
    [stabilityReached]. *)
Fixpoint forEachFlag {A} (body : A -> M bool) (l : list A) : M bool :=
  match l with
  | [] => ret false
  | a :: rest => b <-- body a ;; b' <-- forEachFlag body rest ;; ret (b || b')
  end.

Definition withInputs (o : NodeObj) (a : loc) : NodeObj :=
  mkNodeObj (o_id o) (o_type o) (o_position o) (o_state o) a
            (o_width o) (o_height o) (o_label o) (o_color o).

Definition withState (o : NodeObj) (b : bool) : NodeObj :=
  mkNodeObj (o_id o) (o_type o) (o_position o) b (o_inputs o)
            (o_width o) (o_height o) (o_label o) (o_color o).

(** The element a record stands for, given the contents of its input array. *)
Definition toNode (o : NodeObj) (inputs : list bool) : CircuitNode :=
  mkNode (o_id o) (o_type o) (o_position o) (o_state o) inputs
         (o_width o) (o_height o) (o_label o) (o_color o).

(** [{ ...n }] and [{ ...w }] *)
Definition copyNode (l : loc) : M loc := o <-- readNode l ;; alloc (ONode o).
Definition copyWire (l : loc) : M loc := w <-- readWire l ;; alloc (OWire w).

(** [nodeMap.get(key)]: the last entry set for [key]. *)
Fixpoint lookupLoc (nodeMap : list (string * loc)) (key : string) : option loc :=
  match nodeMap with
  | [] => None
  | (k, l) :: rest =>
      match lookupLoc rest key with
      | Some l' => Some l'
      | None => if String.eqb k key then Some l else None
      end
  end.

(** Phase 1, body of [nextWires.forEach]. *)
Definition stepWire (nodeMap : list (string * loc)) (wl : loc) : M bool :=
  wire <-- readWire wl ;;
  match lookupLoc nodeMap (sourceNodeId wire) with
  | Some nl =>
      sourceNode <-- readNode nl ;;
      let newSignal := o_state sourceNode in
      if Bool.eqb (w_state wire) newSignal then ret false
      else _ <-- write wl (OWire (set_w_state wire newSignal)) ;; ret true
  | None => ret false
  end.

(** Phase 2, body of [nextNodes.forEach].  The element-wise writes into the
    fresh array [currentInputs] are done as one write of its final contents. *)
Definition stepNode (nextWires : list loc) (nl : loc) : M bool :=
  node <-- readNode nl ;;
  if isSource (o_type node) then ret false
  else
    old <-- readArray (o_inputs node) ;;
    currentInputs <-- alloc (OArray old) ;;
    allWires <-- mapM readWire nextWires ;;
    let incomingWires :=
      filter (fun w => String.eqb (targetNodeId w) (o_id node)) allWires in
    let r := refreshInputs incomingWires 0 old in
    _ <-- write currentInputs (OArray (fst r)) ;;
    if snd r then
      let node1 := withInputs node currentInputs in
      _ <-- write nl (ONode node1) ;;
      let newOutputState := computeNodeLogic (toNode node1 (fst r)) (fst r) in
      if Bool.eqb (o_state node1) newOutputState then ret false
      else _ <-- write nl (ONode (withState node1 newOutputState)) ;; ret true
    else ret false.

Definition roundH (nodeMap : list (string * loc)) (nextNodes nextWires : list loc)
  : M bool :=
  c1 <-- forEachFlag (stepWire nodeMap) nextWires ;;
  c2 <-- forEachFlag (stepNode nextWires) nextNodes ;;
  ret (negb c1 && negb c2).

Fixpoint loopH (remaining : nat) (nodeMap : list (string * loc))
         (nextNodes nextWires : list loc) : M unit :=
  match remaining with
  | 0 => ret tt
  | S k =>
      stabilityReached <-- roundH nodeMap nextNodes nextWires ;;
      if stabilityReached then ret tt
      else loopH k nodeMap nextNodes nextWires
  end.

Definition propagateCircuitH (nodes wires : list loc) : M (list loc * list loc) :=
  nextNodes <-- mapM copyNode nodes ;;
  nextWires <-- mapM copyWire wires ;;
  nodeMap <-- mapM (fun l => o <-- readNode l ;; ret (o_id o, l)) nextNodes ;;
  _ <-- loopH MAX_ITERATIONS nodeMap nextNodes nextWires ;;
  ret (nextNodes, nextWires).

(** Cell [nl] holds a record standing for element [n]. *)
Definition repNode (h : Store) (nl : loc) (n : CircuitNode) : Prop :=
  exists o cur,
    nth_error h nl = Some (ONode o) /\
    nth_error h (o_inputs o) = Some (OArray cur) /\
    n = toNode o cur.

(** Cell [wl] holds connection [w]. *)
Definition repWire (h : Store) (wl : loc) (w : Wire) : Prop :=
  nth_error h wl = Some (OWire w).

(** A store holding a switch set high, a NOT gate and the wire between
    them, with the two input arrays. *)
Definition sampleStore : Store :=
  [ OArray [];
    ONode (mkNodeObj "A" INPUT_SWITCH (mkPosition 0 0) true 0 50 50 "SW" None);
    OArray [false];
    ONode (mkNodeObj "B" NOT (mkPosition 180 0) true 2 100 40 "NOT" None);
    OWire (mkWire "w" "A" 0 "B" 0 false None None) ].

Definition sampleNodes : list CircuitNode :=
  [ mkNode "A" INPUT_SWITCH (mkPosition 0 0) true [] 50 50 "SW" None;
    mkNode "B" NOT (mkPosition 180 0) true [false] 100 40 "NOT" None ].

Definition sampleWires : list Wire :=
  [ mkWire "w" "A" 0 "B" 0 false None None ].

End HeapEngine.

(* ================================================================== *)
(** * services/quineMcCluskey.ts: the minimizer *)
(* ================================================================== *)

Module QuineMcCluskey.

(** [type Term = string]: a JS string as its sequence of code units. *)
Definition Term : Type := list ascii.

Definition Term_eqb (a b : Term) : bool :=
  if list_eq_dec ascii_dec a b then true else false.

(** [t1[i] !== t2[i]]: indexing past the end yields [undefined]. *)
Definition charAt_neq (a b : option ascii) : bool :=
  match a, b with
  | Some x, Some y => negb (Ascii.eqb x y)
  | None, None => false
  | _, _ => true
  end.

(** The [for] loop of combineTerms from index [i] on, [rest] being what is
    left of [t1].  [diffIndex = None] stands for the sentinel [-1]; the outer
    [None] is the early [return null]. *)
Fixpoint findDiff (t2 : Term) (i : nat) (rest : list ascii)
         (diffIndex : option nat) : option (option nat) :=
  match rest with
  | [] => Some diffIndex
  | c :: rest' =>
      if charAt_neq (Some c) (nth_error t2 i) then
        match diffIndex with
        | Some _ => None
        | None => findDiff t2 (S i) rest' (Some i)
        end
      else findDiff t2 (S i) rest' diffIndex
  end.

Definition combineTerms (t1 t2 : Term) : option Term :=
  match findDiff t2 0 t1 None with
  | None => None
  | Some None => None
  | Some (Some diffIndex) =>
      Some (firstn diffIndex t1 ++ "-"%char :: skipn (diffIndex + 1) t1)
  end.

(** [Set.prototype.add] / [Map.prototype.set] on keys: insertion order is
    kept and a key already present stays where it is. *)
Definition setAdd (x : Term) (s : list Term) : list Term :=
  if existsb (Term_eqb x) s then s else s ++ [x].

Definition setHas (x : Term) (s : list Term) : bool := existsb (Term_eqb x) s.

(** [m.toString(2)] for a non-negative integer. *)
Fixpoint posDigits (p : positive) : list ascii :=
  match p with
  | xH => ["1"%char]
  | xO q => posDigits q ++ ["0"%char]
  | xI q => posDigits q ++ ["1"%char]
  end.

Definition toString2 (m : N) : list ascii :=
  match m with
  | N0 => ["0"%char]
  | Npos p => posDigits p
  end.

(** [s.padStart(n, c)] *)
Definition padStart (s : list ascii) (n : nat) (c : ascii) : list ascii :=
  repeat c (n - length s) ++ s.

(** Body of the inner [for (j = i + 1; ...)] loop for a fixed [currentTerms[i]];
    the accumulator is [(nextTerms, usedTerms)].  A combined term always
    contains '-', so [if (combined)] tests for non-null. *)
Fixpoint innerLoop (ti : Term) (rest : list Term)
         (acc : list Term * list Term) : list Term * list Term :=
  match rest with
  | [] => acc
  | tj :: rest' =>
      innerLoop ti rest'
        (match combineTerms ti tj with
         | Some combined =>
             (setAdd combined (fst acc), setAdd tj (setAdd ti (snd acc)))
         | None => acc
         end)
  end.

Fixpoint outerLoop (currentTerms : list Term)
         (acc : list Term * list Term) : list Term * list Term :=
  match currentTerms with
  | [] => acc
  | ti :: rest => outerLoop rest (innerLoop ti rest acc)
  end.

(** [currentTerms.forEach(t => { if (!usedTerms.has(t)) primeImplicants.add(t) })] *)
Definition collectPrimes (currentTerms usedTerms primeImplicants : list Term)
  : list Term :=
  fold_left (fun pis t => if setHas t usedTerms then pis else setAdd t pis)
            currentTerms primeImplicants.

(** The [while (currentTerms.length > 0)] loop.  [fuel] bounds the number of
    passes; [None] means the bound was hit before the loop ended. *)
Fixpoint qmLoop (fuel : nat) (currentTerms primeImplicants : list Term)
  : option (list Term) :=
  match currentTerms with
  | [] => Some primeImplicants
  | _ :: _ =>
      match fuel with
      | 0 => None
      | S fuel' =>
          let r := outerLoop currentTerms ([], []) in
          let primeImplicants' :=
            collectPrimes currentTerms (snd r) primeImplicants in
          match fst r with
          | [] => Some primeImplicants'
          | _ :: _ => qmLoop fuel' (fst r) primeImplicants'
          end
      end
  end.

(** [Array.prototype.sort()] without comparator: ascending by code units. *)
Fixpoint Term_leb (a b : Term) : bool :=
  match a, b with
  | [], _ => true
  | _ :: _, [] => false
  | x :: a', y :: b' =>
      if nat_of_ascii x <? nat_of_ascii y then true
      else if nat_of_ascii y <? nat_of_ascii x then false
      else Term_leb a' b'
  end.

Fixpoint insertSorted (x : Term) (l : list Term) : list Term :=
  match l with
  | [] => [x]
  | y :: l' => if Term_leb x y then x :: l else y :: insertSorted x l'
  end.

Definition sort (l : list Term) : list Term := fold_right insertSorted [] l.

(** [groups]: the keys of the map after [minterms.forEach]. *)
Definition initialTerms (numVars : nat) (minterms : list N) : list Term :=
  fold_left (fun keys m => setAdd (padStart (toString2 m) numVars "0"%char) keys)
            minterms [].

(** [Math.pow(2, numVars)] is exact for every length an array can have. *)
Definition solveQuineMcCluskey (fuel : nat) (numVars : nat) (minterms : list N)
  : option (list Term) :=
  if length minterms =? 0 then Some []
  else if N.eqb (N.of_nat (length minterms)) (2 ^ N.of_nat numVars)
       then Some [repeat "-"%char numVars]
  else option_map sort (qmLoop fuel (initialTerms numVars minterms) []).

End QuineMcCluskey.

(** ** Meaning of terms, used to state the minimizer's properties *)

Module TermSemantics.
Import QuineMcCluskey.

(** Value of variable [i] (A is 0) under assignment [a]: A is the most
    significant of the [numVars] bits, as in the truth-table rows. *)
Definition varValue (numVars : nat) (a : N) (i : nat) : bool :=
  N.testbit a (N.of_nat (numVars - 1 - i)).

(** Literal at position [i]: '1' is the variable, '0' its negation, anything
    else contributes no literal. *)
Definition literalHolds (numVars : nat) (a : N) (i : nat) (c : ascii) : bool :=
  if Ascii.eqb c "1" then varValue numVars a i
  else if Ascii.eqb c "0" then negb (varValue numVars a i)
  else true.

Fixpoint productFrom (numVars : nat) (a : N) (i : nat) (t : Term) : bool :=
  match t with
  | [] => true
  | c :: t' => literalHolds numVars a i c && productFrom numVars a (S i) t'
  end.

(** The product term [t] is true under [a]. *)
Definition evalTerm (numVars : nat) (t : Term) (a : N) : bool :=
  productFrom numVars a 0 t.

(** The OR of the product terms is true under [a]. *)
Definition evalSum (numVars : nat) (terms : list Term) (a : N) : bool :=
  existsb (fun t => evalTerm numVars t a) terms.

(** Number of '-' in a term. *)
Definition dashes (t : Term) : nat :=
  length (filter (fun c => Ascii.eqb c "-") t).

(** [t1] and [t2] differ in exactly one position, where [c] has '-'. *)
Definition combines (t1 t2 c : Term) : Prop :=
  exists p x y q,
    t1 = p ++ x :: q /\ t2 = p ++ y :: q /\ x <> y /\ c = p ++ "-"%char :: q.

(** The [k] low bits of [m], most significant first, as '0'/'1'. *)
Fixpoint bitsMSB (k : nat) (m : N) : Term :=
  match k with
  | 0 => []
  | S k' => bitsMSB k' (N.div2 m) ++ [if N.odd m then "1"%char else "0"%char]
  end.

(** The pairs [(currentTerms[i], currentTerms[j])], [i < j], in the order
    the nested loops visit them, and what one visit does. *)
Fixpoint orderedPairs (l : list Term) : list (Term * Term) :=
  match l with
  | [] => []
  | t :: rest => map (pair t) rest ++ orderedPairs rest
  end.

Definition pairStep (acc : list Term * list Term) (p : Term * Term)
  : list Term * list Term :=
  match combineTerms (fst p) (snd p) with
  | Some combined =>
      (setAdd combined (fst acc), setAdd (snd p) (setAdd (fst p) (snd acc)))
  | None => acc
  end.

(** All terms have length [n]. *)
Definition uniform (n : nat) (l : list Term) : Prop :=
  forall t, In t l -> length t = n.

(** Ascending order of [sort]: lexicographic by character code. *)
Definition Term_le (a b : Term) : Prop := Term_leb a b = true.

(** Same members. *)
Definition sameSet (l1 l2 : list Term) : Prop := forall x, In x l1 <-> In x l2.

End TermSemantics.

(* ================================================================== *)
(** * services/quineMcCluskey.ts: the circuit generator *)
(* ================================================================== *)

Module Synthesizer.
Import QuineMcCluskey.
Local Open Scope Q_scope.

(** A call either returns or throws the TypeError of reading a property of
    [undefined]. *)
Inductive Outcome (A : Type) : Type :=
| Returned (a : A)
| TypeError.
Arguments Returned {A} a.
Arguments TypeError {A}.

(** Computations that draw fresh ids: the state is the number of
    [generateId()] calls made so far. *)
Definition Gen (A : Type) : Type := nat -> Outcome (A * nat).

Definition ret {A} (a : A) : Gen A := fun k => Returned (a, k).

Definition bind {A B} (m : Gen A) (f : A -> Gen B) : Gen B :=
  fun k =>
    match m k with
    | Returned (a, k') => f a k'
    | TypeError => TypeError
    end.

Definition lift {A} (o : Outcome A) : Gen A :=
  fun k =>
    match o with
    | Returned a => Returned (a, k)
    | TypeError => TypeError
    end.

Notation "x <- m ;; f" := (bind m (fun x => f))
  (at level 61, m at next level, right associativity).

(** PIN_SPACING and the COMPONENT_CONFIGS sizes the generator reads. *)
Definition PIN_SPACING : Q := 20.
Definition NOT_width : Q := 100.
Definition NOT_height : Q := 40.
Definition AND_width : Q := 120.
Definition OR_width : Q := 120.

(** Layout constants of generateCircuitFromTerms. *)
Definition COL_Spacing : Q := 180.
Definition ROW_Spacing : Q := 80.

Definition ofNat (n : nat) : Q := inject_Z (Z.of_nat n).

Record Connection : Type := mkConnection {
  c_nodeId : string;
  c_pinIndex : nat;
  c_y : Q
}.

Record TermOutput : Type := mkTermOutput {
  to_sourceNodeId : string;
  to_sourcePinIndex : nat;
  yPosition : Q
}.

(** [needsNot[i] = true]; writing past the end grows the array, the holes
    reading as falsy. *)
Definition arraySetTrue (i : nat) (a : list bool) : list bool :=
  if i <? length a then firstn i a ++ true :: skipn (S i) a
  else a ++ repeat false (i - length a) ++ [true].

(** [needsNot[i]] read as a condition: [undefined] is falsy. *)
Definition arrayTruthy (a : list bool) (i : nat) : bool :=
  match nth_error a i with
  | Some b => b
  | None => false
  end.

Fixpoint markZeros (term : list ascii) (i : nat) (needsNot : list bool)
  : list bool :=
  match term with
  | [] => needsNot
  | c :: rest =>
      markZeros rest (S i)
                (if Ascii.eqb c "0" then arraySetTrue i needsNot else needsNot)
  end.

(** [notGates.get(i)] on the insertion-ordered association. *)
Fixpoint notGates_get (notGates : list (nat * CircuitNode)) (i : nat)
  : option CircuitNode :=
  match notGates with
  | [] => None
  | (j, node) :: rest =>
      match notGates_get rest i with
      | Some n => Some n
      | None => if j =? i then Some node else None
      end
  end.

(** The [for] loop collecting the literal connections of one term; reading
    [inputs[i].id] with [inputs[i]] undefined throws. *)
Fixpoint gatherConnections (inputs : list CircuitNode)
         (notGates : list (nat * CircuitNode)) (term : list ascii) (i : nat)
         (connections : list Connection) : Outcome (list Connection) :=
  match term with
  | [] => Returned connections
  | char :: rest =>
      if Ascii.eqb char "1" then
        match nth_error inputs i with
        | Some input =>
            gatherConnections inputs notGates rest (S i)
              (connections ++
               [mkConnection (n_id input) 0 (pos_y (n_position input))])
        | None => TypeError
        end
      else if Ascii.eqb char "0" then
        match notGates_get notGates i with
        | Some notNode =>
            gatherConnections inputs notGates rest (S i)
              (connections ++
               [mkConnection (n_id notNode) 0 (pos_y (n_position notNode))])
        | None => gatherConnections inputs notGates rest (S i) connections
        end
      else gatherConnections inputs notGates rest (S i) connections
  end.

Section WithIds.

(** [randomId k] is what the [k]-th call of [generateId()] returns; the
    random source is the only input besides the arguments. *)
Variable randomId : nat -> string.

Definition generateId : Gen string := fun k => Returned (randomId k, S k).

(** Step 1: [inputLabels.forEach((label, i) => ...)]. *)
Fixpoint createInputs (startPos : Position) (labels : list string) (i : nat)
  : Gen (list CircuitNode) :=
  match labels with
  | [] => ret []
  | label :: rest =>
      id <- generateId ;;
      more <- createInputs startPos rest (S i) ;;
      ret (mkNode id INPUT_SWITCH
                  (mkPosition (pos_x startPos)
                              (pos_y startPos + ofNat i * ROW_Spacing))
                  false [] 50 50 label None :: more)
  end.

(** Step 2: [inputs.forEach((inputNode, i) => { if (needsNot[i]) ... })];
    the accumulator is [(nodes, wires, notGates)]. *)
Fixpoint createNots (startPos : Position) (needsNot : list bool)
         (inputs : list CircuitNode) (i : nat)
         (acc : list CircuitNode * list Wire * list (nat * CircuitNode))
  : Gen (list CircuitNode * list Wire * list (nat * CircuitNode)) :=
  match inputs with
  | [] => ret acc
  | inputNode :: rest =>
      if arrayTruthy needsNot i then
        notId <- generateId ;;
        wireId <- generateId ;;
        let '(nodes, wires, notGates) := acc in
        let notNode :=
          mkNode notId NOT
                 (mkPosition (pos_x startPos + COL_Spacing)
                             (pos_y (n_position inputNode) + 10))
                 false [false] NOT_width NOT_height "NOT" None in
        createNots startPos needsNot rest (S i)
          (nodes ++ [notNode],
           wires ++ [mkWire wireId (n_id inputNode) 0 notId 0 false None None],
           notGates ++ [(i, notNode)])
      else createNots startPos needsNot rest (S i) acc
  end.

(** [connections.forEach((conn, pinIdx) => wires.push(...))] *)
Fixpoint wireInto (target : string) (connections : list Connection)
         (pinIdx : nat) (wires : list Wire) : Gen (list Wire) :=
  match connections with
  | [] => ret wires
  | conn :: rest =>
      id <- generateId ;;
      wireInto target rest (S pinIdx)
        (wires ++ [mkWire id (c_nodeId conn) 0 target pinIdx false None None])
  end.

(** [termOutputs[termOutputs.length - 1]?.yPosition || -1000] *)
Definition prevYOf (termOutputs : list TermOutput) : Q :=
  match last (map Some termOutputs) None with
  | Some t => if Qeq_bool (yPosition t) 0 then -(1000) else yPosition t
  | None => -(1000)
  end.

(** Step 3, body of [terms.forEach((term, idx) => ...)]; the accumulator is
    [(nodes, wires, termOutputs)]. *)
Definition processTerm (numVars termCount : nat) (startPos : Position)
           (inputs : list CircuitNode) (notGates : list (nat * CircuitNode))
           (term : Term) (idx : nat)
           (acc : list CircuitNode * list Wire * list TermOutput)
  : Gen (list CircuitNode * list Wire * list TermOutput) :=
  if Term_eqb term (repeat "-"%char numVars) && (1 <? termCount)%nat
  then ret acc
  else
    connections <- lift (gatherConnections inputs notGates term 0 []) ;;
    let '(nodes, wires, termOutputs) := acc in
    match connections with
    | [] => ret acc
    | [only] =>
        ret (nodes, wires,
             termOutputs ++
             [mkTermOutput (c_nodeId only) (c_pinIndex only) (c_y only)])
    | _ :: _ :: _ =>
        let inputCount := length connections in
        let height := (ofNat inputCount + 1) * PIN_SPACING in
        let avgY :=
          fold_left (fun sum c => sum + c_y c) connections 0 / ofNat inputCount in
        let yPos0 := avgY - height / 2 in
        let yPos :=
          if (0 <? idx)%nat then
            let prevY := prevYOf termOutputs in
            if Qlt_le_dec yPos0 (prevY + 60) then prevY + 60 else yPos0
          else yPos0 in
        andId <- generateId ;;
        let andNode :=
          mkNode andId AND
                 (mkPosition (pos_x startPos + COL_Spacing * 2) yPos)
                 false (repeat false inputCount) AND_width height "AND" None in
        wires' <- wireInto andId connections 0 wires ;;
        ret (nodes ++ [andNode], wires',
             termOutputs ++ [mkTermOutput andId 0 (yPos + height / 2)])
    end.

Fixpoint processTerms (numVars termCount : nat) (startPos : Position)
         (inputs : list CircuitNode) (notGates : list (nat * CircuitNode))
         (terms : list Term) (idx : nat)
         (acc : list CircuitNode * list Wire * list TermOutput)
  : Gen (list CircuitNode * list Wire * list TermOutput) :=
  match terms with
  | [] => ret acc
  | term :: rest =>
      acc' <- processTerm numVars termCount startPos inputs notGates term idx acc ;;
      processTerms numVars termCount startPos inputs notGates rest (S idx) acc'
  end.

(** [termOutputs.forEach((term, i) => wires.push(...))] of step 4. *)
Fixpoint wireSum (target : string) (termOutputs : list TermOutput) (i : nat)
         (wires : list Wire) : Gen (list Wire) :=
  match termOutputs with
  | [] => ret wires
  | term :: rest =>
      id <- generateId ;;
      wireSum target rest (S i)
        (wires ++ [mkWire id (to_sourceNodeId term) (to_sourcePinIndex term)
                          target i false None None])
  end.

(** [if (finalOutputNodeId)]: the empty string is falsy. *)
Definition truthyString (s : string) : bool :=
  match s with
  | EmptyString => false
  | String _ _ => true
  end.

Definition generateCircuitFromTerms (numVars : nat) (terms : list Term)
           (startPos : Position) : Gen (list CircuitNode * list Wire) :=
  (* 1. input switches *)
  let inputLabels := firstn numVars ["A"; "B"; "C"; "D"]%string in
  inputs <- createInputs startPos inputLabels 0 ;;
  (* 2. NOT gates *)
  let needsNot :=
    fold_left (fun a term => markZeros term 0 a) terms (repeat false numVars) in
  r2 <- createNots startPos needsNot inputs 0 (inputs, [], []) ;;
  let '(nodes2, wires2, notGates) := r2 in
  (* 3. product terms *)
  r3 <- processTerms numVars (length terms) startPos inputs notGates terms 0
                     (nodes2, wires2, []) ;;
  let '(nodes3, wires3, termOutputs) := r3 in
  (* 4. sum term *)
  let OR_COL_X := pos_x startPos + COL_Spacing * 2 + COL_Spacing + 40 in
  r4 <-
    match termOutputs with
    | [] => ret (nodes3, wires3, EmptyString, 0%nat, pos_y startPos)
    | [only] =>
        ret (nodes3, wires3, to_sourceNodeId only, to_sourcePinIndex only,
             yPosition only)
    | _ :: _ :: _ =>
        let inputCount := length termOutputs in
        let height := (ofNat inputCount + 1) * PIN_SPACING in
        let avgY :=
          fold_left (fun sum t => sum + yPosition t) termOutputs 0
          / ofNat inputCount in
        orId <- generateId ;;
        let orNode :=
          mkNode orId OR (mkPosition OR_COL_X (avgY - height / 2))
                 false (repeat false inputCount) OR_width height "OR" None in
        wires' <- wireSum orId termOutputs 0 wires3 ;;
        ret (nodes3 ++ [orNode], wires', orId, 0%nat, avgY)
    end ;;
  let '(nodes4, wires4, finalOutputNodeId, finalOutputPinIdx, lampY) := r4 in
  (* 5. output lamp *)
  lampId <- generateId ;;
  let lampNode :=
    mkNode lampId OUTPUT_LAMP (mkPosition (OR_COL_X + 100) (lampY - 25))
           false [false] 50 50 "Q" None in
  if truthyString finalOutputNodeId then
    wireId <- generateId ;;
    ret (nodes4 ++ [lampNode],
         wires4 ++ [mkWire wireId finalOutputNodeId finalOutputPinIdx
                           lampId 0 false None None])
  else ret (nodes4 ++ [lampNode], wires4).

End WithIds.

(** A sample id source: the [k]-th id is "n" followed by [k] primes. *)
Fixpoint idOfNat (k : nat) : string :=
  match k with
  | O => "n"%string
  | S k' => (idOfNat k' ++ "'")%string
  end.

(** Number of INPUT_SWITCH elements among [nodes]. *)
Definition switchCount (nodes : list CircuitNode) : nat :=
  length (filter (fun n => GateType_eqb (n_type n) INPUT_SWITCH) nodes).

End Synthesizer.

(* ================================================================== *)
(** * The App component: loading a project file *)
(* ================================================================== *)

Module Loader.

(** What [JSON.parse] can return. *)
#[warnings="-register-all"] Inductive JSON : Type :=
| JNull
| JBool (b : bool)
| JNumber (q : Q)
| JString (s : string)
| JArray (items : list JSON)
| JObject (fields : list (string * JSON)).

(** A JS value as a property read yields it: [None] is [undefined]. *)
Definition JSValue : Type := option JSON.

(** Own property of a parsed object; when a key occurs twice in the text the
    later occurrence is the one [JSON.parse] keeps. *)
Fixpoint lookupField (fields : list (string * JSON)) (key : string) : JSValue :=
  match fields with
  | [] => None
  | (k, v) :: rest =>
      match lookupField rest key with
      | Some v' => Some v'
      | None => if String.eqb k key then Some v else None
      end
  end.

(** [value.key] for one of the keys "nodes", "wires", "camera": reading a
    property of [null] throws (outer [None]); primitives and arrays have no
    such property. *)
Definition getProp (value : JSON) (key : string) : option JSValue :=
  match value with
  | JNull => None
  | JObject fields => Some (lookupField fields key)
  | JBool _ | JNumber _ | JString _ | JArray _ => Some None
  end.

(** [Array.isArray(v)] *)
Definition isArray (v : JSValue) : bool :=
  match v with
  | Some (JArray _) => true
  | _ => false
  end.

(** [if (v)] *)
Definition truthy (v : JSValue) : bool :=
  match v with
  | None => false
  | Some JNull => false
  | Some (JBool b) => b
  | Some (JNumber q) => negb (Qeq_bool q 0)
  | Some (JString s) => negb (String.eqb s "")
  | Some (JArray _) => true
  | Some (JObject _) => true
  end.

(** The in-memory model [handleLoadProject] writes to.  The loader stores
    the parsed values as they are, so they are kept as JS values here. *)
Record AppState : Type := mkAppState {
  nodes : JSValue;
  wires : JSValue;
  camera : JSValue;
  selectedNodeIds : list string;
  selectedWireIds : list string
}.

Inductive Effect : Type :=
| alert (message : string)
| console_error (message : string).

Section WithParser.

(** [JSON.parse]: [None] when it throws a SyntaxError. *)
Variable JSON_parse : string -> option JSON.

(** The [try] block of [reader.onload]: [None] when it throws, which it can
    only do before any setter has run. *)
Definition tryLoad (content : string) (st : AppState)
  : option (AppState * list Effect) :=
  match JSON_parse content with
  | None => None
  | Some projectData =>
      match getProp projectData "nodes" with
      | None => None
      | Some nodesField =>
          if isArray nodesField then
            match getProp projectData "wires" with
            | None => None
            | Some wiresField =>
                if isArray wiresField then
                  match getProp projectData "camera" with
                  | None => None
                  | Some cameraField =>
                      Some (mkAppState nodesField wiresField
                              (if truthy cameraField then cameraField
                               else camera st)
                              [] [],
                            [])
                  end
                else Some (st, [alert "Invalid project file format."])
            end
          else Some (st, [alert "Invalid project file format."])
      end
  end.

(** [reader.onload] of handleLoadProject: the state after it and what it
    showed. *)
Definition handleLoadProject (content : string) (st : AppState)
  : AppState * list Effect :=
  match tryLoad content st with
  | Some r => r
  | None =>
      (st, [console_error "Failed to parse project file";
            alert "Failed to load project file."])
  end.

(** The document has [nodes] and [wires], both sequences. *)
Definition validDocument (content : string) : Prop :=
  exists doc ns ws,
    JSON_parse content = Some (JObject doc) /\
    lookupField doc "nodes" = Some (JArray ns) /\
    lookupField doc "wires" = Some (JArray ws).

End WithParser.

(** A parser that accepts the text "ok" only, and a model to load into. *)
Definition sampleParse (content : string) : option JSON :=
  if String.eqb content "ok"
  then Some (JObject [("nodes", JArray []); ("wires", JArray [])]%string)
  else None.

Definition sampleState : AppState :=
  mkAppState (Some (JArray [JNull])) (Some (JArray [])) (Some (JObject []))
             ["n1"%string] [].

End Loader.

(* ================================================================== *)
(** * Further notions for the engine's invariants *)
(* ================================================================== *)

Module EngineInvariants.
Import CircuitEngine.

(** The stored output of an evaluated element is what computeNodeLogic gives
    for its stored input vector. *)
Definition outputOK (n : CircuitNode) : Prop :=
  isSource (n_type n) = true \/ n_state n = computeNodeLogic n (n_inputs n).

(** Kinds that read their whole input vector rather than its first entry. *)
Definition readsAllPins (t : GateType) : bool :=
  match t with
  | NOT | OUTPUT_LAMP => false
  | _ => true
  end.

End EngineInvariants.

(* ================================================================== *)
(** * Implicants, and services/quineMcCluskey.ts: termsToEquation *)
(* ================================================================== *)

Module Implicants.
Import QuineMcCluskey TermSemantics.

Definition termChar (c : ascii) : Prop :=
  c = "0"%char \/ c = "1"%char \/ c = "-"%char.

(** A product term over [n] variables: one of '0', '1', '-' per variable. *)
Definition cube (n : nat) (t : Term) : Prop :=
  length t = n /\ Forall termChar t.

(** [t] is true on minterms only. *)
Definition implicant (n : nat) (minterms : list N) (t : Term) : Prop :=
  cube n t /\
  forall a, (a < 2 ^ N.of_nat n)%N -> evalTerm n t a = true -> In a minterms.

(** [t'] is [t] with some of its literals dropped ('-' in their place). *)
Definition widens (t' t : Term) : Prop :=
  Forall2 (fun c' c => c' = c \/ c' = "-"%char) t' t.

(** An implicant none of whose literals can be dropped. *)
Definition primeImplicant (n : nat) (minterms : list N) (t : Term) : Prop :=
  implicant n minterms t /\
  forall t', implicant n minterms t' -> widens t' t -> t' = t.

End Implicants.

Module Equation.
Import QuineMcCluskey.

(** [variableNames[i]] inside a string concatenation: a missing entry is
    [undefined], which concatenates as the text "undefined". *)
Definition nameAt (variableNames : list string) (i : nat) : string :=
  match nth_error variableNames i with
  | Some s => s
  | None => "undefined"%string
  end.

(** The [for] loop building [part], from index [i] on. *)
Fixpoint partFrom (variableNames : list string) (term : list ascii) (i : nat)
         (part : string) : string :=
  match term with
  | [] => part
  | c :: rest =>
      partFrom variableNames rest (S i)
        (if Ascii.eqb c "1" then (part ++ nameAt variableNames i)%string
         else if Ascii.eqb c "0"
              then (part ++ (nameAt variableNames i ++ "'"))%string
              else part)
  end.

(** The callback of [terms.map]. *)
Definition partOf (variableNames : list string) (term : Term) : string :=
  let part := partFrom variableNames term 0 EmptyString in
  if String.eqb part EmptyString then "1"%string else part.

(** [parts.join(sep)] *)
Fixpoint join (sep : string) (parts : list string) : string :=
  match parts with
  | [] => EmptyString
  | [p] => p
  | p :: rest => (p ++ sep ++ join sep rest)%string
  end.

(** [t.split('').every(c => c === '-')] *)
Definition allDashes (t : Term) : bool := forallb (fun c => Ascii.eqb c "-") t.

Definition termsToEquation (terms : list Term) (variableNames : list string)
  : string :=
  if length terms =? 0 then "0 (False)"%string
  else if existsb allDashes terms then "1 (True)"%string
  else join " + " (map (partOf variableNames) terms).

End Equation.

(* ================================================================== *)
(** * services/quineMcCluskey.ts: generateCircuitFromTruthTable *)
(* ================================================================== *)

Module TruthTableSynthesis.
Import QuineMcCluskey Synthesizer.

(** [truthTable.map((val, idx) => val ? idx : -1)], from index [idx] on. *)
Fixpoint markRows (truthTable : list bool) (idx : nat) : list Z :=
  match truthTable with
  | [] => []
  | val :: rest =>
      (if val then Z.of_nat idx else (-1)%Z) :: markRows rest (S idx)
  end.

(** [.filter(idx => idx !== -1)]; what is left are array indices, handed to
    the minimizer as such. *)
Definition mintermsOf (truthTable : list bool) : list N :=
  map Z.to_N
      (filter (fun idx => negb (Z.eqb idx (-1))) (markRows truthTable 0)).

Section WithIds.
Variable randomId : nat -> string.

(** The wrapper.  [fuel] is the pass budget of the minimizer's [while] loop;
    [None] means it was too small. *)
Definition generateCircuitFromTruthTable (fuel numVars : nat)
           (truthTable : list bool) (startPos : Position)
  : option (Gen (list CircuitNode * list Wire)) :=
  match solveQuineMcCluskey fuel numVars (mintermsOf truthTable) with
  | Some terms => Some (generateCircuitFromTerms randomId numVars terms startPos)
  | None => None
  end.

End WithIds.

End TruthTableSynthesis.

(** ** Notions used to state the generator's properties *)

Module SynthesizerSpec.
Import Synthesizer.

(** An element or a wire carrying no signal. *)
Definition lowNode (n : CircuitNode) : Prop :=
  n_state n = false /\ Forall (fun b => b = false) (n_inputs n).

Definition lowWire (w : Wire) : Prop := w_state w = false.

(** The ids of a circuit, elements first. *)
Definition ids (nodes : list CircuitNode) (wires : list Wire) : list string :=
  map n_id nodes ++ map w_id wires.

(** [key] is the id of an element; of an element that has input pin [pin]. *)
Definition hasNode (nodes : list CircuitNode) (key : string) : Prop :=
  exists s, In s nodes /\ n_id s = key.

Definition hasPin (nodes : list CircuitNode) (key : string) (pin : nat) : Prop :=
  exists t, In t nodes /\ n_id t = key /\ pin < length (n_inputs t).

(** Every wire leaves an element and enters an input pin that exists. *)
Definition wiredUp (nodes : list CircuitNode) (wires : list Wire) : Prop :=
  forall w, In w wires ->
    hasNode nodes (sourceNodeId w) /\
    hasPin nodes (targetNodeId w) (targetPinIndex w).

(** The input pins the wires enter. *)
Definition pins (wires : list Wire) : list (string * nat) :=
  map (fun w => (targetNodeId w, targetPinIndex w)) wires.

(** The column a kind is placed in by the generator. *)
Definition rankOfKind (t : GateType) : nat :=
  match t with
  | INPUT_SWITCH | CLOCK => 0
  | NOT => 1
  | AND | NAND | NOR | XOR => 2
  | OR => 3
  | OUTPUT_LAMP => 4
  end.

(** [key] is the id of an element placed left of column [r]. *)
Definition below (r : nat) (nodes : list CircuitNode) (key : string) : Prop :=
  exists s, In s nodes /\ n_id s = key /\ rankOfKind (n_type s) < r.

(** Every wire runs from an element to an input pin of an element placed
    further right. *)
Definition ranked (nodes : list CircuitNode) (wires : list Wire) : Prop :=
  forall w, In w wires ->
    exists s t, In s nodes /\ In t nodes /\
                n_id s = sourceNodeId w /\ n_id t = targetNodeId w /\
                rankOfKind (n_type s) < rankOfKind (n_type t) /\
                targetPinIndex w < length (n_inputs t).

(** The column of the element that carries [key]. *)
Definition rankIn (nodes : list CircuitNode) (key : string) : nat :=
  match find (fun n => String.eqb (n_id n) key) nodes with
  | Some s => rankOfKind (n_type s)
  | None => 0
  end.

Section WithIds.
Variable randomId : nat -> string.

(** No two calls of [generateId()] return the same id. *)
Definition distinctIds : Prop := forall i j, randomId i = randomId j -> i = j.

(** What holds of the circuit under construction when the id counter,
    started at [k0], stands at [k]. *)
Record wellFormed (k0 : nat) (nodes : list CircuitNode) (wires : list Wire)
       (k : nat) : Prop := mkWellFormed {
  wf_le : k0 <= k;
  wf_ids : Permutation (ids nodes wires) (map randomId (seq k0 (k - k0)));
  wf_lowN : Forall lowNode nodes;
  wf_lowW : Forall lowWire wires;
  wf_wired : wiredUp nodes wires;
  wf_ranked : ranked nodes wires;
  wf_pins : distinctIds -> NoDup (pins wires)
}.

End WithIds.

End SynthesizerSpec.

(** ** What a circuit computes *)

Module CircuitSemantics.
Import CircuitEngine.

(** The value arriving at input pin [j] of element [key] when [val] gives
    the output of every element: that of the source of the first wire into
    the pin, false when no wire enters it (the rule of the node phase of
    propagateCircuit). *)
Definition driver (wires : list Wire) (val : string -> bool)
           (key : string) (j : nat) : bool :=
  match find (fun w => String.eqb (targetNodeId w) key &&
                       (targetPinIndex w =? j)) wires with
  | Some w => val (sourceNodeId w)
  | None => false
  end.

(** [val] gives every evaluated element the value of its gate function
    (computeNodeLogic) on the values arriving at its pins. *)
Definition consistent (nodes : list CircuitNode) (wires : list Wire)
           (val : string -> bool) : Prop :=
  forall t, In t nodes -> isSource (n_type t) = false ->
    val (n_id t) =
    computeNodeLogic t (map (driver wires val (n_id t))
                            (seq 0 (length (n_inputs t)))).

(** The output stored for an element id in a snapshot. *)
Definition outputOf (nodes : list CircuitNode) (key : string) : bool :=
  match nodeMap_get nodes key with
  | Some s => n_state s
  | None => false
  end.

(** A term names at least one variable. *)
Definition hasLiteral (t : list ascii) : Prop :=
  exists p c, nth_error t p = Some c /\ (c = "0"%char \/ c = "1"%char).

End CircuitSemantics.

(* ================================================================== *)
(** * The App component: editing actions and the clock *)
(* ================================================================== *)

Module AppActions.
Import CircuitEngine Synthesizer.

(** [contextMenu]: where the menu is open and on which element. *)
Record ContextMenu : Type := mkContextMenu {
  cm_x : Q;
  cm_y : Q;
  cm_nodeId : string
}.

(** The part of the component state the actions read and write. *)
Record Model : Type := mkModel {
  nodes : list CircuitNode;
  wires : list Wire;
  selectedNodeIds : list string;
  selectedWireIds : list string;
  contextMenu : option ContextMenu
}.

(** [contextMenu?.nodeId] read as a condition: the id, when the menu is open
    on a non-empty one. *)
Definition menuNodeId (cm : option ContextMenu) : option string :=
  match cm with
  | Some c => if truthyString (cm_nodeId c) then Some (cm_nodeId c) else None
  | None => None
  end.

(** [new Set(ids).has(x)] and [ids.includes(x)] *)
Definition has (ids : list string) (x : string) : bool :=
  existsb (String.eqb x) ids.

(** [nodeIdsToDelete] of deleteSelected once the menu target is added. *)
Definition nodeIdsToDelete (m : Model) : list string :=
  match menuNodeId (contextMenu m) with
  | Some id =>
      if has (selectedNodeIds m) id then selectedNodeIds m
      else selectedNodeIds m ++ [id]
  | None => selectedNodeIds m
  end.

Definition deleteSelected (m : Model) : Model :=
  let wireIdsToDelete := selectedWireIds m in
  if (length (nodeIdsToDelete m) =? 0) && (length wireIdsToDelete =? 0) then m
  else
    mkModel
      (filter (fun n => negb (has (nodeIdsToDelete m) (n_id n))) (nodes m))
      (filter (fun w => negb (has wireIdsToDelete (w_id w)) &&
                        negb (has (nodeIdsToDelete m) (sourceNodeId w)) &&
                        negb (has (nodeIdsToDelete m) (targetNodeId w)))
              (wires m))
      [] [] None.

(** [Math.min(8, Math.max(2, currentCount + delta))] *)
Definition newCountOf (currentCount : nat) (delta : Z) : nat :=
  Z.to_nat (Z.min 8 (Z.max 2 (Z.of_nat currentCount + delta))).

(** The callback of [prevNodes.map] in handleInputCountChange: what it
    returns for [node] ... *)
Definition resizeNode (nodeId : string) (delta : Z) (node : CircuitNode)
  : CircuitNode :=
  if negb (String.eqb (n_id node) nodeId) then node
  else
    let currentCount := length (n_inputs node) in
    let newCount := newCountOf currentCount delta in
    if newCount =? currentCount then node
    else
      let newInputs :=
        if currentCount <? newCount
        then n_inputs node ++ repeat false (newCount - currentCount)
        else firstn newCount (n_inputs node) in
      mkNode (n_id node) (n_type node) (n_position node) (n_state node)
             newInputs (n_width node)
             ((ofNat newCount + 1) * PIN_SPACING)%Q
             (n_label node) (n_color node).

(** ... and the [setWires] update it queues on the way, when it removes
    pins. *)
Definition pruneFor (nodeId : string) (delta : Z) (node : CircuitNode)
           (prevWires : list Wire) : list Wire :=
  if negb (String.eqb (n_id node) nodeId) then prevWires
  else
    let currentCount := length (n_inputs node) in
    let newCount := newCountOf currentCount delta in
    if newCount =? currentCount then prevWires
    else if currentCount <? newCount then prevWires
    else filter (fun w => negb (String.eqb (targetNodeId w) nodeId &&
                                (newCount <=? targetPinIndex w)))
                prevWires.

Definition handleInputCountChange (delta : Z) (m : Model) : Model :=
  match menuNodeId (contextMenu m) with
  | None => m
  | Some nodeId =>
      mkModel (map (resizeNode nodeId delta) (nodes m))
              (fold_left (fun ws node => pruneFor nodeId delta node ws)
                         (nodes m) (wires m))
              (selectedNodeIds m) (selectedWireIds m) (contextMenu m)
  end.

(** [interaction.hoveredPin] and [interaction.activeWireStart] *)
Record Pin : Type := mkPin {
  p_nodeId : string;
  p_index : nat
}.

(** The wiring branch of handleMouseUp, taken when a wire started at an
    output pin is dropped on an input pin; [newId] is what generateId()
    returned.  The result is what [nodes] and [wires] become. *)
Definition completeWire (newId : string) (activeWireStart hoveredPin : Pin)
           (nodes : list CircuitNode) (wires : list Wire)
  : list CircuitNode * list Wire :=
  let newWire :=
    mkWire newId (p_nodeId activeWireStart) (p_index activeWireStart)
           (p_nodeId hoveredPin) (p_index hoveredPin) false None None in
  let exists_ :=
    existsb (fun w => String.eqb (targetNodeId w) (targetNodeId newWire) &&
                      (targetPinIndex w =? targetPinIndex newWire))
            wires in
  if negb exists_ then propagateCircuit nodes (wires ++ [newWire])
  else (nodes, wires).

(** The switch branch of handleMouseUp, taken on a click (no drag) over the
    element [hoveredNodeId]. *)
Definition toggleSwitch (hoveredNodeId : string)
           (nodes : list CircuitNode) (wires : list Wire)
  : list CircuitNode * list Wire :=
  match find (fun n => String.eqb (n_id n) hoveredNodeId) nodes with
  | Some node =>
      if GateType_eqb (n_type node) INPUT_SWITCH then
        propagateCircuit
          (map (fun n => if String.eqb (n_id n) (n_id node)
                         then set_n_state n (negb (n_state n)) else n)
               nodes)
          wires
      else (nodes, wires)
  | None => (nodes, wires)
  end.

(** One tick of the clock interval: every CLOCK element is flipped and the
    circuit propagated; [None] when there is no clock and nothing is
    updated. *)
Definition clockTick (nodes : list CircuitNode) (wires : list Wire)
  : option (list CircuitNode * list Wire) :=
  let currentNodes :=
    map (fun node => if GateType_eqb (n_type node) CLOCK
                     then set_n_state node (negb (n_state node)) else node)
        nodes in
  let needsUpdate := existsb (fun node => GateType_eqb (n_type node) CLOCK) nodes in
  if needsUpdate then Some (propagateCircuit currentNodes wires) else None.

(** [idMap.set(k, v)] and [idMap.get(k)] on the insertion-ordered
    association. *)
Fixpoint mapSet (k v : string) (idMap : list (string * string))
  : list (string * string) :=
  match idMap with
  | [] => [(k, v)]
  | (k', v') :: rest =>
      if String.eqb k' k then (k', v) :: rest else (k', v') :: mapSet k v rest
  end.

Fixpoint mapGet (idMap : list (string * string)) (k : string) : option string :=
  match idMap with
  | [] => None
  | (k', v) :: rest => if String.eqb k' k then Some v else mapGet rest k
  end.

(** [idsToDuplicate] of duplicateSelected. *)
Definition idsToDuplicate (m : Model) : list string :=
  match menuNodeId (contextMenu m) with
  | Some id => if has (selectedNodeIds m) id then selectedNodeIds m else [id]
  | None => selectedNodeIds m
  end.

Section WithIds.
Variable randomId : nat -> string.

(** Step 1, [idsToDuplicate.forEach(id => ...)]; the accumulator is
    [(newNodes, idMap)]. *)
Fixpoint cloneNodes (nodes : list CircuitNode) (ids : list string)
         (newNodes : list CircuitNode) (idMap : list (string * string))
  : Gen (list CircuitNode * list (string * string)) :=
  match ids with
  | [] => ret (newNodes, idMap)
  | id :: rest =>
      match find (fun n => String.eqb (n_id n) id) nodes with
      | Some original =>
          newId <- generateId randomId ;;
          cloneNodes nodes rest
            (newNodes ++
             [mkNode newId (n_type original)
                     (mkPosition (pos_x (n_position original) + 20)%Q
                                 (pos_y (n_position original) + 20)%Q)
                     (n_state original) (n_inputs original)
                     (n_width original) (n_height original)
                     (n_label original) (n_color original)])
            (mapSet id newId idMap)
      | None => cloneNodes nodes rest newNodes idMap
      end
  end.

(** Step 2, [wires.forEach(w => ...)]. *)
Fixpoint cloneWires (idMap : list (string * string)) (wires : list Wire)
         (newWires : list Wire) : Gen (list Wire) :=
  match wires with
  | [] => ret newWires
  | w :: rest =>
      match mapGet idMap (sourceNodeId w), mapGet idMap (targetNodeId w) with
      | Some newSource, Some newTarget =>
          id <- generateId randomId ;;
          cloneWires idMap rest
            (newWires ++
             [mkWire id newSource (sourcePinIndex w) newTarget
                     (targetPinIndex w) (w_state w) (w_curveType w) (w_color w)])
      | _, _ => cloneWires idMap rest newWires
      end
  end.

Definition duplicateSelected (m : Model) : Gen Model :=
  if length (idsToDuplicate m) =? 0 then ret m
  else
    r <- cloneNodes (nodes m) (idsToDuplicate m) [] [] ;;
    let '(newNodes, idMap) := r in
    newWires <- cloneWires idMap (wires m) [] ;;
    ret (mkModel (nodes m ++ newNodes) (wires m ++ newWires)
                 (map n_id newNodes) [] None).

End WithIds.

(** A menu open on element "g", used to instantiate the properties. *)
Definition sampleMenu : option ContextMenu :=
  Some (mkContextMenu 0 0 "g").

Definition sampleGate (inputs : list bool) : CircuitNode :=
  mkNode "g" AND (mkPosition 0 0) false inputs 120 80 "AND" None.

Definition sampleSwitch (ident : string) (state : bool) : CircuitNode :=
  mkNode ident INPUT_SWITCH (mkPosition 0 0) state [] 50 50 "SW" None.

Definition sampleClock (state : bool) : CircuitNode :=
  mkNode "c" CLOCK (mkPosition 0 0) state [] 50 50 "CLK" None.

Definition sampleWireTo (ident : string) (target : string) (pin : nat) : Wire :=
  mkWire ident "s" 0 target pin false None None.

End AppActions.

(* ------------------------------------------------------------------ *)
(** ** Notions used to state what duplicateSelected adds *)

Module DuplicateSpec.
Import CircuitEngine AppActions.

(** The elements the ids name: for each id, in order, the element that
    [nodes.find(n => n.id === id)] returns, when there is one. *)
Definition named (nodes : list CircuitNode) (ids : list string)
  : list CircuitNode :=
  flat_map (fun id => match find (fun n => String.eqb (n_id n) id) nodes with
                      | Some o => [o]
                      | None => []
                      end) ids.

(** [c] is [o] under another id and at another position. *)
Definition copyOfNode (c o : CircuitNode) : Prop :=
  n_type c = n_type o /\ n_state c = n_state o /\ n_inputs c = n_inputs o /\
  n_width c = n_width o /\ n_height c = n_height o /\
  n_label c = n_label o /\ n_color c = n_color o.

(** The wires both of whose ends are named elements. *)
Definition innerWires (nodes : list CircuitNode) (ids : list string)
           (wires : list Wire) : list Wire :=
  filter (fun w => has (map n_id (named nodes ids)) (sourceNodeId w) &&
                   has (map n_id (named nodes ids)) (targetNodeId w)) wires.

(** [key'] is the id of an element of [newNodes] that copies the element of
    [nodes] found for [key]. *)
Definition copiedEnd (nodes newNodes : list CircuitNode) (key' key : string)
  : Prop :=
  exists c o, In c newNodes /\ n_id c = key' /\
              find (fun n => String.eqb (n_id n) key) nodes = Some o /\
              copyOfNode c o.

(** [w'] is [w] under another id, between the copies of its ends. *)
Definition copyOfWire (nodes newNodes : list CircuitNode) (w' w : Wire) : Prop :=
  sourcePinIndex w' = sourcePinIndex w /\
  targetPinIndex w' = targetPinIndex w /\
  w_state w' = w_state w /\ w_curveType w' = w_curveType w /\
  w_color w' = w_color w /\
  copiedEnd nodes newNodes (sourceNodeId w') (sourceNodeId w) /\
  copiedEnd nodes newNodes (targetNodeId w') (targetNodeId w).

End DuplicateSpec.

(* ------------------------------------------------------------------ *)
(** ** components/KarnaughModal.tsx: the truth-table rows *)

Module KarnaughModal.
Import QuineMcCluskey.

(** [getBinaryString]: [index.toString(2).padStart(numVars, '0')], the input
    columns shown for row [index]. *)
Definition getBinaryString (numVars : nat) (index : N) : list ascii :=
  padStart (toString2 index) numVars "0"%char.

End KarnaughModal.

(* ================================================================== *)
(** * Properties of the propagation engine *)
(* ================================================================== *)

Section GateTables.
Import CircuitEngine.

(** Number of true entries of an input vector. *)
Lemma filter_id_length_cons (b : bool) (v : list bool) :
  length (filter (fun s => s) (b :: v)) =
  (if b then 1 else 0) + length (filter (fun s => s) v).
Proof. destruct b; reflexivity. Qed.

Lemma parity_xor_fold (v : list bool) :
  (length (filter (fun s : bool => s) v) mod 2 =? 1) = fold_right xorb false v.
Proof.
  induction v as [|b v IH]; [reflexivity|].
  rewrite filter_id_length_cons. cbn [fold_right]. rewrite <- IH.
  destruct b; cbn [xorb Nat.add].
  - set (k := length (filter (fun s : bool => s) v)).
    replace (S k) with (1 + k) by reflexivity.
    rewrite Nat.Div0.add_mod by lia.
    pose proof (Nat.mod_upper_bound k 2 ltac:(lia)) as Hk.
    destruct (k mod 2) as [|[|r]] eqn:E; try lia; reflexivity.
  - reflexivity.
Qed.

Lemma forallb_id_fold (v : list bool) :
  forallb (fun s => s) v = fold_right andb true v.
Proof. induction v as [|b v IH]; cbn; [|rewrite IH]; reflexivity. Qed.

Lemma existsb_id_fold (v : list bool) :
  existsb (fun s => s) v = fold_right orb false v.
Proof. induction v as [|b v IH]; cbn; [|rewrite IH]; reflexivity. Qed.

Lemma computeNodeLogic_nonempty (node : CircuitNode) (v : list bool) :
  v <> [] ->
  computeNodeLogic node v =
  match n_type node with
  | AND => forallb (fun s => s) v
  | OR => existsb (fun s => s) v
  | NOT => notFirst v
  | NAND => negb (forallb (fun s => s) v)
  | NOR => negb (existsb (fun s => s) v)
  | XOR => length (filter (fun s => s) v) mod 2 =? 1
  | INPUT_SWITCH | CLOCK => n_state node
  | OUTPUT_LAMP => firstOrFalse v
  end.
Proof.
  intros Hv. unfold computeNodeLogic.
  destruct v as [|b v]; [congruence|].
  cbn [length Nat.eqb andb]. destruct (n_type node); reflexivity.
Qed.

(** C4: on a non-empty input vector [v], computeNodeLogic yields the
    conjunction of [v] for AND, the disjunction for OR, their negations for
    NAND and NOR, the parity of the number of true entries for XOR (true iff
    that number is odd) and the negation of the first entry for NOT; on the
    empty vector every kind other than INPUT_SWITCH and CLOCK yields false. *)
Theorem computeNodeLogic_truth_tables (node : CircuitNode) (v : list bool) :
  (v <> [] ->
     (n_type node = AND ->
        computeNodeLogic node v = fold_right andb true v) /\
     (n_type node = OR ->
        computeNodeLogic node v = fold_right orb false v) /\
     (n_type node = NAND ->
        computeNodeLogic node v = negb (fold_right andb true v)) /\
     (n_type node = NOR ->
        computeNodeLogic node v = negb (fold_right orb false v)) /\
     (n_type node = XOR ->
        computeNodeLogic node v = fold_right xorb false v /\
        (computeNodeLogic node v = true <->
         Nat.Odd (count_occ bool_dec v true))) /\
     (n_type node = NOT ->
        computeNodeLogic node v = negb (hd false v))) /\
  (n_type node <> INPUT_SWITCH -> n_type node <> CLOCK ->
     computeNodeLogic node [] = false).
Proof.
  split.
  - intros Hv. rewrite (computeNodeLogic_nonempty node v Hv).
    assert (E : count_occ bool_dec v true = length (filter (fun s : bool => s) v)).
    { clear. induction v as [|[|] v IH]; cbn; [reflexivity| |]; now rewrite IH. }
    split; [intros ->; apply forallb_id_fold|].
    split; [intros ->; apply existsb_id_fold|].
    split; [intros ->; now rewrite forallb_id_fold|].
    split; [intros ->; now rewrite existsb_id_fold|].
    split.
    + intros ->. split; [apply parity_xor_fold|].
      rewrite E, Nat.eqb_eq.
      set (k := length (filter (fun s : bool => s) v)).
      split.
      * intros H. exists (k / 2). pose proof (Nat.div_mod_eq k 2). lia.
      * intros [m ->].
        rewrite Nat.add_comm, Nat.mul_comm, Nat.Div0.mod_add. reflexivity.
    + intros ->. destruct v; [congruence|reflexivity].
  - intros H1 H2. unfold computeNodeLogic. cbn.
    destruct (n_type node); try reflexivity; congruence.
Qed.

(** The theorem at the vector [true; false; true] of a three-input XOR. *)
Lemma computeNodeLogic_truth_tables_witness :
  [true; false; true] <> [] /\
  computeNodeLogic
    (mkNode "x" XOR (mkPosition 0 0) false [] 0 0 "XOR" None)
    [true; false; true] = false.
Proof.
  split; [discriminate|].
  destruct (computeNodeLogic_truth_tables
              (mkNode "x" XOR (mkPosition 0 0) false [] 0 0 "XOR" None)
              [true; false; true]) as [H _].
  specialize (H ltac:(discriminate)).
  destruct H as (_ & _ & _ & _ & Hx & _).
  destruct (Hx eq_refl) as [Hp _]. rewrite Hp. reflexivity.
Defined.

End GateTables.

Section EngineBasics.
Import CircuitEngine EngineSpec.

Lemma refreshInputs_fst (inc : list Wire) (cur : list bool) (i : nat) :
  fst (refreshInputs inc i cur) = map (pinSignal inc) (seq i (length cur)).
Proof.
  revert i. induction cur as [|b cur IH]; intros i; [reflexivity|].
  cbn [refreshInputs length seq map].
  destruct (Bool.eqb b (pinSignal inc i)) eqn:E; cbn [fst]; rewrite IH.
  - apply eqb_prop in E. now subst.
  - reflexivity.
Qed.

Lemma refreshInputs_snd_false (inc : list Wire) (cur : list bool) (i : nat) :
  snd (refreshInputs inc i cur) = false <->
  cur = map (pinSignal inc) (seq i (length cur)).
Proof.
  revert i. induction cur as [|b cur IH]; intros i; [easy|].
  cbn [refreshInputs length seq map].
  destruct (Bool.eqb b (pinSignal inc i)) eqn:E; cbn [snd].
  - apply eqb_prop in E. subst b. rewrite IH. split; intros H.
    + now f_equal.
    + injection H as H. exact H.
  - split; [discriminate|]. intros H. injection H as Hb _.
    rewrite Hb, eqb_reflx in E. discriminate.
Qed.

Lemma updateNode_id wires n : n_id (fst (updateNode wires n)) = n_id n.
Proof.
  unfold updateNode. destruct (isSource (n_type n)); [reflexivity|].
  destruct (snd _); [|reflexivity].
  destruct (Bool.eqb _ _); reflexivity.
Qed.

Lemma updateNode_type wires n : n_type (fst (updateNode wires n)) = n_type n.
Proof.
  unfold updateNode. destruct (isSource (n_type n)); [reflexivity|].
  destruct (snd _); [|reflexivity].
  destruct (Bool.eqb _ _); reflexivity.
Qed.

Lemma updateNode_inputs wires n :
  isSource (n_type n) = false ->
  n_inputs (fst (updateNode wires n)) = signals wires n.
Proof.
  intros Hs. unfold updateNode. rewrite Hs.
  fold (incoming wires n).
  destruct (snd (refreshInputs (incoming wires n) 0 (n_inputs n))) eqn:E.
  - destruct (Bool.eqb _ _); cbn; apply refreshInputs_fst.
  - cbn. now apply refreshInputs_snd_false in E.
Qed.

Lemma updateNode_fixed wires n :
  nodeOK wires n -> updateNode wires n = (n, false).
Proof.
  intros [Hs|Hi]; unfold updateNode.
  - now rewrite Hs.
  - destruct (isSource (n_type n)); [reflexivity|].
    fold (incoming wires n).
    assert (E : snd (refreshInputs (incoming wires n) 0 (n_inputs n)) = false)
      by now apply refreshInputs_snd_false.
    now rewrite E.
Qed.

(** A node whose output state moved had an input vector that disagreed. *)
Lemma updateNode_state wires n :
  isSource (n_type n) = true \/
  (n_inputs n = signals wires n /\ fst (updateNode wires n) = n /\
   snd (updateNode wires n) = false) \/
  (n_inputs n <> signals wires n /\
   n_state (fst (updateNode wires n)) =
     computeNodeLogic (set_n_inputs n (signals wires n)) (signals wires n)).
Proof.
  destruct (isSource (n_type n)) eqn:Hs; [now left|right].
  unfold updateNode. rewrite Hs. fold (incoming wires n).
  destruct (snd (refreshInputs (incoming wires n) 0 (n_inputs n))) eqn:E.
  - right. split.
    + intros H. apply refreshInputs_snd_false in H. congruence.
    + rewrite refreshInputs_fst. fold (signals wires n).
      destruct (Bool.eqb _ _) eqn:Eb; cbn; [|reflexivity].
      now apply eqb_prop in Eb.
  - left. apply refreshInputs_snd_false in E. auto.
Qed.

Lemma updateWire_source nodes w :
  sourceNodeId (fst (updateWire nodes w)) = sourceNodeId w.
Proof.
  unfold updateWire. destruct (nodeMap_get _ _); [|reflexivity].
  destruct (Bool.eqb _ _); reflexivity.
Qed.

Lemma updateWire_target nodes w :
  targetNodeId (fst (updateWire nodes w)) = targetNodeId w /\
  targetPinIndex (fst (updateWire nodes w)) = targetPinIndex w.
Proof.
  unfold updateWire. destruct (nodeMap_get _ _); [|split; reflexivity].
  destruct (Bool.eqb _ _); split; reflexivity.
Qed.

Lemma updateWire_fixed nodes w :
  wireOK nodes w -> updateWire nodes w = (w, false).
Proof.
  unfold wireOK, updateWire. destruct (nodeMap_get _ _); [|reflexivity].
  intros ->. now rewrite eqb_reflx.
Qed.

Lemma updateWire_changed nodes w :
  snd (updateWire nodes w) = false -> fst (updateWire nodes w) = w.
Proof.
  unfold updateWire. destruct (nodeMap_get _ _); [|reflexivity].
  destruct (Bool.eqb _ _); [reflexivity|discriminate].
Qed.

Lemma updateWire_ok nodes w : wireOK nodes (fst (updateWire nodes w)).
Proof.
  unfold wireOK. rewrite updateWire_source. unfold updateWire.
  destruct (nodeMap_get nodes (sourceNodeId w)) as [s|] eqn:E; [|exact I].
  destruct (Bool.eqb _ _) eqn:Eb; cbn; [now apply eqb_prop in Eb|reflexivity].
Qed.

Lemma existsb_false_forall {A} (f : A -> bool) (l : list A) :
  existsb f l = false <-> forall x, In x l -> f x = false.
Proof.
  induction l as [|a l IH]; cbn; [easy|].
  rewrite orb_false_iff, IH. split.
  - intros [Ha Hl] x [<-|Hx]; auto.
  - intros H. split; [apply H; now left|]. intros x Hx. apply H. now right.
Qed.

Lemma map_fixed {A} (f : A -> A) (l : list A) :
  (forall x, In x l -> f x = x) -> map f l = l.
Proof.
  intros H. induction l as [|a l IH]; cbn; [reflexivity|].
  rewrite H by now left. f_equal. apply IH. intros x Hx. apply H. now right.
Qed.

Lemma nth_error_signals wires n i :
  i < length (n_inputs n) ->
  nth_error (signals wires n) i = Some (pinSignal (incoming wires n) i).
Proof.
  intros Hi. unfold signals.
  rewrite nth_error_map, nth_error_seq.
  destruct (Nat.ltb_spec i (length (n_inputs n))); [reflexivity|lia].
Qed.

Lemma pinSignal_unwired wires n i :
  (forall w, In w wires ->
     ~ (targetNodeId w = n_id n /\ targetPinIndex w = i)) ->
  pinSignal (incoming wires n) i = false.
Proof.
  intros H. unfold pinSignal.
  destruct (find _ _) as [w|] eqn:E; [|reflexivity].
  apply find_some in E. destruct E as [Hin Hp].
  apply filter_In in Hin. destruct Hin as [Hin Ht].
  apply String.eqb_eq in Ht. apply Nat.eqb_eq in Hp.
  exfalso. apply (H w Hin). auto.
Qed.

End EngineBasics.

Section EngineLoop.
Import CircuitEngine EngineSpec.

Lemma round_eq nodes wires :
  round nodes wires =
  (roundNodes nodes wires, roundWires nodes wires, snd (round nodes wires)).
Proof. unfold roundNodes, roundWires. now destruct (round nodes wires) as [[? ?] ?]. Qed.

Lemma propagateLoop_S k nodes wires :
  propagateLoop (S k) nodes wires =
  if snd (round nodes wires) then (roundNodes nodes wires, roundWires nodes wires)
  else propagateLoop k (roundNodes nodes wires) (roundWires nodes wires).
Proof. cbn [propagateLoop]. now rewrite round_eq. Qed.

(** Invariant rule for the loop. *)
Lemma propagateLoop_inv (P : list CircuitNode -> list Wire -> Prop) :
  (forall n w, P n w -> P (roundNodes n w) (roundWires n w)) ->
  forall k n w, P n w ->
    P (fst (propagateLoop k n w)) (snd (propagateLoop k n w)).
Proof.
  intros Hstep. induction k as [|k IH]; intros n w HP; [exact HP|].
  rewrite propagateLoop_S. destruct (snd (round n w)).
  - apply Hstep, HP.
  - apply IH, Hstep, HP.
Qed.

(** Postcondition rule: the loop body runs at least once when the budget is
    positive, so whatever every round establishes holds of the result. *)
Lemma propagateLoop_post (P Q : list CircuitNode -> list Wire -> Prop) :
  (forall n w, P n w -> P (roundNodes n w) (roundWires n w)) ->
  (forall n w, P n w -> Q (roundNodes n w) (roundWires n w)) ->
  forall k n w, P n w ->
    Q (fst (propagateLoop (S k) n w)) (snd (propagateLoop (S k) n w)).
Proof.
  intros HP HQ. induction k as [|k IH]; intros n w H.
  - rewrite propagateLoop_S. destruct (snd (round n w)); apply HQ, H.
  - rewrite propagateLoop_S. destruct (snd (round n w)).
    + apply HQ, H.
    + apply IH, HP, H.
Qed.

Lemma roundNodes_eq nodes wires :
  roundNodes nodes wires =
  map (fun n => fst (updateNode (roundWires nodes wires) n)) nodes.
Proof. reflexivity. Qed.

Lemma roundWires_eq nodes wires :
  roundWires nodes wires = map (fun w => fst (updateWire nodes w)) wires.
Proof. reflexivity. Qed.

Lemma sameElement_refl n : sameElement n n.
Proof. repeat split. Qed.

Lemma sameElement_trans a b c :
  sameElement a b -> sameElement b c -> sameElement a c.
Proof.
  unfold sameElement. intros H1 H2.
  repeat match goal with H : _ /\ _ |- _ => destruct H end.
  repeat split; congruence.
Qed.

Lemma sameConnection_trans a b c :
  sameConnection a b -> sameConnection b c -> sameConnection a c.
Proof.
  unfold sameConnection. intros H1 H2.
  repeat match goal with H : _ /\ _ |- _ => destruct H end.
  repeat split; congruence.
Qed.

Lemma signals_length wires n : length (signals wires n) = length (n_inputs n).
Proof. unfold signals. now rewrite length_map, length_seq. Qed.

Lemma updateNode_same wires n : sameElement n (fst (updateNode wires n)).
Proof.
  destruct (isSource (n_type n)) eqn:Hs.
  - unfold updateNode. rewrite Hs. apply sameElement_refl.
  - pose proof (updateNode_inputs wires n Hs) as Hi.
    unfold sameElement. rewrite Hi, signals_length.
    unfold updateNode. rewrite Hs.
    destruct (snd _); [|repeat split].
    destruct (Bool.eqb _ _); repeat split.
Qed.

Lemma updateWire_same nodes w : sameConnection w (fst (updateWire nodes w)).
Proof.
  unfold updateWire. destruct (nodeMap_get _ _); [|repeat split].
  destruct (Bool.eqb _ _); repeat split.
Qed.

Lemma Forall2_map_r {A} (R : A -> A -> Prop) (f : A -> A) (l : list A) :
  (forall x, R x (f x)) -> Forall2 R l (map f l).
Proof. intros H. induction l; cbn; constructor; auto. Qed.

Lemma Forall2_trans {A} (R : A -> A -> Prop) :
  (forall a b c, R a b -> R b c -> R a c) ->
  forall l1 l2 l3, Forall2 R l1 l2 -> Forall2 R l2 l3 -> Forall2 R l1 l3.
Proof.
  intros HR l1 l2 l3 H12. revert l3.
  induction H12; intros l3 H23; inversion H23; subst; constructor; eauto.
Qed.

Lemma round_frame nodes wires :
  Forall2 sameElement nodes (roundNodes nodes wires) /\
  Forall2 sameConnection wires (roundWires nodes wires).
Proof.
  split.
  - rewrite roundNodes_eq. apply Forall2_map_r. intros n. apply updateNode_same.
  - rewrite roundWires_eq. apply Forall2_map_r. intros w. apply updateWire_same.
Qed.

Lemma propagateLoop_frame k nodes wires :
  Forall2 sameElement nodes (fst (propagateLoop k nodes wires)) /\
  Forall2 sameConnection wires (snd (propagateLoop k nodes wires)).
Proof.
  apply (propagateLoop_inv
           (fun n w => Forall2 sameElement nodes n /\ Forall2 sameConnection wires w)).
  - intros n w [Hn Hw]. destruct (round_frame n w) as [Hn' Hw']. split.
    + eapply Forall2_trans; eauto using sameElement_trans.
    + eapply Forall2_trans; eauto using sameConnection_trans.
  - split.
    + rewrite <- (map_id nodes) at 2. apply Forall2_map_r, sameElement_refl.
    + rewrite <- (map_id wires) at 2. apply Forall2_map_r. intros; repeat split.
Qed.

End EngineLoop.

Section OutputInvariant.
Import CircuitEngine EngineSpec Examples.

(** C2: the snapshot returned for a single freshly placed NOT gate (input
    low, output low, no wires) still has the gate's output low, whereas the
    function table gives high for its input vector: the output is only
    recomputed when an input entry changed. *)
Theorem propagateCircuit_keeps_stale_output :
  exists n',
    propagateCircuit [freshNot] [] = ([n'], []) /\
    isSource (n_type n') = false /\
    n_state n' = false /\
    computeNodeLogic n' (n_inputs n') = true.
Proof.
  exists freshNot. repeat split.
Qed.

End OutputInvariant.

Section FloatingInputs.
Import CircuitEngine EngineSpec Examples.

Lemma sameConnection_targets ws ws' :
  Forall2 sameConnection ws ws' ->
  forall w', In w' ws' ->
    exists w, In w ws /\ targetNodeId w = targetNodeId w' /\
              targetPinIndex w = targetPinIndex w'.
Proof.
  induction 1 as [|a b l l' Hab _ IH]; intros w' Hin; [easy|].
  destruct Hin as [<-|Hin].
  - exists a. destruct Hab as (_ & _ & _ & H1 & H2 & _).
    split; [now left|]. now split.
  - destruct (IH w' Hin) as (w & Hw & Ht). exists w.
    split; [now right|exact Ht].
Qed.

Lemma roundNodes_ok nodes wires n' :
  In n' (roundNodes nodes wires) -> nodeOK (roundWires nodes wires) n'.
Proof.
  rewrite roundNodes_eq. intros Hin. apply in_map_iff in Hin.
  destruct Hin as (n & <- & _).
  destruct (isSource (n_type n)) eqn:Hs.
  - left. now rewrite updateNode_type.
  - right. rewrite (updateNode_inputs _ _ Hs).
    unfold signals, incoming.
    rewrite updateNode_id, (updateNode_inputs _ _ Hs), signals_length.
    reflexivity.
Qed.

(** In the returned snapshot every evaluated element's input vector is the
    signal vector of the returned wires. *)
Lemma propagateCircuit_nodeOK nodes wires n' :
  In n' (fst (propagateCircuit nodes wires)) ->
  nodeOK (snd (propagateCircuit nodes wires)) n'.
Proof.
  unfold propagateCircuit, MAX_ITERATIONS.
  exact (propagateLoop_post
           (fun _ _ => True)
           (fun ns ws => forall n, In n ns -> nodeOK ws n)
           (fun _ _ _ => I)
           (fun n w _ n' => roundNodes_ok n w n')
           19 nodes wires I n').
Qed.

Lemma nodeOK_unwired wires n i :
  nodeOK wires n -> isSource (n_type n) = false ->
  i < length (n_inputs n) ->
  (forall w, In w wires ->
     ~ (targetNodeId w = n_id n /\ targetPinIndex w = i)) ->
  nth_error (n_inputs n) i = Some false.
Proof.
  intros [Hs|Hi] Hns Hlt Hw; [congruence|].
  rewrite Hi, nth_error_signals by exact Hlt.
  now rewrite pinSignal_unwired.
Qed.

Lemma looseAnd_round k ident nodes wires :
  looseAnd k ident
    (fun g => n_state g = false \/ n_inputs g <> [false; false; false])
    nodes wires ->
  looseAnd k ident
    (fun g => n_state g = false /\ n_inputs g = [false; false; false])
    (roundNodes nodes wires) (roundWires nodes wires).
Proof.
  intros [(g & Hk & Hid & Hty & Hlen & Hgood) Hw].
  assert (Hw' : forall w, In w (roundWires nodes wires) -> targetNodeId w <> ident).
  { intros w' Hin.
    destruct (sameConnection_targets _ _ (proj2 (round_frame nodes wires)) w' Hin)
      as (w & Hw1 & Ht & _).
    rewrite <- Ht. now apply Hw. }
  split; [|exact Hw'].
  set (ws := roundWires nodes wires) in *.
  exists (fst (updateNode ws g)).
  rewrite roundNodes_eq. fold ws.
  rewrite nth_error_map, Hk. cbn [option_map].
  rewrite updateNode_id, updateNode_type.
  assert (Hs : isSource (n_type g) = false) by now rewrite Hty.
  rewrite (updateNode_inputs ws g Hs).
  assert (Hsig : signals ws g = [false; false; false]).
  { unfold signals. rewrite Hlen. cbn [seq map].
    rewrite !pinSignal_unwired; [reflexivity| | |];
      intros w Hin [Ht _]; apply (Hw' w Hin); congruence. }
  rewrite Hsig. repeat split; try assumption.
  destruct (updateNode_state ws g) as [H|[(Hi & Hfix & _)|(Hi & Hst)]].
  - congruence.
  - rewrite Hfix. destruct Hgood as [H|H]; [exact H|]. congruence.
  - rewrite Hst, Hsig. unfold computeNodeLogic. cbn. now rewrite Hty.
Qed.

(** X28: in every round, and hence in the returned snapshot, every evaluated
    element has input entry false at each pin index that no connection
    targets; an AND gate with three input pins and no attached wires, whose
    stored output is false or whose stored input entries are not all false,
    has all inputs false and output false after propagateCircuit. *)
Theorem floating_inputs_read_low :
  (forall nodes wires n' i,
      In n' (roundNodes nodes wires) ->
      isSource (n_type n') = false ->
      i < length (n_inputs n') ->
      (forall w, In w wires ->
         ~ (targetNodeId w = n_id n' /\ targetPinIndex w = i)) ->
      nth_error (n_inputs n') i = Some false) /\
  (forall nodes wires n' i,
      In n' (fst (propagateCircuit nodes wires)) ->
      isSource (n_type n') = false ->
      i < length (n_inputs n') ->
      (forall w, In w wires ->
         ~ (targetNodeId w = n_id n' /\ targetPinIndex w = i)) ->
      nth_error (n_inputs n') i = Some false) /\
  (forall nodes wires k g,
      nth_error nodes k = Some g ->
      n_type g = AND ->
      length (n_inputs g) = 3 ->
      (forall w, In w wires -> targetNodeId w <> n_id g) ->
      n_state g = false \/ n_inputs g <> [false; false; false] ->
      exists g',
        nth_error (fst (propagateCircuit nodes wires)) k = Some g' /\
        n_id g' = n_id g /\
        n_inputs g' = [false; false; false] /\
        n_state g' = false).
Proof.
  split; [|split].
  - intros nodes wires n' i Hin Hs Hi Hw.
    apply (nodeOK_unwired (roundWires nodes wires)); auto using roundNodes_ok.
    intros w' Hw' [Ht Hp].
    destruct (sameConnection_targets _ _ (proj2 (round_frame nodes wires)) w' Hw')
      as (w & Hw1 & Ht' & Hp').
    apply (Hw w Hw1). split; congruence.
  - intros nodes wires n' i Hin Hs Hi Hw.
    pose proof (propagateCircuit_nodeOK nodes wires n' Hin) as Hok.
    apply (nodeOK_unwired _ _ _ Hok Hs Hi).
    intros w' Hw' [Ht Hp].
    destruct (sameConnection_targets _ _
                (proj2 (propagateLoop_frame 20 nodes wires)) w' Hw')
      as (w & Hw1 & Ht' & Hp').
    apply (Hw w Hw1). split; congruence.
  - intros nodes wires k g Hk Hty Hlen Hw Hgood.
    set (weak := fun g : CircuitNode =>
                   n_state g = false \/ n_inputs g <> [false; false; false]).
    set (strong := fun g : CircuitNode =>
                   n_state g = false /\ n_inputs g = [false; false; false]).
    assert (Hstep : forall n w, looseAnd k (n_id g) weak n w ->
                      looseAnd k (n_id g) strong (roundNodes n w) (roundWires n w))
      by (intros; now apply looseAnd_round).
    assert (Hweaken : forall n w, looseAnd k (n_id g) strong n w ->
                        looseAnd k (n_id g) weak n w).
    { intros n w [(g0 & H0 & H1 & H2 & H3 & H4 & H5) H6]. split; [|exact H6].
      exists g0. unfold weak. auto 10. }
    pose proof (propagateLoop_post
                  (looseAnd k (n_id g) weak) (looseAnd k (n_id g) strong)
                  (fun n w H => Hweaken _ _ (Hstep n w H)) Hstep
                  19 nodes wires) as Hpost.
    destruct Hpost as [(g' & H0 & H1 & H2 & H3 & H4 & H5) _].
    { split; [|exact Hw]. exists g. unfold weak. auto 10. }
    exists g'. auto.
Qed.

(** The theorem at one freshly placed three-input AND gate. *)
Lemma floating_inputs_read_low_witness :
  exists g',
    nth_error
      (fst (propagateCircuit
              [mkNode "a1" AND (mkPosition 0 0) false [true; false; true]
                      120 80 "AND" None] [])) 0 = Some g' /\
    n_id g' = "a1"%string /\
    n_inputs g' = [false; false; false] /\
    n_state g' = false.
Proof.
  destruct floating_inputs_read_low as (_ & _ & H).
  apply (H [mkNode "a1" AND (mkPosition 0 0) false [true; false; true]
                   120 80 "AND" None] [] 0
           (mkNode "a1" AND (mkPosition 0 0) false [true; false; true]
                   120 80 "AND" None)).
  - reflexivity.
  - reflexivity.
  - reflexivity.
  - intros w [].
  - left. reflexivity.
Defined.

(** Not every three-input AND gate without wires has output false after
    propagateCircuit: one stored with output high over all-low inputs comes
    back unchanged. *)
Lemma floating_and_output_counterexample :
  ~ (forall g : CircuitNode,
       n_type g = AND -> length (n_inputs g) = 3 ->
       forall g', fst (propagateCircuit [g] []) = [g'] -> n_state g' = false).
Proof.
  intros H. specialize (H staleAnd eq_refl eq_refl staleAnd eq_refl).
  discriminate H.
Qed.

(** C5: the snapshot returned for a single AND gate with three input pins and
    no attached wires, stored with output high over all-low inputs, still has
    the output high: the three floating pins read low, which is what the
    input entries already hold, so no entry changes and the output is not
    recomputed, whereas the function table gives low for that input
    vector. *)
Theorem propagateCircuit_keeps_stale_and_output :
  exists g',
    propagateCircuit [staleAnd] [] = ([g'], []) /\
    n_type g' = AND /\
    n_inputs g' = [false; false; false] /\
    n_state g' = true /\
    computeNodeLogic g' (n_inputs g') = false.
Proof.
  exists staleAnd. repeat split.
Qed.

End FloatingInputs.

Section Idempotence.
Import CircuitEngine EngineSpec Examples.

Lemma nodeMap_get_In nodes key s :
  nodeMap_get nodes key = Some s -> In s nodes /\ n_id s = key.
Proof.
  induction nodes as [|n rest IH]; cbn; [discriminate|].
  destruct (nodeMap_get rest key) as [m|].
  - intros [= ->]. destruct (IH eq_refl). auto.
  - destruct (String.eqb_spec (n_id n) key); [|discriminate].
    intros [= ->]. auto.
Qed.

Lemma nodeMap_get_map (f : CircuitNode -> CircuitNode) nodes key :
  (forall n, n_id (f n) = n_id n) ->
  nodeMap_get (map f nodes) key = option_map f (nodeMap_get nodes key).
Proof.
  intros Hf. induction nodes as [|n rest IH]; cbn; [reflexivity|].
  rewrite IH. destruct (nodeMap_get rest key); cbn; [reflexivity|].
  rewrite Hf. now destruct (String.eqb _ _).
Qed.

Lemma fixedPoint_round nodes wires :
  fixedPoint nodes wires -> round nodes wires = (nodes, wires, true).
Proof.
  intros [Hw Hn]. unfold round, updateWires, updateNodes. cbn [fst snd].
  assert (E1 : map (fun w => fst (updateWire nodes w)) wires = wires).
  { apply map_fixed. intros w Hin. now rewrite updateWire_fixed by auto. }
  assert (E2 : existsb (fun w => snd (updateWire nodes w)) wires = false).
  { apply existsb_false_forall. intros w Hin. now rewrite updateWire_fixed by auto. }
  rewrite E1, E2.
  assert (E3 : map (fun n => fst (updateNode wires n)) nodes = nodes).
  { apply map_fixed. intros n Hin. now rewrite updateNode_fixed by auto. }
  assert (E4 : existsb (fun n => snd (updateNode wires n)) nodes = false).
  { apply existsb_false_forall. intros n Hin. now rewrite updateNode_fixed by auto. }
  now rewrite E3, E4.
Qed.

Lemma fixedPoint_propagateLoop k nodes wires :
  fixedPoint nodes wires -> propagateLoop k nodes wires = (nodes, wires).
Proof.
  intros H. destruct k; [reflexivity|].
  cbn [propagateLoop]. now rewrite fixedPoint_round.
Qed.

Lemma updateWire_quiet nodes w :
  snd (updateWire nodes w) = false -> wireOK nodes w.
Proof.
  unfold updateWire, wireOK. destruct (nodeMap_get _ _); [|easy].
  destruct (Bool.eqb _ _) eqn:E; [|discriminate].
  intros _. now apply eqb_prop in E.
Qed.

Lemma updateNode_quiet wires n :
  snd (updateNode wires n) = false ->
  n_state (fst (updateNode wires n)) = n_state n.
Proof.
  unfold updateNode. destruct (isSource _); [reflexivity|].
  destruct (snd (refreshInputs _ _ _)); [|reflexivity].
  destruct (Bool.eqb _ _); [reflexivity|discriminate].
Qed.

(** The source a wire sees after the node phase is the updated copy of the
    source it saw before. *)
Lemma roundNodes_get nodes wires key :
  nodeMap_get (roundNodes nodes wires) key =
  option_map (fun n => fst (updateNode (roundWires nodes wires) n))
             (nodeMap_get nodes key).
Proof.
  rewrite roundNodes_eq. apply nodeMap_get_map. intros n. apply updateNode_id.
Qed.

Lemma wireOK_roundNodes nodes wires w :
  wireOK nodes w ->
  (forall s, nodeMap_get nodes (sourceNodeId w) = Some s ->
     n_state (fst (updateNode (roundWires nodes wires) s)) = n_state s) ->
  wireOK (roundNodes nodes wires) w.
Proof.
  unfold wireOK. rewrite roundNodes_get.
  destruct (nodeMap_get nodes (sourceNodeId w)) as [s|]; cbn; [|easy].
  intros -> H. symmetry. now apply H.
Qed.

(** A round that leaves [stabilityReached] set ends in a fixed point. *)
Lemma stable_round_fixedPoint nodes wires :
  snd (round nodes wires) = true ->
  fixedPoint (roundNodes nodes wires) (roundWires nodes wires).
Proof.
  intros Hst. split; [|intros n; apply roundNodes_ok].
  unfold round in Hst. cbn [snd] in Hst.
  apply andb_true_iff in Hst. destruct Hst as [Hw Hn].
  apply negb_true_iff in Hw, Hn. unfold updateWires, updateNodes in Hw, Hn.
  cbn [fst snd] in Hw, Hn.
  rewrite existsb_false_forall in Hw. rewrite existsb_false_forall in Hn.
  intros w' Hin. rewrite roundWires_eq in Hin. apply in_map_iff in Hin.
  destruct Hin as (w & <- & Hin).
  rewrite (updateWire_changed nodes w (Hw w Hin)).
  apply wireOK_roundNodes.
  - apply updateWire_quiet. auto.
  - intros s Hs. apply nodeMap_get_In in Hs. destruct Hs as [Hs _].
    apply updateNode_quiet. apply (Hn s Hs).
Qed.

Lemma filter_map_fixed {A} (p : A -> bool) (f : A -> A) (l : list A) :
  (forall x, p (f x) = p x) ->
  (forall x, In x l -> p x = true -> f x = x) ->
  filter p (map f l) = filter p l.
Proof.
  intros Hp Hf. induction l as [|a l IH]; cbn; [reflexivity|].
  rewrite Hp. destruct (p a) eqn:E.
  - rewrite Hf by (auto; now left). f_equal. apply IH.
    intros x Hx. apply Hf. now right.
  - apply IH. intros x Hx. apply Hf. now right.
Qed.

Section Ranked.
Variable rk : string -> nat.

Lemma settled_round j nodes wires :
  settled rk j nodes wires ->
  settled rk (S j) (roundNodes nodes wires) (roundWires nodes wires).
Proof.
  intros (Hrk & Hn & Hw). split; [|split].
  - intros w' Hin. rewrite roundWires_eq in Hin. apply in_map_iff in Hin.
    destruct Hin as (w & <- & Hin).
    rewrite updateWire_source. destruct (updateWire_target nodes w) as [-> _].
    auto.
  - intros _ n. apply roundNodes_ok.
  - intros w' Hin Hlt. rewrite roundWires_eq in Hin. apply in_map_iff in Hin.
    destruct Hin as (w & <- & Hin).
    destruct (updateWire_target nodes w) as [Ht _]. rewrite Ht in Hlt.
    apply wireOK_roundNodes; [apply updateWire_ok|].
    rewrite updateWire_source. intros s Hs.
    apply nodeMap_get_In in Hs. destruct Hs as [Hs Hid].
    assert (Hsj : rk (n_id s) < j).
    { rewrite Hid. specialize (Hrk w Hin). lia. }
    assert (Hinc : incoming (roundWires nodes wires) s = incoming wires s).
    { unfold incoming. rewrite roundWires_eq. apply filter_map_fixed.
      - intros x. now destruct (updateWire_target nodes x) as [-> _].
      - intros x Hx Hp. apply String.eqb_eq in Hp.
        rewrite updateWire_fixed; [reflexivity|].
        apply Hw; [exact Hx|]. now rewrite Hp. }
    assert (Hok : nodeOK (roundWires nodes wires) s).
    { destruct (Hn ltac:(lia) s Hs) as [H|H]; [now left|right].
      unfold signals. rewrite Hinc. exact H. }
    now rewrite (updateNode_fixed _ _ Hok).
Qed.

Lemma settled_loop k : forall j nodes wires,
  settled rk j nodes wires ->
  (forall w, In w wires -> rk (targetNodeId w) < j + k) ->
  1 <= j + k ->
  fixedPoint (fst (propagateLoop k nodes wires))
             (snd (propagateLoop k nodes wires)).
Proof.
  induction k as [|k IH]; intros j nodes wires Hs Hb Hj.
  - cbn. destruct Hs as (_ & Hn & Hw). split.
    + intros w Hin. apply Hw; [exact Hin|]. specialize (Hb w Hin). lia.
    + apply Hn. lia.
  - rewrite propagateLoop_S. destruct (snd (round nodes wires)) eqn:Hst.
    + now apply stable_round_fixedPoint.
    + apply (IH (S j)); [now apply settled_round| |lia].
      intros w' Hin. rewrite roundWires_eq in Hin. apply in_map_iff in Hin.
      destruct Hin as (w & <- & Hin).
      destruct (updateWire_target nodes w) as [-> _].
      specialize (Hb w Hin). lia.
Qed.

End Ranked.

(** C3 (amended): for every snapshot whose wire graph is acyclic with no
    wire path through more than 20 elements (ranks of wire targets below the
    iteration cap), propagateCircuit applied to its own result returns that
    result unchanged: element states, input vectors and wire states. *)
Theorem propagateCircuit_idempotent (nodes : list CircuitNode) (wires : list Wire) :
  acyclicWithin MAX_ITERATIONS wires ->
  propagateCircuit (fst (propagateCircuit nodes wires))
                   (snd (propagateCircuit nodes wires))
  = propagateCircuit nodes wires.
Proof.
  intros [rk Hrk].
  assert (Hfix : fixedPoint (fst (propagateCircuit nodes wires))
                            (snd (propagateCircuit nodes wires))).
  { unfold propagateCircuit. apply (settled_loop rk MAX_ITERATIONS 0).
    - split; [|split].
      + intros w Hin. now apply Hrk.
      + lia.
      + lia.
    - intros w Hin. cbn. now apply Hrk.
    - unfold MAX_ITERATIONS. lia. }
  unfold propagateCircuit at 1.
  rewrite (fixedPoint_propagateLoop _ _ _ Hfix).
  now destruct (propagateCircuit nodes wires).
Qed.

Lemma chainWires_ranked len w :
  In w (chainWires len) -> len <= 100 ->
  rankOf (sourceNodeId w) < rankOf (targetNodeId w) /\
  rankOf (targetNodeId w) < S len.
Proof.
  unfold chainWires. intros Hin Hlen. apply in_map_iff in Hin.
  destruct Hin as (k & <- & Hk). apply in_seq in Hk.
  unfold chainWire, idOf, rankOf. cbn [sourceNodeId targetNodeId].
  rewrite !nat_ascii_embedding by lia. lia.
Qed.

(** The theorem at a switch followed by three NOT gates. *)
Lemma propagateCircuit_idempotent_witness :
  acyclicWithin MAX_ITERATIONS (chainWires 3) /\
  propagateCircuit (fst (propagateCircuit (chainNodes 3) (chainWires 3)))
                   (snd (propagateCircuit (chainNodes 3) (chainWires 3)))
  = propagateCircuit (chainNodes 3) (chainWires 3).
Proof.
  assert (H : acyclicWithin MAX_ITERATIONS (chainWires 3)).
  { exists rankOf. intros w Hin.
    destruct (chainWires_ranked 3 w Hin ltac:(lia)) as [H1 H2].
    unfold MAX_ITERATIONS. lia. }
  split; [exact H|].
  exact (propagateCircuit_idempotent (chainNodes 3) (chainWires 3) H).
Defined.

(** C3 as stated fails: 21 NOT gates in a row, the first of which has just
    lost its input wire, form an acyclic snapshot on which the first call
    stops at the iteration cap before the last gate is reached, and the
    second call goes on to change it.  With 20 gates the amended claim
    applies. *)
Lemma propagateCircuit_idempotent_counterexample :
  ~ (forall nodes wires,
       acyclic wires ->
       propagateCircuit (fst (propagateCircuit nodes wires))
                        (snd (propagateCircuit nodes wires))
       = propagateCircuit nodes wires).
Proof.
  intros H. specialize (H (cutChainNodes 20) (chainWires 20)).
  assert (Ha : acyclic (chainWires 20)).
  { exists rankOf. intros w Hin.
    now destruct (chainWires_ranked 20 w Hin ltac:(lia)). }
  specialize (H Ha).
  apply (f_equal (fun r => map n_state (fst r))) in H.
  vm_compute in H. discriminate H.
Qed.

End Idempotence.

Section Dangling.
Import CircuitEngine EngineSpec Examples.

Lemma nodeMap_get_noElement nodes key :
  noElement nodes key -> nodeMap_get nodes key = None.
Proof.
  intros H. destruct (nodeMap_get nodes key) as [s|] eqn:E; [|reflexivity].
  apply nodeMap_get_In in E. destruct E as [Hin Hid]. now apply H in Hin.
Qed.

Lemma noElement_round nodes wires key :
  noElement nodes key -> noElement (roundNodes nodes wires) key.
Proof.
  intros H n' Hin. rewrite roundNodes_eq in Hin. apply in_map_iff in Hin.
  destruct Hin as (n & <- & Hin). rewrite updateNode_id. now apply H.
Qed.

Lemma existsb_ext_in {A} (f g : A -> bool) (l : list A) :
  (forall x, In x l -> f x = g x) -> existsb f l = existsb g l.
Proof.
  intros H. induction l as [|a l IH]; [reflexivity|].
  cbn [existsb]. rewrite (H a (or_introl eq_refl)). f_equal.
  apply IH. intros x Hx. apply H. now right.
Qed.

Lemma removeAt_split {A} (k : nat) (l : list A) (x : A) :
  nth_error l k = Some x -> l = firstn k l ++ x :: skipn (S k) l.
Proof.
  revert l. induction k as [|k IH]; intros [|a l]; cbn; try discriminate.
  - now intros [= ->].
  - intros H. f_equal. now apply IH.
Qed.

Lemma removeAt_map {A B} (f : A -> B) (k : nat) (l : list A) :
  removeAt k (map f l) = map f (removeAt k l).
Proof. unfold removeAt. now rewrite map_app, firstn_map, skipn_map. Qed.

Lemma removeAt_filter {A} (p : A -> bool) (k : nat) (l : list A) (x : A) :
  nth_error l k = Some x -> p x = false ->
  filter p (removeAt k l) = filter p l.
Proof.
  intros Hk Hp. rewrite (removeAt_split k l x Hk) at 2. unfold removeAt.
  rewrite !filter_app. cbn [filter]. now rewrite Hp.
Qed.

Lemma removeAt_existsb {A} (f : A -> bool) (k : nat) (l : list A) (x : A) :
  nth_error l k = Some x ->
  existsb f l = existsb f (removeAt k l) || f x.
Proof.
  intros Hk. rewrite (removeAt_split k l x Hk) at 1. unfold removeAt.
  rewrite !existsb_app. cbn [existsb].
  destruct (existsb f (firstn k l)), (f x), (existsb f (skipn (S k) l));
    reflexivity.
Qed.

Section TargetMissing.
Variables (k : nat) (key : string).
Local Abbreviation strayAt := (strayWire k key).

Lemma strayAt_incoming nodes wires n :
  strayAt nodes wires -> In n nodes ->
  incoming (removeAt k wires) n = incoming wires n.
Proof.
  intros [Hno (w & Hk & Ht)] Hin. unfold incoming.
  apply (removeAt_filter _ k wires w Hk).
  apply String.eqb_neq. rewrite Ht. intros E. now apply (Hno n Hin).
Qed.

Lemma strayAt_updateNode nodes wires n :
  strayAt nodes wires -> In n nodes ->
  updateNode (removeAt k wires) n = updateNode wires n.
Proof.
  intros Hs Hin. unfold updateNode.
  fold (incoming (removeAt k wires) n). fold (incoming wires n).
  now rewrite (strayAt_incoming nodes wires n Hs Hin).
Qed.

Lemma strayAt_roundWires nodes wires :
  strayAt nodes wires -> strayAt nodes (roundWires nodes wires).
Proof.
  intros [Hno (w & Hk & Ht)]. split; [exact Hno|].
  exists (fst (updateWire nodes w)). rewrite roundWires_eq, nth_error_map, Hk.
  split; [reflexivity|]. now destruct (updateWire_target nodes w) as [-> _].
Qed.

Lemma strayAt_round nodes wires :
  strayAt nodes wires ->
  roundNodes nodes (removeAt k wires) = roundNodes nodes wires /\
  roundWires nodes (removeAt k wires) = removeAt k (roundWires nodes wires) /\
  strayAt (roundNodes nodes wires) (roundWires nodes wires) /\
  (snd (round nodes wires) = true -> snd (round nodes (removeAt k wires)) = true) /\
  (snd (round nodes (removeAt k wires)) = true ->
   fixedPoint (roundNodes nodes wires) (roundWires nodes wires)).
Proof.
  intros Hs.
  assert (Hw : roundWires nodes (removeAt k wires)
               = removeAt k (roundWires nodes wires)).
  { rewrite !roundWires_eq. symmetry. apply removeAt_map. }
  assert (Hs1 : strayAt nodes (roundWires nodes wires))
    by now apply strayAt_roundWires.
  assert (Hn : roundNodes nodes (removeAt k wires) = roundNodes nodes wires).
  { rewrite !roundNodes_eq, Hw. apply map_ext_in. intros n Hin.
    now rewrite (strayAt_updateNode nodes _ n Hs1 Hin). }
  assert (Hs2 : strayAt (roundNodes nodes wires) (roundWires nodes wires)).
  { destruct Hs1 as [Hno Hex]. split; [|exact Hex]. now apply noElement_round. }
  assert (Hflag : existsb (fun n => snd (updateNode (roundWires nodes (removeAt k wires)) n)) nodes
                  = existsb (fun n => snd (updateNode (roundWires nodes wires) n)) nodes).
  { rewrite Hw. apply existsb_ext_in. intros n Hin.
    now rewrite (strayAt_updateNode nodes _ n Hs1 Hin). }
  destruct Hs as [Hno (w & Hk & Ht)].
  pose proof (removeAt_existsb (fun w => snd (updateWire nodes w)) k wires w Hk) as Hex.
  split; [exact Hn|]. split; [exact Hw|]. split; [exact Hs2|].
  split; [|intros H; split].
  - unfold round, updateWires, updateNodes. cbn [fst snd].
    change (map (fun w0 => fst (updateWire nodes w0)) (removeAt k wires))
      with (roundWires nodes (removeAt k wires)).
    change (map (fun w0 => fst (updateWire nodes w0)) wires)
      with (roundWires nodes wires).
    rewrite Hflag, Hex. intros H.
    apply andb_true_iff in H. destruct H as [H1 H2]. rewrite H2.
    apply negb_true_iff, orb_false_iff in H1. destruct H1 as [-> _]. reflexivity.
  - intros w' Hin.
    destruct (In_nth_error _ _ Hin) as [j Hj].
    rewrite roundWires_eq, nth_error_map in Hj.
    destruct (nth_error wires j) as [w0|] eqn:Hj0; [|discriminate].
    injection Hj as <-.
    destruct (Nat.eq_dec j k) as [->|Hjk].
    + pose proof (stable_round_fixedPoint nodes (removeAt k wires) H) as [_ Hfix].
      apply wireOK_roundNodes; [apply updateWire_ok|].
      intros s Hsrc. apply nodeMap_get_In in Hsrc. destruct Hsrc as [Hsrc _].
      apply updateNode_quiet.
      unfold round, updateWires, updateNodes in H. cbn [fst snd] in H.
      apply andb_true_iff in H. destruct H as [_ H].
      apply negb_true_iff in H.
      change (map (fun w0 => fst (updateWire nodes w0)) (removeAt k wires))
        with (roundWires nodes (removeAt k wires)) in H.
      rewrite Hflag in H. rewrite existsb_false_forall in H. now apply H.
    + pose proof (stable_round_fixedPoint nodes (removeAt k wires) H) as [Hfix _].
      rewrite Hn, Hw in Hfix. apply Hfix.
      rewrite roundWires_eq.
      assert (Hin' : In (fst (updateWire nodes w0))
                        (map (fun w => fst (updateWire nodes w)) (removeAt k wires))).
      { apply (in_map (fun w => fst (updateWire nodes w))). unfold removeAt.
        destruct (Nat.lt_ge_cases j k) as [Hlt|Hge].
        - apply in_or_app. left.
          apply (nth_error_In _ j). now rewrite nth_error_firstn, (proj2 (Nat.ltb_lt j k) Hlt).
        - apply in_or_app. right.
          apply (nth_error_In _ (j - S k)).
          rewrite nth_error_skipn. replace (S k + (j - S k)) with j by lia.
          exact Hj0. }
      rewrite <- removeAt_map in Hin'. exact Hin'.
  - intros n' Hin.
    pose proof (stable_round_fixedPoint nodes (removeAt k wires) H) as [_ Hfix].
    rewrite Hn, Hw in Hfix. specialize (Hfix n' Hin).
    destruct Hfix as [Hsrc|Hi]; [now left|right].
    unfold signals in *. now rewrite <- (strayAt_incoming _ _ n' Hs2 Hin).
Qed.

Lemma strayAt_loop fuel : forall nodes wires,
  strayAt nodes wires ->
  propagateLoop fuel nodes (removeAt k wires) =
  (fst (propagateLoop fuel nodes wires),
   removeAt k (snd (propagateLoop fuel nodes wires))).
Proof.
  induction fuel as [|fuel IH]; intros nodes wires Hs; [reflexivity|].
  destruct (strayAt_round nodes wires Hs) as (Hn & Hw & Hs' & Hst & Hfix).
  rewrite !propagateLoop_S, Hn, Hw.
  destruct (snd (round nodes wires)) eqn:E1.
  - now rewrite (Hst eq_refl).
  - destruct (snd (round nodes (removeAt k wires))) eqn:E2.
    + now rewrite (fixedPoint_propagateLoop _ _ _ (Hfix eq_refl)).
    + now apply IH.
Qed.

End TargetMissing.

Lemma sourceless_wire_kept fuel nodes wires k w :
  noElement nodes (sourceNodeId w) ->
  nth_error wires k = Some w ->
  nth_error (snd (propagateLoop fuel nodes wires)) k = Some w.
Proof.
  intros Hno Hk.
  apply (propagateLoop_inv
           (fun n ws => noElement n (sourceNodeId w) /\ nth_error ws k = Some w));
    [|now split].
  intros n ws [Hn Hw]. split; [now apply noElement_round|].
  rewrite roundWires_eq, nth_error_map, Hw. cbn [option_map].
  unfold updateWire. now rewrite (nodeMap_get_noElement _ _ Hn).
Qed.

(** C7 (amended): propagateCircuit is total, and for the [k]-th connection
    [w] of any snapshot: when no element carries its source id it is never
    updated and comes back exactly as stored, while the input vectors of the
    returned elements are the signals of all returned wires, this one
    included; when no element carries its target id it has no effect on any
    element or any other connection, the result being the one obtained
    without it. *)
Theorem dangling_connections_skipped
        (nodes : list CircuitNode) (wires : list Wire) (k : nat) (w : Wire) :
  nth_error wires k = Some w ->
  (noElement nodes (sourceNodeId w) ->
     nth_error (snd (propagateCircuit nodes wires)) k = Some w /\
     forall n', In n' (fst (propagateCircuit nodes wires)) ->
                isSource (n_type n') = false ->
                n_inputs n' = signals (snd (propagateCircuit nodes wires)) n') /\
  (noElement nodes (targetNodeId w) ->
     propagateCircuit nodes (removeAt k wires) =
     (fst (propagateCircuit nodes wires),
      removeAt k (snd (propagateCircuit nodes wires)))).
Proof.
  intros Hk. split; intros Hno.
  - split; [now apply sourceless_wire_kept|].
    intros n' Hin Hs.
    destruct (propagateCircuit_nodeOK nodes wires n' Hin) as [H|H];
      [congruence|exact H].
  - apply (strayAt_loop k (targetNodeId w)). split; [exact Hno|]. now exists w.
Qed.

(** The theorem at a switch with a wire from a deleted element and a wire to
    a deleted element. *)
Lemma dangling_connections_skipped_witness :
  (noElement (chainNodes 0) (sourceNodeId ghostWire) /\
   nth_error (snd (propagateCircuit (chainNodes 0) [ghostWire; strayWireA])) 0
   = Some ghostWire) /\
  (noElement (chainNodes 0) (targetNodeId strayWireA) /\
   propagateCircuit (chainNodes 0) (removeAt 1 [ghostWire; strayWireA]) =
   (fst (propagateCircuit (chainNodes 0) [ghostWire; strayWireA]),
    removeAt 1 (snd (propagateCircuit (chainNodes 0) [ghostWire; strayWireA])))).
Proof.
  assert (Hsrc : noElement (chainNodes 0) (sourceNodeId ghostWire)).
  { intros n [<-|[]]. discriminate. }
  assert (Htgt : noElement (chainNodes 0) (targetNodeId strayWireA)).
  { intros n [<-|[]]. discriminate. }
  split; (split; [assumption|]).
  - exact (proj1 (proj1 (dangling_connections_skipped
                           (chainNodes 0) [ghostWire; strayWireA] 0 ghostWire
                           eq_refl)
                        Hsrc)).
  - exact (proj2 (dangling_connections_skipped
                    (chainNodes 0) [ghostWire; strayWireA] 1 strayWireA eq_refl)
                 Htgt).
Defined.

(** C7 as stated fails: a wire whose source element is missing still feeds
    its stored state to the pin it targets, so the lamp it enters lights up,
    which it does not without the wire. *)
Lemma dangling_connection_counterexample :
  ~ (forall nodes wires k w,
       nth_error wires k = Some w ->
       noElement nodes (sourceNodeId w) \/ noElement nodes (targetNodeId w) ->
       fst (propagateCircuit nodes (removeAt k wires))
       = fst (propagateCircuit nodes wires)).
Proof.
  intros H.
  specialize (H [lonelyLamp] [ghostWire] 0 ghostWire eq_refl).
  assert (Hno : noElement [lonelyLamp] (sourceNodeId ghostWire)).
  { intros n [<-|[]]. discriminate. }
  specialize (H (or_introl Hno)).
  apply (f_equal (map n_state)) in H. vm_compute in H. discriminate H.
Qed.

End Dangling.

(* ================================================================== *)
(** * The engine on the heap computes the value model and spares its input *)
(* ================================================================== *)

Section StoreFacts.
Import CircuitEngine EngineSpec HeapEngine.

Lemma length_upd (h : Store) : forall l o, length (upd h l o) = length h.
Proof.
  induction h as [|x h IH]; intros [|l] o; cbn; try reflexivity.
  now rewrite IH.
Qed.

Lemma nth_error_upd_eq (h : Store) : forall l o,
  l < length h -> nth_error (upd h l o) l = Some o.
Proof.
  induction h as [|x h IH]; intros [|l] o Hl; cbn in *; try lia.
  - reflexivity.
  - apply IH. lia.
Qed.

Lemma nth_error_upd_neq (h : Store) : forall l l' o,
  l <> l' -> nth_error (upd h l o) l' = nth_error h l'.
Proof.
  induction h as [|x h IH]; intros [|l] [|l'] o Hne; cbn; try reflexivity.
  - congruence.
  - apply IH. congruence.
Qed.

Lemma nth_error_snoc_lt (h : Store) (o : Obj) (l : loc) :
  l < length h -> nth_error (h ++ [o]) l = nth_error h l.
Proof. intros Hl. now apply nth_error_app1. Qed.

Lemma nth_error_snoc_eq (h : Store) (o : Obj) :
  nth_error (h ++ [o]) (length h) = Some o.
Proof. rewrite nth_error_app2, Nat.sub_diag by lia. reflexivity. Qed.

Lemma nth_error_lt (h : Store) (l : loc) (o : Obj) :
  nth_error h l = Some o -> l < length h.
Proof. intros H. apply nth_error_Some. congruence. Qed.

(** A store [h'] that agrees with [h] on the two cells a representation
    reads still represents the same element. *)
Lemma repNode_agree (h h' : Store) (nl : loc) (n : CircuitNode) :
  repNode h nl n ->
  (forall l o, nth_error h l = Some o ->
     (l = nl \/ exists a, o = OArray a) -> nth_error h' l = Some o) ->
  repNode h' nl n.
Proof.
  intros (o & cur & Ho & Hc & ->) Hag. exists o, cur. repeat split.
  - apply Hag; auto.
  - apply Hag; [exact Hc|]. right. eauto.
Qed.

Lemma Forall2_impl_in {A B} (R S : A -> B -> Prop) (l1 : list A) (l2 : list B) :
  (forall a b, In a l1 -> R a b -> S a b) ->
  Forall2 R l1 l2 -> Forall2 S l1 l2.
Proof.
  intros H F. induction F as [|a b l1 l2 Hab _ IH]; constructor.
  - apply H; [now left|exact Hab].
  - apply IH. intros a' b' Hin. apply H. now right.
Qed.

Lemma Forall2_In_l {A B} (R : A -> B -> Prop) (l1 : list A) (l2 : list B) (a : A) :
  Forall2 R l1 l2 -> In a l1 -> exists b, R a b.
Proof.
  induction 1 as [|x y l1 l2 Hxy _ IH]; intros Hin; [easy|].
  destruct Hin as [->|Hin]; eauto.
Qed.

Lemma mapM_readWire (h : Store) (wls : list loc) (ws : list Wire) :
  Forall2 (repWire h) wls ws -> mapM readWire wls h = Some (ws, h).
Proof.
  induction 1 as [|wl w wls ws Hw _ IH]; [reflexivity|].
  cbn [mapM]. unfold bind, readWire at 1. rewrite Hw, IH. reflexivity.
Qed.

(** [nodeMap] finds the record standing for what the value model finds. *)
Lemma lookupLoc_rep (h : Store) (nls : list loc) (ns : list CircuitNode) (key : string) :
  Forall2 (repNode h) nls ns ->
  match lookupLoc (combine (map n_id ns) nls) key with
  | Some nl => exists s, nodeMap_get ns key = Some s /\ repNode h nl s
  | None => nodeMap_get ns key = None
  end.
Proof.
  induction 1 as [|nl n nls ns Hn _ IH]; [reflexivity|].
  cbn [map combine lookupLoc nodeMap_get].
  destruct (lookupLoc (combine (map n_id ns) nls) key) as [l'|].
  - destruct IH as (s & -> & Hs). eauto.
  - rewrite IH. destruct (String.eqb (n_id n) key); eauto.
Qed.

End StoreFacts.

Section HeapPhases.
Import CircuitEngine EngineSpec HeapEngine.

Variables (nls : list loc) (ns : list CircuitNode).

(** Phase 1 on one wire reference. *)
Lemma stepWire_refines (h : Store) (wl : loc) (w : Wire) :
  repWire h wl w ->
  Forall2 (repNode h) nls ns ->
  exists h1,
    stepWire (combine (map n_id ns) nls) wl h
      = Some (snd (updateWire ns w), h1) /\
    repWire h1 wl (fst (updateWire ns w)) /\
    (forall l, l <> wl -> nth_error h1 l = nth_error h l) /\
    length h1 = length h.
Proof.
  intros Hwl Hn. unfold stepWire, bind at 1, readWire. rewrite Hwl.
  pose proof (lookupLoc_rep h nls ns (sourceNodeId w) Hn) as Hlk.
  unfold updateWire.
  destruct (lookupLoc _ _) as [nl|].
  - destruct Hlk as (s & -> & (o & cur & Ho & Hc & ->)).
    unfold bind, readNode. rewrite Ho. cbn [toNode n_state].
    destruct (Bool.eqb (w_state w) (o_state o)).
    + exists h. cbn. auto.
    + unfold write. pose proof (nth_error_lt _ _ _ Hwl) as Hlt.
      rewrite (proj2 (Nat.ltb_lt _ _) Hlt).
      exists (upd h wl (OWire (set_w_state w (o_state o)))). cbn.
      split; [reflexivity|]. split; [now apply nth_error_upd_eq|].
      split; [|apply length_upd].
      intros l Hl. apply nth_error_upd_neq. congruence.
  - rewrite Hlk. exists h. cbn. auto.
Qed.

(** Phase 1 over the wire references. *)
Lemma phase1_refines (wls : list loc) (ws : list Wire) :
  Forall2 (fun _ _ => True) wls ws -> forall h,
  Forall2 (repWire h) wls ws -> NoDup wls ->
  Forall2 (repNode h) nls ns ->
  exists h',
    forEachFlag (stepWire (combine (map n_id ns) nls)) wls h
      = Some (existsb (fun w => snd (updateWire ns w)) ws, h') /\
    Forall2 (repWire h') wls (map (fun w => fst (updateWire ns w)) ws) /\
    (forall l, ~ In l wls -> nth_error h' l = nth_error h l) /\
    length h' = length h.
Proof.
  induction 1 as [|wl w wls ws _ _ IH]; intros h Hw Hnd Hn.
  - exists h. cbn. repeat split; constructor.
  - inversion Hw as [|? ? ? ? Hwl Hrest]; subst.
    inversion Hnd as [|? ? Hnotin Hnd']; subst.
    destruct (stepWire_refines h wl w Hwl Hn) as (h1 & E1 & Hw1 & Hfr1 & Hlen1).
    destruct (IH h1) as (h' & E' & Hw' & Hfr' & Hlen').
    + eapply Forall2_impl_in; [|exact Hrest].
      intros a b Ha Hab. unfold repWire in *. rewrite Hfr1; [exact Hab|].
      intros ->. contradiction.
    + exact Hnd'.
    + eapply Forall2_impl_in; [|exact Hn].
      intros a b _ Hab. apply (repNode_agree h h1 a b Hab).
      intros l o Hl Hcase. rewrite Hfr1; [exact Hl|].
      intros Heq. subst l. unfold repWire in Hwl. rewrite Hwl in Hl.
      injection Hl as <-. destruct Hcase as [Heq|[a' Ha']]; [|discriminate].
      subst a. destruct Hab as (o' & cur' & Ho' & _). rewrite Hwl in Ho'.
      discriminate.
    + exists h'. cbn [forEachFlag existsb map]. unfold bind.
      rewrite E1, E'. unfold ret.
      split; [reflexivity|]. split.
      * constructor; [|exact Hw'].
        unfold repWire. rewrite Hfr' by exact Hnotin. exact Hw1.
      * split; [|lia]. intros l Hl.
        rewrite Hfr' by (intros Hin; apply Hl; now right).
        apply Hfr1. intros ->. apply Hl. now left.
Qed.

End HeapPhases.

Section HeapNodePhase.
Import CircuitEngine EngineSpec HeapEngine.

Variables (wls : list loc) (ws : list Wire).

Lemma repWire_snoc (h : Store) (o : Obj) :
  Forall2 (repWire h) wls ws -> Forall2 (repWire (h ++ [o])) wls ws.
Proof.
  apply Forall2_impl_in. intros a b _ Hab. unfold repWire in *.
  rewrite nth_error_snoc_lt; [exact Hab|]. eapply nth_error_lt; eauto.
Qed.

(** Phase 2 on one element reference. *)
Lemma stepNode_refines (h : Store) (nl : loc) (n : CircuitNode) :
  repNode h nl n ->
  Forall2 (repWire h) wls ws ->
  exists h1,
    stepNode wls nl h = Some (snd (updateNode ws n), h1) /\
    repNode h1 nl (fst (updateNode ws n)) /\
    (forall l, l < length h -> l <> nl -> nth_error h1 l = nth_error h l) /\
    length h <= length h1.
Proof.
  intros (o & cur & Ho & Hc & ->) Hw.
  pose proof (nth_error_lt _ _ _ Ho) as Hnl.
  pose proof (nth_error_lt _ _ _ Hc) as Har.
  unfold stepNode, bind at 1, readNode. rewrite Ho.
  unfold updateNode. cbn [toNode n_type n_id n_inputs].
  destruct (isSource (o_type o)).
  { exists h. cbn. repeat split; auto. exists o, cur. auto. }
  unfold bind at 1, readArray. rewrite Hc.
  unfold bind at 1, alloc.
  unfold bind at 1. rewrite (mapM_readWire _ _ _ (repWire_snoc h (OArray cur) Hw)).
  set (r := refreshInputs
              (filter (fun w => String.eqb (targetNodeId w) (o_id o)) ws) 0 cur).
  unfold bind at 1, write at 1. rewrite length_app. cbn [length].
  replace (length h <? length h + 1) with true
    by (symmetry; apply Nat.ltb_lt; lia).
  set (h3 := upd (h ++ [OArray cur]) (length h) (OArray (fst r))).
  assert (Hlen3 : length h3 = length h + 1).
  { unfold h3. rewrite length_upd, length_app. reflexivity. }
  assert (Hfr3 : forall l, l < length h -> nth_error h3 l = nth_error h l).
  { intros l Hl. unfold h3. rewrite nth_error_upd_neq by lia.
    now apply nth_error_snoc_lt. }
  assert (Hc3 : nth_error h3 (length h) = Some (OArray (fst r))).
  { unfold h3. apply nth_error_upd_eq. rewrite length_app. cbn. lia. }
  destruct (snd r) eqn:Er.
  - unfold bind at 1, write at 1.
    replace (nl <? length h3) with true by (symmetry; apply Nat.ltb_lt; lia).
    set (node1 := withInputs o (length h)).
    set (h4 := upd h3 nl (ONode node1)).
    change (toNode node1 (fst r)) with (set_n_inputs (toNode o cur) (fst r)).
    change (o_state node1) with (n_state (set_n_inputs (toNode o cur) (fst r))).
    set (newOut := computeNodeLogic (set_n_inputs (toNode o cur) (fst r)) (fst r)).
    destruct (Bool.eqb _ newOut).
    + exists h4. split; [reflexivity|]. split; [|split].
      * exists node1, (fst r). split; [|split].
        -- unfold h4. apply nth_error_upd_eq. lia.
        -- unfold h4. cbn [node1 withInputs o_inputs].
           rewrite nth_error_upd_neq by lia. exact Hc3.
        -- reflexivity.
      * intros l Hl Hne. unfold h4. rewrite nth_error_upd_neq by congruence.
        now apply Hfr3.
      * unfold h4. rewrite length_upd. lia.
    + unfold bind, write.
      replace (nl <? length h4) with true
        by (symmetry; apply Nat.ltb_lt; unfold h4; rewrite length_upd; lia).
      exists (upd h4 nl (ONode (withState node1 newOut))).
      split; [reflexivity|]. split; [|split].
      * exists (withState node1 newOut), (fst r). split; [|split].
        -- apply nth_error_upd_eq. unfold h4. rewrite length_upd. lia.
        -- cbn [node1 withState withInputs o_inputs].
           rewrite nth_error_upd_neq by lia. unfold h4.
           rewrite nth_error_upd_neq by lia. exact Hc3.
        -- reflexivity.
      * intros l Hl Hne. rewrite nth_error_upd_neq by congruence.
        unfold h4. rewrite nth_error_upd_neq by congruence. now apply Hfr3.
      * rewrite length_upd. unfold h4. rewrite length_upd. lia.
  - exists h3. split; [reflexivity|]. split; [|split].
    + exists o, cur. rewrite !Hfr3 by assumption. auto.
    + intros l Hl _. now apply Hfr3.
    + lia.
Qed.

(** Phase 2 over the element references. *)
Lemma phase2_refines (nls : list loc) (ns : list CircuitNode) :
  Forall2 (fun _ _ => True) nls ns -> forall h,
  Forall2 (repNode h) nls ns -> NoDup nls ->
  Forall2 (repWire h) wls ws ->
  exists h',
    forEachFlag (stepNode wls) nls h
      = Some (existsb (fun n => snd (updateNode ws n)) ns, h') /\
    Forall2 (repNode h') nls (map (fun n => fst (updateNode ws n)) ns) /\
    Forall2 (repWire h') wls ws /\
    (forall l, l < length h -> ~ In l nls -> nth_error h' l = nth_error h l) /\
    length h <= length h'.
Proof.
  induction 1 as [|nl n nls ns _ _ IH]; intros h Hn Hnd Hw.
  - exists h. cbn. repeat split; auto.
  - inversion Hn as [|? ? ? ? Hnl Hrest]; subst.
    inversion Hnd as [|? ? Hnotin Hnd']; subst.
    destruct (stepNode_refines h nl n Hnl Hw) as (h1 & E1 & Hn1 & Hfr1 & Hlen1).
    assert (Hisnode : exists o, nth_error h nl = Some (ONode o)).
    { destruct Hnl as (o & cur & Ho & _). eauto. }
    destruct Hisnode as [o0 Ho0].
    assert (Hkeep : forall l o, nth_error h l = Some o ->
                      (forall o', o <> ONode o') -> nth_error h1 l = Some o).
    { intros l o Hl Hnot. rewrite Hfr1; [exact Hl| |].
      - eapply nth_error_lt; eauto.
      - intros ->. rewrite Ho0 in Hl. injection Hl as <-. now apply (Hnot o0). }
    assert (Hrest1 : Forall2 (repNode h1) nls ns).
    { eapply Forall2_impl_in; [|exact Hrest].
      intros a b Ha Hab. apply (repNode_agree h h1 a b Hab).
      intros l o Hl [->|[arr ->]].
      * rewrite Hfr1; [exact Hl| |].
        -- eapply nth_error_lt; eauto.
        -- intros ->. contradiction.
      * apply Hkeep; [exact Hl|discriminate]. }
    destruct (IH h1) as (h' & E' & Hn' & Hw' & Hfr' & Hlen').
    + exact Hrest1.
    + exact Hnd'.
    + eapply Forall2_impl_in; [|exact Hw].
      intros a b _ Hab. apply Hkeep; [exact Hab|discriminate].
    + exists h'. cbn [forEachFlag existsb map]. unfold bind.
      rewrite E1, E'. unfold ret.
      split; [reflexivity|]. split; [|split; [exact Hw'|split; [|lia]]].
      * constructor; [|exact Hn'].
        destruct Hn1 as (o1 & cur1 & Ho1 & Hc1 & E).
        pose proof (nth_error_lt _ _ _ Ho1) as L1.
        pose proof (nth_error_lt _ _ _ Hc1) as L2.
        exists o1, cur1. split; [|split; [|exact E]].
        -- rewrite Hfr'; [exact Ho1|exact L1|exact Hnotin].
        -- rewrite Hfr'; [exact Hc1|exact L2|].
           intros Hin.
           destruct (Forall2_In_l _ _ _ _ Hrest1 Hin) as (b & o2 & cur2 & Ho2 & _).
           rewrite Hc1 in Ho2. discriminate.
      * intros l Hl Hnin.
        rewrite Hfr'; [|lia|intros Hin; apply Hnin; now right].
        apply Hfr1; [exact Hl|]. intros ->. apply Hnin. now left.
Qed.

End HeapNodePhase.

Section HeapLoop.
Import CircuitEngine EngineSpec HeapEngine.

Variables (nls wls : list loc).
Hypothesis Hnd_n : NoDup nls.
Hypothesis Hnd_w : NoDup wls.

Lemma Forall2_True {A B} (R : A -> B -> Prop) (l1 : list A) (l2 : list B) :
  Forall2 R l1 l2 -> Forall2 (fun _ _ => True) l1 l2.
Proof. induction 1; constructor; auto. Qed.

Lemma roundNodes_ids (ns : list CircuitNode) (ws : list Wire) :
  map n_id (roundNodes ns ws) = map n_id ns.
Proof.
  rewrite roundNodes_eq, map_map. apply map_ext. intros n. apply updateNode_id.
Qed.

(** One pass of the loop body on the heap is one [round] on the values. *)
Lemma roundH_refines (ns : list CircuitNode) (ws : list Wire) (h : Store) :
  Forall2 (repNode h) nls ns -> Forall2 (repWire h) wls ws ->
  exists h',
    roundH (combine (map n_id ns) nls) nls wls h
      = Some (snd (round ns ws), h') /\
    Forall2 (repNode h') nls (roundNodes ns ws) /\
    Forall2 (repWire h') wls (roundWires ns ws) /\
    (forall l, l < length h -> ~ In l nls -> ~ In l wls ->
               nth_error h' l = nth_error h l) /\
    length h <= length h'.
Proof.
  intros Hn Hw.
  destruct (phase1_refines nls ns wls ws (Forall2_True _ _ _ Hw) h Hw Hnd_w Hn)
    as (h1 & E1 & Hw1 & Hfr1 & Hlen1).
  assert (Hn1 : Forall2 (repNode h1) nls ns).
  { eapply Forall2_impl_in; [|exact Hn].
    intros a b _ Hab. apply (repNode_agree h h1 a b Hab).
    intros l o Hl Hcase. rewrite Hfr1; [exact Hl|].
    intros Hin. destruct (Forall2_In_l _ _ _ _ Hw Hin) as (w & Hwl).
    unfold repWire in Hwl. rewrite Hwl in Hl. injection Hl as <-.
    destruct Hcase as [->|[arr Harr]]; [|discriminate].
    destruct Hab as (o' & cur' & Ho' & _). rewrite Hwl in Ho'. discriminate. }
  destruct (phase2_refines wls (roundWires ns ws) nls ns
              (Forall2_True _ _ _ Hn) h1 Hn1 Hnd_n Hw1)
    as (h2 & E2 & Hn2 & Hw2 & Hfr2 & Hlen2).
  exists h2. unfold roundH, bind. rewrite E1. rewrite roundWires_eq in E2.
  rewrite E2. unfold ret.
  split; [reflexivity|]. split; [exact Hn2|]. split; [exact Hw2|].
  split; [|lia]. intros l Hl Hnn Hnw.
  rewrite Hfr2 by (try lia; assumption). now apply Hfr1.
Qed.

(** The loop on the heap is the loop on the values. *)
Lemma loopH_refines (fuel : nat) : forall (ns : list CircuitNode) (ws : list Wire) h,
  Forall2 (repNode h) nls ns -> Forall2 (repWire h) wls ws ->
  exists h',
    loopH fuel (combine (map n_id ns) nls) nls wls h = Some (tt, h') /\
    Forall2 (repNode h') nls (fst (propagateLoop fuel ns ws)) /\
    Forall2 (repWire h') wls (snd (propagateLoop fuel ns ws)) /\
    (forall l, l < length h -> ~ In l nls -> ~ In l wls ->
               nth_error h' l = nth_error h l) /\
    length h <= length h'.
Proof.
  induction fuel as [|fuel IH]; intros ns ws h Hn Hw.
  - exists h. cbn. repeat split; auto.
  - destruct (roundH_refines ns ws h Hn Hw) as (h1 & E1 & Hn1 & Hw1 & Hfr1 & Hlen1).
    cbn [loopH]. unfold bind. rewrite E1, propagateLoop_S.
    destruct (snd (round ns ws)).
    + exists h1. unfold ret. repeat split; auto.
    + destruct (IH _ _ h1 Hn1 Hw1) as (h2 & E2 & Hn2 & Hw2 & Hfr2 & Hlen2).
      rewrite roundNodes_ids in E2. rewrite E2.
      exists h2. repeat split; auto; [|lia].
      intros l Hl Hnn Hnw. rewrite Hfr2 by (try lia; assumption).
      now apply Hfr1.
Qed.

End HeapLoop.

Section HeapCopy.
Import CircuitEngine EngineSpec HeapEngine.

(** Copying allocates fresh cells, pairwise different, and leaves every
    existing cell alone. *)
Lemma copyNodes_spec (nodes : list loc) (ns : list CircuitNode) :
  Forall2 (fun _ _ => True) nodes ns -> forall h,
  Forall2 (repNode h) nodes ns ->
  exists nls h',
    mapM copyNode nodes h = Some (nls, h') /\
    Forall2 (repNode h') nls ns /\
    NoDup nls /\
    (forall l, In l nls -> length h <= l) /\
    (forall l, l < length h -> nth_error h' l = nth_error h l) /\
    length h <= length h'.
Proof.
  induction 1 as [|nl n nodes ns _ _ IH]; intros h Hn.
  - exists [], h. cbn. repeat split; auto; try constructor. intros l [].
  - inversion Hn as [|? ? ? ? Hnl Hrest]; subst.
    destruct Hnl as (o & cur & Ho & Hc & ->).
    pose proof (nth_error_lt _ _ _ Hc) as Lc.
    destruct (IH (h ++ [ONode o])) as (nls & h' & E & Hn' & Hnd & Hge & Hfr & Hlen).
    { eapply Forall2_impl_in; [|exact Hrest].
      intros a b _ Hab. apply (repNode_agree h _ a b Hab).
      intros l o' Hl _. rewrite nth_error_snoc_lt; [exact Hl|].
      eapply nth_error_lt; eauto. }
    rewrite length_app in Hge, Hfr, Hlen. cbn [length] in Hge, Hfr, Hlen.
    exists (length h :: nls), h'.
    assert (Ec : copyNode nl h = Some (length h, h ++ [ONode o]))
      by (unfold copyNode, bind, readNode; now rewrite Ho).
    cbn [mapM]. unfold bind. rewrite Ec, E. unfold ret.
    split; [reflexivity|]. split; [|split; [|split; [|split]]].
    + constructor; [|exact Hn'].
      exists o, cur. split; [|split; [|reflexivity]].
      * rewrite Hfr by lia. apply nth_error_snoc_eq.
      * rewrite Hfr by lia. rewrite nth_error_snoc_lt by lia. exact Hc.
    + constructor; [|exact Hnd]. intros Hin. specialize (Hge _ Hin). lia.
    + intros l [<-|Hin]; [lia|]. specialize (Hge _ Hin). lia.
    + intros l Hl. rewrite Hfr by lia. now apply nth_error_snoc_lt.
    + lia.
Qed.

Lemma copyWires_spec (wires : list loc) (ws : list Wire) :
  Forall2 (fun _ _ => True) wires ws -> forall h,
  Forall2 (repWire h) wires ws ->
  exists wls h',
    mapM copyWire wires h = Some (wls, h') /\
    Forall2 (repWire h') wls ws /\
    NoDup wls /\
    (forall l, In l wls -> length h <= l) /\
    (forall l, l < length h -> nth_error h' l = nth_error h l) /\
    length h <= length h'.
Proof.
  induction 1 as [|wl w wires ws _ _ IH]; intros h Hw.
  - exists [], h. cbn. repeat split; auto; try constructor. intros l [].
  - inversion Hw as [|? ? ? ? Hwl Hrest]; subst.
    destruct (IH (h ++ [OWire w])) as (wls & h' & E & Hw' & Hnd & Hge & Hfr & Hlen).
    { eapply Forall2_impl_in; [|exact Hrest].
      intros a b _ Hab. unfold repWire in *.
      rewrite nth_error_snoc_lt; [exact Hab|]. eapply nth_error_lt; eauto. }
    rewrite length_app in Hge, Hfr, Hlen. cbn [length] in Hge, Hfr, Hlen.
    exists (length h :: wls), h'.
    assert (Ec : copyWire wl h = Some (length h, h ++ [OWire w]))
      by (unfold copyWire, bind, readWire; now rewrite Hwl).
    cbn [mapM]. unfold bind. rewrite Ec, E. unfold ret.
    split; [reflexivity|]. split; [|split; [|split; [|split]]].
    + constructor; [|exact Hw'].
      unfold repWire. rewrite Hfr by lia. apply nth_error_snoc_eq.
    + constructor; [|exact Hnd]. intros Hin. specialize (Hge _ Hin). lia.
    + intros l [<-|Hin]; [lia|]. specialize (Hge _ Hin). lia.
    + intros l Hl. rewrite Hfr by lia. now apply nth_error_snoc_lt.
    + lia.
Qed.

Lemma nodeMap_spec (h : Store) (nls : list loc) (ns : list CircuitNode) :
  Forall2 (repNode h) nls ns ->
  mapM (fun l => o <-- readNode l ;; ret (o_id o, l)) nls h
  = Some (combine (map n_id ns) nls, h).
Proof.
  induction 1 as [|nl n nls ns Hn _ IH]; [reflexivity|].
  destruct Hn as (o & cur & Ho & _ & ->).
  cbn [mapM]. unfold bind at 1.
  assert (E : (o0 <-- readNode nl ;; ret (o_id o0, nl)) h = Some ((o_id o, nl), h))
    by (unfold bind, readNode; now rewrite Ho).
  rewrite E. cbv beta iota. unfold bind at 1. rewrite IH. reflexivity.
Qed.

End HeapCopy.

Section PureFrame.
Import CircuitEngine EngineSpec HeapEngine.

(** C9: run on any store in which the references [nodes] and [wires] hold
    the elements [ns] and connections [ws], propagateCircuit returns, changes
    no cell that existed before the call (so the input elements, their input
    arrays and the input connections are exactly as they were), and hands
    back references holding what the value model computes from [ns] and [ws];
    that result has the same elements and connections in the same order,
    with the same ids, kinds, positions, sizes, labels, colours, pin ends and
    input arities, differing at most in output states, input-vector contents
    and connection states. *)
Theorem propagateCircuit_pure_frame
        (h : Store) (nodes wires : list loc)
        (ns : list CircuitNode) (ws : list Wire) :
  Forall2 (repNode h) nodes ns ->
  Forall2 (repWire h) wires ws ->
  exists nodes' wires' h',
    propagateCircuitH nodes wires h = Some ((nodes', wires'), h') /\
    (forall l, l < length h -> nth_error h' l = nth_error h l) /\
    Forall2 (repNode h') nodes ns /\
    Forall2 (repWire h') wires ws /\
    Forall2 (repNode h') nodes' (fst (propagateCircuit ns ws)) /\
    Forall2 (repWire h') wires' (snd (propagateCircuit ns ws)) /\
    Forall2 sameElement ns (fst (propagateCircuit ns ws)) /\
    Forall2 sameConnection ws (snd (propagateCircuit ns ws)).
Proof.
  intros Hn Hw.
  destruct (copyNodes_spec nodes ns (Forall2_True _ _ _ Hn) h Hn)
    as (nls & h1 & E1 & Hn1 & Hnd1 & Hge1 & Hfr1 & Hlen1).
  assert (Hw1 : Forall2 (repWire h1) wires ws).
  { eapply Forall2_impl_in; [|exact Hw]. intros a b _ Hab. unfold repWire in *.
    rewrite Hfr1; [exact Hab|]. eapply nth_error_lt; eauto. }
  destruct (copyWires_spec wires ws (Forall2_True _ _ _ Hw1) h1 Hw1)
    as (wls & h2 & E2 & Hw2 & Hnd2 & Hge2 & Hfr2 & Hlen2).
  assert (Hn2 : Forall2 (repNode h2) nls ns).
  { eapply Forall2_impl_in; [|exact Hn1].
    intros a b _ Hab. apply (repNode_agree h1 h2 a b Hab).
    intros l o Hl _. rewrite Hfr2; [exact Hl|]. eapply nth_error_lt; eauto. }
  destruct (loopH_refines nls wls Hnd1 Hnd2 MAX_ITERATIONS ns ws h2 Hn2 Hw2)
    as (h3 & E3 & Hn3 & Hw3 & Hfr3 & Hlen3).
  assert (Hframe : forall l, l < length h -> nth_error h3 l = nth_error h l).
  { intros l Hl. rewrite Hfr3.
    - rewrite Hfr2 by lia. now apply Hfr1.
    - lia.
    - intros Hin. specialize (Hge1 _ Hin). lia.
    - intros Hin. specialize (Hge2 _ Hin). lia. }
  exists nls, wls, h3. unfold propagateCircuitH.
  unfold bind at 1. rewrite E1.
  unfold bind at 1. rewrite E2.
  unfold bind at 1. rewrite (nodeMap_spec h2 nls ns Hn2).
  unfold bind at 1. rewrite E3. unfold ret.
  split; [reflexivity|]. split; [exact Hframe|].
  split; [|split; [|split; [exact Hn3|split; [exact Hw3|]]]].
  - eapply Forall2_impl_in; [|exact Hn].
    intros a b _ Hab. apply (repNode_agree h h3 a b Hab).
    intros l o Hl _. rewrite Hframe; [exact Hl|]. eapply nth_error_lt; eauto.
  - eapply Forall2_impl_in; [|exact Hw]. intros a b _ Hab. unfold repWire in *.
    rewrite Hframe; [exact Hab|]. eapply nth_error_lt; eauto.
  - apply propagateLoop_frame.
Qed.

(** The theorem at a store with a switch, a NOT gate and their wire. *)
Lemma propagateCircuit_pure_frame_witness :
  exists nodes' wires' h',
    propagateCircuitH [1; 3] [4] sampleStore = Some ((nodes', wires'), h') /\
    (forall l, l < length sampleStore ->
               nth_error h' l = nth_error sampleStore l) /\
    Forall2 (repNode h') nodes'
            (fst (propagateCircuit sampleNodes sampleWires)) /\
    Forall2 (repWire h') wires'
            (snd (propagateCircuit sampleNodes sampleWires)).
Proof.
  destruct (propagateCircuit_pure_frame sampleStore [1; 3] [4]
              sampleNodes sampleWires)
    as (nodes' & wires' & h' & E & Hfr & _ & _ & Hn & Hw & _).
  - constructor; [|constructor; [|constructor]].
    + eexists _, _. split; [reflexivity|]. split; reflexivity.
    + eexists _, _. split; [reflexivity|]. split; reflexivity.
  - constructor; [reflexivity|constructor].
  - exists nodes', wires', h'. auto.
Defined.

End PureFrame.

(* ================================================================== *)
(** * Properties of the minimizer *)
(* ================================================================== *)

Section CombineTerms.
Import QuineMcCluskey TermSemantics.

Lemma charAt_neq_Some x y :
  charAt_neq (Some x) (Some y) = if ascii_dec x y then false else true.
Proof.
  cbn. destruct (ascii_dec x y) as [->|Hne].
  - now rewrite Ascii.eqb_refl.
  - destruct (Ascii.eqb_spec x y); [contradiction|reflexivity].
Qed.

Lemma nth_error_middle {A} (pre : list A) (y : A) (r : list A) :
  nth_error (pre ++ y :: r) (length pre) = Some y.
Proof. rewrite nth_error_app2, Nat.sub_diag by lia. reflexivity. Qed.

(** Once a difference is recorded, the scan succeeds exactly when the rest
    of the two strings coincides. *)
Lemma findDiff_recorded (r1 : list ascii) :
  forall (r2 pre : list ascii) (d : nat),
    length r1 = length r2 ->
    findDiff (pre ++ r2) (length pre) r1 (Some d) =
    if list_eq_dec ascii_dec r1 r2 then Some (Some d) else None.
Proof.
  induction r1 as [|c r1 IH]; intros [|y r2] pre d Hlen; try discriminate.
  - cbn. now destruct (list_eq_dec ascii_dec [] []).
  - cbn [findDiff]. rewrite nth_error_middle, charAt_neq_Some.
    destruct (ascii_dec c y) as [->|Hne].
    + replace (pre ++ y :: r2) with ((pre ++ [y]) ++ r2)
        by now rewrite <- app_assoc.
      replace (S (length pre)) with (length (pre ++ [y]))
        by (rewrite length_app; cbn; lia).
      rewrite IH by (cbn in Hlen; lia).
      destruct (list_eq_dec ascii_dec r1 r2) as [->|Hne];
        destruct (list_eq_dec ascii_dec _ _) as [E|E]; try reflexivity.
      * congruence.
      * injection E as E. contradiction.
    + destruct (list_eq_dec ascii_dec _ _) as [E|E]; [|reflexivity].
      injection E as E _. contradiction.
Qed.

Lemma findDiff_found (r1 : list ascii) :
  forall (r2 pre : list ascii) (d : nat),
    length r1 = length r2 ->
    findDiff (pre ++ r2) (length pre) r1 None = Some (Some d) ->
    exists u x y v,
      r1 = u ++ x :: v /\ r2 = u ++ y :: v /\ x <> y /\
      d = length pre + length u.
Proof.
  induction r1 as [|c r1 IH]; intros [|y r2] pre d Hlen; try discriminate.
  cbn [findDiff]. rewrite nth_error_middle, charAt_neq_Some.
  destruct (ascii_dec c y) as [->|Hne].
  - replace (pre ++ y :: r2) with ((pre ++ [y]) ++ r2)
      by now rewrite <- app_assoc.
    replace (S (length pre)) with (length (pre ++ [y]))
      by (rewrite length_app; cbn; lia).
    intros H. apply IH in H; [|cbn in Hlen; lia].
    destruct H as (u & x & y' & v & -> & -> & Hxy & ->).
    exists (y :: u), x, y', v. repeat split; try assumption.
    rewrite length_app. cbn. lia.
  - replace (pre ++ y :: r2) with ((pre ++ [y]) ++ r2)
      by now rewrite <- app_assoc.
    replace (S (length pre)) with (length (pre ++ [y]))
      by (rewrite length_app; cbn; lia).
    rewrite findDiff_recorded by (cbn in Hlen; lia).
    destruct (list_eq_dec ascii_dec r1 r2) as [->|E]; [|discriminate].
    intros [= <-]. exists [], c, y, r2. repeat split; try assumption.
    cbn. lia.
Qed.

Lemma findDiff_split (u : list ascii) :
  forall (pre v : list ascii) (x y : ascii),
    x <> y ->
    findDiff (pre ++ u ++ y :: v) (length pre) (u ++ x :: v) None
    = Some (Some (length pre + length u)).
Proof.
  induction u as [|c u IH]; intros pre v x y Hxy.
  - cbn [app findDiff]. rewrite nth_error_middle, charAt_neq_Some.
    destruct (ascii_dec x y); [contradiction|].
    replace (pre ++ y :: v) with ((pre ++ [y]) ++ v)
      by now rewrite <- app_assoc.
    replace (S (length pre)) with (length (pre ++ [y]))
      by (rewrite length_app; cbn; lia).
    rewrite findDiff_recorded by reflexivity.
    destruct (list_eq_dec ascii_dec v v); [|contradiction].
    cbn. do 2 f_equal. lia.
  - cbn [app findDiff]. rewrite nth_error_middle, charAt_neq_Some.
    destruct (ascii_dec c c); [|contradiction].
    replace (pre ++ c :: u ++ y :: v) with ((pre ++ [c]) ++ u ++ y :: v)
      by now rewrite <- app_assoc.
    replace (S (length pre)) with (length (pre ++ [c]))
      by (rewrite length_app; cbn; lia).
    rewrite IH by assumption. rewrite length_app. cbn. do 2 f_equal. lia.
Qed.

(** combineTerms on strings of equal length: it yields [c] exactly when the
    two differ in a single position, [c] having '-' there. *)
Lemma combineTerms_combines (t1 t2 c : Term) :
  length t1 = length t2 ->
  combineTerms t1 t2 = Some c <-> combines t1 t2 c.
Proof.
  intros Hlen. unfold combineTerms. split.
  - destruct (findDiff t2 0 t1 None) as [[d|]|] eqn:E; try discriminate.
    intros [= <-].
    apply (findDiff_found t1 t2 [] d Hlen) in E.
    destruct E as (u & x & y & v & -> & -> & Hxy & ->).
    exists u, x, y, v. repeat split; try assumption.
    cbn [length Nat.add].
    rewrite firstn_app, firstn_all, Nat.sub_diag, app_nil_r.
    replace (length u + 1) with (length u + 1 + 0) by lia.
    rewrite skipn_app, skipn_all2 by lia.
    replace (length u + 1 + 0 - length u) with 1 by lia. reflexivity.
  - intros (u & x & y & v & -> & -> & Hxy & ->).
    pose proof (findDiff_split u [] v x y Hxy) as E.
    cbn [app length] in E. rewrite E. cbn [length Nat.add].
    rewrite firstn_app, firstn_all, Nat.sub_diag, app_nil_r.
    rewrite skipn_app, skipn_all2 by lia.
    replace (length u + 1 - length u) with 1 by lia. reflexivity.
Qed.

Lemma combines_sym t1 t2 c : combines t1 t2 c -> combines t2 t1 c.
Proof.
  intros (u & x & y & v & -> & -> & Hxy & ->).
  exists u, y, x, v. repeat split; congruence.
Qed.

Lemma combines_length t1 t2 c :
  combines t1 t2 c ->
  length t2 = length t1 /\ length c = length t1.
Proof.
  intros (u & x & y & v & -> & -> & _ & ->).
  rewrite !length_app. cbn. lia.
Qed.

Lemma combines_neq t1 t2 c : combines t1 t2 c -> t1 <> t2.
Proof.
  intros (u & x & y & v & -> & -> & Hxy & _) E.
  apply app_inv_head in E. congruence.
Qed.

End CombineTerms.

Section BinaryStrings.
Import QuineMcCluskey TermSemantics.
Local Open Scope N_scope.

Lemma pow2_succ (k : nat) : 2 ^ N.of_nat (S k) = 2 * 2 ^ N.of_nat k.
Proof. now rewrite Nat2N.inj_succ, N.pow_succ_r'. Qed.

Lemma posDigits_length_le (p : positive) :
  forall k : nat, N.pos p < 2 ^ N.of_nat k -> (length (posDigits p) <= k)%nat.
Proof.
  induction p as [q IH|q IH|]; intros [|k] H; cbn [posDigits];
    try (cbn in H; lia); try rewrite length_app; cbn [length].
  - rewrite pow2_succ in H. specialize (IH k ltac:(lia)). lia.
  - rewrite pow2_succ in H. specialize (IH k ltac:(lia)). lia.
  - lia.
Qed.

Lemma bitsMSB_zero (k : nat) : bitsMSB k 0 = repeat "0"%char k.
Proof.
  induction k as [|k IH]; [reflexivity|].
  cbn [bitsMSB]. change (N.div2 0) with 0. rewrite IH. cbn [N.odd].
  now rewrite <- repeat_cons.
Qed.

Lemma pad_posDigits (p : positive) :
  forall k : nat,
    (length (posDigits p) <= k)%nat ->
    repeat "0"%char (k - length (posDigits p)) ++ posDigits p
    = bitsMSB k (N.pos p).
Proof.
  induction p as [q IH|q IH|]; intros [|k] H; cbn [posDigits] in *;
    try rewrite length_app in *; cbn [length] in *; try lia.
  - cbn [bitsMSB]. change (N.div2 (N.pos q~1)) with (N.pos q).
    rewrite <- IH by lia. cbn [N.odd].
    rewrite <- app_assoc. do 2 f_equal. lia.
  - cbn [bitsMSB]. change (N.div2 (N.pos q~0)) with (N.pos q).
    rewrite <- IH by lia. cbn [N.odd].
    rewrite <- app_assoc. do 2 f_equal. lia.
  - cbn [bitsMSB]. change (N.div2 1) with 0. rewrite bitsMSB_zero.
    cbn [N.odd]. do 2 f_equal. lia.
Qed.

(** [m.toString(2).padStart(numVars, '0')] is the [numVars]-bit numeral. *)
Lemma padStart_bits (numVars : nat) (m : N) :
  (1 <= numVars)%nat -> m < 2 ^ N.of_nat numVars ->
  padStart (toString2 m) numVars "0"%char = bitsMSB numVars m.
Proof.
  intros Hn Hm. unfold padStart. destruct m as [|p]; cbn [toString2].
  - rewrite bitsMSB_zero. cbn [length].
    replace numVars with (numVars - 1 + 1)%nat at 2 by lia.
    now rewrite repeat_app.
  - apply pad_posDigits. now apply posDigits_length_le.
Qed.

Lemma bitsMSB_length (k : nat) (m : N) : length (bitsMSB k m) = k.
Proof.
  revert m. induction k as [|k IH]; intros m; [reflexivity|].
  cbn [bitsMSB]. rewrite length_app, IH. cbn. lia.
Qed.

Lemma productFrom_app (n : nat) (a : N) (p q : Term) (i : nat) :
  productFrom n a i (p ++ q) =
  productFrom n a i p && productFrom n a (i + length p) q.
Proof.
  revert i. induction p as [|c p IH]; intros i; cbn [app productFrom length].
  - now rewrite Nat.add_0_r.
  - rewrite IH, andb_assoc. do 2 f_equal. lia.
Qed.

Lemma varValue_shift (k : nat) (a : N) (i : nat) :
  (i < k)%nat -> varValue (S k) a i = varValue k (N.div2 a) i.
Proof.
  intros Hi. unfold varValue. rewrite N.testbit_div2, <- Nat2N.inj_succ.
  do 2 f_equal. lia.
Qed.

Lemma productFrom_shift (k : nat) (a : N) (t : Term) :
  forall i : nat,
    (i + length t <= k)%nat ->
    productFrom (S k) a i t = productFrom k (N.div2 a) i t.
Proof.
  induction t as [|c t IH]; intros i Hi; [reflexivity|].
  cbn [productFrom length] in *. rewrite IH by lia.
  unfold literalHolds. now rewrite varValue_shift by lia.
Qed.

Lemma N_div2_lt (a x : N) : a < 2 * x -> N.div2 a < x.
Proof.
  intros H. rewrite N.div2_div. apply N.Div0.div_lt_upper_bound. lia.
Qed.

(** The numeral of [m] is true under exactly the assignment [m]. *)
Lemma evalTerm_bits (k : nat) :
  forall a m : N,
    a < 2 ^ N.of_nat k -> m < 2 ^ N.of_nat k ->
    evalTerm k (bitsMSB k m) a = true <-> a = m.
Proof.
  unfold evalTerm. induction k as [|k IH]; intros a m Ha Hm.
  - cbn in *. split; [lia|reflexivity].
  - rewrite pow2_succ in Ha, Hm. cbn [bitsMSB].
    rewrite productFrom_app, bitsMSB_length, andb_true_iff.
    rewrite productFrom_shift by (rewrite bitsMSB_length; lia).
    rewrite (IH (N.div2 a) (N.div2 m)) by now apply N_div2_lt.
    cbn [productFrom Nat.add]. rewrite andb_true_r.
    unfold literalHolds, varValue.
    replace (N.of_nat (S k - 1 - k)) with 0 by lia.
    rewrite N.bit0_odd.
    pose proof (N.div2_odd a) as Ea. pose proof (N.div2_odd m) as Em.
    split.
    + intros [Hd Hl]. rewrite Ea, Em, Hd. f_equal.
      destruct (N.odd m), (N.odd a); cbn in Hl; congruence.
    + intros ->. split; [reflexivity|].
      destruct (N.odd m); reflexivity.
Qed.

End BinaryStrings.

Section MinimizerSets.
Import QuineMcCluskey TermSemantics.

Lemma Term_eqb_eq (a b : Term) : Term_eqb a b = true <-> a = b.
Proof.
  unfold Term_eqb. destruct (list_eq_dec ascii_dec a b); split; congruence.
Qed.

Lemma setHas_In (x : Term) (s : list Term) : setHas x s = true <-> In x s.
Proof.
  unfold setHas. rewrite existsb_exists. split.
  - intros (y & Hy & E). apply Term_eqb_eq in E. now subst.
  - intros H. exists x. split; [exact H|]. now apply Term_eqb_eq.
Qed.

Lemma setAdd_In (x y : Term) (s : list Term) :
  In x (setAdd y s) <-> x = y \/ In x s.
Proof.
  unfold setAdd. fold (setHas y s).
  destruct (setHas y s) eqn:E.
  - apply setHas_In in E. split; [auto|]. intros [->|H]; assumption.
  - rewrite in_app_iff. cbn. intuition.
Qed.

Lemma setAdd_NoDup (y : Term) (s : list Term) : NoDup s -> NoDup (setAdd y s).
Proof.
  intros H. unfold setAdd. fold (setHas y s).
  destruct (setHas y s) eqn:E; [exact H|].
  apply NoDup_app; [exact H|repeat constructor; easy|].
  intros a Ha [<-|[]]. apply setHas_In in Ha. congruence.
Qed.

Lemma innerLoop_fold (ti : Term) (rest : list Term) acc :
  innerLoop ti rest acc = fold_left pairStep (map (pair ti) rest) acc.
Proof.
  revert acc. induction rest as [|tj rest IH]; intros acc; [reflexivity|].
  cbn [innerLoop map fold_left]. now rewrite IH.
Qed.

Lemma outerLoop_fold (cur : list Term) acc :
  outerLoop cur acc = fold_left pairStep (orderedPairs cur) acc.
Proof.
  revert acc. induction cur as [|ti rest IH]; intros acc; [reflexivity|].
  cbn [outerLoop orderedPairs]. now rewrite fold_left_app, IH, innerLoop_fold.
Qed.

Lemma fold_pairStep_next (ps : list (Term * Term)) : forall acc x,
  In x (fst (fold_left pairStep ps acc)) <->
  In x (fst acc) \/
  exists ti tj, In (ti, tj) ps /\ combineTerms ti tj = Some x.
Proof.
  induction ps as [|[a b] ps IH]; intros acc x; cbn [fold_left].
  - split; [auto|]. intros [H|(ti & tj & [] & _)]. exact H.
  - rewrite IH. unfold pairStep. cbn [fst snd].
    destruct (combineTerms a b) as [c|] eqn:E; cbn [fst].
    + rewrite setAdd_In. split.
      * intros [[->|H]|(ti & tj & H & Hc)]; auto.
        -- right. exists a, b. split; [now left|exact E].
        -- right. exists ti, tj. split; [now right|exact Hc].
      * intros [H|(ti & tj & [[= <- <-]|H] & Hc)]; auto.
        -- left. left. congruence.
        -- right. eauto.
    + split.
      * intros [H|(ti & tj & H & Hc)]; auto.
        right. exists ti, tj. split; [now right|exact Hc].
      * intros [H|(ti & tj & [[= <- <-]|H] & Hc)]; auto.
        -- congruence.
        -- right. eauto.
Qed.

Lemma fold_pairStep_used (ps : list (Term * Term)) : forall acc x,
  In x (snd (fold_left pairStep ps acc)) <->
  In x (snd acc) \/
  exists ti tj c, In (ti, tj) ps /\ combineTerms ti tj = Some c /\
                  (x = ti \/ x = tj).
Proof.
  induction ps as [|[a b] ps IH]; intros acc x; cbn [fold_left].
  - split; [auto|]. intros [H|(ti & tj & c & [] & _)]. exact H.
  - rewrite IH. unfold pairStep. cbn [fst snd].
    destruct (combineTerms a b) as [c|] eqn:E; cbn [snd].
    + rewrite !setAdd_In. split.
      * intros [[->|[->|H]]|(ti & tj & c' & H & Hc)]; auto.
        -- right. exists a, b, c. split; [now left|auto].
        -- right. exists a, b, c. split; [now left|auto].
        -- right. exists ti, tj, c'. split; [now right|exact Hc].
      * intros [H|(ti & tj & c' & [[= <- <-]|H] & Hc & Hx)]; auto.
        -- left. destruct Hx; auto.
        -- right. eauto 6.
    + split.
      * intros [H|(ti & tj & c' & H & Hc)]; auto.
        right. exists ti, tj, c'. split; [now right|exact Hc].
      * intros [H|(ti & tj & c' & [[= <- <-]|H] & Hc & Hx)]; auto.
        -- congruence.
        -- right. eauto 6.
Qed.

Lemma fold_pairStep_NoDup (ps : list (Term * Term)) : forall acc,
  NoDup (fst acc) -> NoDup (fst (fold_left pairStep ps acc)).
Proof.
  induction ps as [|p ps IH]; intros acc H; [exact H|].
  cbn [fold_left]. apply IH. unfold pairStep.
  destruct (combineTerms _ _); [|exact H]. cbn [fst]. now apply setAdd_NoDup.
Qed.

Lemma orderedPairs_In (cur : list Term) (a b : Term) :
  In (a, b) (orderedPairs cur) -> In a cur /\ In b cur.
Proof.
  induction cur as [|t rest IH]; cbn [orderedPairs]; [easy|].
  rewrite in_app_iff, in_map_iff. intros [(y & [= <- <-] & Hy)|H].
  - split; [now left|now right].
  - destruct (IH H). split; now right.
Qed.

Lemma orderedPairs_total (cur : list Term) (a b : Term) :
  In a cur -> In b cur -> a <> b ->
  In (a, b) (orderedPairs cur) \/ In (b, a) (orderedPairs cur).
Proof.
  induction cur as [|t rest IH]; [easy|].
  cbn [orderedPairs]. intros [->|Ha] [->|Hb] Hne.
  - congruence.
  - left. apply in_or_app. left. now apply in_map.
  - right. apply in_or_app. left. now apply in_map.
  - destruct (IH Ha Hb Hne); [left|right]; apply in_or_app; now right.
Qed.

Section Uniform.
Variable n : nat.

(** [nextTerms] after the nested loops: the combinations of two current terms. *)
Lemma next_spec (cur : list Term) (x : Term) :
  uniform n cur ->
  In x (fst (outerLoop cur ([], []))) <->
  exists t1 t2, In t1 cur /\ In t2 cur /\ combines t1 t2 x.
Proof.
  intros Hu. rewrite outerLoop_fold, fold_pairStep_next. cbn [fst]. split.
  - intros [[]|(ti & tj & Hp & Hc)].
    apply orderedPairs_In in Hp. destruct Hp as [Hi Hj].
    exists ti, tj. repeat split; try assumption.
    apply combineTerms_combines; [|exact Hc].
    now rewrite (Hu ti Hi), (Hu tj Hj).
  - intros (t1 & t2 & H1 & H2 & Hc). right.
    assert (Hlen : length t1 = length t2) by now rewrite (Hu t1 H1), (Hu t2 H2).
    destruct (orderedPairs_total cur t1 t2 H1 H2 (combines_neq _ _ _ Hc)) as [Hp|Hp].
    + exists t1, t2. split; [exact Hp|]. now apply combineTerms_combines.
    + exists t2, t1. split; [exact Hp|].
      apply combineTerms_combines; [congruence|]. now apply combines_sym.
Qed.

(** [usedTerms] after the nested loops: the current terms that combine with
    some other current term. *)
Lemma used_spec (cur : list Term) (x : Term) :
  uniform n cur ->
  In x (snd (outerLoop cur ([], []))) <->
  In x cur /\ exists t2 c, In t2 cur /\ combines x t2 c.
Proof.
  intros Hu. rewrite outerLoop_fold, fold_pairStep_used. cbn [snd]. split.
  - intros [[]|(ti & tj & c & Hp & Hc & Hx)].
    apply orderedPairs_In in Hp. destruct Hp as [Hi Hj].
    assert (Hcomb : combines ti tj c).
    { apply combineTerms_combines; [|exact Hc].
      now rewrite (Hu ti Hi), (Hu tj Hj). }
    destruct Hx as [->| ->].
    + split; [exact Hi|]. exists tj, c. auto.
    + split; [exact Hj|]. exists ti, c. split; [exact Hi|].
      now apply combines_sym.
  - intros (Hx & t2 & c & H2 & Hc). right.
    assert (Hlen : length x = length t2) by now rewrite (Hu x Hx), (Hu t2 H2).
    destruct (orderedPairs_total cur x t2 Hx H2 (combines_neq _ _ _ Hc)) as [Hp|Hp].
    + exists x, t2, c. split; [exact Hp|]. split; [|now left].
      now apply combineTerms_combines.
    + exists t2, x, c. split; [exact Hp|]. split; [|now right].
      apply combineTerms_combines; [congruence|]. now apply combines_sym.
Qed.

Lemma next_uniform (cur : list Term) :
  uniform n cur -> uniform n (fst (outerLoop cur ([], []))).
Proof.
  intros Hu x Hx. apply (next_spec cur x Hu) in Hx.
  destruct Hx as (t1 & t2 & H1 & _ & Hc).
  destruct (combines_length _ _ _ Hc) as [_ ->]. now apply Hu.
Qed.

End Uniform.

Lemma next_NoDup (cur : list Term) : NoDup (fst (outerLoop cur ([], []))).
Proof. rewrite outerLoop_fold. apply fold_pairStep_NoDup. constructor. Qed.

Lemma collectPrimes_In (cur used : list Term) : forall pis x,
  In x (collectPrimes cur used pis) <->
  In x pis \/ (In x cur /\ ~ In x used).
Proof.
  unfold collectPrimes.
  induction cur as [|t cur IH]; intros pis x; cbn [fold_left].
  - cbn. tauto.
  - rewrite IH. destruct (setHas t used) eqn:E.
    + apply setHas_In in E. cbn [In]. split.
      * intros [H|[H1 H2]]; auto.
      * intros [H|[[->|H1] H2]]; auto. contradiction.
    + assert (Hn : ~ In t used).
      { intros H. apply setHas_In in H. congruence. }
      rewrite setAdd_In. cbn [In]. split.
      * intros [[->|H]|[H1 H2]]; auto.
      * intros [H|[[->|H1] H2]]; auto.
Qed.

Lemma collectPrimes_NoDup (cur used : list Term) : forall pis,
  NoDup pis -> NoDup (collectPrimes cur used pis).
Proof.
  unfold collectPrimes.
  induction cur as [|t cur IH]; intros pis H; [exact H|].
  cbn [fold_left]. apply IH. destruct (setHas t used); [exact H|].
  now apply setAdd_NoDup.
Qed.

End MinimizerSets.

Section MinimizerCover.
Import QuineMcCluskey TermSemantics.

Variable n : nat.

Lemma evalSum_exists (l : list Term) (a : N) :
  evalSum n l a = true <-> exists t, In t l /\ evalTerm n t a = true.
Proof. unfold evalSum. apply existsb_exists. Qed.

Lemma literal_either (a : N) (i : nat) (x y : ascii) :
  x <> y -> literalHolds n a i x || literalHolds n a i y = true.
Proof.
  intros Hxy. unfold literalHolds.
  destruct (Ascii.eqb_spec x "1"), (Ascii.eqb_spec x "0"),
           (Ascii.eqb_spec y "1"), (Ascii.eqb_spec y "0");
    subst; try congruence; destruct (varValue n a i); reflexivity.
Qed.

(** A combined term is true exactly where one of its two parents is. *)
Lemma evalTerm_combines (t1 t2 c : Term) (a : N) :
  combines t1 t2 c ->
  evalTerm n c a = evalTerm n t1 a || evalTerm n t2 a.
Proof.
  intros (u & x & y & v & -> & -> & Hxy & ->). unfold evalTerm.
  rewrite !productFrom_app. cbn [productFrom].
  pose proof (literal_either a (0 + length u) x y Hxy) as H.
  change (literalHolds n a (0 + length u) "-") with true.
  destruct (productFrom n a 0 u), (productFrom n a (S (0 + length u)) v),
           (literalHolds n a (0 + length u) x),
           (literalHolds n a (0 + length u) y); cbn in *; congruence.
Qed.

(** One pass of the loop neither loses nor gains covered assignments. *)
Lemma pass_cover (cur pis : list Term) (a : N) :
  uniform n cur ->
  let r := outerLoop cur ([], []) in
  (evalSum n (fst r) a = true \/
   evalSum n (collectPrimes cur (snd r) pis) a = true)
  <-> (evalSum n cur a = true \/ evalSum n pis a = true).
Proof.
  intros Hu r. rewrite !evalSum_exists. split.
  - intros [(x & Hx & Hev)|(x & Hx & Hev)].
    + apply (next_spec n cur x Hu) in Hx.
      destruct Hx as (t1 & t2 & H1 & H2 & Hc).
      rewrite (evalTerm_combines _ _ _ a Hc) in Hev.
      apply orb_true_iff in Hev. destruct Hev as [Hev|Hev]; left; eauto.
    + apply collectPrimes_In in Hx. destruct Hx as [Hx|[Hx _]]; eauto.
  - intros [(t & Ht & Hev)|(t & Ht & Hev)].
    + destruct (in_dec (list_eq_dec ascii_dec) t (snd r)) as [Hused|Hfree].
      * apply (used_spec n cur t Hu) in Hused.
        destruct Hused as (_ & t2 & c & H2 & Hc). left. exists c. split.
        -- apply (next_spec n cur c Hu). eauto.
        -- rewrite (evalTerm_combines _ _ _ a Hc), Hev. reflexivity.
      * right. exists t. split; [|exact Hev].
        apply collectPrimes_In. auto.
    + right. exists t. split; [|exact Hev]. apply collectPrimes_In. auto.
Qed.

(** What the loop returns covers exactly what it started from. *)
Lemma qmLoop_cover (a : N) : forall fuel cur pis res,
  uniform n cur ->
  qmLoop fuel cur pis = Some res ->
  (evalSum n res a = true <-> evalSum n cur a = true \/ evalSum n pis a = true).
Proof.
  induction fuel as [|fuel IH]; intros cur pis res Hu Hres.
  - destruct cur; [|discriminate]. injection Hres as <-.
    cbn. split; [auto|]. intros [H|H]; [discriminate|exact H].
  - destruct cur as [|t0 cur']; cbn [qmLoop] in Hres.
    { injection Hres as <-. cbn. split; [auto|].
      intros [H|H]; [discriminate|exact H]. }
    rewrite <- (pass_cover (t0 :: cur') pis a Hu). cbv zeta.
    destruct (fst (outerLoop (t0 :: cur') ([], []))) as [|x next] eqn:E.
    + injection Hres as <-. cbn. split; [auto|].
      intros [H|H]; [discriminate|exact H].
    + apply IH in Hres; [exact Hres|].
      rewrite <- E. now apply next_uniform.
Qed.

Lemma dashes_app (p q : Term) : dashes (p ++ q) = dashes p + dashes q.
Proof. unfold dashes. now rewrite filter_app, length_app. Qed.

Lemma dashes_cons (c : ascii) (t : Term) :
  dashes (c :: t) = (if Ascii.eqb c "-" then 1 else 0) + dashes t.
Proof. unfold dashes. cbn [filter]. now destruct (Ascii.eqb c "-"). Qed.

Lemma dashes_le (t : Term) : dashes t <= length t.
Proof. unfold dashes. apply filter_length_le. Qed.

(** Combining two terms with the same number of '-' adds one. *)
Lemma dashes_combines (t1 t2 c : Term) :
  combines t1 t2 c -> dashes t1 = dashes t2 -> dashes c = S (dashes t1).
Proof.
  intros (u & x & y & v & -> & -> & Hxy & ->).
  rewrite !dashes_app, !dashes_cons. cbn [Ascii.eqb Bool.eqb].
  destruct (Ascii.eqb_spec x "-"), (Ascii.eqb_spec y "-"); subst; try lia.
  congruence.
Qed.

(** The loop ends within [n + 1] passes: every pass adds a '-' to the terms
    it carries on. *)
Lemma qmLoop_terminates : forall fuel cur pis k,
  uniform n cur ->
  (forall t, In t cur -> dashes t = k) ->
  n < fuel + k ->
  exists res, qmLoop fuel cur pis = Some res.
Proof.
  induction fuel as [|fuel IH]; intros cur pis k Hu Hd Hf.
  - destruct cur as [|t cur]; [eexists; reflexivity|].
    pose proof (dashes_le t) as Hle.
    rewrite (Hd t (or_introl eq_refl)), (Hu t (or_introl eq_refl)) in Hle. lia.
  - destruct cur as [|t0 cur']; [eexists; reflexivity|].
    cbn [qmLoop].
    destruct (fst (outerLoop (t0 :: cur') ([], []))) as [|x next] eqn:E;
      [eexists; reflexivity|].
    assert (Hnext : forall t, In t (x :: next) -> dashes t = S k).
    { intros t Ht. rewrite <- E in Ht. apply (next_spec n _ t Hu) in Ht.
      destruct Ht as (t1 & t2 & H1 & H2 & Hc).
      assert (Heq : dashes t1 = dashes t2) by now rewrite (Hd t1 H1), (Hd t2 H2).
      rewrite (dashes_combines _ _ _ Hc Heq). f_equal. now apply Hd. }
    apply (IH _ _ (S k)); [|exact Hnext|].
    + rewrite <- E. now apply next_uniform.
    + pose proof (dashes_le x) as Hle.
      rewrite (Hnext x (or_introl eq_refl)) in Hle.
      assert (Hx : length x = n).
      { apply (next_uniform n _ Hu). rewrite E. now left. }
      lia.
Qed.

Lemma qmLoop_NoDup : forall fuel cur pis res,
  NoDup pis -> qmLoop fuel cur pis = Some res -> NoDup res.
Proof.
  induction fuel as [|fuel IH]; intros cur pis res Hp Hres.
  - destruct cur; [|discriminate]. now injection Hres as <-.
  - destruct cur as [|t0 cur']; cbn [qmLoop] in Hres.
    { now injection Hres as <-. }
    destruct (fst (outerLoop (t0 :: cur') ([], []))) as [|x next].
    + match type of Hres with
      | Some ?a = Some ?b => assert (E : a = b) by congruence; rewrite <- E
      end.
      now apply collectPrimes_NoDup.
    + eapply IH; [|exact Hres]. now apply collectPrimes_NoDup.
Qed.

(** A result reached within some budget is the result for every larger
    budget: it is what the unbounded [while] loop computes. *)
Lemma qmLoop_more_fuel : forall fuel cur pis res k,
  qmLoop fuel cur pis = Some res -> qmLoop (fuel + k) cur pis = Some res.
Proof.
  induction fuel as [|fuel IH]; intros cur pis res k H.
  - destruct cur; [|discriminate]. destruct k; exact H.
  - destruct cur as [|t0 cur']; [exact H|].
    cbn [Nat.add qmLoop] in *.
    destruct (fst (outerLoop (t0 :: cur') ([], []))); [exact H|].
    now apply IH.
Qed.

Lemma solveQuineMcCluskey_more_fuel (fuel k numVars : nat) (minterms : list N) res :
  solveQuineMcCluskey fuel numVars minterms = Some res ->
  solveQuineMcCluskey (fuel + k) numVars minterms = Some res.
Proof.
  unfold solveQuineMcCluskey.
  destruct (length minterms =? 0); [easy|]. destruct (N.eqb _ _); [easy|].
  destruct (qmLoop fuel _ _) as [r|] eqn:E; [|discriminate].
  now rewrite (qmLoop_more_fuel _ _ _ _ k E).
Qed.

End MinimizerCover.

Section MinimizerCorrect.
Import QuineMcCluskey TermSemantics.

Lemma fold_setAdd_In {A} (f : A -> Term) (ms : list A) : forall acc x,
  In x (fold_left (fun keys m => setAdd (f m) keys) ms acc) <->
  In x acc \/ exists m, In m ms /\ x = f m.
Proof.
  induction ms as [|m ms IH]; intros acc x; cbn [fold_left].
  - split; [auto|]. intros [H|(m & [] & _)]. exact H.
  - rewrite IH, setAdd_In. split.
    + intros [[->|H]|(m' & H & E)]; auto.
      * right. exists m. split; [now left|reflexivity].
      * right. exists m'. split; [now right|exact E].
    + intros [H|(m' & [<-|H] & E)]; auto. right. eauto.
Qed.

Lemma fold_setAdd_NoDup {A} (f : A -> Term) (ms : list A) : forall acc,
  NoDup acc -> NoDup (fold_left (fun keys m => setAdd (f m) keys) ms acc).
Proof.
  induction ms as [|m ms IH]; intros acc H; [exact H|].
  cbn [fold_left]. apply IH. now apply setAdd_NoDup.
Qed.

Lemma initialTerms_In (n : nat) (ms : list N) (x : Term) :
  In x (initialTerms n ms) <->
  exists m, In m ms /\ x = padStart (toString2 m) n "0"%char.
Proof.
  unfold initialTerms. rewrite fold_setAdd_In. cbn. tauto.
Qed.

Lemma bitsMSB_dashes (k : nat) (m : N) : dashes (bitsMSB k m) = 0.
Proof.
  revert m. induction k as [|k IH]; intros m; [reflexivity|].
  cbn [bitsMSB]. rewrite dashes_app, IH. now destruct (N.odd m).
Qed.

Lemma productFrom_dashes (n : nat) (a : N) (k : nat) :
  forall i, productFrom n a i (repeat "-"%char k) = true.
Proof. induction k as [|k IH]; intros i; cbn; [reflexivity|apply IH]. Qed.

Lemma insertSorted_In (y : Term) (l : list Term) (x : Term) :
  In x (insertSorted y l) <-> x = y \/ In x l.
Proof.
  induction l as [|z l IH]; cbn [insertSorted].
  - cbn. intuition.
  - destruct (Term_leb y z); cbn [In]; [intuition|]. rewrite IH. intuition.
Qed.

Lemma sort_In (l : list Term) (x : Term) : In x (sort l) <-> In x l.
Proof.
  unfold sort. induction l as [|y l IH]; cbn [fold_right]; [reflexivity|].
  rewrite insertSorted_In, IH. cbn. intuition.
Qed.

(** A duplicate-free list of [2^n] values below [2^n] holds all of them. *)
Lemma full_table (n : nat) (ms : list N) :
  NoDup ms ->
  (forall m, In m ms -> (m < 2 ^ N.of_nat n)%N) ->
  N.of_nat (length ms) = (2 ^ N.of_nat n)%N ->
  forall a, (a < 2 ^ N.of_nat n)%N -> In a ms.
Proof.
  intros Hnd Hr Hlen a Ha.
  set (all := map N.of_nat (seq 0 (length ms))).
  assert (Hincl : incl ms all).
  { intros m Hm. specialize (Hr m Hm). unfold all.
    apply in_map_iff. exists (N.to_nat m). split; [apply N2Nat.id|].
    apply in_seq. lia. }
  assert (Hback : incl all ms).
  { apply NoDup_length_incl; [exact Hnd| |exact Hincl].
    unfold all. now rewrite length_map, length_seq. }
  apply Hback. unfold all. apply in_map_iff.
  exists (N.to_nat a). split; [apply N2Nat.id|]. apply in_seq. lia.
Qed.

Section InRange.
Variables (numVars : nat) (minterms : list N).
Hypothesis Hn : 1 <= numVars.
Hypothesis Hrange : forall m, In m minterms -> (m < 2 ^ N.of_nat numVars)%N.

Lemma initialTerms_bits (x : Term) :
  In x (initialTerms numVars minterms) <->
  exists m, In m minterms /\ x = bitsMSB numVars m.
Proof.
  rewrite initialTerms_In. split; intros (m & Hm & ->); exists m;
    (split; [exact Hm|]); [|symmetry]; apply padStart_bits; auto.
Qed.

Lemma initialTerms_uniform : uniform numVars (initialTerms numVars minterms).
Proof.
  intros t Ht. apply initialTerms_bits in Ht. destruct Ht as (m & _ & ->).
  apply bitsMSB_length.
Qed.

Lemma initialTerms_cover (a : N) :
  (a < 2 ^ N.of_nat numVars)%N ->
  evalSum numVars (initialTerms numVars minterms) a = true <-> In a minterms.
Proof.
  intros Ha. rewrite evalSum_exists. split.
  - intros (t & Ht & Hev). apply initialTerms_bits in Ht.
    destruct Ht as (m & Hm & ->).
    apply evalTerm_bits in Hev; auto. now subst.
  - intros Hin. exists (bitsMSB numVars a). split.
    + apply initialTerms_bits. eauto.
    + now apply evalTerm_bits.
Qed.

Lemma qmLoop_initial_total (fuel : nat) :
  numVars < fuel ->
  exists res, qmLoop fuel (initialTerms numVars minterms) [] = Some res.
Proof.
  intros Hf. apply (qmLoop_terminates numVars fuel _ _ 0).
  - exact initialTerms_uniform.
  - intros t Ht. apply initialTerms_bits in Ht. destruct Ht as (m & _ & ->).
    apply bitsMSB_dashes.
  - lia.
Qed.

End InRange.

(** C1: for every numVars >= 1 (in particular 1, 2, 3, 4) and every
    duplicate-free list of minterms below 2^numVars, solveQuineMcCluskey
    returns (any pass budget above numVars suffices) a term sequence whose OR
    is true under an assignment below 2^numVars exactly when that assignment
    is one of the minterms. *)
Theorem solveQuineMcCluskey_equivalent
        (fuel numVars : nat) (minterms : list N) :
  1 <= numVars -> numVars < fuel ->
  NoDup minterms ->
  (forall m, In m minterms -> (m < 2 ^ N.of_nat numVars)%N) ->
  exists terms,
    solveQuineMcCluskey fuel numVars minterms = Some terms /\
    forall a, (a < 2 ^ N.of_nat numVars)%N ->
      (evalSum numVars terms a = true <-> In a minterms).
Proof.
  intros Hn Hf Hnd Hr. unfold solveQuineMcCluskey.
  destruct (Nat.eqb_spec (length minterms) 0) as [E0|E0].
  - exists []. split; [reflexivity|]. intros a _.
    destruct minterms; [|discriminate]. cbn. split; [discriminate|easy].
  - destruct (N.eqb_spec (N.of_nat (length minterms)) (2 ^ N.of_nat numVars))
      as [Efull|Efull].
    + exists [repeat "-"%char numVars]. split; [reflexivity|]. intros a Ha.
      split; [intros _; now apply (full_table numVars)|].
      intros _. cbn. unfold evalTerm. now rewrite productFrom_dashes.
    + destruct (qmLoop_initial_total numVars minterms Hn Hr fuel Hf) as [res Hres].
      rewrite Hres. cbn [option_map]. exists (sort res).
      split; [reflexivity|]. intros a Ha.
      rewrite <- (initialTerms_cover numVars minterms Hn Hr a Ha).
      pose proof (qmLoop_cover numVars a fuel _ _ res
                    (initialTerms_uniform numVars minterms Hn Hr) Hres) as Hc.
      rewrite !evalSum_exists in *.
      split.
      * intros (t & Ht & Hev). apply (proj1 (sort_In _ _)) in Ht.
        destruct (proj1 Hc (ex_intro _ t (conj Ht Hev))) as [H|(t' & [] & _)].
        exact H.
      * intros H. destruct (proj2 Hc (or_introl H)) as (t & Ht & Hev).
        exists t. split; [now apply sort_In|exact Hev].
Qed.

(** The theorem at the XOR pattern of two variables. *)
Lemma solveQuineMcCluskey_equivalent_witness :
  exists terms,
    solveQuineMcCluskey 3 2 [1%N; 2%N] = Some terms /\
    forall a, (a < 2 ^ N.of_nat 2)%N ->
      (evalSum 2 terms a = true <-> In a [1%N; 2%N]).
Proof.
  apply (solveQuineMcCluskey_equivalent 3 2 [1%N; 2%N]).
  - lia.
  - lia.
  - repeat constructor; cbn; intuition discriminate.
  - intros m [<-|[<-|[]]]; reflexivity.
Defined.

End MinimizerCorrect.

Section MinimizerOrder.
Import QuineMcCluskey TermSemantics.

(** From [Some a = Some b], replace [b] by [a] without reducing either. *)
Ltac some_inj H :=
  match type of H with
  | Some ?a = Some ?b =>
      let E := fresh "E" in
      assert (E : a = b) by congruence; subst b
  end.

Lemma sameSet_nil_r (l : list Term) : sameSet l [] -> l = [].
Proof.
  destruct l as [|t l]; [reflexivity|]. intros H.
  destruct (proj1 (H t) (or_introl eq_refl)).
Qed.

Lemma sameSet_sym (l1 l2 : list Term) : sameSet l1 l2 -> sameSet l2 l1.
Proof. intros H x. symmetry. apply H. Qed.

Lemma sameSet_uniform (n : nat) (l1 l2 : list Term) :
  sameSet l1 l2 -> uniform n l1 -> uniform n l2.
Proof. intros H Hu t Ht. apply Hu, H, Ht. Qed.

Lemma pass_sameSet (n : nat) (cur1 cur2 pis1 pis2 : list Term) :
  uniform n cur1 -> sameSet cur1 cur2 -> sameSet pis1 pis2 ->
  sameSet (fst (outerLoop cur1 ([], []))) (fst (outerLoop cur2 ([], []))) /\
  sameSet (collectPrimes cur1 (snd (outerLoop cur1 ([], []))) pis1)
          (collectPrimes cur2 (snd (outerLoop cur2 ([], []))) pis2).
Proof.
  intros Hu1 Hc Hp.
  assert (Hu2 : uniform n cur2) by now apply (sameSet_uniform n cur1).
  assert (Hused : sameSet (snd (outerLoop cur1 ([], [])))
                          (snd (outerLoop cur2 ([], [])))).
  { intros x. rewrite (used_spec n cur1 x Hu1), (used_spec n cur2 x Hu2).
    split; intros (Hx & t2 & c & H2 & Hcomb);
      (split; [now apply Hc|]); exists t2, c; (split; [now apply Hc|assumption]). }
  split.
  - intros x. rewrite (next_spec n cur1 x Hu1), (next_spec n cur2 x Hu2).
    split; intros (t1 & t2 & H1 & H2 & Hcomb); exists t1, t2;
      (split; [now apply Hc|]); (split; [now apply Hc|assumption]).
  - intros x. rewrite !collectPrimes_In.
    split; (intros [H|[H1 H2]]; [left; now apply Hp|right]);
      (split; [now apply Hc|]); intros Hu; apply H2; now apply Hused.
Qed.

(** The set of prime implicants does not depend on the order of the terms. *)
Lemma qmLoop_sameSet (n : nat) : forall fuel cur1 cur2 pis1 pis2 r1 r2,
  uniform n cur1 -> sameSet cur1 cur2 -> sameSet pis1 pis2 ->
  qmLoop fuel cur1 pis1 = Some r1 ->
  qmLoop fuel cur2 pis2 = Some r2 ->
  sameSet r1 r2.
Proof.
  induction fuel as [|fuel IH]; intros cur1 cur2 pis1 pis2 r1 r2 Hu Hc Hp H1 H2.
  - destruct cur1; [|discriminate]. destruct cur2; [|discriminate].
    cbn in H1, H2. some_inj H1. some_inj H2. exact Hp.
  - destruct cur1 as [|a1 l1].
    { rewrite (sameSet_nil_r cur2 (sameSet_sym _ _ Hc)) in H2.
      cbn in H1, H2. some_inj H1. some_inj H2. exact Hp. }
    destruct cur2 as [|a2 l2].
    { discriminate (sameSet_nil_r _ Hc). }
    cbn [qmLoop] in H1, H2.
    destruct (pass_sameSet n (a1 :: l1) (a2 :: l2) pis1 pis2 Hu Hc Hp)
      as [Hnext Hpis].
    pose proof (next_uniform n _ Hu) as Hun.
    destruct (fst (outerLoop (a1 :: l1) ([], []))) as [|x1 n1] eqn:E1.
    + rewrite (sameSet_nil_r _ (sameSet_sym _ _ Hnext)) in H2.
      some_inj H1. some_inj H2. exact Hpis.
    + destruct (fst (outerLoop (a2 :: l2) ([], []))) as [|x2 n2] eqn:E2.
      { discriminate (sameSet_nil_r _ Hnext). }
      exact (IH _ _ _ _ _ _ Hun Hnext Hpis H1 H2).
Qed.

(** ** The order [sort] arranges terms in *)

Lemma nat_of_ascii_inj (x y : ascii) : nat_of_ascii x = nat_of_ascii y -> x = y.
Proof.
  intros H. rewrite <- (ascii_nat_embedding x), <- (ascii_nat_embedding y).
  now rewrite H.
Qed.

Lemma Term_leb_total (a : Term) : forall b,
  Term_leb a b = true \/ Term_leb b a = true.
Proof.
  induction a as [|x a IH]; intros [|y b]; cbn [Term_leb]; auto.
  destruct (Nat.ltb_spec (nat_of_ascii x) (nat_of_ascii y)); auto.
  destruct (Nat.ltb_spec (nat_of_ascii y) (nat_of_ascii x)); auto.
Qed.

Lemma Term_leb_refl (a : Term) : Term_leb a a = true.
Proof. destruct (Term_leb_total a a); assumption. Qed.

Lemma Term_leb_antisym (a : Term) : forall b,
  Term_leb a b = true -> Term_leb b a = true -> a = b.
Proof.
  induction a as [|x a IH]; intros [|y b]; cbn [Term_leb]; try easy.
  destruct (Nat.ltb_spec (nat_of_ascii x) (nat_of_ascii y));
    destruct (Nat.ltb_spec (nat_of_ascii y) (nat_of_ascii x));
    try discriminate; try lia.
  intros H1 H2. f_equal; [apply nat_of_ascii_inj; lia|now apply IH].
Qed.

Lemma Term_leb_trans (a : Term) : forall b c,
  Term_leb a b = true -> Term_leb b c = true -> Term_leb a c = true.
Proof.
  induction a as [|x a IH]; intros [|y b] [|z c]; cbn [Term_leb]; try easy.
  destruct (Nat.ltb_spec (nat_of_ascii x) (nat_of_ascii y));
    destruct (Nat.ltb_spec (nat_of_ascii y) (nat_of_ascii x));
    destruct (Nat.ltb_spec (nat_of_ascii y) (nat_of_ascii z));
    destruct (Nat.ltb_spec (nat_of_ascii z) (nat_of_ascii y));
    destruct (Nat.ltb_spec (nat_of_ascii x) (nat_of_ascii z));
    destruct (Nat.ltb_spec (nat_of_ascii z) (nat_of_ascii x));
    try discriminate; try lia; try reflexivity.
  apply IH.
Qed.

Lemma insertSorted_sorted (x : Term) (l : list Term) :
  StronglySorted Term_le l -> StronglySorted Term_le (insertSorted x l).
Proof.
  induction 1 as [|y l Hl IH Hy]; cbn [insertSorted].
  - repeat constructor.
  - destruct (Term_leb x y) eqn:E.
    + constructor; [now constructor|]. constructor; [exact E|].
      rewrite Forall_forall in *. intros z Hz.
      apply (Term_leb_trans x y z E). now apply Hy.
    + constructor; [exact IH|]. rewrite Forall_forall in *.
      intros z Hz. apply insertSorted_In in Hz. destruct Hz as [->|Hz].
      * destruct (Term_leb_total x y) as [H|H]; [congruence|exact H].
      * now apply Hy.
Qed.

Lemma sort_sorted (l : list Term) : StronglySorted Term_le (sort l).
Proof.
  unfold sort. induction l as [|x l IH]; cbn [fold_right]; [constructor|].
  now apply insertSorted_sorted.
Qed.

Lemma insertSorted_perm (x : Term) (l : list Term) :
  Permutation (insertSorted x l) (x :: l).
Proof.
  induction l as [|y l IH]; cbn [insertSorted]; [reflexivity|].
  destruct (Term_leb x y); [reflexivity|].
  rewrite IH. apply perm_swap.
Qed.

Lemma sort_perm (l : list Term) : Permutation (sort l) l.
Proof.
  unfold sort. induction l as [|x l IH]; cbn [fold_right]; [reflexivity|].
  rewrite insertSorted_perm. now constructor.
Qed.

(** Two ascending arrangements of the same terms are the same list. *)
Lemma sorted_unique (l1 : list Term) : forall l2,
  StronglySorted Term_le l1 -> StronglySorted Term_le l2 ->
  Permutation l1 l2 -> l1 = l2.
Proof.
  induction l1 as [|a l1 IH]; intros l2 H1 H2 Hp.
  - now apply Permutation_nil in Hp.
  - destruct l2 as [|b l2].
    { symmetry in Hp. now apply Permutation_nil in Hp. }
    apply StronglySorted_inv in H1, H2.
    destruct H1 as [H1 Ha], H2 as [H2 Hb]. rewrite Forall_forall in Ha, Hb.
    assert (E : a = b).
    { assert (Hab : In a (b :: l2)) by (eapply Permutation_in; [exact Hp|now left]).
      assert (Hba : In b (a :: l1))
        by (eapply Permutation_in; [symmetry; exact Hp|now left]).
      destruct Hab as [->|Hab]; [reflexivity|].
      destruct Hba as [->|Hba]; [reflexivity|].
      apply Term_leb_antisym; [now apply Ha|now apply Hb]. }
    subst b. f_equal. apply IH; try assumption.
    now apply Permutation_cons_inv in Hp.
Qed.

Lemma sort_sameSet (l1 l2 : list Term) :
  NoDup l1 -> NoDup l2 -> sameSet l1 l2 -> sort l1 = sort l2.
Proof.
  intros N1 N2 Hs. apply sorted_unique; try apply sort_sorted.
  rewrite !sort_perm. now apply NoDup_Permutation.
Qed.

(** C6: for every numVars >= 1 and any two duplicate-free lists of
    minterms (values below 2^numVars) holding the same values,
    solveQuineMcCluskey returns (any pass budget above numVars suffices) the
    same term sequence for both, and that sequence is in ascending
    lexicographic order. *)
Theorem solveQuineMcCluskey_order_independent
        (fuel numVars : nat) (ms1 ms2 : list N) :
  1 <= numVars -> numVars < fuel ->
  NoDup ms1 -> NoDup ms2 ->
  (forall m, In m ms1 <-> In m ms2) ->
  (forall m, In m ms1 -> (m < 2 ^ N.of_nat numVars)%N) ->
  exists terms,
    solveQuineMcCluskey fuel numVars ms1 = Some terms /\
    solveQuineMcCluskey fuel numVars ms2 = Some terms /\
    StronglySorted Term_le terms.
Proof.
  intros Hn Hf N1 N2 Hsame Hr1.
  assert (Hr2 : forall m, In m ms2 -> (m < 2 ^ N.of_nat numVars)%N)
    by (intros m Hm; now apply Hr1, Hsame).
  assert (Hlen : length ms2 = length ms1).
  { symmetry. apply Permutation_length. now apply NoDup_Permutation. }
  unfold solveQuineMcCluskey. rewrite Hlen.
  destruct (length ms1 =? 0).
  { exists []. repeat split. constructor. }
  destruct (N.eqb _ _).
  { eexists. repeat split. repeat constructor. }
  destruct (qmLoop_initial_total numVars ms1 Hn Hr1 fuel Hf) as [r1 E1].
  destruct (qmLoop_initial_total numVars ms2 Hn Hr2 fuel Hf) as [r2 E2].
  rewrite E1, E2. cbn [option_map]. exists (sort r1).
  split; [reflexivity|]. split; [|apply sort_sorted].
  f_equal. symmetry. apply sort_sameSet.
  - eapply qmLoop_NoDup; [|exact E1]. constructor.
  - eapply qmLoop_NoDup; [|exact E2]. constructor.
  - apply (qmLoop_sameSet numVars fuel (initialTerms numVars ms1)
                          (initialTerms numVars ms2) [] [] r1 r2);
      try assumption.
    + now apply initialTerms_uniform.
    + intros x. rewrite !initialTerms_In.
      split; intros (m & Hm & ->); exists m; (split; [now apply Hsame|reflexivity]).
    + intros x. reflexivity.
Qed.

(** The theorem at two orders of the minterms 0, 1, 2, 5, 6, 7 of three
    variables. *)
Lemma solveQuineMcCluskey_order_independent_witness :
  exists terms,
    solveQuineMcCluskey 4 3 [0; 1; 2; 5; 6; 7]%N = Some terms /\
    solveQuineMcCluskey 4 3 [7; 2; 5; 0; 6; 1]%N = Some terms /\
    StronglySorted Term_le terms.
Proof.
  apply (solveQuineMcCluskey_order_independent 4 3).
  - lia.
  - lia.
  - repeat constructor; cbn; intuition discriminate.
  - repeat constructor; cbn; intuition discriminate.
  - intros m. cbn. intuition.
  - intros m Hm. cbn in Hm.
    repeat (destruct Hm as [<-|Hm]; [reflexivity|]). destruct Hm.
Defined.

(** Values at or above 2^numVars are not minterms; on them the order of the
    list does matter, as the strings then differ in length. *)
Remark solveQuineMcCluskey_out_of_range :
  solveQuineMcCluskey 5 2 [0; 4]%N <> solveQuineMcCluskey 5 2 [4; 0]%N.
Proof. vm_compute. discriminate. Qed.

End MinimizerOrder.

(* ================================================================== *)
(** * Properties of the circuit generator *)
(* ================================================================== *)

Section GeneratorInputs.
Import QuineMcCluskey Synthesizer.

Variable randomId : nat -> string.
Variable startPos : Position.

Lemma switchCount_app (l1 l2 : list CircuitNode) :
  switchCount (l1 ++ l2) = switchCount l1 + switchCount l2.
Proof. unfold switchCount. now rewrite filter_app, length_app. Qed.

Lemma switchCount_none (l : list CircuitNode) :
  Forall (fun n => n_type n <> INPUT_SWITCH) l -> switchCount l = 0.
Proof.
  unfold switchCount. induction 1 as [|n l Hn _ IH]; [reflexivity|].
  cbn [filter]. destruct (n_type n); cbn; try exact IH. congruence.
Qed.

Lemma switchCount_all (l : list CircuitNode) :
  Forall (fun n => n_type n = INPUT_SWITCH) l -> switchCount l = length l.
Proof.
  unfold switchCount. induction 1 as [|n l Hn _ IH]; [reflexivity|].
  cbn [filter]. rewrite Hn. cbn. now rewrite IH.
Qed.

(** Step 1 never throws and makes one switch per label. *)
Lemma createInputs_total (labels : list string) : forall i k,
  exists inputs,
    createInputs randomId startPos labels i k
      = Returned (inputs, k + length labels) /\
    length inputs = length labels /\
    Forall (fun n => n_type n = INPUT_SWITCH) inputs.
Proof.
  induction labels as [|l labels IH]; intros i k.
  - exists []. cbn. unfold ret. rewrite Nat.add_0_r. auto.
  - destruct (IH (S i) (S k)) as (more & E & Hlen & Hall).
    eexists. cbn [createInputs]. unfold bind, generateId at 1.
    rewrite E. unfold ret. cbn [length]. split; [|split].
    + do 2 f_equal. lia.
    + cbn. now rewrite Hlen.
    + constructor; [reflexivity|exact Hall].
Qed.

(** Step 2 never throws and only adds NOT gates. *)
Lemma createNots_total (needsNot : list bool) (inputs : list CircuitNode) :
  forall i nodes wires notGates k,
  exists extra wires' notGates' k',
    createNots randomId startPos needsNot inputs i (nodes, wires, notGates) k
      = Returned (nodes ++ extra, wires', notGates', k') /\
    Forall (fun n => n_type n <> INPUT_SWITCH) extra.
Proof.
  induction inputs as [|inp inputs IH]; intros i nodes wires notGates k.
  - exists [], wires, notGates, k. cbn. unfold ret. now rewrite app_nil_r.
  - cbn [createNots]. destruct (arrayTruthy needsNot i).
    + unfold bind, generateId.
      edestruct IH as (extra & wires' & notGates' & k' & E & Hall).
      rewrite E. eexists (_ :: extra), wires', notGates', k'. split.
      * now rewrite <- app_assoc.
      * constructor; [discriminate|exact Hall].
    + apply IH.
Qed.

Lemma wireInto_total (target : string) (connections : list Connection) :
  forall pinIdx wires k,
  exists wires' k',
    wireInto randomId target connections pinIdx wires k = Returned (wires', k').
Proof.
  induction connections as [|c cs IH]; intros pinIdx wires k.
  - eexists _, _. reflexivity.
  - cbn [wireInto]. unfold bind, generateId. apply IH.
Qed.

Lemma wireSum_total (target : string) (termOutputs : list TermOutput) :
  forall i wires k,
  exists wires' k',
    wireSum randomId target termOutputs i wires k = Returned (wires', k').
Proof.
  induction termOutputs as [|t ts IH]; intros i wires k.
  - eexists _, _. reflexivity.
  - cbn [wireSum]. unfold bind, generateId. apply IH.
Qed.

Section Gather.
Variables (inputs : list CircuitNode) (notGates : list (nat * CircuitNode)).

(** Every '1' of the term, from position [i] on, has a source element. *)
Lemma gatherConnections_in_bounds (term : list ascii) : forall i connections,
  (forall j, nth_error term j = Some "1"%char -> i + j < length inputs) ->
  exists cs, gatherConnections inputs notGates term i connections = Returned cs.
Proof.
  induction term as [|c term IH]; intros i connections Hb.
  - eexists. reflexivity.
  - assert (Hrest : forall j, nth_error term j = Some "1"%char ->
                              S i + j < length inputs).
    { intros j Hj. specialize (Hb (S j) Hj). lia. }
    cbn [gatherConnections]. destruct (Ascii.eqb_spec c "1") as [->|Hc].
    + specialize (Hb 0 eq_refl).
      destruct (nth_error inputs i) as [inp|] eqn:E.
      * now apply IH.
      * apply nth_error_None in E. lia.
    + destruct (Ascii.eqb c "0"); [destruct (notGates_get notGates i)|];
        now apply IH.
Qed.

(** A '1' at a position without source element makes the loop throw. *)
Lemma gatherConnections_out_of_bounds (term : list ascii) : forall i connections j,
  nth_error term j = Some "1"%char -> length inputs <= i + j ->
  gatherConnections inputs notGates term i connections = TypeError.
Proof.
  induction term as [|c term IH]; intros i connections j Hj Hb.
  - destruct j; discriminate.
  - cbn [gatherConnections]. destruct j as [|j].
    + injection Hj as ->. cbn.
      destruct (nth_error inputs i) eqn:E; [|reflexivity].
      assert (i < length inputs) by (apply nth_error_Some; congruence). lia.
    + cbn in Hj.
      assert (Hrec : forall cs, gatherConnections inputs notGates term (S i) cs
                                = TypeError)
        by (intros cs; apply (IH (S i) cs j Hj); lia).
      destruct (Ascii.eqb c "1").
      * destruct (nth_error inputs i); [apply Hrec|reflexivity].
      * destruct (Ascii.eqb c "0"); [destruct (notGates_get notGates i)|];
          apply Hrec.
Qed.

Lemma dashes_no_one (k j : nat) :
  nth_error (repeat "-"%char k) j <> Some "1"%char.
Proof.
  revert j. induction k as [|k IH]; intros [|j]; cbn; try discriminate.
  apply IH.
Qed.

Variables (numVars termCount : nat).

(** Step 3 on one term: it throws exactly when collecting the literals does,
    and otherwise adds no switch. *)
Lemma processTerm_returns (term : Term) (idx : nat) nodes wires termOutputs k :
  (exists cs, gatherConnections inputs notGates term 0 [] = Returned cs) ->
  exists extra wires' termOutputs' k',
    processTerm randomId numVars termCount startPos inputs notGates term idx
                (nodes, wires, termOutputs) k
      = Returned (nodes ++ extra, wires', termOutputs', k') /\
    Forall (fun n => n_type n <> INPUT_SWITCH) extra.
Proof.
  intros [cs E]. unfold processTerm.
  destruct (Term_eqb term (repeat "-"%char numVars) && (1 <? termCount)).
  { exists [], wires, termOutputs, k. unfold ret. now rewrite app_nil_r. }
  unfold bind at 1. rewrite E. cbn [lift].
  destruct cs as [|c1 [|c2 cs]].
  - exists [], wires, termOutputs, k. unfold ret. now rewrite app_nil_r.
  - eexists [], wires, _, k. unfold ret. now rewrite app_nil_r.
  - unfold bind, generateId.
    edestruct wireInto_total as (wires' & k' & Ew). rewrite Ew.
    eexists [_], wires', _, k'. split; [reflexivity|].
    constructor; [discriminate|constructor].
Qed.

Lemma processTerm_throws (term : Term) (idx : nat) acc k j :
  nth_error term j = Some "1"%char -> length inputs <= j ->
  processTerm randomId numVars termCount startPos inputs notGates term idx acc k
    = TypeError.
Proof.
  intros Hj Hb. unfold processTerm.
  destruct (Term_eqb term (repeat "-"%char numVars)) eqn:Ed.
  { apply Term_eqb_eq in Ed. subst term. now apply dashes_no_one in Hj. }
  cbn [andb]. unfold bind.
  now rewrite (gatherConnections_out_of_bounds term 0 [] j Hj Hb).
Qed.

Lemma processTerms_returns (terms : list Term) : forall idx nodes wires termOutputs k,
  (forall t j, In t terms -> nth_error t j = Some "1"%char -> j < length inputs) ->
  exists extra wires' termOutputs' k',
    processTerms randomId numVars termCount startPos inputs notGates terms idx
                 (nodes, wires, termOutputs) k
      = Returned (nodes ++ extra, wires', termOutputs', k') /\
    Forall (fun n => n_type n <> INPUT_SWITCH) extra.
Proof.
  induction terms as [|t terms IH]; intros idx nodes wires termOutputs k Hb.
  - exists [], wires, termOutputs, k. cbn. unfold ret. now rewrite app_nil_r.
  - cbn [processTerms]. unfold bind.
    destruct (processTerm_returns t idx nodes wires termOutputs k)
      as (e1 & w1 & t1 & k1 & E1 & H1).
    { apply gatherConnections_in_bounds. intros j Hj.
      apply (Hb t j); [now left|exact Hj]. }
    rewrite E1.
    destruct (IH (S idx) (nodes ++ e1) w1 t1 k1) as (e2 & w2 & t2 & k2 & E2 & H2).
    { intros t' j Ht'. apply Hb. now right. }
    rewrite E2. exists (e1 ++ e2), w2, t2, k2. split.
    + now rewrite app_assoc.
    + apply Forall_app. auto.
Qed.

Lemma processTerms_throws (terms : list Term) : forall idx acc k t j,
  In t terms -> nth_error t j = Some "1"%char -> length inputs <= j ->
  processTerms randomId numVars termCount startPos inputs notGates terms idx acc k
    = TypeError.
Proof.
  induction terms as [|t0 terms IH]; intros idx acc k t j Hin Hj Hb; [easy|].
  cbn [processTerms]. unfold bind.
  destruct Hin as [->|Hin].
  - now rewrite (processTerm_throws t idx acc k j Hj Hb).
  - destruct (processTerm _ _ _ _ _ _ _ _ _ _) as [[acc' k']|]; [|reflexivity].
    now apply (IH _ _ _ t j).
Qed.

Lemma processTerm_nodes (term : Term) (idx : nat) nodes wires termOutputs k
      nodes' wires' termOutputs' k' :
  processTerm randomId numVars termCount startPos inputs notGates term idx
              (nodes, wires, termOutputs) k
    = Returned (nodes', wires', termOutputs', k') ->
  exists extra,
    nodes' = nodes ++ extra /\ Forall (fun n => n_type n <> INPUT_SWITCH) extra.
Proof.
  intros E.
  destruct (gatherConnections inputs notGates term 0 []) as [cs|] eqn:Eg.
  - destruct (processTerm_returns term idx nodes wires termOutputs k
                (ex_intro _ cs Eg)) as (extra & w & t & k0 & E' & Hall).
    rewrite E' in E. injection E as <- _ _ _. eauto.
  - unfold processTerm in E.
    destruct (Term_eqb term (repeat "-"%char numVars) && (1 <? termCount)).
    + unfold ret in E. injection E as <- _ _ _. exists [].
      now rewrite app_nil_r.
    + unfold bind in E. rewrite Eg in E. discriminate E.
Qed.

Lemma processTerms_nodes (terms : list Term) :
  forall idx nodes wires termOutputs k nodes' wires' termOutputs' k',
  processTerms randomId numVars termCount startPos inputs notGates terms idx
               (nodes, wires, termOutputs) k
    = Returned (nodes', wires', termOutputs', k') ->
  exists extra,
    nodes' = nodes ++ extra /\ Forall (fun n => n_type n <> INPUT_SWITCH) extra.
Proof.
  induction terms as [|t terms IH];
    intros idx nodes wires termOutputs k nodes' wires' termOutputs' k' E.
  - cbn in E. unfold ret in E. injection E as <- _ _ _. exists [].
    now rewrite app_nil_r.
  - cbn [processTerms] in E. unfold bind in E.
    destruct (processTerm _ _ _ _ _ _ _ _ _ _) as [[[[n1 w1] t1] k1]|] eqn:E1;
      [|discriminate].
    apply processTerm_nodes in E1. destruct E1 as (e1 & -> & H1).
    apply IH in E. destruct E as (e2 & -> & H2).
    exists (e1 ++ e2). split; [now rewrite app_assoc|].
    apply Forall_app. auto.
Qed.

End Gather.

Lemma firstn_labels_length (numVars : nat) :
  length (firstn numVars ["A"; "B"; "C"; "D"]%string) = Nat.min numVars 4.
Proof. now rewrite length_firstn. Qed.

(** Every run that returns hands back exactly the switches of step 1. *)
Lemma generateCircuitFromTerms_switches (numVars : nat) (terms : list Term)
      (k : nat) nodes wires k' :
  generateCircuitFromTerms randomId numVars terms startPos k
    = Returned (nodes, wires, k') ->
  switchCount nodes = Nat.min numVars 4.
Proof.
  unfold generateCircuitFromTerms. intros E.
  destruct (createInputs_total (firstn numVars ["A"; "B"; "C"; "D"]%string) 0 k)
    as (inputs & E1 & Hlen & Hsw).
  unfold bind at 1 in E. rewrite E1 in E.
  destruct (createNots_total
              (fold_left (fun a term => markZeros term 0 a) terms
                         (repeat false numVars))
              inputs 0 inputs [] [] (k + length (firstn numVars ["A"; "B"; "C"; "D"]%string)))
    as (e2 & w2 & ng & k2 & E2 & H2).
  unfold bind at 1 in E. rewrite E2 in E.
  unfold bind at 1 in E.
  destruct (processTerms _ _ _ _ _ _ _ _ _ _) as [[[[n3 w3] t3] k3]|] eqn:E3;
    [|discriminate].
  apply processTerms_nodes in E3. destruct E3 as (e3 & -> & H3).
  assert (Hbase : switchCount ((inputs ++ e2) ++ e3) = Nat.min numVars 4).
  { rewrite !switchCount_app, (switchCount_all _ Hsw),
      (switchCount_none _ H2), (switchCount_none _ H3), Hlen.
    rewrite firstn_labels_length. lia. }
  assert (Hlamp : forall ns id y,
             switchCount (ns ++ [mkNode id OUTPUT_LAMP y false [false] 50 50 "Q" None])
             = switchCount ns).
  { intros. rewrite switchCount_app. cbn. lia. }
  destruct t3 as [|o1 [|o2 t3]].
  - unfold bind at 1, ret at 1 in E. unfold bind, generateId, ret in E.
    cbn [truthyString] in E. injection E as <- _ _. now rewrite Hlamp.
  - unfold bind at 1, ret at 1 in E. unfold bind, generateId, ret in E.
    destruct (truthyString _); injection E as <- _ _; now rewrite Hlamp.
  - unfold bind at 1 in E. unfold bind at 1, generateId at 1 in E.
    unfold bind at 1 in E.
    destruct (wireSum _ _ _ _ _ _) as [[w4 k4]|]; [|discriminate].
    unfold ret at 1 in E. unfold bind, generateId, ret in E.
    destruct (truthyString _); injection E as <- _ _;
      rewrite Hlamp, switchCount_app, Hbase; cbn; lia.
Qed.

(** With every '1' inside the switch list, the generator returns. *)
Lemma generateCircuitFromTerms_total (numVars : nat) (terms : list Term) (k : nat) :
  (forall t j, In t terms -> nth_error t j = Some "1"%char ->
               j < Nat.min numVars 4) ->
  exists nodes wires k',
    generateCircuitFromTerms randomId numVars terms startPos k
      = Returned (nodes, wires, k').
Proof.
  intros Hb. unfold generateCircuitFromTerms.
  destruct (createInputs_total (firstn numVars ["A"; "B"; "C"; "D"]%string) 0 k)
    as (inputs & E1 & Hlen & Hsw).
  unfold bind at 1. rewrite E1.
  destruct (createNots_total
              (fold_left (fun a term => markZeros term 0 a) terms
                         (repeat false numVars))
              inputs 0 inputs [] [] (k + length (firstn numVars ["A"; "B"; "C"; "D"]%string)))
    as (e2 & w2 & ng & k2 & E2 & H2).
  unfold bind at 1. rewrite E2.
  destruct (processTerms_returns inputs ng numVars (length terms) terms 0
                                 (inputs ++ e2) w2 [] k2)
    as (e3 & w3 & t3 & k3 & E3 & H3).
  { intros t j Ht Hj. rewrite Hlen, firstn_labels_length. now apply (Hb t). }
  unfold bind at 1. rewrite E3.
  destruct t3 as [|o1 [|o2 t3]].
  - unfold bind, generateId, ret. cbn [truthyString]. eauto.
  - unfold bind, generateId, ret. destruct (truthyString _); eauto.
  - unfold bind at 1. unfold bind at 1, generateId at 1.
    unfold bind at 1.
    edestruct wireSum_total as (w4 & k4 & E4). rewrite E4.
    unfold bind, generateId, ret. destruct (truthyString _); eauto.
Qed.

(** A '1' at a position past the switch list makes the generator throw. *)
Lemma generateCircuitFromTerms_throws (numVars : nat) (terms : list Term)
      (k : nat) (t : Term) (j : nat) :
  In t terms -> nth_error t j = Some "1"%char -> Nat.min numVars 4 <= j ->
  generateCircuitFromTerms randomId numVars terms startPos k = TypeError.
Proof.
  intros Ht Hj Hb. unfold generateCircuitFromTerms.
  destruct (createInputs_total (firstn numVars ["A"; "B"; "C"; "D"]%string) 0 k)
    as (inputs & E1 & Hlen & Hsw).
  unfold bind at 1. rewrite E1.
  destruct (createNots_total
              (fold_left (fun a term => markZeros term 0 a) terms
                         (repeat false numVars))
              inputs 0 inputs [] [] (k + length (firstn numVars ["A"; "B"; "C"; "D"]%string)))
    as (e2 & w2 & ng & k2 & E2 & H2).
  unfold bind at 1. rewrite E2.
  unfold bind at 1.
  rewrite (processTerms_throws inputs ng numVars (length terms) terms 0 _ k2 t j);
    auto.
  rewrite Hlen, firstn_labels_length. exact Hb.
Qed.

(** C10: generateCircuitFromTerms builds its source list from the labels
    A, B, C, D cut to numVars, hence min(numVars, 4) INPUT_SWITCH elements,
    and a run that returns hands back exactly that many.  With numVars <= 4
    and terms of length numVars there is one source per variable, every
    [inputs[i]] read while wiring literals hits an element, and the run
    returns.  With numVars >= 5, positions 4 and beyond have no source
    element, and a term with '1' at such a position reads past the end of the
    list: the run throws. *)
Theorem generateCircuitFromTerms_source_bounds
        (numVars : nat) (terms : list Term) (k : nat) :
  exists inputs,
    createInputs randomId startPos
                 (firstn numVars ["A"; "B"; "C"; "D"]%string) 0 k
      = Returned (inputs, k + Nat.min numVars 4) /\
    length inputs = Nat.min numVars 4 /\
    (forall nodes wires k',
        generateCircuitFromTerms randomId numVars terms startPos k
          = Returned (nodes, wires, k') ->
        switchCount nodes = Nat.min numVars 4) /\
    (numVars <= 4 ->
     (forall t, In t terms -> length t = numVars) ->
     length inputs = numVars /\
     (forall t i, In t terms -> i < length t ->
        exists input, nth_error inputs i = Some input) /\
     exists nodes wires k',
       generateCircuitFromTerms randomId numVars terms startPos k
         = Returned (nodes, wires, k') /\
       switchCount nodes = numVars) /\
    (5 <= numVars ->
     forall t i, In t terms -> 4 <= i -> nth_error t i = Some "1"%char ->
       nth_error inputs i = None /\
       generateCircuitFromTerms randomId numVars terms startPos k = TypeError).
Proof.
  destruct (createInputs_total (firstn numVars ["A"; "B"; "C"; "D"]%string) 0 k)
    as (inputs & E1 & Hlen & Hsw).
  rewrite firstn_labels_length in E1, Hlen.
  exists inputs. split; [exact E1|]. split; [exact Hlen|].
  split; [|split].
  - intros nodes wires k'. apply generateCircuitFromTerms_switches.
  - intros Hn HlenT.
    assert (Hmin : Nat.min numVars 4 = numVars) by lia.
    split; [lia|]. split.
    + intros t i Ht Hi. rewrite (HlenT t Ht) in Hi.
      destruct (nth_error inputs i) as [input|] eqn:E; [eauto|].
      apply nth_error_None in E. lia.
    + destruct (generateCircuitFromTerms_total numVars terms k)
        as (nodes & wires & k' & E).
      { intros t j Ht Hj. rewrite Hmin, <- (HlenT t Ht).
        apply nth_error_Some. congruence. }
      exists nodes, wires, k'. split; [exact E|].
      transitivity (Nat.min numVars 4); [|exact Hmin].
      eapply generateCircuitFromTerms_switches, E.
  - intros Hn t i Ht Hi H1. split.
    + apply nth_error_None. lia.
    + apply (generateCircuitFromTerms_throws numVars terms k t i Ht H1). lia.
Qed.

End GeneratorInputs.

(* ================================================================== *)
(** * Properties of the project loader *)
(* ================================================================== *)

Section LoadProject.
Import Loader.

Variable JSON_parse : string -> option JSON.

Lemma isArray_true (v : JSValue) :
  isArray v = true <-> exists items, v = Some (JArray items).
Proof.
  split.
  - destruct v as [[| | | |items|]|]; try discriminate. eauto.
  - intros [items ->]. reflexivity.
Qed.

Lemma tryLoad_valid (content : string) (st : AppState) doc ns ws :
  JSON_parse content = Some (JObject doc) ->
  lookupField doc "nodes" = Some (JArray ns) ->
  lookupField doc "wires" = Some (JArray ws) ->
  tryLoad JSON_parse content st =
  Some (mkAppState (Some (JArray ns)) (Some (JArray ws))
          (if truthy (lookupField doc "camera") then lookupField doc "camera"
           else camera st) [] [],
        []).
Proof.
  intros Hp Hn Hw. unfold tryLoad. rewrite Hp. cbn [getProp].
  now rewrite Hn, Hw.
Qed.

Lemma handleLoadProject_invalid (content : string) (st : AppState) :
  ~ validDocument JSON_parse content ->
  fst (handleLoadProject JSON_parse content st) = st /\
  exists message, In (alert message) (snd (handleLoadProject JSON_parse content st)).
Proof.
  intros Hinv. unfold handleLoadProject, tryLoad.
  destruct (JSON_parse content) as [doc|] eqn:Hp.
  2:{ split; [reflexivity|]. eexists. cbn. eauto. }
  destruct doc as [| b | q | s | items | fields]; cbn [getProp isArray];
    try (split; [reflexivity|]; eexists; cbn; eauto; fail).
  destruct (isArray (lookupField fields "nodes")) eqn:En.
  2:{ split; [reflexivity|]. eexists. cbn. eauto. }
  destruct (isArray (lookupField fields "wires")) eqn:Ew.
  2:{ split; [reflexivity|]. eexists. cbn. eauto. }
  exfalso. apply Hinv.
  apply isArray_true in En, Ew. destruct En as [ns En], Ew as [ws Ew].
  exists fields, ns, ws. auto.
Qed.

(** C8: handleLoadProject accepts a document exactly when its text parses
    to an object whose [nodes] and [wires] fields are both arrays; it then
    installs them (and the camera when one is given) and clears the
    selection without any alert.  In every other case, a text that does not
    parse included, it shows an alert and leaves the in-memory model, nodes,
    wires and camera with it, exactly as it was. *)
Theorem handleLoadProject_validates (content : string) (st : AppState) :
  (validDocument JSON_parse content ->
   exists doc ns ws,
     JSON_parse content = Some (JObject doc) /\
     lookupField doc "nodes" = Some (JArray ns) /\
     lookupField doc "wires" = Some (JArray ws) /\
     nodes (fst (handleLoadProject JSON_parse content st)) = Some (JArray ns) /\
     wires (fst (handleLoadProject JSON_parse content st)) = Some (JArray ws) /\
     snd (handleLoadProject JSON_parse content st) = []) /\
  (~ validDocument JSON_parse content ->
   fst (handleLoadProject JSON_parse content st) = st /\
   nodes (fst (handleLoadProject JSON_parse content st)) = nodes st /\
   wires (fst (handleLoadProject JSON_parse content st)) = wires st /\
   camera (fst (handleLoadProject JSON_parse content st)) = camera st /\
   exists message,
     In (alert message) (snd (handleLoadProject JSON_parse content st))).
Proof.
  split.
  - intros (doc & ns & ws & Hp & Hn & Hw). exists doc, ns, ws.
    unfold handleLoadProject.
    rewrite (tryLoad_valid content st doc ns ws Hp Hn Hw). cbn. auto 10.
  - intros Hinv. destruct (handleLoadProject_invalid content st Hinv) as [E Ha].
    rewrite E. auto.
Qed.

End LoadProject.

Section LoadProjectWitness.
Import Loader.

(** The theorem with a parser that knows one well-formed text, at that text
    and at another one. *)
Lemma handleLoadProject_validates_witness :
  (validDocument sampleParse "ok" /\
   nodes (fst (handleLoadProject sampleParse "ok" sampleState))
     = Some (JArray [])) /\
  (~ validDocument sampleParse "broken" /\
   fst (handleLoadProject sampleParse "broken" sampleState) = sampleState).
Proof.
  assert (Hok : validDocument sampleParse "ok").
  { exists [("nodes", JArray []); ("wires", JArray [])]%string, [], [].
    repeat split. }
  assert (Hbad : ~ validDocument sampleParse "broken").
  { intros (doc & ns & ws & Hp & _). discriminate Hp. }
  destruct (handleLoadProject_validates sampleParse "broken" sampleState)
    as [_ Hrej].
  destruct (handleLoadProject_validates sampleParse "ok" sampleState)
    as [Hacc _].
  split.
  - split; [exact Hok|].
    destruct (Hacc Hok) as (doc & ns & ws & Hp & Hn & _ & Hnodes & _).
    rewrite Hnodes. injection Hp as <-. cbn in Hn. symmetry. exact Hn.
  - split; [exact Hbad|]. exact (proj1 (Hrej Hbad)).
Defined.

End LoadProjectWitness.

Section GeneratorWitness.
Import QuineMcCluskey Synthesizer.

(** The theorem at the two-variable XOR terms, and at a five-variable term
    whose fifth literal is positive. *)
Lemma generateCircuitFromTerms_source_bounds_witness :
  (exists nodes wires k',
     generateCircuitFromTerms (fun k => idOfNat k) 2
       [["0"; "1"]; ["1"; "0"]]%char (mkPosition 0 0) 0
     = Returned (nodes, wires, k') /\ switchCount nodes = 2) /\
  generateCircuitFromTerms (fun k => idOfNat k) 5
    [["0"; "0"; "0"; "0"; "1"]]%char (mkPosition 0 0) 0 = TypeError.
Proof.
  split.
  - destruct (generateCircuitFromTerms_source_bounds
                (fun k => idOfNat k) (mkPosition 0 0) 2
                [["0"; "1"]; ["1"; "0"]]%char 0)
      as (inputs & _ & _ & _ & H & _).
    destruct H as (_ & _ & H).
    + lia.
    + intros t [<-|[<-|[]]]; reflexivity.
    + exact H.
  - destruct (generateCircuitFromTerms_source_bounds
                (fun k => idOfNat k) (mkPosition 0 0) 5
                [["0"; "0"; "0"; "0"; "1"]]%char 0)
      as (inputs & _ & _ & _ & _ & H).
    apply (H ltac:(lia) ["0"; "0"; "0"; "0"; "1"]%char 4).
    + now left.
    + lia.
    + reflexivity.
Defined.

End GeneratorWitness.

(* ================================================================== *)
(** * Further properties of the propagation engine *)
(* ================================================================== *)

Section EngineInvariantProps.
Import CircuitEngine EngineSpec EngineInvariants Examples.

Lemma computeNodeLogic_set_state n b v :
  isSource (n_type n) = false ->
  computeNodeLogic (set_n_state n b) v = computeNodeLogic n v.
Proof.
  unfold computeNodeLogic. cbn [set_n_state n_type n_state].
  destruct (n_type n); try discriminate; reflexivity.
Qed.

Lemma updateNode_outputOK wires n :
  outputOK n -> outputOK (fst (updateNode wires n)).
Proof.
  intros Hn. unfold updateNode.
  destruct (isSource (n_type n)) eqn:Hs; [exact Hn|].
  destruct (snd (refreshInputs _ _ _)); [|exact Hn].
  destruct (Bool.eqb _ _) eqn:Eb; cbn [fst]; right.
  - apply eqb_prop in Eb. exact Eb.
  - cbn [set_n_state n_state n_inputs set_n_inputs].
    symmetry. apply (computeNodeLogic_set_state (set_n_inputs n _)). exact Hs.
Qed.

Lemma propagateLoop_outputOK k nodes wires :
  (forall n, In n nodes -> outputOK n) ->
  forall n', In n' (fst (propagateLoop k nodes wires)) -> outputOK n'.
Proof.
  apply (propagateLoop_inv (fun ns _ => forall n, In n ns -> outputOK n)).
  intros ns ws H n' Hin. rewrite roundNodes_eq in Hin.
  apply in_map_iff in Hin. destruct Hin as (n & <- & Hin).
  apply updateNode_outputOK. auto.
Qed.

(** X1: propagateCircuit never touches a source element: an INPUT_SWITCH or
    CLOCK found at some position of the given list is found, with every field
    as given, at the same position of the returned list. *)
Theorem propagateCircuit_sources_untouched nodes wires k n :
  nth_error nodes k = Some n ->
  isSource (n_type n) = true ->
  nth_error (fst (propagateCircuit nodes wires)) k = Some n.
Proof.
  intros Hk Hs. unfold propagateCircuit.
  apply (propagateLoop_inv (fun ns _ => nth_error ns k = Some n)); [|exact Hk].
  intros ns ws H. rewrite roundNodes_eq, nth_error_map, H. cbn [option_map].
  unfold updateNode. now rewrite Hs.
Qed.

Lemma propagateCircuit_sources_untouched_witness :
  nth_error (fst (propagateCircuit (chainNodes 3) (chainWires 3))) 0
  = Some (mkNode (idOf 0) INPUT_SWITCH (mkPosition 0 0) true [] 50 50 "SW" None).
Proof.
  apply (propagateCircuit_sources_untouched (chainNodes 3) (chainWires 3) 0).
  - reflexivity.
  - reflexivity.
Defined.

(** X2: propagateCircuit keeps the output invariant: when every evaluated
    element of the given snapshot stores the output that computeNodeLogic
    gives for its stored inputs, so does every element of the result. *)
Theorem propagateCircuit_keeps_outputs_consistent nodes wires :
  (forall n, In n nodes -> outputOK n) ->
  forall n', In n' (fst (propagateCircuit nodes wires)) -> outputOK n'.
Proof. apply propagateLoop_outputOK. Qed.

Lemma chainNodes_outputOK n : In n (chainNodes 3) -> outputOK n.
Proof.
  intros [<-|[<-|[<-|[<-|[]]]]]; [left|right|right|right]; reflexivity.
Qed.

Lemma propagateCircuit_keeps_outputs_consistent_witness :
  (forall n, In n (chainNodes 3) -> outputOK n) /\
  (forall n', In n' (fst (propagateCircuit (chainNodes 3) (chainWires 3))) ->
              outputOK n').
Proof.
  split; [exact chainNodes_outputOK|].
  apply (propagateCircuit_keeps_outputs_consistent (chainNodes 3) (chainWires 3)).
  exact chainNodes_outputOK.
Defined.

(** X3: on a snapshot whose wire graph is acyclic with no wire path through
    more than 20 elements and whose stored outputs are consistent,
    propagateCircuit returns a complete evaluation: every wire carries the
    output of its source element, and every evaluated element has the signals
    of its pins as inputs and the value of its gate function on them as
    output. *)
Theorem propagateCircuit_evaluates nodes wires :
  acyclicWithin MAX_ITERATIONS wires ->
  (forall n, In n nodes -> outputOK n) ->
  (forall w s, In w (snd (propagateCircuit nodes wires)) ->
     nodeMap_get (fst (propagateCircuit nodes wires)) (sourceNodeId w) = Some s ->
     w_state w = n_state s) /\
  (forall n, In n (fst (propagateCircuit nodes wires)) ->
     isSource (n_type n) = false ->
     n_inputs n = signals (snd (propagateCircuit nodes wires)) n /\
     n_state n = computeNodeLogic n (signals (snd (propagateCircuit nodes wires)) n)).
Proof.
  intros [rk Hrk] Hout.
  assert (Hfix : fixedPoint (fst (propagateCircuit nodes wires))
                            (snd (propagateCircuit nodes wires))).
  { unfold propagateCircuit. apply (settled_loop rk MAX_ITERATIONS 0).
    - split; [|split].
      + intros w Hin. now apply Hrk.
      + lia.
      + lia.
    - intros w Hin. cbn. now apply Hrk.
    - unfold MAX_ITERATIONS. lia. }
  destruct Hfix as [Hw Hn]. split.
  - intros w s Hin Hs. specialize (Hw w Hin). unfold wireOK in Hw.
    now rewrite Hs in Hw.
  - intros n Hin Hs.
    assert (Hi : n_inputs n = signals (snd (propagateCircuit nodes wires)) n).
    { destruct (Hn n Hin) as [H|H]; [congruence|exact H]. }
    split; [exact Hi|].
    destruct (propagateLoop_outputOK MAX_ITERATIONS nodes wires Hout n Hin)
      as [H|H]; [congruence|].
    rewrite <- Hi. exact H.
Qed.

Lemma propagateCircuit_evaluates_witness :
  (forall w s, In w (snd (propagateCircuit (chainNodes 3) (chainWires 3))) ->
     nodeMap_get (fst (propagateCircuit (chainNodes 3) (chainWires 3)))
                 (sourceNodeId w) = Some s ->
     w_state w = n_state s) /\
  (forall n, In n (fst (propagateCircuit (chainNodes 3) (chainWires 3))) ->
     isSource (n_type n) = false ->
     n_inputs n = signals (snd (propagateCircuit (chainNodes 3) (chainWires 3))) n /\
     n_state n =
     computeNodeLogic n (signals (snd (propagateCircuit (chainNodes 3) (chainWires 3))) n)).
Proof.
  apply (propagateCircuit_evaluates (chainNodes 3) (chainWires 3)).
  - exists rankOf. intros w [<-|[<-|[<-|[]]]]; unfold MAX_ITERATIONS; cbn; lia.
  - exact chainNodes_outputOK.
Defined.

Lemma forallb_id_perm (v v' : list bool) :
  Permutation v v' -> forallb (fun s => s) v = forallb (fun s => s) v'.
Proof.
  induction 1 as [|x l l' _ IH|x y l|l l' l'' _ IH1 _ IH2]; cbn.
  - reflexivity.
  - now rewrite IH.
  - now destruct x, y.
  - congruence.
Qed.

Lemma existsb_id_perm (v v' : list bool) :
  Permutation v v' -> existsb (fun s => s) v = existsb (fun s => s) v'.
Proof.
  induction 1 as [|x l l' _ IH|x y l|l l' l'' _ IH1 _ IH2]; cbn.
  - reflexivity.
  - now rewrite IH.
  - now destruct x, y.
  - congruence.
Qed.

Lemma filter_id_perm (v v' : list bool) :
  Permutation v v' ->
  length (filter (fun s => s) v) = length (filter (fun s => s) v').
Proof.
  induction 1 as [|x l l' _ IH|x y l|l l' l'' _ IH1 _ IH2].
  - reflexivity.
  - rewrite !filter_id_length_cons. now rewrite IH.
  - rewrite !filter_id_length_cons. lia.
  - congruence.
Qed.

(** X4: for every kind other than NOT and OUTPUT_LAMP the output computed by
    computeNodeLogic does not depend on the order of the input pins: two
    input vectors that are rearrangements of one another give the same
    output. *)
Theorem computeNodeLogic_pin_order (node : CircuitNode) (v v' : list bool) :
  readsAllPins (n_type node) = true ->
  Permutation v v' ->
  computeNodeLogic node v = computeNodeLogic node v'.
Proof.
  intros Hk Hp. unfold computeNodeLogic.
  rewrite (Permutation_length Hp), (forallb_id_perm _ _ Hp),
    (existsb_id_perm _ _ Hp), (filter_id_perm _ _ Hp).
  destruct (n_type node); try discriminate; reflexivity.
Qed.

Lemma computeNodeLogic_pin_order_witness :
  computeNodeLogic staleAnd [true; false; true] =
  computeNodeLogic staleAnd [false; true; true].
Proof.
  apply (computeNodeLogic_pin_order staleAnd).
  - reflexivity.
  - apply perm_swap.
Defined.

End EngineInvariantProps.

(* ================================================================== *)
(** * Further properties of the minimizer *)
(* ================================================================== *)

Section PrimeImplicants.
Import QuineMcCluskey TermSemantics Implicants.

Lemma widens_refl (t : Term) : widens t t.
Proof. induction t; constructor; auto. Qed.

Lemma widens_eval (n : nat) (a : N) (t' t : Term) :
  widens t' t ->
  forall i, productFrom n a i t = true -> productFrom n a i t' = true.
Proof.
  induction 1 as [|c' c l' l Hc _ IH]; intros i H; [exact H|].
  cbn [productFrom] in *. apply andb_true_iff in H. destruct H as [H1 H2].
  rewrite (IH _ H2), andb_true_r. destruct Hc as [->| ->]; [exact H1|reflexivity].
Qed.

Lemma widens_hole (p q : Term) (x : ascii) :
  widens (p ++ "-"%char :: q) (p ++ x :: q).
Proof.
  apply Forall2_app; [apply widens_refl|].
  constructor; [now right|apply widens_refl].
Qed.

Lemma widens_combines (t1 t2 c : Term) : combines t1 t2 c -> widens c t1.
Proof. intros (p & x & y & q & -> & _ & _ & ->). apply widens_hole. Qed.

Lemma cube_hole (n : nat) (p q : Term) (x y : ascii) :
  cube n (p ++ x :: q) -> termChar y -> cube n (p ++ y :: q).
Proof.
  intros [Hl Hc] Hy. split.
  - rewrite length_app in *. exact Hl.
  - apply Forall_app in Hc. destruct Hc as [Hp Hq]. apply Forall_app.
    split; [exact Hp|]. inversion Hq; subst. now constructor.
Qed.

Lemma dashes_hole (p q : Term) (x : ascii) :
  x <> "-"%char -> dashes (p ++ "-"%char :: q) = S (dashes (p ++ x :: q)).
Proof.
  intros Hx. rewrite !dashes_app, !dashes_cons. cbn [Ascii.eqb Bool.eqb].
  destruct (Ascii.eqb_spec x "-"); [contradiction|]. lia.
Qed.

Lemma dash_split (t : Term) :
  1 <= dashes t -> exists p q, t = p ++ "-"%char :: q.
Proof.
  induction t as [|c t IH]; [unfold dashes; cbn; lia|].
  rewrite dashes_cons. destruct (Ascii.eqb_spec c "-") as [->|Hc].
  - intros _. now exists [], t.
  - intros H. destruct (IH ltac:(lia)) as (p & q & ->). now exists (c :: p), q.
Qed.

Lemma implicant_narrow (n : nat) (ms : list N) (p q : Term) (x : ascii) :
  implicant n ms (p ++ "-"%char :: q) ->
  x = "0"%char \/ x = "1"%char ->
  implicant n ms (p ++ x :: q).
Proof.
  intros [Hc Hev] Hx. split.
  - apply (cube_hole n p q "-"%char x Hc). unfold termChar. tauto.
  - intros a Ha H. apply (Hev a Ha). unfold evalTerm in *.
    exact (widens_eval n a _ _ (widens_hole p q x) 0 H).
Qed.

Lemma implicant_combines (n : nat) (ms : list N) (t1 t2 c : Term) :
  implicant n ms t1 -> implicant n ms t2 -> combines t1 t2 c ->
  implicant n ms c.
Proof.
  intros [Hc1 He1] [Hc2 He2] Hc. split.
  - destruct Hc as (p & x & y & q & -> & -> & _ & ->).
    apply (cube_hole n p q x "-"%char Hc1). unfold termChar. tauto.
  - intros a Ha H. rewrite (evalTerm_combines n _ _ _ a Hc) in H.
    apply orb_true_iff in H. destruct H; auto.
Qed.

(** Below an implicant there are implicants with any smaller number of
    '-'. *)
Lemma implicant_lower (n : nat) (ms : list N) : forall d t k,
  implicant n ms t -> dashes t = k + d ->
  exists t', implicant n ms t' /\ dashes t' = k.
Proof.
  induction d as [|d IH]; intros t k Ht Hd.
  - exists t. split; [exact Ht|lia].
  - destruct (dash_split t ltac:(lia)) as (p & q & ->).
    apply (IH (p ++ "0"%char :: q) k).
    + apply implicant_narrow; auto.
    + rewrite (dashes_hole p q "0"%char) in Hd by discriminate. lia.
Qed.

Lemma bitsMSB_chars (k : nat) : forall m, Forall termChar (bitsMSB k m).
Proof.
  induction k as [|k IH]; intros m; cbn [bitsMSB]; [constructor|].
  apply Forall_app. split; [apply IH|]. constructor; [|constructor].
  unfold termChar. destruct (N.odd m); tauto.
Qed.

(** A term without '-' is the numeral of an assignment. *)
Lemma cube_bits : forall (t : Term) (n : nat),
  cube n t -> dashes t = 0 ->
  exists a, (a < 2 ^ N.of_nat n)%N /\ t = bitsMSB n a.
Proof.
  induction t as [|c t IH] using rev_ind; intros n [Hl Hc] Hd.
  - cbn in Hl. subst n. exists 0%N. split; reflexivity.
  - rewrite length_app in Hl. cbn in Hl. destruct n as [|n]; [lia|].
    apply Forall_app in Hc. destruct Hc as [Hc1 Hc2].
    rewrite dashes_app, dashes_cons in Hd.
    destruct (IH n) as (a & Ha & ->); [split; [lia|exact Hc1]|lia|].
    inversion Hc2 as [|? ? Hcc _]; subst.
    assert (Hb : c = "0"%char \/ c = "1"%char).
    { destruct Hcc as [H|[H|H]]; auto. subst c. cbn in Hd. lia. }
    exists (2 * a + (if Ascii.eqb c "1" then 1 else 0))%N. split.
    + rewrite pow2_succ. destruct (Ascii.eqb c "1"); lia.
    + cbn [bitsMSB].
      destruct Hb as [->| ->]; cbn [Ascii.eqb Bool.eqb andb];
        destruct a; reflexivity.
Qed.

Lemma implicant_inhabited (n : nat) (ms : list N) (t : Term) :
  implicant n ms t -> exists a, In a ms.
Proof.
  intros Hi.
  destruct (implicant_lower n ms (dashes t) t 0 Hi eq_refl) as (t0 & [Hc Hev] & Hd).
  destruct (cube_bits t0 n Hc Hd) as (a & Ha & ->).
  exists a. apply (Hev a Ha). now apply evalTerm_bits.
Qed.

Lemma initialTerms_implicants (n : nat) (ms : list N) (x : Term) :
  1 <= n -> (forall m, In m ms -> (m < 2 ^ N.of_nat n)%N) ->
  In x (initialTerms n ms) <-> implicant n ms x /\ dashes x = 0.
Proof.
  intros Hn Hr. rewrite (initialTerms_bits n ms Hn Hr). split.
  - intros (m & Hm & ->). split; [split; [split|]|].
    + apply bitsMSB_length.
    + apply bitsMSB_chars.
    + intros a Ha Hev. apply evalTerm_bits in Hev; auto. now subst.
    + apply bitsMSB_dashes.
  - intros [[Hc Hev] Hd]. destruct (cube_bits x n Hc Hd) as (a & Ha & ->).
    exists a. split; [|reflexivity]. apply (Hev a Ha). now apply evalTerm_bits.
Qed.

Lemma widens_diff (t' t : Term) :
  widens t' t -> t' <> t ->
  exists p x q p' q',
    t = p ++ x :: q /\ t' = p' ++ "-"%char :: q' /\ x <> "-"%char /\
    widens p' p /\ widens q' q.
Proof.
  induction 1 as [|c' c l' l Hc Hl IH]; intros Hne; [congruence|].
  destruct (ascii_dec c' c) as [->|Hcc].
  - destruct IH as (p & x & q & p' & q' & -> & -> & Hx & Hp & Hq).
    { congruence. }
    exists (c :: p), x, q, (c :: p'), q'. repeat split; auto.
    constructor; auto.
  - destruct Hc as [Hc|Hc]; [contradiction|]. subst c'.
    exists [], c, l, [], l'. repeat split; auto. constructor.
Qed.

Section Level.
Variables (n : nat) (ms : list N) (k : nat) (cur : list Term).
Hypothesis Hcur : forall t, In t cur <-> implicant n ms t /\ dashes t = k.

Lemma level_uniform : uniform n cur.
Proof.
  intros t Ht. apply Hcur in Ht. destruct Ht as [[[Hl _] _] _]. exact Hl.
Qed.

(** The combinations of the implicants with [k] '-' are the implicants with
    [k + 1]. *)
Lemma level_next (x : Term) :
  In x (fst (outerLoop cur ([], []))) <-> implicant n ms x /\ dashes x = S k.
Proof.
  rewrite (next_spec n cur x level_uniform). split.
  - intros (t1 & t2 & H1 & H2 & Hc). apply Hcur in H1, H2.
    destruct H1 as [Hi1 Hd1], H2 as [Hi2 Hd2]. split.
    + exact (implicant_combines n ms t1 t2 x Hi1 Hi2 Hc).
    + rewrite (dashes_combines _ _ _ Hc) by lia. lia.
  - intros [Hi Hd]. destruct (dash_split x ltac:(lia)) as (p & q & ->).
    exists (p ++ "0"%char :: q), (p ++ "1"%char :: q). split; [|split].
    + apply Hcur. split; [apply implicant_narrow; auto|].
      rewrite (dashes_hole p q "0"%char) in Hd by discriminate. lia.
    + apply Hcur. split; [apply implicant_narrow; auto|].
      rewrite (dashes_hole p q "1"%char) in Hd by discriminate. lia.
    + exists p, "0"%char, "1"%char, q. repeat split. discriminate.
Qed.

(** A current term that a different implicant widens gets marked as used. *)
Lemma level_widened (t t' : Term) :
  In t cur -> implicant n ms t' -> widens t' t -> t' <> t ->
  In t (snd (outerLoop cur ([], []))).
Proof.
  intros Ht Hi' Hw Hne.
  destruct (widens_diff _ _ Hw Hne)
    as (p & x & q & p' & q' & -> & -> & Hx & Hp & Hq).
  destruct (proj1 (Hcur _) Ht) as [[Hc Hev] Hd].
  assert (Hci : implicant n ms (p ++ "-"%char :: q)).
  { split.
    - apply (cube_hole n p q x); [exact Hc|unfold termChar; tauto].
    - intros a Ha H. apply (proj2 Hi' a Ha). unfold evalTerm in *.
      refine (widens_eval n a _ _ _ 0 H).
      apply Forall2_app; [exact Hp|]. constructor; [now left|exact Hq]. }
  assert (Hxc : x = "0"%char \/ x = "1"%char).
  { destruct Hc as [_ Hc]. apply Forall_app in Hc. destruct Hc as [_ Hc].
    inversion Hc as [|? ? H _]; subst. destruct H as [H|[H|H]]; auto.
    contradiction. }
  assert (Hy : exists y, (y = "0"%char \/ y = "1"%char) /\ x <> y).
  { destruct Hxc as [->| ->]; [exists "1"%char|exists "0"%char];
      split; auto; discriminate. }
  destruct Hy as (y & Hy & Hxy).
  assert (Hyd : y <> "-"%char) by (destruct Hy as [->| ->]; discriminate).
  apply (used_spec n cur _ level_uniform). split; [exact Ht|].
  exists (p ++ y :: q), (p ++ "-"%char :: q). split.
  - apply Hcur. split; [apply implicant_narrow; auto|].
    pose proof (dashes_hole p q x Hx). pose proof (dashes_hole p q y Hyd). lia.
  - exists p, x, y, q. repeat split; auto.
Qed.

(** The current terms left unmarked are the prime implicants with [k]
    '-'. *)
Lemma level_primes (t : Term) :
  In t cur /\ ~ In t (snd (outerLoop cur ([], []))) <->
  primeImplicant n ms t /\ dashes t = k.
Proof.
  split.
  - intros [Ht Hu]. destruct (proj1 (Hcur _) Ht) as [Hi Hd].
    split; [|exact Hd]. split; [exact Hi|]. intros t' Hi' Hw.
    destruct (list_eq_dec ascii_dec t' t) as [E|E]; [exact E|].
    exfalso. apply Hu. eapply level_widened; eauto.
  - intros [[Hi Hp] Hd].
    assert (Ht : In t cur) by (apply Hcur; auto).
    split; [exact Ht|]. intros Hu.
    apply (used_spec n cur _ level_uniform) in Hu.
    destruct Hu as (_ & t2 & c & H2 & Hc).
    apply Hcur in H2. destruct H2 as [Hi2 Hd2].
    assert (E : c = t).
    { apply Hp; [exact (implicant_combines n ms t t2 c Hi Hi2 Hc)|].
      exact (widens_combines t t2 c Hc). }
    pose proof (dashes_combines _ _ _ Hc ltac:(lia)) as Hdc.
    rewrite E in Hdc. lia.
Qed.

End Level.

Lemma primes_complete (n : nat) (ms : list N) (k : nat) (pis : list Term) :
  (forall t, implicant n ms t -> dashes t <> k) ->
  (forall t, In t pis <-> primeImplicant n ms t /\ dashes t < k) ->
  forall t, In t pis <-> primeImplicant n ms t.
Proof.
  intros Hnone Hpis t. rewrite Hpis. split; [tauto|]. intros Hp.
  split; [exact Hp|].
  destruct (Nat.lt_ge_cases (dashes t) k) as [H|H]; [exact H|].
  destruct (implicant_lower n ms (dashes t - k) t k (proj1 Hp) ltac:(lia))
    as (t' & Hi & Hd).
  exfalso. exact (Hnone t' Hi Hd).
Qed.

(** The loop collects, level by level, exactly the prime implicants. *)
Lemma qmLoop_primes (n : nat) (ms : list N) : forall fuel k cur pis res,
  (forall t, In t cur <-> implicant n ms t /\ dashes t = k) ->
  (forall t, In t pis <-> primeImplicant n ms t /\ dashes t < k) ->
  qmLoop fuel cur pis = Some res ->
  forall t, In t res <-> primeImplicant n ms t.
Proof.
  assert (Hempty : forall k pis,
            (forall t, In t [] <-> implicant n ms t /\ dashes t = k) ->
            (forall t, In t pis <-> primeImplicant n ms t /\ dashes t < k) ->
            forall t, In t pis <-> primeImplicant n ms t).
  { intros k pis Hcur Hpis. apply (primes_complete n ms k); [|exact Hpis].
    intros t Hi Hd. apply (proj2 (Hcur t)). auto. }
  induction fuel as [|fuel IH]; intros k cur pis res Hcur Hpis Hres.
  - destruct cur as [|t0 cur']; [|discriminate].
    assert (E : pis = res) by (cbn in Hres; congruence). subst res.
    now apply (Hempty k).
  - destruct cur as [|t0 cur'].
    { assert (E : pis = res) by (cbn in Hres; congruence). subst res.
      now apply (Hempty k). }
    cbn [qmLoop] in Hres.
    set (cur := t0 :: cur') in *.
    assert (Hpis' : forall t,
              In t (collectPrimes cur (snd (outerLoop cur ([], []))) pis) <->
              primeImplicant n ms t /\ dashes t < S k).
    { intros t. rewrite collectPrimes_In, Hpis, (level_primes n ms k cur Hcur).
      split.
      - intros [[H1 H2]|[H1 H2]]; split; auto; lia.
      - intros [H1 H2]. destruct (Nat.eq_dec (dashes t) k); [right|left];
          split; auto; lia. }
    pose proof (level_next n ms k cur Hcur) as Hnext.
    destruct (fst (outerLoop cur ([], []))) as [|x next] eqn:E.
    + match type of Hres with
      | Some ?a = Some ?b => assert (E' : a = b) by congruence; rewrite <- E'
      end.
      apply (primes_complete n ms (S k)); [|exact Hpis'].
      intros t Hi Hd. apply (proj2 (Hnext t)). auto.
    + exact (IH (S k) (x :: next) _ res Hnext Hpis' Hres).
Qed.

Lemma widens_all_dashes (n : nat) : forall t',
  widens t' (repeat "-"%char n) -> t' = repeat "-"%char n.
Proof.
  induction n as [|n IH]; intros t' H; inversion H; subst; [reflexivity|].
  cbn [repeat]. f_equal; [|now apply IH].
  match goal with Hc : _ \/ _ |- _ => destruct Hc; assumption end.
Qed.

Lemma all_dashes_widens (n : nat) : forall t,
  length t = n -> widens (repeat "-"%char n) t.
Proof.
  induction n as [|n IH]; intros [|c t] Hl; try discriminate; constructor.
  - now right.
  - apply IH. now injection Hl.
Qed.

Lemma all_dashes_cube (n : nat) : cube n (repeat "-"%char n).
Proof.
  split; [apply repeat_length|]. apply Forall_forall. intros c Hc.
  apply repeat_spec in Hc. unfold termChar. tauto.
Qed.

(** X7: for every numVars >= 1 and every duplicate-free list of minterms
    below 2^numVars, solveQuineMcCluskey returns (any pass budget above
    numVars suffices) exactly the prime implicants of the function: the
    product terms over '0', '1', '-' that are true on minterms only and from
    which no literal can be dropped.  It returns all of them; no selection
    of a cover among them takes place. *)
Theorem solveQuineMcCluskey_prime_implicants
        (fuel numVars : nat) (minterms : list N) :
  1 <= numVars -> numVars < fuel ->
  NoDup minterms ->
  (forall m, In m minterms -> (m < 2 ^ N.of_nat numVars)%N) ->
  exists terms,
    solveQuineMcCluskey fuel numVars minterms = Some terms /\
    forall t, In t terms <-> primeImplicant numVars minterms t.
Proof.
  intros Hn Hf Hnd Hr. unfold solveQuineMcCluskey.
  destruct (Nat.eqb_spec (length minterms) 0) as [E0|E0].
  - exists []. split; [reflexivity|]. intros t.
    destruct minterms; [|discriminate]. split; [easy|].
    intros [Hi _]. destruct (implicant_inhabited _ _ _ Hi) as (a & []).
  - destruct (N.eqb_spec (N.of_nat (length minterms)) (2 ^ N.of_nat numVars))
      as [Efull|Efull].
    + exists [repeat "-"%char numVars]. split; [reflexivity|]. intros t.
      assert (Hall : implicant numVars minterms (repeat "-"%char numVars)).
      { split; [apply all_dashes_cube|]. intros a Ha _.
        now apply (full_table numVars). }
      split.
      * intros [<-|[]]. split; [exact Hall|].
        intros t' _ Hw. now apply widens_all_dashes.
      * intros [[[Hl Hc] Hev] Hp]. left.
        apply Hp; [exact Hall|]. now apply all_dashes_widens.
    + destruct (qmLoop_initial_total numVars minterms Hn Hr fuel Hf) as [res Hres].
      rewrite Hres. cbn [option_map]. exists (sort res).
      split; [reflexivity|]. intros t. rewrite sort_In.
      apply (qmLoop_primes numVars minterms fuel 0
               (initialTerms numVars minterms) [] res); [| |exact Hres].
      * intros x. now apply initialTerms_implicants.
      * intros x. cbn. split; [easy|]. intros [_ H]. lia.
Qed.

Lemma solveQuineMcCluskey_prime_implicants_witness :
  exists terms,
    solveQuineMcCluskey 4 3 [2%N; 3%N; 5%N; 7%N] = Some terms /\
    forall t, In t terms <-> primeImplicant 3 [2%N; 3%N; 5%N; 7%N] t.
Proof.
  apply (solveQuineMcCluskey_prime_implicants 4 3 [2%N; 3%N; 5%N; 7%N]).
  - lia.
  - lia.
  - repeat constructor; cbn; intuition discriminate.
  - intros m [<-|[<-|[<-|[<-|[]]]]]; reflexivity.
Defined.

(** X5: combineTerms on two terms of equal length returns a term exactly
    when the two differ in exactly one position, and that term is either
    argument with the character at that position replaced by '-'.  It is
    symmetric, returns null on two identical terms, and a term it returns
    has the arguments' length, widens both and is true under an assignment
    exactly when one of the two arguments is. *)
Theorem combineTerms_sound (n : nat) (t1 t2 : Term) :
  length t1 = length t2 ->
  (forall c,
     combineTerms t1 t2 = Some c <->
     exists p x y q,
       t1 = p ++ x :: q /\ t2 = p ++ y :: q /\ x <> y /\
       c = p ++ "-"%char :: q) /\
  combineTerms t2 t1 = combineTerms t1 t2 /\
  combineTerms t1 t1 = None /\
  (forall c,
     combineTerms t1 t2 = Some c ->
     length c = length t1 /\
     widens c t1 /\ widens c t2 /\
     forall a, evalTerm n c a = evalTerm n t1 a || evalTerm n t2 a).
Proof.
  intros Hl. split; [|split; [|split]].
  - intros c. apply (combineTerms_combines _ _ _ Hl).
  - destruct (combineTerms t1 t2) as [c|] eqn:E.
    + apply (combineTerms_combines _ _ _ Hl) in E.
      apply combineTerms_combines; [congruence|]. now apply combines_sym.
    + destruct (combineTerms t2 t1) as [c|] eqn:E'; [|reflexivity].
      apply combineTerms_combines in E'; [|congruence].
      apply combines_sym, (combineTerms_combines _ _ _ Hl) in E'. congruence.
  - destruct (combineTerms t1 t1) as [c'|] eqn:E; [|reflexivity].
    apply (combineTerms_combines _ _ _ eq_refl) in E.
    now apply combines_neq in E.
  - intros c Hc. apply (combineTerms_combines _ _ _ Hl) in Hc.
    split; [|split; [|split]].
    + now destruct (combines_length _ _ _ Hc).
    + eapply widens_combines; eauto.
    + eapply widens_combines. apply combines_sym. eauto.
    + intros a. now apply evalTerm_combines.
Qed.

Lemma combineTerms_sound_witness :
  (forall c,
     combineTerms ["0"; "0"; "-"]%char ["1"; "0"; "-"]%char = Some c <->
     exists p x y q,
       ["0"; "0"; "-"]%char = p ++ x :: q /\
       ["1"; "0"; "-"]%char = p ++ y :: q /\ x <> y /\
       c = p ++ "-"%char :: q) /\
  combineTerms ["1"; "0"; "-"]%char ["0"; "0"; "-"]%char
  = combineTerms ["0"; "0"; "-"]%char ["1"; "0"; "-"]%char /\
  combineTerms ["0"; "0"; "-"]%char ["0"; "0"; "-"]%char = None /\
  (forall c,
     combineTerms ["0"; "0"; "-"]%char ["1"; "0"; "-"]%char = Some c ->
     length c = length ["0"; "0"; "-"]%char /\
     widens c ["0"; "0"; "-"]%char /\
     widens c ["1"; "0"; "-"]%char /\
     forall a, evalTerm 3 c a =
               evalTerm 3 ["0"; "0"; "-"]%char a ||
               evalTerm 3 ["1"; "0"; "-"]%char a).
Proof.
  apply (combineTerms_sound 3 ["0"; "0"; "-"]%char ["1"; "0"; "-"]%char).
  reflexivity.
Defined.

(** X6: whatever solveQuineMcCluskey returns for minterms below 2^numVars
    (any pass budget above numVars suffices) holds no term twice and is in
    ascending code-unit order. *)
Theorem solveQuineMcCluskey_sorted_nodup
        (fuel numVars : nat) (minterms : list N) :
  1 <= numVars -> numVars < fuel ->
  (forall m, In m minterms -> (m < 2 ^ N.of_nat numVars)%N) ->
  exists terms,
    solveQuineMcCluskey fuel numVars minterms = Some terms /\
    NoDup terms /\ StronglySorted Term_le terms.
Proof.
  intros Hn Hf Hr. unfold solveQuineMcCluskey.
  destruct (length minterms =? 0).
  { exists []. repeat split; constructor. }
  destruct (N.eqb _ _).
  { eexists. split; [reflexivity|]. split.
    - constructor; [easy|constructor].
    - repeat constructor. }
  destruct (qmLoop_initial_total numVars minterms Hn Hr fuel Hf) as [res Hres].
  rewrite Hres. cbn [option_map]. exists (sort res).
  split; [reflexivity|]. split.
  - apply (Permutation_NoDup (Permutation_sym (sort_perm res))).
    apply (qmLoop_NoDup fuel (initialTerms numVars minterms) [] res);
      [constructor|exact Hres].
  - apply sort_sorted.
Qed.

Lemma solveQuineMcCluskey_sorted_nodup_witness :
  exists terms,
    solveQuineMcCluskey 4 3 [7%N; 2%N; 5%N; 3%N] = Some terms /\
    NoDup terms /\ StronglySorted Term_le terms.
Proof.
  apply (solveQuineMcCluskey_sorted_nodup 4 3 [7%N; 2%N; 5%N; 3%N]).
  - lia.
  - lia.
  - intros m [<-|[<-|[<-|[<-|[]]]]]; reflexivity.
Defined.

End PrimeImplicants.

Section EquationText.
Import QuineMcCluskey TermSemantics Equation.

Lemma allDashes_eval (n : nat) (a : N) (t : Term) :
  allDashes t = true -> forall i, productFrom n a i t = true.
Proof.
  unfold allDashes. induction t as [|c t IH]; intros H i; [reflexivity|].
  cbn [forallb] in H. apply andb_true_iff in H. destruct H as [Hc Ht].
  apply Ascii.eqb_eq in Hc. subst c. cbn [productFrom].
  rewrite (IH Ht). reflexivity.
Qed.

Lemma allDashes_repeat (n : nat) : allDashes (repeat "-"%char n) = true.
Proof. unfold allDashes. induction n as [|n IH]; [reflexivity|exact IH]. Qed.

(** A duplicate-free list that holds every value below [2^n], and no other,
    has [2^n] entries. *)
Lemma full_count (n : nat) (ms : list N) :
  NoDup ms ->
  (forall m, In m ms -> (m < 2 ^ N.of_nat n)%N) ->
  (forall a, (a < 2 ^ N.of_nat n)%N -> In a ms) ->
  N.of_nat (length ms) = (2 ^ N.of_nat n)%N.
Proof.
  intros Hnd Hr Hall.
  set (all := map N.of_nat (seq 0 (N.to_nat (2 ^ N.of_nat n)))).
  assert (Hlen : length all = N.to_nat (2 ^ N.of_nat n)).
  { unfold all. now rewrite length_map, length_seq. }
  assert (Hnd' : NoDup all).
  { unfold all. apply Finite.Injective_map_NoDup; [|apply seq_NoDup].
    intros x y. apply Nat2N.inj. }
  assert (H1 : incl all ms).
  { intros a Ha. unfold all in Ha. apply in_map_iff in Ha.
    destruct Ha as (i & <- & Hi). apply in_seq in Hi. apply Hall. lia. }
  assert (H2 : incl ms all).
  { intros m Hm. specialize (Hr m Hm). unfold all. apply in_map_iff.
    exists (N.to_nat m). split; [apply N2Nat.id|]. apply in_seq. lia. }
  pose proof (NoDup_incl_length Hnd' H1). pose proof (NoDup_incl_length Hnd H2).
  lia.
Qed.

(** X8: termsToEquation applied to what solveQuineMcCluskey returns (numVars
    >= 1, duplicate-free minterms below 2^numVars): the text is "0 (False)"
    when there is no minterm, "1 (True)" when every assignment is a minterm,
    and otherwise the products of the returned terms joined by " + ", of
    which there is at least one; the list of terms is empty only when there
    is no minterm. *)
Theorem termsToEquation_of_minimized
        (fuel numVars : nat) (minterms : list N) (variableNames : list string) :
  1 <= numVars -> numVars < fuel ->
  NoDup minterms ->
  (forall m, In m minterms -> (m < 2 ^ N.of_nat numVars)%N) ->
  exists terms,
    solveQuineMcCluskey fuel numVars minterms = Some terms /\
    (terms = [] <-> minterms = []) /\
    termsToEquation terms variableNames =
      if length minterms =? 0 then "0 (False)"%string
      else if N.eqb (N.of_nat (length minterms)) (2 ^ N.of_nat numVars)
           then "1 (True)"%string
           else join " + " (map (partOf variableNames) terms).
Proof.
  intros Hn Hf Hnd Hr. unfold solveQuineMcCluskey.
  destruct (Nat.eqb_spec (length minterms) 0) as [E0|E0].
  { exists []. split; [reflexivity|]. split; [|reflexivity].
    destruct minterms; [tauto|discriminate]. }
  assert (Hne : minterms <> []) by (intros ->; now apply E0).
  destruct (N.eqb_spec (N.of_nat (length minterms)) (2 ^ N.of_nat numVars))
    as [Efull|Efull].
  { eexists. split; [reflexivity|]. split; [split; [discriminate|tauto]|].
    unfold termsToEquation. cbn [length Nat.eqb existsb].
    now rewrite allDashes_repeat. }
  destruct (qmLoop_initial_total numVars minterms Hn Hr fuel Hf) as [res Hres].
  rewrite Hres. cbn [option_map]. exists (sort res). split; [reflexivity|].
  assert (Hcov : forall a, (a < 2 ^ N.of_nat numVars)%N ->
                   (evalSum numVars res a = true <-> In a minterms)).
  { intros a Ha.
    rewrite <- (initialTerms_cover numVars minterms Hn Hr a Ha).
    rewrite (qmLoop_cover numVars a fuel _ _ res
               (initialTerms_uniform numVars minterms Hn Hr) Hres).
    cbn. split; [intros [H|H]; [exact H|discriminate]|auto]. }
  assert (Hres_ne : res <> []).
  { intros ->. destruct minterms as [|m ms]; [congruence|].
    assert (Hm : In m (m :: ms)) by now left.
    apply (Hcov m (Hr m Hm)) in Hm. discriminate Hm. }
  assert (Hlen : length (sort res) = length res)
    by apply (Permutation_length (sort_perm res)).
  split.
  { split; [|tauto]. intros E. rewrite E in Hlen.
    destruct res; [congruence|discriminate]. }
  unfold termsToEquation. rewrite Hlen.
  destruct (Nat.eqb_spec (length res) 0) as [E|_].
  { destruct res; [congruence|discriminate]. }
  destruct (existsb allDashes (sort res)) eqn:Ed; [|reflexivity].
  exfalso. apply Efull. apply full_count; [exact Hnd|exact Hr|].
  apply existsb_exists in Ed. destruct Ed as (t & Ht & Hd).
  apply (proj1 (sort_In _ _)) in Ht.
  intros a Ha. apply (Hcov a Ha). apply evalSum_exists.
  exists t. split; [exact Ht|]. unfold evalTerm. now apply allDashes_eval.
Qed.

Lemma termsToEquation_of_minimized_witness :
  exists terms,
    solveQuineMcCluskey 3 2 [1%N; 2%N] = Some terms /\
    (terms = [] <-> [1%N; 2%N] = []) /\
    termsToEquation terms ["A"; "B"]%string =
      if length [1%N; 2%N] =? 0 then "0 (False)"%string
      else if N.eqb (N.of_nat (length [1%N; 2%N])) (2 ^ N.of_nat 2)
           then "1 (True)"%string
           else join " + " (map (partOf ["A"; "B"]%string) terms).
Proof.
  apply (termsToEquation_of_minimized 3 2 [1%N; 2%N] ["A"; "B"]%string).
  - lia.
  - lia.
  - repeat constructor; cbn; intuition discriminate.
  - intros m [<-|[<-|[]]]; reflexivity.
Defined.

End EquationText.

(* ================================================================== *)
(** * Further properties of the circuit generator *)
(* ================================================================== *)

Section GeneratorStructure.
Import QuineMcCluskey Synthesizer SynthesizerSpec.

Variable randomId : nat -> string.
Variable startPos : Position.

Local Abbreviation WF := (wellFormed randomId).

Lemma hasNode_app nodes extra key :
  hasNode nodes key -> hasNode (nodes ++ extra) key.
Proof.
  intros (s & Hs & E). exists s. split; [apply in_or_app; now left|exact E].
Qed.

Lemma hasPin_app nodes extra key pin :
  hasPin nodes key pin -> hasPin (nodes ++ extra) key pin.
Proof.
  intros (s & Hs & E). exists s. split; [apply in_or_app; now left|exact E].
Qed.

Lemma hasNode_last nodes n : hasNode (nodes ++ [n]) (n_id n).
Proof. exists n. split; [apply in_or_app; right; now left|reflexivity]. Qed.

Lemma below_app r nodes extra key :
  below r nodes key -> below r (nodes ++ extra) key.
Proof.
  intros (s & Hs & E). exists s. split; [apply in_or_app; now left|exact E].
Qed.

Lemma below_le r r' nodes key : r <= r' -> below r nodes key -> below r' nodes key.
Proof. intros Hr (s & Hs & E & Hlt). exists s. repeat split; auto. lia. Qed.

Lemma below_hasNode r nodes key : below r nodes key -> hasNode nodes key.
Proof. intros (s & Hs & E & _). exists s. auto. Qed.

Lemma below_last r nodes n :
  rankOfKind (n_type n) < r -> below r (nodes ++ [n]) (n_id n).
Proof.
  intros H. exists n. split; [apply in_or_app; right; now left|]. auto.
Qed.

Lemma Forall_repeat_false (n : nat) :
  Forall (fun b => b = false) (repeat false n).
Proof. induction n; constructor; auto. Qed.

Lemma seq_snoc (k0 k : nat) :
  k0 <= k -> seq k0 (S k - k0) = seq k0 (k - k0) ++ [k].
Proof.
  intros H. replace (S k - k0) with (S (k - k0)) by lia.
  rewrite seq_S. do 2 f_equal. lia.
Qed.

Lemma wellFormed_start (k : nat) : WF k [] [] k.
Proof.
  constructor.
  - lia.
  - rewrite Nat.sub_diag. constructor.
  - constructor.
  - constructor.
  - intros w [].
  - intros w [].
  - intros _. constructor.
Qed.

(** Pushing an element, or a wire, that carries the next id. *)
Lemma wellFormed_addNode k0 nodes wires k n :
  WF k0 nodes wires k -> lowNode n -> n_id n = randomId k ->
  WF k0 (nodes ++ [n]) wires (S k).
Proof.
  intros [Hle Hids HlN HlW Hw Hr Hp] Hn Hid. constructor.
  - lia.
  - rewrite (seq_snoc _ _ Hle), map_app. cbn [map]. rewrite <- Hid.
    unfold ids in *. rewrite map_app. cbn [map].
    rewrite <- app_assoc. cbn [app].
    eapply Permutation_trans; [apply Permutation_sym, Permutation_middle|].
    eapply Permutation_trans; [|apply Permutation_cons_append].
    apply perm_skip. exact Hids.
  - apply Forall_app. split; [exact HlN|]. constructor; [exact Hn|constructor].
  - exact HlW.
  - intros w Hin. destruct (Hw w Hin) as [H1 H2].
    split; [now apply hasNode_app|now apply hasPin_app].
  - intros w Hin. destruct (Hr w Hin) as (s & t & Hs & Ht & Hrest).
    exists s, t. split; [apply in_or_app; now left|].
    split; [apply in_or_app; now left|exact Hrest].
  - exact Hp.
Qed.

Lemma wellFormed_addWire k0 nodes wires k w r :
  WF k0 nodes wires k -> lowWire w -> w_id w = randomId k ->
  below r nodes (sourceNodeId w) ->
  (exists t, In t nodes /\ n_id t = targetNodeId w /\
             targetPinIndex w < length (n_inputs t) /\
             r <= rankOfKind (n_type t)) ->
  (distinctIds randomId ->
   ~ In (targetNodeId w, targetPinIndex w) (pins wires)) ->
  WF k0 nodes (wires ++ [w]) (S k).
Proof.
  intros [Hle Hids HlN HlW Hw Hr Hp] Hl Hid Hs Ht Hfree. constructor.
  - lia.
  - rewrite (seq_snoc _ _ Hle), map_app. cbn [map]. rewrite <- Hid.
    unfold ids in *. rewrite map_app, app_assoc. cbn [map].
    apply Permutation_app_tail. exact Hids.
  - exact HlN.
  - apply Forall_app. split; [exact HlW|]. constructor; [exact Hl|constructor].
  - intros w' Hin. apply in_app_iff in Hin.
    destruct Hin as [Hin|[<-|[]]]; [now apply Hw|]. split.
    + eapply below_hasNode; eauto.
    + destruct Ht as (t & H1 & H2 & H3 & _). exists t. auto.
  - intros w' Hin. apply in_app_iff in Hin.
    destruct Hin as [Hin|[<-|[]]]; [now apply Hr|].
    destruct Hs as (s & Hs1 & Hs2 & Hs3). destruct Ht as (t & H1 & H2 & H3 & H4).
    exists s, t. repeat split; auto. lia.
  - intros Hinj. unfold pins. rewrite map_app. cbn [map]. apply NoDup_app.
    + now apply Hp.
    + repeat constructor; easy.
    + intros a Ha [<-|[]]. now apply (Hfree Hinj).
Qed.

(** An id not drawn yet is the id of no element, and no wire enters it. *)
Lemma wellFormed_fresh k0 nodes wires k j :
  WF k0 nodes wires k -> distinctIds randomId -> k <= j ->
  ~ hasNode nodes (randomId j).
Proof.
  intros [Hle Hids _ _ _ _ _] Hinj Hj (s & Hs & Hid).
  assert (Hin : In (randomId j) (ids nodes wires)).
  { unfold ids. apply in_or_app. left. rewrite <- Hid. now apply in_map. }
  apply (Permutation_in _ Hids) in Hin.
  apply in_map_iff in Hin. destruct Hin as (i & Hi & Hseq).
  apply in_seq in Hseq. apply Hinj in Hi. lia.
Qed.

Lemma wellFormed_fresh_target k0 nodes wires k j w :
  WF k0 nodes wires k -> distinctIds randomId -> k <= j ->
  In w wires -> targetNodeId w <> randomId j.
Proof.
  intros H Hinj Hj Hw E.
  apply (wellFormed_fresh k0 nodes wires k j H Hinj Hj).
  destruct H as [_ _ _ _ Hwired _ _].
  destruct (Hwired w Hw) as [_ (t & Ht & Hid & _)].
  exists t. split; [exact Ht|congruence].
Qed.

Lemma wellFormed_fresh_pin k0 nodes wires k j pin :
  WF k0 nodes wires k -> distinctIds randomId -> k <= j ->
  ~ In (randomId j, pin) (pins wires).
Proof.
  intros H Hinj Hj Hin. unfold pins in Hin. apply in_map_iff in Hin.
  destruct Hin as (w & E & Hw).
  apply (wellFormed_fresh_target k0 nodes wires k j w H Hinj Hj Hw).
  congruence.
Qed.

Lemma createInputs_spec (labels : list string) : forall i k,
  exists inputs,
    createInputs randomId startPos labels i k
      = Returned (inputs, k + length labels) /\
    map n_id inputs = map randomId (seq k (length labels)) /\
    Forall lowNode inputs /\
    Forall (fun n => n_type n = INPUT_SWITCH) inputs.
Proof.
  induction labels as [|l labels IH]; intros i k.
  - exists []. cbn. unfold ret. rewrite Nat.add_0_r. auto.
  - destruct (IH (S i) (S k)) as (more & E & Hids & Hlow & Hsw).
    eexists. cbn [createInputs]. unfold bind, generateId at 1.
    rewrite E. unfold ret. cbn [length]. split; [|split; [|split]].
    + do 2 f_equal. lia.
    + cbn. now rewrite Hids.
    + constructor; [split; [reflexivity|constructor]|exact Hlow].
    + constructor; [reflexivity|exact Hsw].
Qed.

Lemma wellFormed_inputs (k len : nat) (inputs : list CircuitNode) :
  map n_id inputs = map randomId (seq k len) ->
  Forall lowNode inputs ->
  WF k inputs [] (k + len).
Proof.
  intros Hids Hlow. constructor.
  - lia.
  - unfold ids. cbn [map]. rewrite app_nil_r, Hids.
    replace (k + len - k) with len by lia. apply Permutation_refl.
  - exact Hlow.
  - constructor.
  - intros w [].
  - intros w [].
  - intros _. constructor.
Qed.

Lemma createNots_wellFormed (needsNot : list bool) (k0 : nat)
      (rest : list CircuitNode) :
  forall i nodes wires notGates k nodes' wires' notGates' k',
    createNots randomId startPos needsNot rest i (nodes, wires, notGates) k
      = Returned (nodes', wires', notGates', k') ->
    WF k0 nodes wires k ->
    (forall n, In n rest -> below 1 nodes (n_id n)) ->
    (forall j n, In (j, n) notGates -> below 2 nodes (n_id n)) ->
    WF k0 nodes' wires' k' /\
    (forall r key, below r nodes key -> below r nodes' key) /\
    (forall j n, In (j, n) notGates' -> below 2 nodes' (n_id n)).
Proof.
  induction rest as [|inp rest IH];
    intros i nodes wires notGates k nodes' wires' notGates' k' E Hwf Hin Hng.
  - cbn in E. unfold ret in E. injection E as <- <- <- <-. auto.
  - cbn [createNots] in E. destruct (arrayTruthy needsNot i).
    + unfold bind, generateId in E.
      eapply IH in E.
      * destruct E as (H1 & H2 & H3). split; [exact H1|]. split; [|exact H3].
        intros r key Hk. apply H2. now apply below_app.
      * apply (wellFormed_addWire _ _ _ _ _ 1).
        -- apply wellFormed_addNode; [exact Hwf| |reflexivity].
           split; [reflexivity|repeat constructor].
        -- reflexivity.
        -- reflexivity.
        -- apply below_app. apply Hin. now left.
        -- eexists. split; [apply in_or_app; right; now left|].
           split; [reflexivity|]. split; cbn; lia.
        -- intros Hinj. cbn [targetNodeId targetPinIndex].
           now apply (wellFormed_fresh_pin k0 nodes wires k k 0 Hwf Hinj).
      * intros n Hn. apply below_app. apply Hin. now right.
      * intros j n Hj. apply in_app_iff in Hj.
        destruct Hj as [Hj|[[= <- <-]|[]]].
        -- apply below_app. eapply Hng; eauto.
        -- apply below_last. cbn. lia.
    + eapply IH in E; [exact E|exact Hwf| |exact Hng].
      intros n Hn. apply Hin. now right.
Qed.

Lemma notGates_get_In (notGates : list (nat * CircuitNode)) (i : nat) n :
  notGates_get notGates i = Some n -> exists j, In (j, n) notGates.
Proof.
  induction notGates as [|[j m] rest IH]; cbn; [discriminate|].
  destruct (notGates_get rest i) as [n'|].
  - intros [= ->]. destruct (IH eq_refl) as (j' & Hj'). exists j'. now right.
  - destruct (j =? i); [|discriminate]. intros [= ->]. exists j. now left.
Qed.

Lemma gatherConnections_hasNode (P : string -> Prop)
      (inputs : list CircuitNode) (notGates : list (nat * CircuitNode))
      (term : list ascii) : forall i conns cs,
  gatherConnections inputs notGates term i conns = Returned cs ->
  (forall n, In n inputs -> P (n_id n)) ->
  (forall j n, In (j, n) notGates -> P (n_id n)) ->
  (forall c, In c conns -> P (c_nodeId c)) ->
  forall c, In c cs -> P (c_nodeId c).
Proof.
  induction term as [|ch term IH]; intros i conns cs E Hi Hn Hc.
  - cbn in E. injection E as <-. exact Hc.
  - cbn [gatherConnections] in E. destruct (Ascii.eqb ch "1").
    + destruct (nth_error inputs i) as [inp|] eqn:En; [|discriminate].
      eapply IH; [exact E|exact Hi|exact Hn|]. intros c Hin.
      apply in_app_iff in Hin. destruct Hin as [Hin|[<-|[]]]; [auto|].
      cbn. apply Hi. eapply nth_error_In; eauto.
    + destruct (Ascii.eqb ch "0"); [|eapply IH; eauto].
      destruct (notGates_get notGates i) as [nn|] eqn:Eg; [|eapply IH; eauto].
      eapply IH; [exact E|exact Hi|exact Hn|]. intros c Hin.
      apply in_app_iff in Hin. destruct Hin as [Hin|[<-|[]]]; [auto|].
      cbn. apply notGates_get_In in Eg. destruct Eg as (j & Hj). eapply Hn; eauto.
Qed.

Lemma wireInto_wellFormed k0 nodes target r :
  forall conns pinIdx wires k wires' k',
  wireInto randomId target conns pinIdx wires k = Returned (wires', k') ->
  WF k0 nodes wires k ->
  (forall c, In c conns -> below r nodes (c_nodeId c)) ->
  (exists t, In t nodes /\ n_id t = target /\
             pinIdx + length conns <= length (n_inputs t) /\
             r <= rankOfKind (n_type t)) ->
  (distinctIds randomId -> forall w, In w wires ->
     targetNodeId w = target -> targetPinIndex w < pinIdx) ->
  WF k0 nodes wires' k'.
Proof.
  induction conns as [|c conns IH];
    intros pinIdx wires k wires' k' E Hwf Hc Ht Hfree.
  - cbn in E. unfold ret in E. injection E as <- <-. exact Hwf.
  - cbn [wireInto] in E. unfold bind, generateId in E.
    eapply IH; [exact E| | | |].
    + apply (wellFormed_addWire _ _ _ _ _ r);
        [exact Hwf|reflexivity|reflexivity| | |].
      * apply Hc. now left.
      * destruct Ht as (t & H1 & H2 & H3 & H4). exists t. cbn [length] in H3.
        cbn. repeat split; auto; lia.
      * intros Hinj Hin. unfold pins in Hin. apply in_map_iff in Hin.
        destruct Hin as (w & Ew & Hw). cbn in Ew. injection Ew as E1 E2.
        specialize (Hfree Hinj w Hw E1). lia.
    + intros c' Hc'. apply Hc. now right.
    + destruct Ht as (t & H1 & H2 & H3 & H4). exists t. cbn [length] in H3.
      repeat split; auto; lia.
    + intros Hinj w Hw Htw. apply in_app_iff in Hw.
      destruct Hw as [Hw|[<-|[]]].
      * specialize (Hfree Hinj w Hw Htw). lia.
      * cbn. lia.
Qed.

Lemma wireSum_wellFormed k0 nodes target r : forall tos i wires k wires' k',
  wireSum randomId target tos i wires k = Returned (wires', k') ->
  WF k0 nodes wires k ->
  (forall t, In t tos -> below r nodes (to_sourceNodeId t)) ->
  (exists t, In t nodes /\ n_id t = target /\
             i + length tos <= length (n_inputs t) /\
             r <= rankOfKind (n_type t)) ->
  (distinctIds randomId -> forall w, In w wires ->
     targetNodeId w = target -> targetPinIndex w < i) ->
  WF k0 nodes wires' k'.
Proof.
  induction tos as [|c tos IH];
    intros i wires k wires' k' E Hwf Hc Ht Hfree.
  - cbn in E. unfold ret in E. injection E as <- <-. exact Hwf.
  - cbn [wireSum] in E. unfold bind, generateId in E.
    eapply IH; [exact E| | | |].
    + apply (wellFormed_addWire _ _ _ _ _ r);
        [exact Hwf|reflexivity|reflexivity| | |].
      * apply Hc. now left.
      * destruct Ht as (t & H1 & H2 & H3 & H4). exists t. cbn [length] in H3.
        cbn. repeat split; auto; lia.
      * intros Hinj Hin. unfold pins in Hin. apply in_map_iff in Hin.
        destruct Hin as (w & Ew & Hw). cbn in Ew. injection Ew as E1 E2.
        specialize (Hfree Hinj w Hw E1). lia.
    + intros c' Hc'. apply Hc. now right.
    + destruct Ht as (t & H1 & H2 & H3 & H4). exists t. cbn [length] in H3.
      repeat split; auto; lia.
    + intros Hinj w Hw Htw. apply in_app_iff in Hw.
      destruct Hw as [Hw|[<-|[]]].
      * specialize (Hfree Hinj w Hw Htw). lia.
      * cbn. lia.
Qed.

Section Terms.
Variables (numVars termCount : nat).
Variables (inputs : list CircuitNode) (notGates : list (nat * CircuitNode)).
Variable k0 : nat.

Lemma processTerm_wellFormed (term : Term) (idx : nat)
      nodes wires tos k nodes' wires' tos' k' :
  processTerm randomId numVars termCount startPos inputs notGates term idx
              (nodes, wires, tos) k
    = Returned (nodes', wires', tos', k') ->
  WF k0 nodes wires k ->
  (forall n, In n inputs -> below 1 nodes (n_id n)) ->
  (forall j n, In (j, n) notGates -> below 2 nodes (n_id n)) ->
  (forall t, In t tos -> below 3 nodes (to_sourceNodeId t)) ->
  WF k0 nodes' wires' k' /\
  (forall r key, below r nodes key -> below r nodes' key) /\
  (forall t, In t tos' -> below 3 nodes' (to_sourceNodeId t)).
Proof.
  intros E Hwf Hin Hng Hto. unfold processTerm in E.
  destruct (Term_eqb term (repeat "-"%char numVars) && (1 <? termCount)).
  { unfold ret in E. injection E as <- <- <- <-. auto. }
  unfold bind at 1 in E.
  destruct (gatherConnections inputs notGates term 0 []) as [cs|] eqn:Eg;
    [|discriminate].
  cbn [lift] in E.
  assert (Hcs : forall c, In c cs -> below 2 nodes (c_nodeId c)).
  { apply (gatherConnections_hasNode (below 2 nodes) inputs notGates term 0 [] cs);
      auto.
    - intros n Hn. apply (below_le 1); [lia|now apply Hin].
    - intros c []. }
  destruct cs as [|c1 [|c2 cs]].
  - unfold ret in E. injection E as <- <- <- <-. auto.
  - unfold ret in E. injection E as <- <- <- <-.
    split; [exact Hwf|]. split; [auto|]. intros t Ht.
    apply in_app_iff in Ht. destruct Ht as [Ht|[<-|[]]]; [auto|].
    cbn. apply (below_le 2); [lia|]. apply Hcs. now left.
  - unfold bind at 1, generateId at 1 in E. unfold bind at 1 in E.
    destruct (wireInto _ _ _ _ _ _) as [[w' kk]|] eqn:Ew; [|discriminate].
    unfold ret in E. injection E as <- <- <- <-.
    match type of Ew with
    | wireInto _ _ ?conns _ _ _ = _ => set (conns0 := conns) in *
    end.
    match goal with
    | |- WF _ (nodes ++ [?a]) _ _ /\ _ => set (andNode := a) in *
    end.
    assert (Hwf1 : WF k0 (nodes ++ [andNode]) wires (S k)).
    { apply wellFormed_addNode; [exact Hwf| |reflexivity].
      split; [reflexivity|].
      exact (Forall_repeat_false (S (S (length cs)))). }
    split; [|split].
    + eapply (wireInto_wellFormed _ _ _ 2); [exact Ew|exact Hwf1| | |].
      * intros c Hc. apply below_app. now apply Hcs.
      * exists andNode. split; [apply in_or_app; right; now left|].
        split; [reflexivity|]. unfold andNode, conns0.
        cbn [n_inputs length Nat.add n_type rankOfKind].
        rewrite repeat_length. lia.
      * intros Hinj w Hw Ht. exfalso.
        exact (wellFormed_fresh_target k0 nodes wires k k w Hwf Hinj
                 (Nat.le_refl k) Hw Ht).
    + intros r key Hk. now apply below_app.
    + intros t Ht. apply in_app_iff in Ht. destruct Ht as [Ht|[<-|[]]].
      * apply below_app. auto.
      * apply (below_last 3 nodes andNode). cbn. lia.
Qed.

Lemma processTerms_wellFormed (terms : list Term) :
  forall idx nodes wires tos k nodes' wires' tos' k',
  processTerms randomId numVars termCount startPos inputs notGates terms idx
               (nodes, wires, tos) k
    = Returned (nodes', wires', tos', k') ->
  WF k0 nodes wires k ->
  (forall n, In n inputs -> below 1 nodes (n_id n)) ->
  (forall j n, In (j, n) notGates -> below 2 nodes (n_id n)) ->
  (forall t, In t tos -> below 3 nodes (to_sourceNodeId t)) ->
  WF k0 nodes' wires' k' /\
  (forall t, In t tos' -> below 3 nodes' (to_sourceNodeId t)).
Proof.
  induction terms as [|t terms IH];
    intros idx nodes wires tos k nodes' wires' tos' k' E Hwf Hin Hng Hto.
  - cbn in E. unfold ret in E. injection E as <- <- <- <-. auto.
  - cbn [processTerms] in E. unfold bind in E.
    destruct (processTerm _ _ _ _ _ _ _ _ _ _) as [[[[n1 w1] t1] k1]|] eqn:E1;
      [|discriminate].
    destruct (processTerm_wellFormed _ _ _ _ _ _ _ _ _ _ E1 Hwf Hin Hng Hto)
      as (H1 & H2 & H3).
    eapply IH; [exact E|exact H1| | |exact H3].
    + intros n Hn. apply H2. now apply Hin.
    + intros j n Hj. apply H2. eapply Hng; eauto.
Qed.

End Terms.

Lemma generateCircuitFromTerms_wellFormed (numVars : nat) (terms : list Term)
      (k : nat) nodes wires k' :
  generateCircuitFromTerms randomId numVars terms startPos k
    = Returned (nodes, wires, k') ->
  WF k nodes wires k'.
Proof.
  unfold generateCircuitFromTerms. intros E.
  destruct (createInputs_spec (firstn numVars ["A"; "B"; "C"; "D"]%string) 0 k)
    as (inputs & E1 & Hids & Hlow & Hsw).
  assert (Hb1 : forall n, In n inputs -> below 1 inputs (n_id n)).
  { intros n Hn. exists n. split; [exact Hn|]. split; [reflexivity|].
    rewrite Forall_forall in Hsw. rewrite (Hsw n Hn). cbn. lia. }
  unfold bind at 1 in E. rewrite E1 in E.
  pose proof (wellFormed_inputs k _ inputs Hids Hlow) as Hwf1.
  unfold bind at 1 in E.
  destruct (createNots _ _ _ _ _ _ _) as [[[[n2 w2] ng] k2]|] eqn:E2;
    [|discriminate].
  apply (createNots_wellFormed _ k) in E2; [|exact Hwf1|exact Hb1|intros j n []].
  destruct E2 as (Hwf2 & Hmono2 & Hng2).
  unfold bind at 1 in E.
  destruct (processTerms _ _ _ _ _ _ _ _ _ _) as [[[[n3 w3] t3] k3]|] eqn:E3;
    [|discriminate].
  apply (processTerms_wellFormed _ _ _ _ k) in E3;
    [|exact Hwf2| |exact Hng2|intros t []].
  2:{ intros n Hn. apply Hmono2. now apply Hb1. }
  destruct E3 as (Hwf3 & Hto3).
  assert (Hlamp : forall id p, lowNode (mkNode id OUTPUT_LAMP p false [false] 50 50 "Q" None)).
  { intros. split; [reflexivity|repeat constructor]. }
  destruct t3 as [|o1 [|o2 t3]].
  - unfold bind at 1, ret at 1 in E. unfold bind, generateId, ret in E.
    cbn [truthyString] in E. injection E as <- <- <-.
    apply wellFormed_addNode; [exact Hwf3|apply Hlamp|reflexivity].
  - unfold bind at 1, ret at 1 in E. unfold bind, generateId, ret in E.
    destruct (truthyString _); injection E as <- <- <-.
    + apply (wellFormed_addWire _ _ _ _ _ 3); [|reflexivity|reflexivity| | |].
      * apply wellFormed_addNode; [exact Hwf3|apply Hlamp|reflexivity].
      * apply below_app. apply Hto3. now left.
      * eexists. split; [apply in_or_app; right; now left|].
        split; [reflexivity|]. split; cbn; lia.
      * intros Hinj. cbn [targetNodeId targetPinIndex].
        now apply (wellFormed_fresh_pin k n3 w3 k3 k3 0 Hwf3 Hinj).
    + apply wellFormed_addNode; [exact Hwf3|apply Hlamp|reflexivity].
  - unfold bind at 1 in E. unfold bind at 1, generateId at 1 in E.
    unfold bind at 1 in E.
    destruct (wireSum _ _ _ _ _ _) as [[w4 k4]|] eqn:E4; [|discriminate].
    unfold ret at 1 in E. unfold bind, generateId, ret in E.
    match type of E4 with
    | wireSum _ _ ?tos _ _ _ = _ => set (tos0 := tos) in *
    end.
    match type of E with
    | context [?ns ++ [?a]] =>
        match ns with
        | n3 => set (orNode := a) in *
        end
    end.
    assert (Hwf4 : WF k (n3 ++ [orNode]) w4 k4).
    { eapply (wireSum_wellFormed _ _ _ 3); [exact E4| | | |].
      - apply wellFormed_addNode; [exact Hwf3| |reflexivity].
        split; [reflexivity|].
        exact (Forall_repeat_false (S (S (length t3)))).
      - intros t Ht. apply below_app. now apply Hto3.
      - exists orNode. split; [apply in_or_app; right; now left|].
        split; [reflexivity|]. unfold orNode, tos0.
        cbn [n_inputs length Nat.add n_type rankOfKind].
        rewrite repeat_length. lia.
      - intros Hinj w Hw Ht. exfalso.
        exact (wellFormed_fresh_target k n3 w3 k3 k3 w Hwf3 Hinj
                 (Nat.le_refl k3) Hw Ht). }
    cbn [truthyString] in E.
    assert (Hor : truthyString (randomId k3) = true \/
                  truthyString (randomId k3) = false)
      by (destruct (truthyString (randomId k3)); auto).
    destruct Hor as [Hor|Hor]; rewrite Hor in E; injection E as <- <- <-.
    + apply (wellFormed_addWire _ _ _ _ _ 4); [|reflexivity|reflexivity| | |].
      * apply wellFormed_addNode; [exact Hwf4|apply Hlamp|reflexivity].
      * apply below_app. apply (below_last 4 n3 orNode). cbn. lia.
      * eexists. split; [apply in_or_app; right; now left|].
        split; [reflexivity|]. split; cbn; lia.
      * intros Hinj. cbn [targetNodeId targetPinIndex].
        now apply (wellFormed_fresh_pin k (n3 ++ [orNode]) w4 k4 k4 0 Hwf4 Hinj).
    + apply wellFormed_addNode; [exact Hwf4|apply Hlamp|reflexivity].
Qed.

(** X10: whenever every '1' of the terms lies within the switch list, the
    generator returns a circuit in which nothing carries a signal: every
    element has output false and all input entries false, and every wire has
    state false. *)
Theorem generateCircuitFromTerms_all_low
        (numVars : nat) (terms : list Term) (k : nat) :
  (forall t j, In t terms -> nth_error t j = Some "1"%char ->
               j < Nat.min numVars 4) ->
  exists nodes wires k',
    generateCircuitFromTerms randomId numVars terms startPos k
      = Returned (nodes, wires, k') /\
    Forall lowNode nodes /\ Forall lowWire wires.
Proof.
  intros Hb.
  destruct (generateCircuitFromTerms_total randomId startPos numVars terms k Hb)
    as (nodes & wires & k' & E).
  exists nodes, wires, k'. split; [exact E|].
  now destruct (generateCircuitFromTerms_wellFormed _ _ _ _ _ _ E).
Qed.

(** X11: the generator draws one id per element and per wire it creates: the
    ids of the returned circuit are, up to order, the results of the calls of
    generateId() made, so that they are pairwise distinct whenever those
    calls never repeat a result. *)
Theorem generateCircuitFromTerms_fresh_ids
        (numVars : nat) (terms : list Term) (k : nat) :
  (forall t j, In t terms -> nth_error t j = Some "1"%char ->
               j < Nat.min numVars 4) ->
  exists nodes wires k',
    generateCircuitFromTerms randomId numVars terms startPos k
      = Returned (nodes, wires, k') /\
    k' = k + length nodes + length wires /\
    Permutation (ids nodes wires) (map randomId (seq k (k' - k))) /\
    (distinctIds randomId -> NoDup (ids nodes wires)).
Proof.
  intros Hb.
  destruct (generateCircuitFromTerms_total randomId startPos numVars terms k Hb)
    as (nodes & wires & k' & E).
  exists nodes, wires, k'. split; [exact E|].
  destruct (generateCircuitFromTerms_wellFormed _ _ _ _ _ _ E)
    as [Hle Hids _ _ _ _ _].
  split; [|split; [exact Hids|]].
  - apply Permutation_length in Hids. unfold ids in Hids.
    rewrite length_app, !length_map, length_seq in Hids. lia.
  - intros Hinj. apply (Permutation_NoDup (Permutation_sym Hids)).
    apply Finite.Injective_map_NoDup; [exact Hinj|apply seq_NoDup].
Qed.

(** X12: in the circuit the generator returns every wire leaves an element of
    the circuit and enters an input pin that the target element has. *)
Theorem generateCircuitFromTerms_wired_up
        (numVars : nat) (terms : list Term) (k : nat) :
  (forall t j, In t terms -> nth_error t j = Some "1"%char ->
               j < Nat.min numVars 4) ->
  exists nodes wires k',
    generateCircuitFromTerms randomId numVars terms startPos k
      = Returned (nodes, wires, k') /\
    wiredUp nodes wires.
Proof.
  intros Hb.
  destruct (generateCircuitFromTerms_total randomId startPos numVars terms k Hb)
    as (nodes & wires & k' & E).
  exists nodes, wires, k'. split; [exact E|].
  now destruct (generateCircuitFromTerms_wellFormed _ _ _ _ _ _ E).
Qed.

(** X13: when generateId() never repeats a result, no input pin of the
    circuit the generator returns is entered by two wires. *)
Theorem generateCircuitFromTerms_single_driver
        (numVars : nat) (terms : list Term) (k : nat) :
  distinctIds randomId ->
  (forall t j, In t terms -> nth_error t j = Some "1"%char ->
               j < Nat.min numVars 4) ->
  exists nodes wires k',
    generateCircuitFromTerms randomId numVars terms startPos k
      = Returned (nodes, wires, k') /\
    NoDup (pins wires).
Proof.
  intros Hinj Hb.
  destruct (generateCircuitFromTerms_total randomId startPos numVars terms k Hb)
    as (nodes & wires & k' & E).
  exists nodes, wires, k'. split; [exact E|].
  destruct (generateCircuitFromTerms_wellFormed _ _ _ _ _ _ E)
    as [_ _ _ _ _ _ Hp].
  exact (Hp Hinj).
Qed.

End GeneratorStructure.

Section GeneratorStructureWitness.
Import QuineMcCluskey Synthesizer SynthesizerSpec.

Lemma string_length_append (s1 s2 : string) :
  String.length (s1 ++ s2) = String.length s1 + String.length s2.
Proof. induction s1 as [|c s1 IH]; cbn; [reflexivity|now rewrite IH]. Qed.

Lemma idOfNat_length (k : nat) : String.length (idOfNat k) = S k.
Proof.
  induction k as [|k IH]; [reflexivity|].
  cbn [idOfNat]. rewrite string_length_append, IH. cbn. lia.
Qed.

Lemma idOfNat_distinct : distinctIds idOfNat.
Proof.
  intros i j E. apply (f_equal String.length) in E.
  rewrite !idOfNat_length in E. lia.
Qed.

Lemma xorTerms_in_bounds :
  forall t j, In t [["0"; "1"]; ["1"; "0"]]%char ->
              nth_error t j = Some "1"%char -> j < Nat.min 2 4.
Proof.
  intros t j [<-|[<-|[]]] Hj; destruct j as [|[|[|j]]]; cbn in Hj |- *;
    try discriminate; lia.
Qed.

Lemma generateCircuitFromTerms_all_low_witness :
  exists nodes wires k',
    generateCircuitFromTerms idOfNat 2 [["0"; "1"]; ["1"; "0"]]%char
                             (mkPosition 0 0) 0
      = Returned (nodes, wires, k') /\
    Forall lowNode nodes /\ Forall lowWire wires.
Proof.
  apply (generateCircuitFromTerms_all_low idOfNat (mkPosition 0 0) 2).
  exact xorTerms_in_bounds.
Defined.

Lemma generateCircuitFromTerms_fresh_ids_witness :
  exists nodes wires k',
    generateCircuitFromTerms idOfNat 2 [["0"; "1"]; ["1"; "0"]]%char
                             (mkPosition 0 0) 0
      = Returned (nodes, wires, k') /\
    k' = 0 + length nodes + length wires /\
    Permutation (ids nodes wires) (map idOfNat (seq 0 (k' - 0))) /\
    (distinctIds idOfNat -> NoDup (ids nodes wires)).
Proof.
  apply (generateCircuitFromTerms_fresh_ids idOfNat (mkPosition 0 0) 2).
  exact xorTerms_in_bounds.
Defined.

Lemma generateCircuitFromTerms_wired_up_witness :
  exists nodes wires k',
    generateCircuitFromTerms idOfNat 2 [["0"; "1"]; ["1"; "0"]]%char
                             (mkPosition 0 0) 0
      = Returned (nodes, wires, k') /\
    wiredUp nodes wires.
Proof.
  apply (generateCircuitFromTerms_wired_up idOfNat (mkPosition 0 0) 2).
  exact xorTerms_in_bounds.
Defined.

Lemma generateCircuitFromTerms_single_driver_witness :
  exists nodes wires k',
    generateCircuitFromTerms idOfNat 2 [["0"; "1"]; ["1"; "0"]]%char
                             (mkPosition 0 0) 0
      = Returned (nodes, wires, k') /\
    NoDup (pins wires).
Proof.
  apply (generateCircuitFromTerms_single_driver idOfNat (mkPosition 0 0) 2).
  - exact idOfNat_distinct.
  - exact xorTerms_in_bounds.
Defined.

End GeneratorStructureWitness.

(* ================================================================== *)
(** * From a truth table to a circuit *)
(* ================================================================== *)

Section TruthTables.
Import QuineMcCluskey TermSemantics Synthesizer TruthTableSynthesis.

Lemma Z_to_N_of_nat (n : nat) : Z.to_N (Z.of_nat n) = N.of_nat n.
Proof. rewrite <- Znat.nat_N_Z. apply Znat.N2Z.id. Qed.

Lemma markRows_closed (truthTable : list bool) : forall idx,
  map Z.to_N (filter (fun i => negb (Z.eqb i (-1))) (markRows truthTable idx)) =
  map N.of_nat
      (filter (fun i => nth (i - idx) truthTable false)
              (seq idx (length truthTable))).
Proof.
  induction truthTable as [|val rest IH]; intros idx; [reflexivity|].
  cbn [markRows length seq filter].
  assert (Hrest :
    filter (fun i => nth (i - idx) (val :: rest) false) (seq (S idx) (length rest))
    = filter (fun i => nth (i - S idx) rest false) (seq (S idx) (length rest))).
  { apply filter_ext_in. intros i Hi. apply in_seq in Hi.
    replace (i - idx) with (S (i - S idx)) by lia. reflexivity. }
  rewrite Hrest, Nat.sub_diag. cbn [nth]. destruct val.
  - assert (H : negb (Z.of_nat idx =? -1)%Z = true).
    { apply negb_true_iff, Z.eqb_neq. lia. }
    rewrite H. cbn [map]. now rewrite IH, Z_to_N_of_nat.
  - cbn [Z.eqb Pos.eqb negb]. apply IH.
Qed.

(** The minterms handed to the minimizer are the indices of the true rows,
    in ascending order. *)
Lemma mintermsOf_closed (truthTable : list bool) :
  mintermsOf truthTable =
  map N.of_nat (filter (fun i => nth i truthTable false)
                       (seq 0 (length truthTable))).
Proof.
  unfold mintermsOf. rewrite markRows_closed. f_equal.
  apply filter_ext. intros i. now rewrite Nat.sub_0_r.
Qed.

Lemma mintermsOf_In (truthTable : list bool) (m : N) :
  In m (mintermsOf truthTable) <-> nth (N.to_nat m) truthTable false = true.
Proof.
  rewrite mintermsOf_closed, in_map_iff. split.
  - intros (i & <- & Hi). apply filter_In in Hi. rewrite Nat2N.id. tauto.
  - intros H. exists (N.to_nat m). split; [apply N2Nat.id|].
    apply filter_In. split; [|exact H]. apply in_seq. split; [lia|].
    destruct (Nat.lt_ge_cases (N.to_nat m) (length truthTable)) as [Hlt|Hge];
      [lia|].
    rewrite nth_overflow in H by lia. discriminate.
Qed.

Lemma mintermsOf_NoDup (truthTable : list bool) : NoDup (mintermsOf truthTable).
Proof.
  rewrite mintermsOf_closed.
  apply Finite.Injective_map_NoDup; [intros x y; apply Nat2N.inj|].
  apply NoDup_filter, seq_NoDup.
Qed.

Lemma mintermsOf_range (truthTable : list bool) (n : nat) :
  length truthTable <= 2 ^ n ->
  forall m, In m (mintermsOf truthTable) -> (m < 2 ^ N.of_nat n)%N.
Proof.
  intros Hl m Hm. apply mintermsOf_In in Hm.
  assert (Hlt : N.to_nat m < length truthTable).
  { destruct (Nat.lt_ge_cases (N.to_nat m) (length truthTable)) as [H|H];
      [exact H|].
    rewrite nth_overflow in Hm by lia. discriminate. }
  change 2%N with (N.of_nat 2). rewrite <- Nat2N.inj_pow. lia.
Qed.

Lemma collectPrimes_uniform (n : nat) (cur used pis : list Term) :
  uniform n cur -> uniform n pis -> uniform n (collectPrimes cur used pis).
Proof.
  intros Hc Hp t Ht. apply collectPrimes_In in Ht.
  destruct Ht as [H|[H _]]; auto.
Qed.

Lemma qmLoop_uniform (n : nat) : forall fuel cur pis res,
  uniform n cur -> uniform n pis ->
  qmLoop fuel cur pis = Some res -> uniform n res.
Proof.
  induction fuel as [|fuel IH]; intros cur pis res Hc Hp H.
  - destruct cur; [|discriminate].
    assert (E : pis = res) by (cbn in H; congruence). now subst.
  - destruct cur as [|t0 cur'].
    { assert (E : pis = res) by (cbn in H; congruence). now subst. }
    cbn [qmLoop] in H.
    pose proof (next_uniform n (t0 :: cur') Hc) as Hn.
    destruct (fst (outerLoop (t0 :: cur') ([], []))) as [|x next].
    + match type of H with
      | Some ?a = Some ?b => assert (E' : a = b) by congruence; rewrite <- E'
      end.
      now apply collectPrimes_uniform.
    + eapply IH; [exact Hn| |exact H]. now apply collectPrimes_uniform.
Qed.

(** What the minimizer returns for in-range minterms: terms of length
    [numVars] whose OR is true exactly on the minterms. *)
Lemma solveQuineMcCluskey_result (fuel numVars : nat) (minterms : list N) :
  1 <= numVars -> numVars < fuel ->
  NoDup minterms ->
  (forall m, In m minterms -> (m < 2 ^ N.of_nat numVars)%N) ->
  exists terms,
    solveQuineMcCluskey fuel numVars minterms = Some terms /\
    uniform numVars terms /\
    forall a, (a < 2 ^ N.of_nat numVars)%N ->
      (evalSum numVars terms a = true <-> In a minterms).
Proof.
  intros Hn Hf Hnd Hr. unfold solveQuineMcCluskey.
  destruct (Nat.eqb_spec (length minterms) 0) as [E0|E0].
  - exists []. split; [reflexivity|]. split; [intros t []|]. intros a _.
    destruct minterms; [|discriminate]. cbn. split; [discriminate|easy].
  - destruct (N.eqb_spec (N.of_nat (length minterms)) (2 ^ N.of_nat numVars))
      as [Efull|Efull].
    + exists [repeat "-"%char numVars]. split; [reflexivity|]. split.
      * intros t [<-|[]]. apply repeat_length.
      * intros a Ha. split; [intros _; now apply (full_table numVars)|].
        intros _. cbn. unfold evalTerm. now rewrite productFrom_dashes.
    + destruct (qmLoop_initial_total numVars minterms Hn Hr fuel Hf) as [res Hres].
      rewrite Hres. cbn [option_map]. exists (sort res).
      split; [reflexivity|].
      pose proof (initialTerms_uniform numVars minterms Hn Hr) as Hu.
      split.
      * intros t Ht. apply (proj1 (sort_In _ _)) in Ht.
        apply (qmLoop_uniform numVars fuel _ [] res Hu); [intros ? []|exact Hres|exact Ht].
      * intros a Ha.
        rewrite <- (initialTerms_cover numVars minterms Hn Hr a Ha).
        pose proof (qmLoop_cover numVars a fuel _ _ res Hu Hres) as Hc.
        rewrite !evalSum_exists in *.
        split.
        -- intros (t & Ht & Hev). apply (proj1 (sort_In _ _)) in Ht.
           destruct (proj1 Hc (ex_intro _ t (conj Ht Hev))) as [H|(t' & [] & _)].
           exact H.
        -- intros H. destruct (proj2 Hc (or_introl H)) as (t & Ht & Hev).
           exists t. split; [now apply sort_In|exact Hev].
Qed.

Variable randomId : nat -> string.
Variable startPos : Position.

(** X9: generateCircuitFromTruthTable, for 1 to 4 variables and a table of
    at most 2^numVars rows: the minimizer is run on the indices of the true
    rows and returns terms whose OR is true under an assignment exactly when
    the table row of that assignment is true, and generateCircuitFromTerms
    on these terms returns (it does not throw) a circuit with numVars
    switches. *)
Theorem generateCircuitFromTruthTable_realizes
        (fuel numVars : nat) (truthTable : list bool) (k : nat) :
  1 <= numVars <= 4 -> numVars < fuel ->
  length truthTable <= 2 ^ numVars ->
  exists terms nodes wires k',
    solveQuineMcCluskey fuel numVars (mintermsOf truthTable) = Some terms /\
    generateCircuitFromTruthTable randomId fuel numVars truthTable startPos
      = Some (generateCircuitFromTerms randomId numVars terms startPos) /\
    generateCircuitFromTerms randomId numVars terms startPos k
      = Returned (nodes, wires, k') /\
    switchCount nodes = numVars /\
    forall a, (a < 2 ^ N.of_nat numVars)%N ->
      evalSum numVars terms a = nth (N.to_nat a) truthTable false.
Proof.
  intros [Hn H4] Hf Hl.
  destruct (solveQuineMcCluskey_result fuel numVars (mintermsOf truthTable) Hn Hf
              (mintermsOf_NoDup truthTable)
              (mintermsOf_range truthTable numVars Hl))
    as (terms & Es & Hu & Hcov).
  assert (Hb : forall t j, In t terms -> nth_error t j = Some "1"%char ->
                           j < Nat.min numVars 4).
  { intros t j Ht Hj.
    assert (Hlt : j < length t) by (apply nth_error_Some; congruence).
    rewrite (Hu t Ht) in Hlt. lia. }
  destruct (generateCircuitFromTerms_total randomId startPos numVars terms k Hb)
    as (nodes & wires & k' & E).
  exists terms, nodes, wires, k'. split; [exact Es|]. split.
  { unfold generateCircuitFromTruthTable. now rewrite Es. }
  split; [exact E|]. split.
  - rewrite (generateCircuitFromTerms_switches randomId startPos _ _ _ _ _ _ E).
    lia.
  - intros a Ha. specialize (Hcov a Ha). rewrite mintermsOf_In in Hcov.
    destruct (evalSum numVars terms a), (nth (N.to_nat a) truthTable false);
      try reflexivity.
    + symmetry. now apply Hcov.
    + now apply Hcov.
Qed.

End TruthTables.

Section TruthTablesWitness.
Import QuineMcCluskey TermSemantics Synthesizer TruthTableSynthesis.

Lemma generateCircuitFromTruthTable_realizes_witness :
  exists terms nodes wires k',
    solveQuineMcCluskey 3 2 (mintermsOf [false; true; true; false]) = Some terms /\
    generateCircuitFromTruthTable idOfNat 3 2 [false; true; true; false]
                                  (mkPosition 0 0)
      = Some (generateCircuitFromTerms idOfNat 2 terms (mkPosition 0 0)) /\
    generateCircuitFromTerms idOfNat 2 terms (mkPosition 0 0) 0
      = Returned (nodes, wires, k') /\
    switchCount nodes = 2 /\
    forall a, (a < 2 ^ N.of_nat 2)%N ->
      evalSum 2 terms a = nth (N.to_nat a) [false; true; true; false] false.
Proof.
  apply (generateCircuitFromTruthTable_realizes idOfNat (mkPosition 0 0)
           3 2 [false; true; true; false] 0).
  - lia.
  - lia.
  - cbn. lia.
Defined.

End TruthTablesWitness.

Section ConstantTables.
Import QuineMcCluskey TermSemantics Synthesizer TruthTableSynthesis.

Variable randomId : nat -> string.
Variable startPos : Position.

Lemma markZeros_dashes (n : nat) : forall off a,
  markZeros (repeat "-"%char n) off a = a.
Proof. induction n as [|n IH]; intros off a; [reflexivity|apply IH]. Qed.

Lemma gatherConnections_dashes inputs notGates (n : nat) : forall i conns,
  gatherConnections inputs notGates (repeat "-"%char n) i conns = Returned conns.
Proof. induction n as [|n IH]; intros i conns; [reflexivity|apply IH]. Qed.

Lemma arrayTruthy_repeat_false (n i : nat) : arrayTruthy (repeat false n) i = false.
Proof.
  unfold arrayTruthy. destruct (nth_error (repeat false n) i) as [b|] eqn:E;
    [|reflexivity].
  apply nth_error_In, repeat_spec in E. exact E.
Qed.

Lemma createNots_none (needsNot : list bool) (rest : list CircuitNode) :
  (forall i, arrayTruthy needsNot i = false) ->
  forall i acc k,
    createNots randomId startPos needsNot rest i acc k = Returned (acc, k).
Proof.
  intros Hn. induction rest as [|inp rest IH]; intros i acc k; [reflexivity|].
  cbn [createNots]. rewrite Hn. apply IH.
Qed.

Lemma bind_ext {A B} (m : Gen A) (f g : A -> Gen B) (k : nat) :
  (forall a k', f a k' = g a k') -> bind m f k = bind m g k.
Proof. intros H. unfold bind. destruct (m k) as [[a k']|]; auto. Qed.

Lemma bind_eq {A B} (m m' : Gen A) (f : A -> Gen B) (k : nat) :
  m k = m' k -> bind m f k = bind m' f k.
Proof. intros H. unfold bind. now rewrite H. Qed.

Lemma mintermsOf_all_true (len : nat) : length (mintermsOf (repeat true len)) = len.
Proof.
  rewrite mintermsOf_closed, length_map, repeat_length.
  assert (E : filter (fun i => nth i (repeat true len) false) (seq 0 len)
              = seq 0 len).
  { rewrite <- (filter_ext_in (fun _ => true)).
    - induction (seq 0 len) as [|x l IH]; cbn; [reflexivity|now rewrite IH].
    - intros i Hi. apply in_seq in Hi. symmetry. apply nth_repeat_lt. lia. }
  now rewrite E, length_seq.
Qed.

(** X14: the table that is true in every row.  The wrapper hands the
    generator the single term of numVars dashes, for which the generator
    builds exactly what it builds for no term at all (the all-false table):
    the switches and a lamp, with no gate and no wire, so that the lamp of
    the circuit generated for the constant-true function is not connected
    to anything. *)
Theorem generateCircuitFromTruthTable_constant_true
        (fuel numVars : nat) (k : nat) :
  generateCircuitFromTruthTable randomId fuel numVars
                                (repeat true (2 ^ numVars)) startPos
  = Some (generateCircuitFromTerms randomId numVars
                                   [repeat "-"%char numVars] startPos) /\
  generateCircuitFromTerms randomId numVars [repeat "-"%char numVars] startPos k
  = generateCircuitFromTerms randomId numVars [] startPos k /\
  exists inputs lamp,
    generateCircuitFromTerms randomId numVars [] startPos k
    = Returned (inputs ++ [lamp], [], S (k + Nat.min numVars 4)) /\
    Forall (fun n => n_type n = INPUT_SWITCH) inputs /\
    n_type lamp = OUTPUT_LAMP.
Proof.
  split; [|split].
  - unfold generateCircuitFromTruthTable, solveQuineMcCluskey.
    rewrite mintermsOf_all_true.
    assert (H0 : (2 ^ numVars =? 0) = false).
    { apply Nat.eqb_neq. apply Nat.pow_nonzero. lia. }
    rewrite H0.
    assert (H1 : N.eqb (N.of_nat (2 ^ numVars)) (2 ^ N.of_nat numVars) = true).
    { apply N.eqb_eq. now rewrite Nat2N.inj_pow. }
    now rewrite H1.
  - unfold generateCircuitFromTerms. cbn [fold_left length].
    rewrite markZeros_dashes.
    apply bind_ext. intros inputs k1. apply bind_ext. intros [[n2 w2] ng] k2.
    cbv beta iota. apply bind_eq. cbn [processTerms]. unfold bind, processTerm.
    rewrite Bool.andb_false_r, gatherConnections_dashes. reflexivity.
  - unfold generateCircuitFromTerms. cbn [fold_left length processTerms].
    destruct (createInputs_total randomId startPos
                (firstn numVars ["A"; "B"; "C"; "D"]%string) 0 k)
      as (inputs & E1 & Hlen & Hsw).
    unfold bind at 1. rewrite E1. unfold bind at 1.
    rewrite (createNots_none _ _ (arrayTruthy_repeat_false numVars)).
    unfold bind, ret, generateId. cbn [truthyString].
    rewrite firstn_labels_length. eexists inputs, _.
    split; [reflexivity|]. split; [exact Hsw|reflexivity].
Qed.

End ConstantTables.

(* ================================================================== *)
(** * Properties of the editing actions and the clock *)
(* ================================================================== *)

Section EditingActions.
Import CircuitEngine EngineSpec SynthesizerSpec AppActions.

Lemma has_In (l : list string) (x : string) : has l x = true <-> In x l.
Proof.
  unfold has. rewrite existsb_exists. split.
  - intros (y & Hy & E). apply String.eqb_eq in E. now subst.
  - intros H. exists x. split; [exact H|apply String.eqb_refl].
Qed.

Lemma has_false (l : list string) (x : string) : has l x = false <-> ~ In x l.
Proof.
  rewrite <- has_In. destruct (has l x); split; congruence.
Qed.

Lemma length_zero_nil {A} (l : list A) : (length l =? 0) = true -> l = [].
Proof. destruct l; [reflexivity|discriminate]. Qed.

Lemma nodeIdsToDelete_In (m : Model) (id : string) :
  In id (nodeIdsToDelete m) <->
  In id (selectedNodeIds m) \/ menuNodeId (contextMenu m) = Some id.
Proof.
  unfold nodeIdsToDelete. destruct (menuNodeId (contextMenu m)) as [x|].
  - destruct (has (selectedNodeIds m) x) eqn:E.
    + apply has_In in E. split; [auto|]. intros [H|[= <-]]; assumption.
    + rewrite in_app_iff. cbn. split.
      * intros [H|[<-|[]]]; auto.
      * intros [H|[= <-]]; auto.
  - split; [auto|]. intros [H|H]; [exact H|discriminate].
Qed.

Lemma deleteSelected_nodes (m : Model) (n : CircuitNode) :
  In n (nodes (deleteSelected m)) <->
  In n (nodes m) /\ ~ In (n_id n) (nodeIdsToDelete m).
Proof.
  unfold deleteSelected.
  destruct ((length (nodeIdsToDelete m) =? 0) &&
            (length (selectedWireIds m) =? 0)) eqn:E.
  - apply andb_true_iff in E. destruct E as [E _].
    apply length_zero_nil in E. rewrite E. cbn. tauto.
  - cbn [nodes]. rewrite filter_In, negb_true_iff, has_false. tauto.
Qed.

Lemma deleteSelected_wires (m : Model) (w : Wire) :
  In w (wires (deleteSelected m)) <->
  In w (wires m) /\ ~ In (w_id w) (selectedWireIds m) /\
  ~ In (sourceNodeId w) (nodeIdsToDelete m) /\
  ~ In (targetNodeId w) (nodeIdsToDelete m).
Proof.
  unfold deleteSelected.
  destruct ((length (nodeIdsToDelete m) =? 0) &&
            (length (selectedWireIds m) =? 0)) eqn:E.
  - apply andb_true_iff in E. destruct E as [E1 E2].
    apply length_zero_nil in E1, E2. rewrite E1, E2. cbn. tauto.
  - cbn [wires]. rewrite filter_In, !andb_true_iff, !negb_true_iff, !has_false.
    tauto.
Qed.

(** X15: deleteSelected removes the selected elements and the element under
    the context menu, together with every wire attached to one of them and
    every selected wire, and nothing else; a circuit in which every wire
    joins existing elements at existing pins stays so. *)
Theorem deleteSelected_cascade (m : Model) :
  (forall id, In id (nodeIdsToDelete m) <->
     In id (selectedNodeIds m) \/ menuNodeId (contextMenu m) = Some id) /\
  (forall n, In n (nodes (deleteSelected m)) <->
     In n (nodes m) /\ ~ In (n_id n) (nodeIdsToDelete m)) /\
  (forall w, In w (wires (deleteSelected m)) <->
     In w (wires m) /\ ~ In (w_id w) (selectedWireIds m) /\
     ~ In (sourceNodeId w) (nodeIdsToDelete m) /\
     ~ In (targetNodeId w) (nodeIdsToDelete m)) /\
  (wiredUp (nodes m) (wires m) ->
   wiredUp (nodes (deleteSelected m)) (wires (deleteSelected m))).
Proof.
  split; [apply nodeIdsToDelete_In|].
  split; [apply deleteSelected_nodes|].
  split; [apply deleteSelected_wires|].
  intros Hw w Hin. apply deleteSelected_wires in Hin.
  destruct Hin as (Hin & _ & Hs & Ht).
  destruct (Hw w Hin) as [(s & Hs1 & Hs2) (t & Ht1 & Ht2 & Ht3)]. split.
  - exists s. split; [|exact Hs2]. apply deleteSelected_nodes.
    split; [exact Hs1|]. now rewrite Hs2.
  - exists t. split; [|split; [exact Ht2|exact Ht3]].
    apply deleteSelected_nodes. split; [exact Ht1|]. now rewrite Ht2.
Qed.

Lemma newCountOf_bounds (c : nat) (d : Z) : 2 <= newCountOf c d <= 8.
Proof. unfold newCountOf. lia. Qed.

Lemma resizeNode_id (id : string) (d : Z) (n : CircuitNode) :
  n_id (resizeNode id d n) = n_id n.
Proof.
  unfold resizeNode. destruct (negb _); [reflexivity|].
  destruct (_ =? _); reflexivity.
Qed.

Lemma resizeNode_other (id : string) (d : Z) (n : CircuitNode) :
  n_id n <> id -> resizeNode id d n = n.
Proof.
  intros H. unfold resizeNode.
  destruct (String.eqb_spec (n_id n) id); [contradiction|reflexivity].
Qed.

Lemma resizeNode_arity (id : string) (d : Z) (n : CircuitNode) :
  n_id n = id ->
  length (n_inputs (resizeNode id d n)) = newCountOf (length (n_inputs n)) d.
Proof.
  intros H. unfold resizeNode. rewrite H, String.eqb_refl. cbn [negb].
  destruct (Nat.eqb_spec (newCountOf (length (n_inputs n)) d)
                         (length (n_inputs n))) as [E|E]; [now rewrite E|].
  cbn [n_inputs].
  destruct (Nat.ltb_spec (length (n_inputs n))
                         (newCountOf (length (n_inputs n)) d)).
  - rewrite length_app, repeat_length. lia.
  - rewrite length_firstn. lia.
Qed.

Lemma resizeNode_inputs (id : string) (d : Z) (n : CircuitNode) (i : nat) :
  i < length (n_inputs (resizeNode id d n)) ->
  nth i (n_inputs (resizeNode id d n)) false = nth i (n_inputs n) false.
Proof.
  unfold resizeNode. destruct (negb _); [reflexivity|].
  destruct (_ =? _); [reflexivity|]. cbn [n_inputs].
  destruct (Nat.ltb_spec (length (n_inputs n))
                         (newCountOf (length (n_inputs n)) d)); intros Hi.
  - destruct (Nat.lt_ge_cases i (length (n_inputs n))) as [Hlt|Hge].
    + now rewrite app_nth1.
    + rewrite app_nth2 by lia. rewrite (nth_overflow (n_inputs n)) by lia.
      apply nth_repeat.
  - rewrite length_firstn in Hi. rewrite nth_firstn.
    destruct (Nat.ltb_spec i (newCountOf (length (n_inputs n)) d));
      [reflexivity|lia].
Qed.

Lemma pruneFor_In (id : string) (d : Z) (n : CircuitNode) (ws : list Wire) w :
  In w (pruneFor id d n ws) <->
  In w ws /\
  (n_id n = id -> targetNodeId w = id ->
   newCountOf (length (n_inputs n)) d < length (n_inputs n) ->
   targetPinIndex w < newCountOf (length (n_inputs n)) d).
Proof.
  unfold pruneFor. destruct (String.eqb_spec (n_id n) id) as [E|E]; cbn [negb].
  2:{ tauto. }
  destruct (Nat.eqb_spec (newCountOf (length (n_inputs n)) d)
                         (length (n_inputs n))) as [E1|E1].
  { split; [|tauto]. intros H. split; [exact H|]. lia. }
  destruct (Nat.ltb_spec (length (n_inputs n))
                         (newCountOf (length (n_inputs n)) d)) as [E2|E2].
  { split; [|tauto]. intros H. split; [exact H|]. lia. }
  rewrite filter_In, negb_true_iff, andb_false_iff.
  split; intros [H1 H2]; (split; [exact H1|]).
  - intros _ Ht _. destruct H2 as [H2|H2].
    + apply String.eqb_neq in H2. contradiction.
    + apply Nat.leb_gt in H2. exact H2.
  - destruct (String.eqb_spec (targetNodeId w) id) as [Ht|Ht]; [|now left].
    right. apply Nat.leb_gt. apply H2; auto. lia.
Qed.

Lemma pruneAll_In (id : string) (d : Z) (l : list CircuitNode) :
  forall (ws : list Wire) w,
  In w (fold_left (fun ws node => pruneFor id d node ws) l ws) <->
  In w ws /\
  forall n, In n l -> n_id n = id -> targetNodeId w = id ->
    newCountOf (length (n_inputs n)) d < length (n_inputs n) ->
    targetPinIndex w < newCountOf (length (n_inputs n)) d.
Proof.
  induction l as [|n l IH]; intros ws w; cbn [fold_left].
  - split; [|tauto]. intros H. split; [exact H|]. intros n [].
  - rewrite IH, pruneFor_In. split.
    + intros [[H1 H2] H3]. split; [exact H1|].
      intros n' [<-|Hn']; [exact H2|now apply H3].
    + intros [H1 H2]. split; [split; [exact H1|]|].
      * apply H2. now left.
      * intros n' Hn'. apply H2. now right.
Qed.

(** X16: handleInputCountChange on the element under the context menu: its
    number of input pins ends up between 2 and 8 whatever it was and
    whatever the step; the entries it keeps are unchanged and the entries it
    gains are false; output states, kinds and all other elements are left as
    they are; the only wires dropped are wires into that element, and a
    circuit in which every wire joins existing elements at existing pins
    stays so. *)
Theorem handleInputCountChange_keeps_wiring
        (delta : Z) (m : Model) (nodeId : string) :
  menuNodeId (contextMenu m) = Some nodeId ->
  (forall n', In n' (nodes (handleInputCountChange delta m)) ->
     n_id n' = nodeId -> 2 <= length (n_inputs n') <= 8) /\
  Forall2 (fun n n' =>
             n_id n' = n_id n /\ n_type n' = n_type n /\
             n_state n' = n_state n /\
             (n_id n <> nodeId -> n' = n) /\
             forall i, i < length (n_inputs n') ->
               nth i (n_inputs n') false = nth i (n_inputs n) false)
          (nodes m) (nodes (handleInputCountChange delta m)) /\
  (forall w, In w (wires (handleInputCountChange delta m)) -> In w (wires m)) /\
  (forall w, In w (wires m) -> targetNodeId w <> nodeId ->
     In w (wires (handleInputCountChange delta m))) /\
  (wiredUp (nodes m) (wires m) ->
   wiredUp (nodes (handleInputCountChange delta m))
           (wires (handleInputCountChange delta m))).
Proof.
  intros Hm. unfold handleInputCountChange. rewrite Hm. cbn [nodes wires].
  split; [|split; [|split; [|split]]].
  - intros n' Hin Hid. apply in_map_iff in Hin. destruct Hin as (n & <- & _).
    rewrite resizeNode_id in Hid. rewrite (resizeNode_arity _ _ _ Hid).
    apply newCountOf_bounds.
  - apply Forall2_map_r. intros n. split; [apply resizeNode_id|].
    split; [|split; [|split]].
    + unfold resizeNode. destruct (negb _); [reflexivity|].
      destruct (_ =? _); reflexivity.
    + unfold resizeNode. destruct (negb _); [reflexivity|].
      destruct (_ =? _); reflexivity.
    + apply resizeNode_other.
    + apply resizeNode_inputs.
  - intros w Hin. now apply pruneAll_In in Hin.
  - intros w Hin Ht. apply pruneAll_In. split; [exact Hin|].
    intros n _ _ Ht'. contradiction.
  - intros Hw w Hin. apply pruneAll_In in Hin. destruct Hin as [Hin Hkeep].
    destruct (Hw w Hin) as [(s & Hs1 & Hs2) (t & Ht1 & Ht2 & Ht3)]. split.
    + exists (resizeNode nodeId delta s).
      split; [now apply in_map|]. now rewrite resizeNode_id.
    + exists (resizeNode nodeId delta t).
      split; [now apply in_map|]. split; [now rewrite resizeNode_id|].
      destruct (string_dec (n_id t) nodeId) as [E|E].
      * rewrite (resizeNode_arity _ _ _ E).
        destruct (Nat.lt_ge_cases (newCountOf (length (n_inputs t)) delta)
                                  (length (n_inputs t))) as [Hlt|Hge]; [|lia].
        apply (Hkeep t Ht1 E); [congruence|exact Hlt].
      * now rewrite (resizeNode_other _ _ _ E).
Qed.

Lemma handleInputCountChange_keeps_wiring_witness :
  (forall n', In n' (nodes (handleInputCountChange (-1)
                     (mkModel [sampleGate [false; false; false]]
                              [sampleWireTo "w" "g" 2] [] [] sampleMenu))) ->
     n_id n' = "g"%string -> 2 <= length (n_inputs n') <= 8) /\
  wires (handleInputCountChange (-1)
           (mkModel [sampleGate [false; false; false]]
                    [sampleWireTo "w" "g" 2] [] [] sampleMenu)) = [].
Proof.
  split; [|reflexivity].
  apply (handleInputCountChange_keeps_wiring (-1)
           (mkModel [sampleGate [false; false; false]]
                    [sampleWireTo "w" "g" 2] [] [] sampleMenu) "g").
  reflexivity.
Defined.

Lemma pins_sameConnection (ws ws' : list Wire) :
  Forall2 sameConnection ws ws' -> pins ws' = pins ws.
Proof.
  induction 1 as [|a b l l' Hab _ IH]; [reflexivity|].
  unfold pins in *. cbn [map]. rewrite IH.
  destruct Hab as (_ & _ & _ & H1 & H2 & _). now rewrite H1, H2.
Qed.

Lemma pin_taken (ws : list Wire) (key : string) (pin : nat) :
  existsb (fun w => String.eqb (targetNodeId w) key && (targetPinIndex w =? pin))
          ws = true <->
  In (key, pin) (pins ws).
Proof.
  rewrite existsb_exists. unfold pins. rewrite in_map_iff. split.
  - intros (w & Hw & E). apply andb_true_iff in E. destruct E as [E1 E2].
    apply String.eqb_eq in E1. apply Nat.eqb_eq in E2. exists w. split; congruence.
  - intros (w & [= E1 E2] & Hw). exists w. split; [exact Hw|].
    rewrite E1, E2, String.eqb_refl, Nat.eqb_refl. reflexivity.
Qed.



Lemma propagateCircuit_source_at (ns : list CircuitNode) (ws : list Wire)
      (k : nat) (n : CircuitNode) :
  nth_error ns k = Some n -> isSource (n_type n) = true ->
  nth_error (fst (propagateCircuit ns ws)) k = Some n.
Proof.
  intros Hk Hs. unfold propagateCircuit.
  apply (propagateLoop_inv (fun l _ => nth_error l k = Some n)); [|exact Hk].
  intros l ws' H. rewrite roundNodes_eq, nth_error_map, H. cbn [option_map].
  unfold updateNode. now rewrite Hs.
Qed.



(** X19: a tick of the clock interval does nothing when the circuit has no
    CLOCK; otherwise it flips every CLOCK, leaves every INPUT_SWITCH as it
    is, and propagates: in the new snapshot each clock sits at its position
    with the opposite state and each switch is unchanged. *)
Theorem clockTick_flips_clocks (ns : list CircuitNode) (ws : list Wire) :
  (clockTick ns ws = None <-> forall n, In n ns -> n_type n <> CLOCK) /\
  (forall r, clockTick ns ws = Some r ->
     forall k n, nth_error ns k = Some n ->
       (n_type n = CLOCK ->
        nth_error (fst r) k = Some (set_n_state n (negb (n_state n)))) /\
       (n_type n = INPUT_SWITCH -> nth_error (fst r) k = Some n)).
Proof.
  unfold clockTick. split.
  - destruct (existsb _ ns) eqn:E.
    + split; [discriminate|]. intros H. apply existsb_exists in E.
      destruct E as (n & Hn & Hc). exfalso. apply (H n Hn).
      destruct (n_type n); try discriminate; reflexivity.
    + split; [|reflexivity]. intros _ n Hn Hc.
      rewrite existsb_false_forall in E. specialize (E n Hn).
      rewrite Hc in E. discriminate.
  - intros r Hr. destruct (existsb _ ns); [|discriminate].
    injection Hr as <-. intros k n Hk. split; intros Ht.
    + apply propagateCircuit_source_at.
      * rewrite nth_error_map, Hk. cbn [option_map]. now rewrite Ht.
      * cbn. now rewrite Ht.
    + apply propagateCircuit_source_at.
      * rewrite nth_error_map, Hk. cbn [option_map]. now rewrite Ht.
      * now rewrite Ht.
Qed.

End EditingActions.

Section Duplicating.
Import CircuitEngine Synthesizer SynthesizerSpec AppActions DuplicateSpec.

Variable randomId : nat -> string.

Lemma mapGet_mapSet (k v : string) (idMap : list (string * string)) (k' : string) :
  mapGet (mapSet k v idMap) k' =
  if String.eqb k k' then Some v else mapGet idMap k'.
Proof.
  induction idMap as [|[a b] rest IH]; cbn [mapSet mapGet].
  - reflexivity.
  - destruct (String.eqb_spec a k) as [->|Hak]; cbn [mapGet].
    + destruct (String.eqb_spec k k'); reflexivity.
    + rewrite IH. destruct (String.eqb_spec a k') as [->|Hak'].
      * destruct (String.eqb_spec k k'); [congruence|reflexivity].
      * reflexivity.
Qed.

(** [c] is a copy of the element of [ns] that [find] returns for [key]. *)
Local Abbreviation copyOf ns key c :=
  (exists o, find (fun n => String.eqb (n_id n) key) ns = Some o /\
             copyOfNode c o).

Lemma cloneNodes_spec (ns : list CircuitNode) (ids : list string) :
  forall newNodes idMap k,
    (forall key v, mapGet idMap key = Some v ->
       exists c, In c newNodes /\ n_id c = v /\ copyOf ns key c) ->
    exists extra idMap' k',
      cloneNodes randomId ns ids newNodes idMap k
        = Returned (newNodes ++ extra, idMap', k') /\
      k <= k' /\
      map n_id extra = map randomId (seq k (k' - k)) /\
      (forall c, In c extra -> exists key, In key ids /\ copyOf ns key c) /\
      (forall key v, mapGet idMap' key = Some v ->
         exists c, In c (newNodes ++ extra) /\ n_id c = v /\ copyOf ns key c).
Proof.
  induction ids as [|id rest IH]; intros newNodes idMap k Hmap.
  - exists [], idMap, k. cbn. unfold ret. rewrite app_nil_r, Nat.sub_diag.
    repeat split; auto. intros c [].
  - cbn [cloneNodes].
    destruct (find (fun n => String.eqb (n_id n) id) ns) as [o|] eqn:Ef.
    + unfold bind, generateId.
      match goal with
      | |- context [cloneNodes _ _ _ (newNodes ++ [?a]) _ _] => set (c0 := a)
      end.
      destruct (IH (newNodes ++ [c0]) (mapSet id (randomId k) idMap) (S k))
        as (extra & idMap' & k' & E & Hle & Hids & Hcopies & Hmap').
      { intros key v. rewrite mapGet_mapSet.
        destruct (String.eqb_spec id key) as [<-|Hne].
        - intros [= <-]. exists c0. split; [apply in_or_app; right; now left|].
          split; [reflexivity|]. exists o. repeat split. exact Ef.
        - intros Hg. destruct (Hmap key v Hg) as (c & Hc & Hrest).
          exists c. split; [apply in_or_app; now left|exact Hrest]. }
      rewrite E. exists (c0 :: extra), idMap', k'.
      split; [now rewrite <- app_assoc|]. split; [lia|]. split; [|split].
      * replace (k' - k) with (S (k' - S k)) by lia. cbn [seq map].
        now rewrite Hids.
      * intros c [<-|Hc].
        -- exists id. split; [now left|]. exists o. repeat split. exact Ef.
        -- destruct (Hcopies c Hc) as (key & Hkey & Hrest).
           exists key. split; [now right|exact Hrest].
      * intros key v Hg. rewrite <- app_assoc in Hmap'. now apply Hmap'.
    + destruct (IH newNodes idMap k Hmap)
        as (extra & idMap' & k' & E & Hle & Hids & Hcopies & Hmap').
      exists extra, idMap', k'. split; [exact E|]. split; [exact Hle|].
      split; [exact Hids|]. split; [|exact Hmap'].
      intros c Hc. destruct (Hcopies c Hc) as (key & Hkey & Hrest).
      exists key. split; [now right|exact Hrest].
Qed.

Lemma cloneWires_spec (idMap : list (string * string)) (ws : list Wire) :
  forall newWires k,
    exists extra k',
      cloneWires randomId idMap ws newWires k = Returned (newWires ++ extra, k') /\
      k <= k' /\
      map w_id extra = map randomId (seq k (k' - k)) /\
      (forall w', In w' extra ->
         exists w, In w ws /\
           mapGet idMap (sourceNodeId w) = Some (sourceNodeId w') /\
           mapGet idMap (targetNodeId w) = Some (targetNodeId w') /\
           targetPinIndex w' = targetPinIndex w).
Proof.
  induction ws as [|w rest IH]; intros newWires k.
  - exists [], k. cbn. unfold ret. rewrite app_nil_r, Nat.sub_diag.
    repeat split; auto. intros w' [].
  - cbn [cloneWires].
    assert (Hskip : exists extra k',
              cloneWires randomId idMap rest newWires k
                = Returned (newWires ++ extra, k') /\
              k <= k' /\
              map w_id extra = map randomId (seq k (k' - k)) /\
              (forall w', In w' extra ->
                 exists w0, In w0 (w :: rest) /\
                   mapGet idMap (sourceNodeId w0) = Some (sourceNodeId w') /\
                   mapGet idMap (targetNodeId w0) = Some (targetNodeId w') /\
                   targetPinIndex w' = targetPinIndex w0)).
    { destruct (IH newWires k) as (extra & k' & E & Hle & Hids & Hw).
      exists extra, k'. repeat split; auto.
      intros w' Hw'. destruct (Hw w' Hw') as (w0 & Hw0 & Hrest).
      exists w0. split; [now right|exact Hrest]. }
    destruct (mapGet idMap (sourceNodeId w)) as [s|] eqn:Es; [|exact Hskip].
    destruct (mapGet idMap (targetNodeId w)) as [t|] eqn:Et; [|exact Hskip].
    clear Hskip. unfold bind, generateId.
    match goal with
    | |- context [cloneWires _ _ _ (newWires ++ [?a]) _] => set (w1 := a)
    end.
    destruct (IH (newWires ++ [w1]) (S k)) as (extra & k' & E & Hle & Hids & Hw).
    rewrite E. exists (w1 :: extra), k'.
    split; [now rewrite <- app_assoc|]. split; [lia|]. split.
    + replace (k' - k) with (S (k' - S k)) by lia. cbn [seq map].
      now rewrite Hids.
    + intros w' [<-|Hw'].
      * exists w. split; [now left|]. repeat split; assumption.
      * destruct (Hw w' Hw') as (w0 & Hw0 & Hrest).
        exists w0. split; [now right|exact Hrest].
Qed.

(** The elements added are, in order, copies of the named elements, and the
    map holds exactly the ids that name one. *)
Lemma cloneNodes_exact (ns : list CircuitNode) (ids : list string) :
  forall newNodes idMap k,
    exists extra idMap',
      cloneNodes randomId ns ids newNodes idMap k
        = Returned (newNodes ++ extra, idMap', k + length extra) /\
      Forall2 copyOfNode extra (named ns ids) /\
      (forall key,
         mapGet idMap' key = None <->
         mapGet idMap key = None /\ has (map n_id (named ns ids)) key = false).
Proof.
  induction ids as [|id rest IH]; intros newNodes idMap k.
  - exists [], idMap. cbn. unfold ret. rewrite app_nil_r, Nat.add_0_r.
    split; [reflexivity|]. split; [constructor|]. intros key. tauto.
  - cbn [cloneNodes named flat_map].
    destruct (find (fun n => String.eqb (n_id n) id) ns) as [o|] eqn:Ef.
    + unfold bind, generateId.
      match goal with
      | |- context [cloneNodes _ _ _ (newNodes ++ [?a]) _ _] => set (c0 := a)
      end.
      destruct (IH (newNodes ++ [c0]) (mapSet id (randomId k) idMap) (S k))
        as (extra & idMap' & E & Hc & Hd).
      exists (c0 :: extra), idMap'. split; [|split].
      * rewrite E, <- app_assoc. cbn [app length].
        replace (k + S (length extra)) with (S k + length extra) by lia.
        reflexivity.
      * cbn [app]. constructor; [repeat split|exact Hc].
      * intros key. rewrite Hd, mapGet_mapSet. fold (named ns rest).
        apply find_some in Ef. destruct Ef as [_ Ef].
        apply String.eqb_eq in Ef. cbn [app map has existsb]. rewrite Ef.
        unfold has. rewrite (String.eqb_sym key id).
        destruct (String.eqb id key); cbn [orb]; [|tauto].
        split; [intros [H _]; discriminate|intros [_ H]; discriminate].
    + cbn [app]. apply IH.
Qed.

Local Abbreviation mapped idMap w :=
  (match mapGet idMap (sourceNodeId w), mapGet idMap (targetNodeId w) with
   | Some _, Some _ => true
   | _, _ => false
   end).

(** The wires added are, in order, re-targeted copies of the wires both of
    whose ends are in the map. *)
Lemma cloneWires_exact (idMap : list (string * string)) (ws : list Wire) :
  forall newWires k,
    exists extra,
      cloneWires randomId idMap ws newWires k
        = Returned (newWires ++ extra, k + length extra) /\
      Forall2 (fun w' w =>
                 mapGet idMap (sourceNodeId w) = Some (sourceNodeId w') /\
                 mapGet idMap (targetNodeId w) = Some (targetNodeId w') /\
                 sourcePinIndex w' = sourcePinIndex w /\
                 targetPinIndex w' = targetPinIndex w /\
                 w_state w' = w_state w /\ w_curveType w' = w_curveType w /\
                 w_color w' = w_color w)
              extra (filter (fun w => mapped idMap w) ws).
Proof.
  induction ws as [|w rest IH]; intros newWires k.
  - exists []. cbn. unfold ret. rewrite app_nil_r, Nat.add_0_r.
    split; [reflexivity|constructor].
  - cbn [cloneWires filter].
    destruct (mapGet idMap (sourceNodeId w)) as [s0|] eqn:Es; [|apply IH].
    destruct (mapGet idMap (targetNodeId w)) as [t0|] eqn:Et; [|apply IH].
    unfold bind, generateId.
    match goal with
    | |- context [cloneWires _ _ _ (newWires ++ [?a]) _] => set (w1 := a)
    end.
    destruct (IH (newWires ++ [w1]) (S k)) as (extra & E & Hc).
    exists (w1 :: extra). split.
    + rewrite E, <- app_assoc. cbn [app length].
      replace (k + S (length extra)) with (S k + length extra) by lia.
      reflexivity.
    + constructor; [|exact Hc]. repeat split; assumption.
Qed.

Lemma unique_by_id (l : list CircuitNode) (a b : CircuitNode) :
  NoDup (map n_id l) -> In a l -> In b l -> n_id a = n_id b -> a = b.
Proof.
  induction l as [|x l IH]; [easy|]. cbn [map]. intros Hnd Ha Hb E.
  inversion Hnd as [|? ? Hx Hl]; subst.
  destruct Ha as [->|Ha], Hb as [->|Hb].
  - reflexivity.
  - exfalso. apply Hx. rewrite E. now apply in_map.
  - exfalso. apply Hx. rewrite <- E. now apply in_map.
  - now apply IH.
Qed.

Lemma innerWires_nil (ns : list CircuitNode) (ws : list Wire) :
  innerWires ns [] ws = [].
Proof.
  unfold innerWires. induction ws as [|w ws IH]; [reflexivity|]. exact IH.
Qed.


End Duplicating.

Section DuplicatingWitness.
Import CircuitEngine Synthesizer SynthesizerSpec AppActions DuplicateSpec.


End DuplicatingWitness.

Section LoadingMore.
Import Loader.

Variable JSON_parse : string -> option JSON.


End LoadingMore.

Section LoadingMoreWitness.
Import Loader.


End LoadingMoreWitness.

(* ================================================================== *)
(** * The function a generated circuit computes *)
(* ================================================================== *)

Section ValueFacts.
Import CircuitEngine SynthesizerSpec CircuitSemantics.

Lemma NoDup_map_unique {A B} (f : A -> B) (l : list A) (a b : A) :
  NoDup (map f l) -> In a l -> In b l -> f a = f b -> a = b.
Proof.
  induction l as [|x l IH]; [easy|]. cbn [map]. intros Hnd Ha Hb E.
  inversion Hnd as [|? ? Hx Hl]; subst.
  destruct Ha as [->|Ha], Hb as [->|Hb].
  - reflexivity.
  - exfalso. apply Hx. rewrite E. now apply in_map.
  - exfalso. apply Hx. rewrite <- E. now apply in_map.
  - now apply IH.
Qed.

Variables (N : list CircuitNode) (W : list Wire) (val : string -> bool).
Hypothesis HW : NoDup (pins W).
Hypothesis Hcons : consistent N W val.

Lemma driver_wire (w : Wire) :
  In w W -> driver W val (targetNodeId w) (targetPinIndex w) = val (sourceNodeId w).
Proof.
  intros Hw. unfold driver.
  destruct (find _ W) as [w0|] eqn:E.
  - apply find_some in E. destruct E as [H0 Hp].
    apply andb_true_iff in Hp. destruct Hp as [H1 H2].
    apply String.eqb_eq in H1. apply Nat.eqb_eq in H2.
    assert (E : w0 = w).
    { apply (NoDup_map_unique (fun w => (targetNodeId w, targetPinIndex w)) W);
        auto. congruence. }
    now subst.
  - apply (find_none _ _ E) in Hw.
    rewrite String.eqb_refl, Nat.eqb_refl in Hw. discriminate.
Qed.

Lemma drivers_of (key : string) (srcs : list string) : forall off,
  (forall j s, nth_error srcs j = Some s ->
     exists w, In w W /\ sourceNodeId w = s /\ targetNodeId w = key /\
               targetPinIndex w = off + j) ->
  map (driver W val key) (seq off (length srcs)) = map val srcs.
Proof.
  induction srcs as [|s srcs IH]; intros off H; [reflexivity|].
  cbn [length seq map]. f_equal.
  - destruct (H 0 s eq_refl) as (w & Hw & <- & <- & Hp).
    rewrite Nat.add_0_r in Hp. rewrite <- Hp. now apply driver_wire.
  - apply IH. intros j s' Hj. destruct (H (S j) s' Hj) as (w & Hw & Hrest).
    exists w. split; [exact Hw|].
    replace (S off + j) with (off + S j) by lia. exact Hrest.
Qed.

Lemma gate_value (t : CircuitNode) (srcs : list string) :
  In t N -> isSource (n_type t) = false ->
  length (n_inputs t) = length srcs ->
  (forall j s, nth_error srcs j = Some s ->
     exists w, In w W /\ sourceNodeId w = s /\ targetNodeId w = n_id t /\
               targetPinIndex w = j) ->
  val (n_id t) = computeNodeLogic t (map val srcs).
Proof.
  intros Ht Hs Hl H. rewrite (Hcons t Ht Hs), Hl. f_equal.
  now apply drivers_of.
Qed.

Lemma floating_value (t : CircuitNode) :
  In t N -> isSource (n_type t) = false -> length (n_inputs t) = 1 ->
  (forall w, In w W -> targetNodeId w <> n_id t) ->
  val (n_id t) = computeNodeLogic t [false].
Proof.
  intros Ht Hs Hl H. rewrite (Hcons t Ht Hs), Hl. cbn [seq map]. do 2 f_equal.
  unfold driver. destruct (find _ W) as [w|] eqn:E; [|reflexivity].
  apply find_some in E. destruct E as [Hw Hp].
  apply andb_true_iff in Hp. destruct Hp as [Hp _].
  apply String.eqb_eq in Hp. now apply H in Hw.
Qed.

End ValueFacts.

Section GeneratedFunction.
Import QuineMcCluskey TermSemantics Synthesizer SynthesizerSpec CircuitSemantics.
Import CircuitEngine.

Variable randomId : nat -> string.
Variable startPos : Position.

Lemma createNots_incl (needsNot : list bool) (rest : list CircuitNode) :
  forall i nodes wires ng k nodes' wires' ng' k',
    createNots randomId startPos needsNot rest i (nodes, wires, ng) k
      = Returned (nodes', wires', ng', k') ->
    incl nodes nodes' /\ incl wires wires' /\ incl ng ng'.
Proof.
  induction rest as [|inp rest IH];
    intros i nodes wires ng k nodes' wires' ng' k' E.
  - cbn in E. unfold ret in E. injection E as <- <- <- <-.
    repeat split; apply incl_refl.
  - cbn [createNots] in E. destruct (arrayTruthy needsNot i).
    + unfold bind, generateId in E. apply IH in E. destruct E as (H1 & H2 & H3).
      repeat split; intros x Hx; [apply H1|apply H2|apply H3];
        apply in_or_app; now left.
    + now apply IH in E.
Qed.

Lemma wireInto_wires (target : string) :
  forall conns pinIdx wires k wires' k',
    wireInto randomId target conns pinIdx wires k = Returned (wires', k') ->
    incl wires wires' /\
    forall j c, nth_error conns j = Some c ->
      exists w, In w wires' /\ sourceNodeId w = c_nodeId c /\
                targetNodeId w = target /\ targetPinIndex w = pinIdx + j.
Proof.
  induction conns as [|c conns IH]; intros pinIdx wires k wires' k' E.
  - cbn in E. unfold ret in E. injection E as <- <-.
    split; [apply incl_refl|]. intros [|j] c Hc; discriminate.
  - cbn [wireInto] in E. unfold bind, generateId in E. apply IH in E.
    destruct E as [Hi Hw]. split.
    + intros x Hx. apply Hi, in_or_app. now left.
    + intros [|j] c' Hc'.
      * injection Hc' as <-. eexists.
        split; [apply Hi, in_or_app; right; now left|].
        cbn. repeat split. lia.
      * destruct (Hw j c' Hc') as (w & H1 & H2 & H3 & H4).
        exists w. repeat split; auto. lia.
Qed.

Lemma wireSum_wires (target : string) :
  forall tos i wires k wires' k',
    wireSum randomId target tos i wires k = Returned (wires', k') ->
    incl wires wires' /\
    forall j o, nth_error tos j = Some o ->
      exists w, In w wires' /\ sourceNodeId w = to_sourceNodeId o /\
                targetNodeId w = target /\ targetPinIndex w = i + j.
Proof.
  induction tos as [|c tos IH]; intros i wires k wires' k' E.
  - cbn in E. unfold ret in E. injection E as <- <-.
    split; [apply incl_refl|]. intros [|j] c Hc; discriminate.
  - cbn [wireSum] in E. unfold bind, generateId in E. apply IH in E.
    destruct E as [Hi Hw]. split.
    + intros x Hx. apply Hi, in_or_app. now left.
    + intros [|j] c' Hc'.
      * injection Hc' as <-. eexists.
        split; [apply Hi, in_or_app; right; now left|].
        cbn. repeat split. lia.
      * destruct (Hw j c' Hc') as (w & H1 & H2 & H3 & H4).
        exists w. repeat split; auto. lia.
Qed.

Lemma processTerm_incl numVars termCount inputs ng (term : Term) (idx : nat)
      nodes wires tos k nodes' wires' tos' k' :
  processTerm randomId numVars termCount startPos inputs ng term idx
              (nodes, wires, tos) k
    = Returned (nodes', wires', tos', k') ->
  incl nodes nodes' /\ incl wires wires'.
Proof.
  intros E. unfold processTerm in E.
  destruct (Term_eqb term (repeat "-"%char numVars) && (1 <? termCount)).
  { unfold ret in E. injection E as <- <- <- <-. split; apply incl_refl. }
  unfold bind at 1 in E.
  destruct (gatherConnections inputs ng term 0 []) as [cs|]; [|discriminate].
  cbn [lift] in E. destruct cs as [|c1 [|c2 cs]].
  - unfold ret in E. injection E as <- <- <- <-. split; apply incl_refl.
  - unfold ret in E. injection E as <- <- <- <-. split; apply incl_refl.
  - unfold bind at 1, generateId at 1 in E. unfold bind at 1 in E.
    destruct (wireInto _ _ _ _ _ _) as [[w' kk]|] eqn:Ew; [|discriminate].
    unfold ret in E. injection E as <- <- <- <-.
    apply wireInto_wires in Ew. destruct Ew as [Hi _]. split; [|exact Hi].
    intros x Hx. apply in_or_app. now left.
Qed.

Lemma processTerms_incl numVars termCount inputs ng (terms : list Term) :
  forall idx nodes wires tos k nodes' wires' tos' k',
  processTerms randomId numVars termCount startPos inputs ng terms idx
               (nodes, wires, tos) k
    = Returned (nodes', wires', tos', k') ->
  incl nodes nodes' /\ incl wires wires'.
Proof.
  induction terms as [|t terms IH];
    intros idx nodes wires tos k nodes' wires' tos' k' E.
  - cbn in E. unfold ret in E. injection E as <- <- <- <-. split; apply incl_refl.
  - cbn [processTerms] in E. unfold bind in E.
    destruct (processTerm _ _ _ _ _ _ _ _ _ _) as [[[[n1 w1] t1] k1]|] eqn:E1;
      [|discriminate].
    apply processTerm_incl in E1. apply IH in E. destruct E1, E.
    split; eapply incl_tran; eauto.
Qed.

(** [needsNot] marks the position of every '0'. *)
Lemma arrayTruthy_set_same (i : nat) (a : list bool) :
  arrayTruthy (arraySetTrue i a) i = true.
Proof.
  unfold arrayTruthy, arraySetTrue. destruct (Nat.ltb_spec i (length a)).
  - rewrite nth_error_app2 by (rewrite length_firstn; lia).
    rewrite length_firstn. replace (i - Nat.min i (length a)) with 0 by lia.
    reflexivity.
  - rewrite nth_error_app2 by lia. rewrite nth_error_app2 by (rewrite repeat_length; lia).
    rewrite repeat_length. replace (i - length a - (i - length a)) with 0 by lia.
    reflexivity.
Qed.

Lemma arrayTruthy_set_mono (i : nat) (a : list bool) (j : nat) :
  arrayTruthy a j = true -> arrayTruthy (arraySetTrue i a) j = true.
Proof.
  intros H. destruct (Nat.eq_dec j i) as [->|Hne]; [apply arrayTruthy_set_same|].
  unfold arrayTruthy in *. 
  assert (Hj : j < length a).
  { apply nth_error_Some. destruct (nth_error a j); congruence. }
  unfold arraySetTrue. destruct (Nat.ltb_spec i (length a)).
  - destruct (Nat.lt_ge_cases j i).
    + rewrite nth_error_app1 by (rewrite length_firstn; lia).
      rewrite nth_error_firstn. destruct (Nat.ltb_spec j i); [exact H|lia].
    + rewrite nth_error_app2 by (rewrite length_firstn; lia).
      rewrite length_firstn. replace (j - Nat.min i (length a)) with (S (j - S i)) by lia.
      cbn [nth_error]. rewrite nth_error_skipn.
      replace (S i + (j - S i)) with j by lia. exact H.
  - rewrite nth_error_app1 by lia. exact H.
Qed.

Lemma markZeros_mono (term : list ascii) : forall off a j,
  arrayTruthy a j = true -> arrayTruthy (markZeros term off a) j = true.
Proof.
  induction term as [|c term IH]; intros off a j H; [exact H|].
  cbn [markZeros]. apply IH. destruct (Ascii.eqb c "0"); [|exact H].
  now apply arrayTruthy_set_mono.
Qed.

Lemma markZeros_hit (term : list ascii) : forall off a p,
  nth_error term p = Some "0"%char ->
  arrayTruthy (markZeros term off a) (off + p) = true.
Proof.
  induction term as [|c term IH]; intros off a [|p] H; try discriminate.
  - injection H as ->. cbn [markZeros]. apply markZeros_mono.
    rewrite Nat.add_0_r. apply arrayTruthy_set_same.
  - cbn [markZeros]. replace (off + S p) with (S off + p) by lia.
    apply IH. exact H.
Qed.

Lemma fold_markZeros_mono (terms : list Term) : forall init j,
  arrayTruthy init j = true ->
  arrayTruthy (fold_left (fun a term => markZeros term 0 a) terms init) j = true.
Proof.
  induction terms as [|t terms IH]; intros init j H; [exact H|].
  cbn [fold_left]. apply IH. now apply markZeros_mono.
Qed.

Lemma needsNot_spec (terms : list Term) : forall init t p,
  In t terms -> nth_error t p = Some "0"%char ->
  arrayTruthy (fold_left (fun a term => markZeros term 0 a) terms init) p = true.
Proof.
  induction terms as [|t0 terms IH]; intros init t p Ht Hp; [destruct Ht|].
  cbn [fold_left]. destruct Ht as [->|Ht].
  - apply fold_markZeros_mono. apply (markZeros_hit t 0 init p Hp).
  - now apply (IH _ t).
Qed.

Lemma notGates_get_key (ng : list (nat * CircuitNode)) (i : nat) n :
  notGates_get ng i = Some n -> In (i, n) ng.
Proof.
  induction ng as [|[j m] rest IH]; cbn; [discriminate|].
  destruct (notGates_get rest i) as [n'|].
  - intros [= ->]. right. now apply IH.
  - destruct (Nat.eqb_spec j i) as [->|]; [|discriminate]. intros [= ->]. now left.
Qed.

Lemma notGates_get_some (ng : list (nat * CircuitNode)) (i : nat) n :
  In (i, n) ng -> exists n', notGates_get ng i = Some n'.
Proof.
  induction ng as [|[j m] rest IH]; [easy|]. cbn. intros [[= -> ->]|H].
  - destruct (notGates_get rest i); [eauto|]. rewrite Nat.eqb_refl. eauto.
  - destruct (IH H) as (n' & ->). eauto.
Qed.

Lemma no_literal_dashes (n : nat) : ~ hasLiteral (repeat "-"%char n).
Proof.
  intros (p & c & Hp & Hc). apply nth_error_In, repeat_spec in Hp. subst c.
  destruct Hc; discriminate.
Qed.

Lemma forallb_id_map {A} (f : A -> bool) (l : list A) :
  forallb (fun s => s) (map f l) = forallb f l.
Proof. induction l as [|x l IH]; cbn; [|rewrite IH]; reflexivity. Qed.

Lemma existsb_id_map {A} (f : A -> bool) (l : list A) :
  existsb (fun s => s) (map f l) = existsb f l.
Proof. induction l as [|x l IH]; cbn; [|rewrite IH]; reflexivity. Qed.

Section Valuation.
Variables (N : list CircuitNode) (W : list Wire) (val : string -> bool).
Variables (a : N.t) (numVars : nat) (inputs : list CircuitNode).
Hypothesis HW : NoDup (pins W).
Hypothesis Hcons : consistent N W val.
Hypothesis Hinputs :
  forall i s, nth_error inputs i = Some s -> val (n_id s) = varValue numVars a i.

Local Abbreviation notsOK ng :=
  (forall j n, In (j, n) ng -> val (n_id n) = negb (varValue numVars a j)).

Lemma createNots_sem (needsNot : list bool) (rest : list CircuitNode) :
  forall i nodes wires ng k nodes' wires' ng' k',
    createNots randomId startPos needsNot rest i (nodes, wires, ng) k
      = Returned (nodes', wires', ng', k') ->
    incl nodes' N -> incl wires' W ->
    (forall j s, nth_error rest j = Some s ->
       val (n_id s) = varValue numVars a (i + j)) ->
    notsOK ng ->
    notsOK ng' /\
    (forall j s, nth_error rest j = Some s ->
       arrayTruthy needsNot (i + j) = true -> exists n, In (i + j, n) ng').
Proof.
  induction rest as [|inp rest IH];
    intros i nodes wires ng k nodes' wires' ng' k' E HN HW' Hin Hng.
  - cbn in E. unfold ret in E. injection E as <- <- <- <-.
    split; [exact Hng|]. intros [|j] s Hs; discriminate.
  - cbn [createNots] in E. destruct (arrayTruthy needsNot i) eqn:Ea.
    + unfold bind, generateId in E.
      destruct (createNots_incl _ _ _ _ _ _ _ _ _ _ _ E) as (Hi1 & Hi2 & Hi3).
      match type of E with
      | createNots _ _ _ _ _ (_ ++ [?nn], _ ++ [?ww], _) _ = _ =>
          set (notNode := nn) in *; set (w0 := ww) in *
      end.
      assert (Hval : val (n_id notNode) = negb (varValue numVars a i)).
      { rewrite (gate_value N W val HW Hcons notNode [n_id inp]).
        - cbn. rewrite (Hin 0 inp eq_refl), Nat.add_0_r. reflexivity.
        - apply HN, Hi1, in_or_app. right. now left.
        - reflexivity.
        - reflexivity.
        - intros [|[|j]] s Hs; try discriminate. injection Hs as <-.
          exists w0. split; [apply HW', Hi2, in_or_app; right; now left|].
          repeat split. }
      destruct (IH _ _ _ _ _ _ _ _ _ E HN HW') as [H1 H2].
      { intros j s Hs. replace (S i + j) with (i + S j) by lia.
        now apply Hin. }
      { intros j n Hj. apply in_app_iff in Hj.
        destruct Hj as [Hj|[[= <- <-]|[]]]; [now apply Hng|exact Hval]. }
      split; [exact H1|]. intros [|j] s Hs Ht.
      * exists notNode. rewrite Nat.add_0_r. apply Hi3, in_or_app. right. now left.
      * replace (i + S j) with (S i + j) in * by lia. now apply (H2 j s).
    + destruct (IH _ _ _ _ _ _ _ _ _ E HN HW') as [H1 H2]; [|exact Hng|].
      { intros j s Hs. replace (S i + j) with (i + S j) by lia.
        now apply Hin. }
      split; [exact H1|]. intros [|j] s Hs Ht.
      * rewrite Nat.add_0_r in Ht. congruence.
      * replace (i + S j) with (S i + j) in * by lia. now apply (H2 j s).
Qed.

Lemma gather_sem (ng : list (nat * CircuitNode)) (term : list ascii) :
  notsOK ng ->
  forall i conns cs,
  gatherConnections inputs ng term i conns = Returned cs ->
  (forall p, nth_error term p = Some "0"%char ->
     exists n, notGates_get ng (i + p) = Some n) ->
  forallb (fun c => val (c_nodeId c)) cs =
    forallb (fun c => val (c_nodeId c)) conns && productFrom numVars a i term /\
  length conns <= length cs /\
  (hasLiteral term -> length conns < length cs).
Proof.
  intros Hng. induction term as [|c term IH]; intros i conns cs E Hz.
  - cbn in E. injection E as <-. cbn [productFrom]. rewrite andb_true_r.
    split; [reflexivity|]. split; [lia|].
    intros (p & c & Hp & _). destruct p; discriminate.
  - assert (Hz' : forall p, nth_error term p = Some "0"%char ->
                    exists n, notGates_get ng (S i + p) = Some n).
    { intros p Hp. replace (S i + p) with (i + S p) by lia. now apply Hz. }
    cbn [gatherConnections] in E. cbn [productFrom]. unfold literalHolds.
    destruct (Ascii.eqb_spec c "1") as [->|H1].
    + destruct (nth_error inputs i) as [inp|] eqn:En; [|discriminate].
      destruct (IH _ _ _ E Hz') as (Ef & Hl & _).
      rewrite length_app in Hl. cbn [length] in Hl.
      rewrite Ef, forallb_app. cbn [forallb c_nodeId].
      rewrite (Hinputs i inp En). split; [|lia].
      destruct (forallb _ conns), (varValue numVars a i),
        (productFrom numVars a (S i) term); reflexivity.
    + destruct (Ascii.eqb_spec c "0") as [->|H0].
      * destruct (Hz 0 eq_refl) as (n & Hn). rewrite Nat.add_0_r in Hn.
        rewrite Hn in E. destruct (IH _ _ _ E Hz') as (Ef & Hl & _).
        rewrite length_app in Hl. cbn [length] in Hl.
        rewrite Ef, forallb_app. cbn [forallb c_nodeId].
        rewrite (Hng i n (notGates_get_key _ _ _ Hn)). split; [|lia].
        destruct (forallb _ conns), (varValue numVars a i),
          (productFrom numVars a (S i) term); reflexivity.
      * destruct (IH _ _ _ E Hz') as (Ef & Hl & Hlit).
        rewrite Ef. split; [reflexivity|]. split; [exact Hl|].
        intros (p & c' & Hp & Hc). apply Hlit. destruct p as [|p].
        -- injection Hp as <-. destruct Hc; congruence.
        -- exists p, c'. auto.
Qed.

Local Abbreviation sumOf tos := (existsb (fun o => val (to_sourceNodeId o)) tos).

Lemma processTerm_sem (termCount : nat) (ng : list (nat * CircuitNode))
      (term : Term) (idx : nat) nodes wires tos k nodes' wires' tos' k' :
  processTerm randomId numVars termCount startPos inputs ng term idx
              (nodes, wires, tos) k
    = Returned (nodes', wires', tos', k') ->
  incl nodes' N -> incl wires' W ->
  hasLiteral term ->
  (forall p, nth_error term p = Some "0"%char ->
     exists n, notGates_get ng p = Some n) ->
  notsOK ng ->
  sumOf tos' = sumOf tos || evalTerm numVars term a /\
  length tos' = S (length tos).
Proof.
  intros E HN HW' Hlit Hz Hng. unfold processTerm in E.
  destruct (Term_eqb term (repeat "-"%char numVars)) eqn:Et.
  { apply Term_eqb_eq in Et. subst term. now apply no_literal_dashes in Hlit. }
  cbn [andb] in E. unfold bind at 1 in E.
  destruct (gatherConnections inputs ng term 0 []) as [cs|] eqn:Eg;
    [|discriminate].
  cbn [lift] in E.
  destruct (gather_sem ng term Hng 0 [] cs Eg Hz) as (Ef & _ & Hlen).
  specialize (Hlen Hlit). cbn [forallb andb length] in Ef, Hlen.
  fold (evalTerm numVars term a) in Ef.
  destruct cs as [|c1 [|c2 cs]]; [cbn in Hlen; lia| |].
  - unfold ret in E. injection E as <- <- <- <-.
    rewrite existsb_app, length_app. cbn [existsb to_sourceNodeId length].
    cbn [forallb] in Ef. rewrite andb_true_r in Ef. rewrite Ef, orb_false_r.
    split; [reflexivity|lia].
  - unfold bind at 1, generateId at 1 in E. unfold bind at 1 in E.
    destruct (wireInto _ _ _ _ _ _) as [[w' kk]|] eqn:Ew; [|discriminate].
    unfold ret in E. injection E as <- <- <- <-.
    match type of Ew with
    | wireInto _ _ ?conns _ _ _ = _ => set (conns0 := conns) in *
    end.
    match type of HN with
    | incl (nodes ++ [?nn]) _ => set (andNode := nn) in *
    end.
    destruct (wireInto_wires _ _ _ _ _ _ _ Ew) as [_ Hwires].
    rewrite existsb_app, length_app. cbn [existsb to_sourceNodeId length].
    rewrite orb_false_r.
    assert (Hv : val (n_id andNode) = evalTerm numVars term a).
    { rewrite (gate_value N W val HW Hcons andNode (map c_nodeId conns0)).
      - rewrite <- Ef. unfold computeNodeLogic. cbn [andNode n_type].
        rewrite !length_map. cbn [conns0 length Nat.eqb andb].
        rewrite map_map. apply forallb_id_map.
      - apply HN, in_or_app. right. now left.
      - reflexivity.
      - unfold andNode, conns0. cbn [n_inputs length map].
        now rewrite repeat_length, length_map.
      - intros j s Hs. rewrite nth_error_map in Hs.
        destruct (nth_error conns0 j) as [c|] eqn:Ec; [|discriminate].
        injection Hs as <-. destruct (Hwires j c Ec) as (w & H1 & H2 & H3 & H4).
        exists w. split; [now apply HW'|]. repeat split; auto. }
    change (n_id andNode) with (randomId k) in Hv. rewrite Hv.
    split; [reflexivity|lia].
Qed.

Lemma processTerms_sem (termCount : nat) (ng : list (nat * CircuitNode))
      (terms : list Term) :
  notsOK ng ->
  forall idx nodes wires tos k nodes' wires' tos' k',
  processTerms randomId numVars termCount startPos inputs ng terms idx
               (nodes, wires, tos) k
    = Returned (nodes', wires', tos', k') ->
  incl nodes' N -> incl wires' W ->
  (forall t, In t terms -> hasLiteral t) ->
  (forall t p, In t terms -> nth_error t p = Some "0"%char ->
     exists n, notGates_get ng p = Some n) ->
  sumOf tos' = sumOf tos || evalSum numVars terms a /\
  length tos' = length tos + length terms.
Proof.
  intros Hng. induction terms as [|t terms IH];
    intros idx nodes wires tos k nodes' wires' tos' k' E HN HW' Hlit Hz.
  - cbn in E. unfold ret in E. injection E as <- <- <- <-.
    cbn. rewrite orb_false_r. split; [reflexivity|lia].
  - cbn [processTerms] in E. unfold bind in E.
    destruct (processTerm _ _ _ _ _ _ _ _ _ _) as [[[[n1 w1] t1] k1]|] eqn:E1;
      [|discriminate].
    destruct (processTerms_incl _ _ _ _ _ _ _ _ _ _ _ _ _ _ E) as [Hi1 Hi2].
    destruct (processTerm_sem _ _ _ _ _ _ _ _ _ _ _ _ E1) as [H1 H2]; auto.
    { eapply incl_tran; eauto. }
    { eapply incl_tran; eauto. }
    { apply Hlit. now left. }
    { intros p Hp. apply (Hz t p); [now left|exact Hp]. }
    destruct (IH _ _ _ _ _ _ _ _ _ E HN HW') as [H3 H4].
    { intros t' Ht'. apply Hlit. now right. }
    { intros t' p Ht'. apply Hz. now right. }
    rewrite H3, H1, H4, H2. cbn [evalSum existsb length].
    unfold evalSum. rewrite orb_assoc. split; [reflexivity|lia].
Qed.

End Valuation.

End GeneratedFunction.

Section Computes.
Import QuineMcCluskey TermSemantics Synthesizer SynthesizerSpec CircuitSemantics.
Import CircuitEngine.

Variable randomId : nat -> string.
Variable startPos : Position.

Lemma wellFormed_drawn k0 nodes wires k key :
  wellFormed randomId k0 nodes wires k -> hasNode nodes key ->
  exists j, key = randomId j.
Proof.
  intros [_ Hids _ _ _ _ _] (s & Hs & Hid).
  assert (Hin : In key (ids nodes wires)).
  { unfold ids. apply in_or_app. left. rewrite <- Hid. now apply in_map. }
  apply (Permutation_in _ Hids) in Hin. apply in_map_iff in Hin.
  destruct Hin as (j & Hj & _). eauto.
Qed.

Lemma generateCircuitFromTerms_function
      (numVars : nat) (terms : list Term) (k : nat) :
  distinctIds randomId ->
  (forall i, truthyString (randomId i) = true) ->
  numVars <= 4 ->
  (forall t, In t terms -> length t = numVars /\ hasLiteral t) ->
  exists inputs others lamp wires k',
    generateCircuitFromTerms randomId numVars terms startPos k
      = Returned (inputs ++ others ++ [lamp], wires, k') /\
    length inputs = numVars /\
    Forall (fun n => n_type n = INPUT_SWITCH) inputs /\
    n_type lamp = OUTPUT_LAMP /\
    forall val a,
      consistent (inputs ++ others ++ [lamp]) wires val ->
      (forall i s, nth_error inputs i = Some s ->
         val (n_id s) = varValue numVars a i) ->
      val (n_id lamp) = evalSum numVars terms a.
Proof.
  intros Hinj Htruthy H4 Hterms.
  assert (Hb : forall t j, In t terms -> nth_error t j = Some "1"%char ->
                           j < Nat.min numVars 4).
  { intros t j Ht Hj. destruct (Hterms t Ht) as [Hl _].
    assert (j < length t) by (apply nth_error_Some; congruence). lia. }
  destruct (generateCircuitFromTerms_total randomId startPos numVars terms k Hb)
    as (nodes & wires & k' & E).
  pose proof (generateCircuitFromTerms_wellFormed _ _ _ _ _ _ _ _ E) as Hwf.
  assert (HW : NoDup (pins wires)) by (destruct Hwf; auto).
  pose proof E as E0. unfold generateCircuitFromTerms in E.
  destruct (createInputs_total randomId startPos
              (firstn numVars ["A"; "B"; "C"; "D"]%string) 0 k)
    as (inputs & E1 & Hlen & Hsw).
  destruct (createInputs_spec randomId startPos
              (firstn numVars ["A"; "B"; "C"; "D"]%string) 0 k)
    as (inputs' & E1' & Hids & Hlow & _).
  rewrite E1 in E1'. injection E1' as <-.
  assert (Hb1 : forall n, In n inputs -> below 1 inputs (n_id n)).
  { intros n Hn. exists n. split; [exact Hn|]. split; [reflexivity|].
    rewrite Forall_forall in Hsw. rewrite (Hsw n Hn). cbn. lia. }
  rewrite firstn_labels_length in Hlen.
  replace (Nat.min numVars 4) with numVars in Hlen by lia.
  unfold bind at 1 in E. rewrite E1 in E.
  pose proof (wellFormed_inputs randomId k _ inputs Hids Hlow) as Hwf1.
  set (needsNot := fold_left (fun a term => markZeros term 0 a) terms
                             (repeat false numVars)) in *.
  destruct (createNots_total randomId startPos needsNot inputs 0 inputs [] []
              (k + length (firstn numVars ["A"; "B"; "C"; "D"]%string)))
    as (e2 & w2 & ng & k2 & E2 & _).
  unfold bind at 1 in E. rewrite E2 in E.
  destruct (createNots_wellFormed randomId startPos _ k _ _ _ _ _ _ _ _ _ _
              E2 Hwf1) as (Hwf2 & Hmono2 & Hng2).
  { exact Hb1. }
  { intros j n []. }
  unfold bind at 1 in E.
  destruct (processTerms _ _ _ _ _ _ _ _ _ _) as [[[[n3 w3] tos] k3]|] eqn:E3;
    [|discriminate].
  destruct (processTerms_nodes _ _ _ _ _ _ _ _ _ _ _ _ _ _ _ _ E3) as (e3 & -> & _).
  destruct (processTerms_wellFormed randomId startPos _ _ _ _ k _ _ _ _ _ _ _ _ _ _
              E3 Hwf2) as (Hwf3 & Hto3).
  { intros n Hn. apply Hmono2. now apply Hb1. }
  { exact Hng2. }
  { intros t []. }
  destruct (processTerms_incl _ _ _ _ _ _ _ _ _ _ _ _ _ _ _ _ E3) as [_ Hw23].
  (* what every consistent valuation gives on the term outputs *)
  assert (Hsum : forall N W val a,
            NoDup (pins W) -> consistent N W val ->
            incl ((inputs ++ e2) ++ e3) N -> incl w3 W ->
            (forall i s, nth_error inputs i = Some s ->
               val (n_id s) = varValue numVars a i) ->
            existsb (fun o => val (to_sourceNodeId o)) tos = evalSum numVars terms a /\
            length tos = length terms).
  { intros N W val a HW' Hcons HN HW3 Hin.
    destruct (createNots_sem randomId startPos N W val a numVars HW' Hcons
                _ _ _ _ _ _ _ _ _ _ _ E2) as [Hnots Hall].
    { intros x Hx. apply HN, in_or_app. now left. }
    { intros x Hx. apply HW3, Hw23, Hx. }
    { intros j s Hs. now apply Hin. }
    { intros j n []. }
    destruct (processTerms_sem randomId startPos N W val a numVars inputs
                HW' Hcons Hin _ ng terms Hnots _ _ _ _ _ _ _ _ _ E3 HN HW3)
      as [H1 H2].
    { intros t Ht. now apply Hterms. }
    { intros t p Ht Hp. destruct (Hterms t Ht) as [Hl _].
      assert (Hlt : p < length inputs).
      { rewrite Hlen, <- Hl. apply nth_error_Some. congruence. }
      destruct (nth_error inputs p) as [s|] eqn:Es;
        [|apply nth_error_None in Es; lia].
      destruct (Hall p s Es) as (n & Hn).
      { apply (needsNot_spec terms _ t p Ht Hp). }
      now apply (notGates_get_some ng p n). }
    cbn [existsb orb length Nat.add] in H1, H2. auto. }
  assert (Hlampv : forall id p,
            computeNodeLogic (mkNode id OUTPUT_LAMP p false [false] 50 50 "Q" None)
                             [false] = false) by reflexivity.
  assert (Hassoc : forall l : CircuitNode,
            inputs ++ (e2 ++ e3) ++ [l] = ((inputs ++ e2) ++ e3) ++ [l]).
  { intros l. now rewrite <- !app_assoc. }
  assert (Hassoc' : forall o l : CircuitNode,
            inputs ++ (e2 ++ e3 ++ [o]) ++ [l]
            = (((inputs ++ e2) ++ e3) ++ [o]) ++ [l]).
  { intros o l. now rewrite <- !app_assoc. }
  destruct tos as [|o1 [|o2 tos]].
  - unfold bind at 1, ret at 1 in E. unfold bind, generateId, ret in E.
    cbn [truthyString] in E. injection E as <- <- <-.
    eexists inputs, (e2 ++ e3), _, w3, _.
    split; [rewrite E0, Hassoc; reflexivity|]. split; [exact Hlen|].
    split; [exact Hsw|]. split; [reflexivity|].
    intros val a Hcons Hin. rewrite Hassoc in Hcons.
    destruct (Hsum _ _ val a HW Hcons) as [H1 _]; [| |exact Hin|].
    { intros x Hx. apply in_or_app. now left. }
    { apply incl_refl. }
    rewrite <- H1. cbn [existsb].
    rewrite (floating_value _ _ val Hcons _); [reflexivity| | | |].
    + apply in_or_app. right. now left.
    + reflexivity.
    + reflexivity.
    + intros w Hw. cbn [n_id].
      exact (wellFormed_fresh_target randomId k _ _ k3 k3 w Hwf3 Hinj
               (Nat.le_refl k3) Hw).
  - unfold bind at 1, ret at 1 in E. unfold bind, generateId, ret in E.
    assert (Ht : truthyString (to_sourceNodeId o1) = true).
    { destruct (wellFormed_drawn _ _ _ _ _ Hwf3
                 (below_hasNode _ _ _ (Hto3 o1 (or_introl eq_refl))))
        as (j & ->). apply Htruthy. }
    rewrite Ht in E. injection E as <- <- <-.
    eexists inputs, (e2 ++ e3), _, _, _.
    split; [rewrite E0, Hassoc; reflexivity|]. split; [exact Hlen|].
    split; [exact Hsw|]. split; [reflexivity|].
    intros val a Hcons Hin. rewrite Hassoc in Hcons.
    destruct (Hsum _ _ val a HW Hcons) as [H1 _]; [| |exact Hin|].
    { intros x Hx. apply in_or_app. now left. }
    { intros x Hx. apply in_or_app. now left. }
    rewrite <- H1. cbn [existsb].
    rewrite (gate_value _ _ val HW Hcons _ [to_sourceNodeId o1]);
      [reflexivity| | | |].
    + apply in_or_app. right. now left.
    + reflexivity.
    + reflexivity.
    + intros [|[|j]] s Hs; try discriminate. injection Hs as <-.
      eexists. split; [apply in_or_app; right; now left|]. repeat split.
  - unfold bind at 1 in E. unfold bind at 1, generateId at 1 in E.
    unfold bind at 1 in E.
    destruct (wireSum _ _ _ _ _ _) as [[w4 k4]|] eqn:E4; [|discriminate].
    unfold ret at 1 in E. unfold bind, generateId, ret in E.
    rewrite Htruthy in E. injection E as <- <- <-.
    match type of E4 with
    | wireSum _ _ ?l _ _ _ = _ => set (tos0 := l) in *
    end.
    match type of E0 with
    | context [(?ns ++ [?o]) ++ [_]] => set (orNode := o) in *
    end.
    destruct (wireSum_wires _ _ _ _ _ _ _ _ E4) as [Hw34 Hwires].
    eexists inputs, (e2 ++ e3 ++ [orNode]), _, _, _.
    split; [rewrite E0, Hassoc'; reflexivity|]. split; [exact Hlen|].
    split; [exact Hsw|]. split; [reflexivity|].
    intros val a Hcons Hin. rewrite Hassoc' in Hcons.
    destruct (Hsum _ _ val a HW Hcons) as [H1 _]; [| |exact Hin|].
    { intros x Hx. apply in_or_app. left. apply in_or_app. now left. }
    { intros x Hx. apply in_or_app. left. now apply Hw34. }
    rewrite <- H1.
    assert (Hor : val (n_id orNode)
                  = existsb (fun o => val (to_sourceNodeId o)) tos0).
    { rewrite (gate_value _ _ val HW Hcons orNode (map to_sourceNodeId tos0)).
      - unfold computeNodeLogic. cbn [orNode n_type].
        rewrite !length_map. cbn [tos0 length Nat.eqb andb].
        rewrite map_map. apply existsb_id_map.
      - apply in_or_app. left. apply in_or_app. right. now left.
      - reflexivity.
      - unfold orNode, tos0. cbn [n_inputs length map].
        now rewrite repeat_length, length_map.
      - intros j s Hs. rewrite nth_error_map in Hs.
        destruct (nth_error tos0 j) as [o|] eqn:Eo; [|discriminate].
        injection Hs as <-. destruct (Hwires j o Eo) as (w & Hq2 & Hq3 & Hq4 & Hq5).
        exists w. split; [apply in_or_app; now left|]. repeat split; auto. }
    rewrite <- Hor.
    rewrite (gate_value _ _ val HW Hcons _ [n_id orNode]);
      [cbn; apply orb_false_r| | | |].
    + apply in_or_app. right. now left.
    + reflexivity.
    + reflexivity.
    + intros [|[|j]] s Hs; try discriminate. injection Hs as <-.
      eexists. split; [apply in_or_app; right; now left|]. repeat split.
Qed.

(** X22: for at most four variables and product terms of that length with at
    least one literal each, the generator returns the switches first and the
    lamp last, and in every assignment of outputs that agrees with the gate
    functions along the wires the lamp shows the value of the sum of
    products at the switch positions. *)
Theorem generateCircuitFromTerms_computes
        (numVars : nat) (terms : list Term) (k : nat) :
  distinctIds randomId ->
  (forall i, truthyString (randomId i) = true) ->
  numVars <= 4 ->
  (forall t, In t terms -> length t = numVars /\ hasLiteral t) ->
  exists inputs others lamp wires k',
    generateCircuitFromTerms randomId numVars terms startPos k
      = Returned (inputs ++ others ++ [lamp], wires, k') /\
    length inputs = numVars /\
    Forall (fun n => n_type n = INPUT_SWITCH) inputs /\
    n_type lamp = OUTPUT_LAMP /\
    forall val a,
      consistent (inputs ++ others ++ [lamp]) wires val ->
      (forall i s, nth_error inputs i = Some s ->
         val (n_id s) = varValue numVars a i) ->
      val (n_id lamp) = evalSum numVars terms a.
Proof. exact (generateCircuitFromTerms_function numVars terms k). Qed.

End Computes.

(* ================================================================== *)
(** * Engine snapshots as valuations *)
(* ================================================================== *)

Section SnapshotsAsValuations.
Import CircuitEngine EngineSpec EngineInvariants SynthesizerSpec CircuitSemantics.

Lemma nodeMap_get_unique ns :
  NoDup (map n_id ns) ->
  forall t, In t ns -> nodeMap_get ns (n_id t) = Some t.
Proof.
  induction ns as [|n ns IH]; intros Hnd t Ht; [destruct Ht|].
  cbn [map] in Hnd. apply NoDup_cons_iff in Hnd. destruct Hnd as [Hn Hnd].
  cbn [nodeMap_get]. destruct Ht as [<-|Ht].
  - rewrite nodeMap_get_noElement.
    + now rewrite String.eqb_refl.
    + intros m Hm E. apply Hn. rewrite <- E. now apply in_map.
  - now rewrite (IH Hnd t Ht).
Qed.

Lemma hasNode_get ns key :
  hasNode ns key -> exists s, nodeMap_get ns key = Some s.
Proof.
  induction ns as [|n ns IH]; intros (s & Hs & E); [destruct Hs|].
  cbn [nodeMap_get]. destruct (nodeMap_get ns key) as [m|] eqn:G; [eauto|].
  destruct Hs as [<-|Hs].
  - rewrite E, String.eqb_refl. eauto.
  - destruct IH as [m Hm]; [exists s; auto|discriminate].
Qed.

Lemma find_filter {A} (p q : A -> bool) (l : list A) :
  find p (filter q l) = find (fun x => q x && p x) l.
Proof.
  induction l as [|x l IH]; [reflexivity|].
  cbn [filter find]. destruct (q x); cbn [find andb]; [|exact IH].
  destruct (p x); [reflexivity|exact IH].
Qed.

Lemma fixedPoint_consistent ns ws :
  NoDup (map n_id ns) ->
  (forall w, In w ws -> hasNode ns (sourceNodeId w)) ->
  fixedPoint ns ws ->
  (forall n, In n ns -> outputOK n) ->
  consistent ns ws (outputOf ns).
Proof.
  intros Hnd Hsrc [Hw Hn] Hout t Ht Hs.
  unfold outputOf at 1. rewrite (nodeMap_get_unique ns Hnd t Ht).
  destruct (Hout t Ht) as [H|H]; [congruence|]. rewrite H. f_equal.
  destruct (Hn t Ht) as [H'|H']; [congruence|]. rewrite H' at 1.
  unfold signals. apply map_ext_in. intros j _.
  unfold pinSignal, incoming, driver. rewrite find_filter.
  destruct (find _ ws) as [w|] eqn:E; [|reflexivity].
  apply find_some in E. destruct E as [Hin _].
  specialize (Hw w Hin). unfold wireOK in Hw. unfold outputOf.
  destruct (hasNode_get ns _ (Hsrc w Hin)) as [s Es].
  rewrite Es in *. exact Hw.
Qed.

Lemma Forall2_In_left {A B} (R : A -> B -> Prop) l l' x :
  Forall2 R l l' -> In x l -> exists y, In y l' /\ R x y.
Proof.
  induction 1 as [|a b l l' Hab _ IH]; intros Hin; [destruct Hin|].
  destruct Hin as [<-|Hin].
  - exists b. split; [now left|exact Hab].
  - destruct (IH Hin) as (y & Hy & Hr). exists y. split; [now right|exact Hr].
Qed.

Lemma Forall2_In_right {A B} (R : A -> B -> Prop) l l' y :
  Forall2 R l l' -> In y l' -> exists x, In x l /\ R x y.
Proof.
  induction 1 as [|a b l l' Hab _ IH]; intros Hin; [destruct Hin|].
  destruct Hin as [<-|Hin].
  - exists a. split; [now left|exact Hab].
  - destruct (IH Hin) as (x & Hx & Hr). exists x. split; [now right|exact Hr].
Qed.

Lemma Forall2_nth_left {A B} (R : A -> B -> Prop) l l' :
  Forall2 R l l' ->
  forall i x, nth_error l i = Some x ->
    exists y, nth_error l' i = Some y /\ R x y.
Proof.
  induction 1 as [|a b l l' Hab _ IH]; intros [|i] x Hx; try discriminate.
  - injection Hx as <-. exists b. split; [reflexivity|exact Hab].
  - now apply IH.
Qed.

Lemma sameElement_ids ns ns' :
  Forall2 sameElement ns ns' -> map n_id ns' = map n_id ns.
Proof.
  induction 1 as [|a b l l' Hab _ IH]; [reflexivity|].
  cbn [map]. rewrite IH. now destruct Hab as [-> _].
Qed.

Lemma computeNodeLogic_kind t t' v :
  n_type t = n_type t' -> isSource (n_type t) = false ->
  computeNodeLogic t v = computeNodeLogic t' v.
Proof.
  unfold computeNodeLogic. intros <- Hs.
  destruct (n_type t); try discriminate; reflexivity.
Qed.

Lemma driver_same ws ws' val key j :
  Forall2 sameConnection ws ws' ->
  driver ws' val key j = driver ws val key j.
Proof.
  unfold driver.
  induction 1 as [|a b l l' Hab _ IH]; [reflexivity|].
  destruct Hab as (_ & Hs & _ & Ht & Hp & _).
  cbn [find]. rewrite <- Ht, <- Hp.
  destruct (String.eqb (targetNodeId a) key && (targetPinIndex a =? j));
    [now rewrite Hs|exact IH].
Qed.

Lemma consistent_same ns ns' ws ws' val :
  Forall2 sameElement ns ns' -> Forall2 sameConnection ws ws' ->
  consistent ns' ws' val -> consistent ns ws val.
Proof.
  intros Hn Hw Hc t Ht Hs.
  destruct (Forall2_In_left _ _ _ _ Hn Ht) as (t' & Ht' & Hsame).
  destruct Hsame as (Hid & Hty & _ & _ & _ & _ & _ & Hlen).
  rewrite Hid, Hlen, (computeNodeLogic_kind t t' _ Hty Hs).
  rewrite Hc; [|exact Ht'|congruence].
  f_equal. apply map_ext. intros j. now apply driver_same.
Qed.

Lemma find_unique ns :
  NoDup (map n_id ns) ->
  forall s, In s ns ->
    find (fun n => String.eqb (n_id n) (n_id s)) ns = Some s.
Proof.
  induction ns as [|n ns IH]; intros Hnd s Hs; [destruct Hs|].
  cbn [map] in Hnd. apply NoDup_cons_iff in Hnd. destruct Hnd as [Hn Hnd].
  cbn [find]. destruct (String.eqb (n_id n) (n_id s)) eqn:E.
  - apply String.eqb_eq in E. destruct Hs as [->|Hs]; [reflexivity|].
    exfalso. apply Hn. rewrite E. now apply in_map.
  - destruct Hs as [->|Hs]; [now rewrite String.eqb_refl in E|].
    now apply IH.
Qed.

Lemma ranked_acyclic nodes wires :
  NoDup (map n_id nodes) -> ranked nodes wires ->
  forall w, In w wires ->
    rankIn nodes (sourceNodeId w) < rankIn nodes (targetNodeId w) /\
    rankIn nodes (targetNodeId w) < 5.
Proof.
  intros Hnd Hr w Hw.
  destruct (Hr w Hw) as (s & t & Hs & Ht & Es & Et & Hlt & _).
  unfold rankIn. rewrite <- Es, <- Et, !find_unique by assumption.
  split; [exact Hlt|]. destruct (n_type t); cbn; lia.
Qed.

End SnapshotsAsValuations.

(* ================================================================== *)
(** * Simulating a generated circuit *)
(* ================================================================== *)

Section Simulation.
Import CircuitEngine EngineSpec EngineInvariants QuineMcCluskey TermSemantics
       Synthesizer SynthesizerSpec CircuitSemantics.

Variable randomId : nat -> string.
Variable startPos : Position.

Lemma wellFormed_unique k0 nodes wires k :
  wellFormed randomId k0 nodes wires k -> distinctIds randomId ->
  NoDup (map n_id nodes).
Proof.
  intros [_ Hids _ _ _ _ _] Hinj.
  assert (H : NoDup (ids nodes wires)).
  { apply (Permutation_NoDup (Permutation_sym Hids)).
    apply Finite.Injective_map_NoDup; [exact Hinj|apply seq_NoDup]. }
  unfold ids in H. now apply NoDup_app_remove_r in H.
Qed.

Lemma hasNode_same ns ns' key :
  Forall2 sameElement ns ns' -> hasNode ns key -> hasNode ns' key.
Proof.
  intros Hf (s & Hs & E).
  destruct (Forall2_In_left _ _ _ _ Hf Hs) as (s' & Hs' & Hsame).
  exists s'. split; [exact Hs'|]. destruct Hsame as [<- _]. exact E.
Qed.

(** The engine on any snapshot of a feed-forward circuit of depth below the
    cap, with unique ids, sourced wires and consistent stored outputs,
    returns a snapshot whose outputs form a consistent valuation. *)
Lemma propagateCircuit_consistent nodes wires :
  NoDup (map n_id nodes) ->
  (forall w, In w wires -> hasNode nodes (sourceNodeId w)) ->
  acyclicWithin MAX_ITERATIONS wires ->
  (forall n, In n nodes -> outputOK n) ->
  consistent (fst (propagateCircuit nodes wires))
             (snd (propagateCircuit nodes wires))
             (outputOf (fst (propagateCircuit nodes wires))).
Proof.
  intros Hnd Hsrc [rk Hrk] Hout.
  destruct (propagateLoop_frame MAX_ITERATIONS nodes wires) as [Hfn Hfw].
  fold (propagateCircuit nodes wires) in Hfn, Hfw.
  apply fixedPoint_consistent.
  - now rewrite (sameElement_ids _ _ Hfn).
  - intros w Hw.
    destruct (Forall2_In_right _ _ _ _ Hfw Hw) as (w0 & Hw0 & Hsame).
    destruct Hsame as (_ & <- & _).
    apply (hasNode_same nodes); [exact Hfn|now apply Hsrc].
  - unfold propagateCircuit. apply (settled_loop rk MAX_ITERATIONS 0).
    + split; [|split].
      * intros w Hin. now apply Hrk.
      * lia.
      * lia.
    + intros w Hin. cbn. now apply Hrk.
    + unfold MAX_ITERATIONS. lia.
  - now apply propagateLoop_outputOK.
Qed.

(** X23: the circuit the generator returns is a feed-forward network laid
    out in columns: every wire runs from an element to an input pin of an
    element of a kind placed further right (switch, NOT, AND, OR, lamp), so
    when generateId() never repeats a result no wire path visits more than
    five elements, well below the engine's cap of 20 passes. *)
Theorem generateCircuitFromTerms_feed_forward
        (numVars : nat) (terms : list Term) (k : nat) :
  (forall t j, In t terms -> nth_error t j = Some "1"%char ->
               j < Nat.min numVars 4) ->
  exists nodes wires k',
    generateCircuitFromTerms randomId numVars terms startPos k
      = Returned (nodes, wires, k') /\
    ranked nodes wires /\
    (distinctIds randomId -> acyclicWithin 5 wires).
Proof.
  intros Hb.
  destruct (generateCircuitFromTerms_total randomId startPos numVars terms k Hb)
    as (nodes & wires & k' & E).
  exists nodes, wires, k'. split; [exact E|].
  pose proof (generateCircuitFromTerms_wellFormed _ _ _ _ _ _ _ _ E) as Hwf.
  split; [now destruct Hwf|].
  intros Hinj. exists (rankIn nodes). apply ranked_acyclic.
  - exact (wellFormed_unique _ _ _ _ Hwf Hinj).
  - now destruct Hwf.
Qed.

Lemma generateCircuitFromTerms_run
        (numVars : nat) (terms : list Term) (k : nat) :
  distinctIds randomId ->
  (forall i, truthyString (randomId i) = true) ->
  numVars <= 4 ->
  (forall t, In t terms -> length t = numVars /\ hasLiteral t) ->
  exists nodes wires k' lamp,
    generateCircuitFromTerms randomId numVars terms startPos k
      = Returned (nodes, wires, k') /\
    In lamp nodes /\ n_type lamp = OUTPUT_LAMP /\
    forall ns ws a,
      Forall2 sameElement nodes ns ->
      Forall2 sameConnection wires ws ->
      (forall n, In n ns -> outputOK n) ->
      (forall i s, i < numVars -> nth_error ns i = Some s ->
         n_state s = varValue numVars a i) ->
      exists l,
        nodeMap_get (fst (propagateCircuit ns ws)) (n_id lamp) = Some l /\
        n_type l = OUTPUT_LAMP /\
        n_state l = evalSum numVars terms a.
Proof.
  intros Hinj Htruthy H4 Hterms.
  destruct (generateCircuitFromTerms_function randomId startPos numVars terms k
              Hinj Htruthy H4 Hterms)
    as (inputs & others & lamp & wires & k' & E & Hlen & Hsw & Hlamp & Hval).
  set (nodes := inputs ++ others ++ [lamp]) in *.
  pose proof (generateCircuitFromTerms_wellFormed _ _ _ _ _ _ _ _ E) as Hwf.
  pose proof (wellFormed_unique _ _ _ _ Hwf Hinj) as Hnd.
  assert (Hlin : In lamp nodes).
  { unfold nodes. apply in_or_app. right. apply in_or_app. right. now left. }
  exists nodes, wires, k', lamp. split; [exact E|]. split; [exact Hlin|].
  split; [exact Hlamp|].
  intros ns ws a Hns Hws Hout Hin.
  set (ns' := fst (propagateCircuit ns ws)).
  set (ws' := snd (propagateCircuit ns ws)).
  destruct (propagateLoop_frame MAX_ITERATIONS ns ws) as [Hfn Hfw].
  fold (propagateCircuit ns ws) in Hfn, Hfw. fold ns' in Hfn. fold ws' in Hfw.
  assert (Hn' : Forall2 sameElement nodes ns').
  { eapply Forall2_trans; eauto using sameElement_trans. }
  assert (Hw' : Forall2 sameConnection wires ws').
  { eapply Forall2_trans; eauto using sameConnection_trans. }
  assert (Hnd1 : NoDup (map n_id ns)) by now rewrite (sameElement_ids _ _ Hns).
  assert (Hnd' : NoDup (map n_id ns')) by now rewrite (sameElement_ids _ _ Hn').
  assert (Hcons : consistent ns' ws' (outputOf ns')).
  { apply propagateCircuit_consistent; [exact Hnd1| | |exact Hout].
    - intros w Hw.
      destruct (Forall2_In_right _ _ _ _ Hws Hw) as (w0 & Hw0 & Hsame).
      destruct Hsame as (_ & <- & _).
      apply (hasNode_same nodes); [exact Hns|].
      destruct Hwf as [_ _ _ _ Hwired _ _]. now apply Hwired.
    - exists (rankIn nodes). intros w Hw.
      destruct (Forall2_In_right _ _ _ _ Hws Hw) as (w0 & Hw0 & Hsame).
      destruct Hsame as (_ & <- & _ & <- & _).
      destruct Hwf as [_ _ _ _ _ Hr _].
      destruct (ranked_acyclic nodes wires Hnd Hr w0 Hw0) as [H1 H2].
      unfold MAX_ITERATIONS. lia. }
  apply (consistent_same nodes ns' wires ws' _ Hn' Hw') in Hcons.
  assert (Hlv : outputOf ns' (n_id lamp) = evalSum numVars terms a).
  { apply Hval; [exact Hcons|]. intros i s Hs.
    assert (Hi : i < numVars).
    { rewrite <- Hlen. apply nth_error_Some. congruence. }
    assert (Hs0 : nth_error nodes i = Some s).
    { unfold nodes. rewrite nth_error_app1; [exact Hs|lia]. }
    destruct (Forall2_nth_left _ _ _ Hns i s Hs0) as (s1 & Hs1 & Hsame).
    destruct Hsame as (Hid & Hty & _).
    assert (Hsrc : isSource (n_type s1) = true).
    { rewrite <- Hty. rewrite Forall_forall in Hsw.
      rewrite (Hsw s (nth_error_In _ _ Hs)). reflexivity. }
    pose proof (propagateCircuit_source_at ns ws i s1 Hs1 Hsrc) as Hk.
    fold ns' in Hk. unfold outputOf. rewrite Hid.
    rewrite (nodeMap_get_unique ns' Hnd' s1 (nth_error_In _ _ Hk)).
    now apply (Hin i). }
  destruct (hasNode_get ns' (n_id lamp)) as [l Hl].
  { apply (hasNode_same nodes); [exact Hn'|]. exists lamp. auto. }
  exists l. split; [exact Hl|]. split.
  - apply nodeMap_get_In in Hl. destruct Hl as [Hl Hid].
    destruct (Forall2_In_right _ _ _ _ Hn' Hl) as (l0 & Hl0 & Hsame).
    destruct Hsame as (Hid0 & Hty & _). rewrite <- Hty.
    assert (l0 = lamp) as ->; [|exact Hlamp].
    pose proof (find_unique nodes Hnd l0 Hl0) as F0.
    pose proof (find_unique nodes Hnd lamp Hlin) as F1.
    rewrite Hid0, Hid in F0. congruence.
  - unfold outputOf in Hlv. now rewrite Hl in Hlv.
Qed.

(** X24: for at most four variables and product terms of that length with at
    least one literal each, the circuit the generator returns, in any state
    in which the stored outputs of its gates agree with their stored inputs,
    is evaluated by propagateCircuit to the sum of products: after the call
    the lamp stores the value of the function at the switch positions. *)
Theorem generateCircuitFromTerms_simulates
        (numVars : nat) (terms : list Term) (k : nat) :
  distinctIds randomId ->
  (forall i, truthyString (randomId i) = true) ->
  numVars <= 4 ->
  (forall t, In t terms -> length t = numVars /\ hasLiteral t) ->
  exists nodes wires k' lamp,
    generateCircuitFromTerms randomId numVars terms startPos k
      = Returned (nodes, wires, k') /\
    In lamp nodes /\ n_type lamp = OUTPUT_LAMP /\
    forall ns ws a,
      Forall2 sameElement nodes ns ->
      Forall2 sameConnection wires ws ->
      (forall n, In n ns -> outputOK n) ->
      (forall i s, i < numVars -> nth_error ns i = Some s ->
         n_state s = varValue numVars a i) ->
      exists l,
        nodeMap_get (fst (propagateCircuit ns ws)) (n_id lamp) = Some l /\
        n_type l = OUTPUT_LAMP /\
        n_state l = evalSum numVars terms a.
Proof. exact (generateCircuitFromTerms_run numVars terms k). Qed.

End Simulation.

Section SimulationWitness.
Import CircuitEngine EngineSpec EngineInvariants QuineMcCluskey TermSemantics
       Synthesizer SynthesizerSpec CircuitSemantics.

Lemma idOfNat_truthy (i : nat) : truthyString (idOfNat i) = true.
Proof.
  destruct (idOfNat i) eqn:E; [|reflexivity].
  apply (f_equal String.length) in E. rewrite idOfNat_length in E.
  discriminate.
Qed.

Lemma xorTerms_literals (t : Term) :
  In t [["0"; "1"]; ["1"; "0"]]%char -> length t = 2 /\ hasLiteral t.
Proof.
  intros [<-|[<-|[]]]; (split; [reflexivity|]).
  - exists 0, "0"%char. split; [reflexivity|now left].
  - exists 0, "1"%char. split; [reflexivity|now right].
Qed.

Lemma generateCircuitFromTerms_computes_witness :
  exists inputs others lamp wires k',
    generateCircuitFromTerms idOfNat 2 [["0"; "1"]; ["1"; "0"]]%char
                             (mkPosition 0 0) 0
      = Returned (inputs ++ others ++ [lamp], wires, k') /\
    length inputs = 2 /\
    Forall (fun n => n_type n = INPUT_SWITCH) inputs /\
    n_type lamp = OUTPUT_LAMP /\
    forall val a,
      consistent (inputs ++ others ++ [lamp]) wires val ->
      (forall i s, nth_error inputs i = Some s ->
         val (n_id s) = varValue 2 a i) ->
      val (n_id lamp) = evalSum 2 [["0"; "1"]; ["1"; "0"]]%char a.
Proof.
  apply (generateCircuitFromTerms_computes idOfNat (mkPosition 0 0) 2).
  - exact idOfNat_distinct.
  - exact idOfNat_truthy.
  - lia.
  - exact xorTerms_literals.
Defined.

Lemma generateCircuitFromTerms_feed_forward_witness :
  exists nodes wires k',
    generateCircuitFromTerms idOfNat 2 [["0"; "1"]; ["1"; "0"]]%char
                             (mkPosition 0 0) 0
      = Returned (nodes, wires, k') /\
    ranked nodes wires /\
    (distinctIds idOfNat -> acyclicWithin 5 wires).
Proof.
  apply (generateCircuitFromTerms_feed_forward idOfNat (mkPosition 0 0) 2).
  exact xorTerms_in_bounds.
Defined.

Lemma generateCircuitFromTerms_simulates_witness :
  exists nodes wires k' lamp,
    generateCircuitFromTerms idOfNat 2 [["0"; "1"]; ["1"; "0"]]%char
                             (mkPosition 0 0) 0
      = Returned (nodes, wires, k') /\
    In lamp nodes /\ n_type lamp = OUTPUT_LAMP /\
    forall ns ws a,
      Forall2 sameElement nodes ns ->
      Forall2 sameConnection wires ws ->
      (forall n, In n ns -> outputOK n) ->
      (forall i s, i < 2 -> nth_error ns i = Some s ->
         n_state s = varValue 2 a i) ->
      exists l,
        nodeMap_get (fst (propagateCircuit ns ws)) (n_id lamp) = Some l /\
        n_type l = OUTPUT_LAMP /\
        n_state l = evalSum 2 [["0"; "1"]; ["1"; "0"]]%char a.
Proof.
  apply (generateCircuitFromTerms_simulates idOfNat (mkPosition 0 0) 2).
  - exact idOfNat_distinct.
  - exact idOfNat_truthy.
  - lia.
  - exact xorTerms_literals.
Defined.

End SimulationWitness.

(* ================================================================== *)
(** * Simulating the circuit generated for a truth table *)
(* ================================================================== *)

Section TableSimulation.
Import CircuitEngine EngineSpec EngineInvariants QuineMcCluskey TermSemantics
       Synthesizer TruthTableSynthesis SynthesizerSpec CircuitSemantics.

Variable randomId : nat -> string.
Variable startPos : Position.

Lemma hasLiteral_cons (c : ascii) (t : list ascii) :
  hasLiteral t -> hasLiteral (c :: t).
Proof. intros (p & c' & H & Hc). exists (S p), c'. auto. Qed.

(** A term without '0' and '1' is true under every assignment. *)
Lemma literal_or_tautology (numVars : nat) (a : N) (t : Term) :
  forall i, hasLiteral t \/ productFrom numVars a i t = true.
Proof.
  induction t as [|c t IH]; intros i; [right; reflexivity|].
  destruct (Ascii.eqb_spec c "1") as [->|H1].
  { left. exists 0, "1"%char. split; [reflexivity|now right]. }
  destruct (Ascii.eqb_spec c "0") as [->|H0].
  { left. exists 0, "0"%char. split; [reflexivity|now left]. }
  destruct (IH (S i)) as [H|H]; [left; now apply hasLiteral_cons|right].
  cbn [productFrom]. unfold literalHolds.
  destruct (Ascii.eqb_spec c "1"); [contradiction|].
  destruct (Ascii.eqb_spec c "0"); [contradiction|]. exact H.
Qed.

(** X25: for 1 to 4 variables and a truth table of at most 2^numVars rows
    that is not true in every row, generateCircuitFromTruthTable returns a
    circuit which, taken in any state in which the stored output of every
    gate agrees with its stored inputs, propagateCircuit evaluates to the
    table: after the call the lamp stores the row selected by the switch
    positions (A the most significant bit). *)
Theorem generateCircuitFromTruthTable_simulates
        (fuel numVars : nat) (truthTable : list bool) (k : nat) :
  distinctIds randomId ->
  (forall i, truthyString (randomId i) = true) ->
  1 <= numVars <= 4 -> numVars < fuel ->
  length truthTable <= 2 ^ numVars ->
  (exists r, r < 2 ^ numVars /\ nth r truthTable false = false) ->
  exists gen nodes wires k' lamp,
    generateCircuitFromTruthTable randomId fuel numVars truthTable startPos
      = Some gen /\
    gen k = Returned (nodes, wires, k') /\
    In lamp nodes /\ n_type lamp = OUTPUT_LAMP /\
    forall ns ws a,
      (a < 2 ^ N.of_nat numVars)%N ->
      Forall2 sameElement nodes ns ->
      Forall2 sameConnection wires ws ->
      (forall n, In n ns -> outputOK n) ->
      (forall i s, i < numVars -> nth_error ns i = Some s ->
         n_state s = varValue numVars a i) ->
      exists l,
        nodeMap_get (fst (propagateCircuit ns ws)) (n_id lamp) = Some l /\
        n_type l = OUTPUT_LAMP /\
        n_state l = nth (N.to_nat a) truthTable false.
Proof.
  intros Hinj Htruthy [Hn H4] Hf Hl (r & Hr & Hrow).
  destruct (solveQuineMcCluskey_result fuel numVars (mintermsOf truthTable) Hn Hf
              (mintermsOf_NoDup truthTable)
              (mintermsOf_range truthTable numVars Hl))
    as (terms & Es & Hu & Hcov).
  assert (Hterms : forall t, In t terms -> length t = numVars /\ hasLiteral t).
  { intros t Ht. split; [now apply Hu|].
    destruct (literal_or_tautology numVars (N.of_nat r) t 0) as [H|H];
      [exact H|exfalso].
    assert (Hlt : (N.of_nat r < 2 ^ N.of_nat numVars)%N).
    { change 2%N with (N.of_nat 2). rewrite <- Nat2N.inj_pow. lia. }
    assert (Hs : evalSum numVars terms (N.of_nat r) = true).
    { apply evalSum_exists. exists t. split; [exact Ht|exact H]. }
    apply (Hcov _ Hlt) in Hs. apply mintermsOf_In in Hs.
    rewrite Nat2N.id in Hs. congruence. }
  destruct (generateCircuitFromTerms_run randomId startPos numVars terms k
              Hinj Htruthy H4 Hterms)
    as (nodes & wires & k' & lamp & E & Hlin & Hlamp & Hrun).
  exists (generateCircuitFromTerms randomId numVars terms startPos),
         nodes, wires, k', lamp.
  split. { unfold generateCircuitFromTruthTable. now rewrite Es. }
  split; [exact E|]. split; [exact Hlin|]. split; [exact Hlamp|].
  intros ns ws a Ha Hns Hws Hout Hin.
  destruct (Hrun ns ws a Hns Hws Hout Hin) as (l & Hget & Hty & Hst).
  exists l. split; [exact Hget|]. split; [exact Hty|]. rewrite Hst.
  specialize (Hcov a Ha). rewrite mintermsOf_In in Hcov.
  destruct (evalSum numVars terms a), (nth (N.to_nat a) truthTable false);
    try reflexivity.
  - symmetry. now apply Hcov.
  - now apply Hcov.
Qed.

End TableSimulation.

Section TableSimulationWitness.
Import CircuitEngine EngineSpec EngineInvariants QuineMcCluskey TermSemantics
       Synthesizer TruthTableSynthesis SynthesizerSpec CircuitSemantics.

Lemma generateCircuitFromTruthTable_simulates_witness :
  exists gen nodes wires k' lamp,
    generateCircuitFromTruthTable idOfNat 3 2 [false; true; true; false]
                                  (mkPosition 0 0)
      = Some gen /\
    gen 0 = Returned (nodes, wires, k') /\
    In lamp nodes /\ n_type lamp = OUTPUT_LAMP /\
    forall ns ws a,
      (a < 2 ^ N.of_nat 2)%N ->
      Forall2 sameElement nodes ns ->
      Forall2 sameConnection wires ws ->
      (forall n, In n ns -> outputOK n) ->
      (forall i s, i < 2 -> nth_error ns i = Some s ->
         n_state s = varValue 2 a i) ->
      exists l,
        nodeMap_get (fst (propagateCircuit ns ws)) (n_id lamp) = Some l /\
        n_type l = OUTPUT_LAMP /\
        n_state l = nth (N.to_nat a) [false; true; true; false] false.
Proof.
  apply (generateCircuitFromTruthTable_simulates idOfNat (mkPosition 0 0)
           3 2 [false; true; true; false] 0).
  - exact idOfNat_distinct.
  - exact idOfNat_truthy.
  - lia.
  - lia.
  - cbn. lia.
  - exists 0. split; [cbn; lia|reflexivity].
Defined.

End TableSimulationWitness.

(* ================================================================== *)
(** * The simulating actions keep the stored outputs consistent *)
(* ================================================================== *)

Section SimulationActions.
Import CircuitEngine EngineSpec EngineInvariants AppActions Examples.

Lemma GateType_eqb_eq (a b : GateType) : GateType_eqb a b = true -> a = b.
Proof. destruct a, b; cbn; intros H; try discriminate; reflexivity. Qed.

(** X26: toggling a switch, completing a wire and a clock tick keep the
    output invariant: when every evaluated element stores the output that
    computeNodeLogic gives for its stored inputs, so does every element of
    the circuit these actions install; for the switch this needs the element
    ids to be unique, since every element that shares the id of the clicked
    switch is flipped. *)
Theorem simulation_keeps_outputs_consistent
        (ns : list CircuitNode) (ws : list Wire) :
  (forall n, In n ns -> outputOK n) ->
  (NoDup (map n_id ns) ->
   forall hovered n', In n' (fst (toggleSwitch hovered ns ws)) -> outputOK n') /\
  (forall newId start pin n',
     In n' (fst (completeWire newId start pin ns ws)) -> outputOK n') /\
  (forall ns' ws' n',
     clockTick ns ws = Some (ns', ws') -> In n' ns' -> outputOK n').
Proof.
  intros Hout. split; [|split].
  - intros Hnd hovered n'. unfold toggleSwitch.
    destruct (find _ ns) as [c|] eqn:Hf; [|apply Hout].
    destruct (GateType_eqb (n_type c) INPUT_SWITCH) eqn:Ht; [|apply Hout].
    apply GateType_eqb_eq in Ht. apply find_some in Hf. destruct Hf as [Hc _].
    unfold propagateCircuit. apply propagateLoop_outputOK.
    intros n Hin. apply in_map_iff in Hin. destruct Hin as (m & <- & Hm).
    destruct (String.eqb_spec (n_id m) (n_id c)) as [E|E]; [|now apply Hout].
    left. rewrite (NoDup_map_unique n_id ns m c Hnd Hm Hc E).
    cbn. now rewrite Ht.
  - intros newId start pin n'. unfold completeWire.
    destruct (negb _); [|apply Hout].
    unfold propagateCircuit. now apply propagateLoop_outputOK.
  - intros ns' ws' n'. unfold clockTick.
    destruct (existsb _ ns); [|discriminate].
    intros E Hin. injection E as E.
    assert (Ens : ns' = fst (ns', ws')) by reflexivity.
    rewrite Ens, <- E in Hin. revert n' Hin.
    unfold propagateCircuit. apply propagateLoop_outputOK.
    intros n Hn. apply in_map_iff in Hn. destruct Hn as (m & <- & Hm).
    destruct (GateType_eqb (n_type m) CLOCK) eqn:Ht; [|now apply Hout].
    apply GateType_eqb_eq in Ht. left. cbn. now rewrite Ht.
Qed.

(** The theorem at a switch that feeds a chain of three NOT gates, beside a
    clock. *)
Lemma simulation_keeps_outputs_consistent_witness :
  (NoDup (map n_id (chainNodes 3 ++ [sampleClock true])) ->
   forall hovered n',
     In n' (fst (toggleSwitch hovered (chainNodes 3 ++ [sampleClock true])
                              (chainWires 3))) ->
     outputOK n') /\
  (forall newId start pin n',
     In n' (fst (completeWire newId start pin
                   (chainNodes 3 ++ [sampleClock true]) (chainWires 3))) ->
     outputOK n') /\
  (forall ns' ws' n',
     clockTick (chainNodes 3 ++ [sampleClock true]) (chainWires 3)
     = Some (ns', ws') ->
     In n' ns' -> outputOK n').
Proof.
  apply (simulation_keeps_outputs_consistent
           (chainNodes 3 ++ [sampleClock true]) (chainWires 3)).
  intros n Hin. apply in_app_iff in Hin. destruct Hin as [Hin|[<-|[]]].
  - now apply chainNodes_outputOK.
  - left. reflexivity.
Defined.

End SimulationActions.

(* ================================================================== *)
(** * The rows of the truth-table dialog *)
(* ================================================================== *)

Section TableRows.
Import QuineMcCluskey TermSemantics KarnaughModal.

Lemma bitsMSB_nth (k : nat) : forall (m : N) (i : nat),
  i < k ->
  nth_error (bitsMSB k m) i
  = Some (if varValue k m i then "1"%char else "0"%char).
Proof.
  induction k as [|k IH]; intros m i Hi; [lia|].
  cbn [bitsMSB].
  destruct (Nat.eq_dec i k) as [->|Hne].
  - rewrite nth_error_app2 by (rewrite bitsMSB_length; lia).
    rewrite bitsMSB_length, Nat.sub_diag. cbn [nth_error].
    unfold varValue. replace (S k - 1 - k) with 0 by lia.
    cbn [N.of_nat]. now rewrite N.bit0_odd.
  - rewrite nth_error_app1 by (rewrite bitsMSB_length; lia).
    rewrite IH by lia. now rewrite varValue_shift by lia.
Qed.

(** X27: the input columns the dialog shows for a row are the switch
    positions of that row: for numVars >= 1 and a row index below 2^numVars,
    getBinaryString has numVars characters, the i-th being '1' when variable
    i is on under the assignment the index encodes (A the most significant
    bit) and '0' otherwise; as a product term it is true under that
    assignment only. *)
Theorem getBinaryString_reads_assignment (numVars : nat) (index : N) :
  1 <= numVars -> (index < 2 ^ N.of_nat numVars)%N ->
  length (getBinaryString numVars index) = numVars /\
  (forall i, i < numVars ->
     nth_error (getBinaryString numVars index) i
     = Some (if varValue numVars index i then "1"%char else "0"%char)) /\
  (forall a, (a < 2 ^ N.of_nat numVars)%N ->
     (evalTerm numVars (getBinaryString numVars index) a = true <-> a = index)).
Proof.
  intros Hn Hi. unfold getBinaryString.
  rewrite (padStart_bits numVars index Hn Hi).
  split; [apply bitsMSB_length|]. split.
  - intros i Hlt. now apply bitsMSB_nth.
  - intros a Ha. now apply evalTerm_bits.
Qed.

Lemma getBinaryString_reads_assignment_witness :
  length (getBinaryString 3 5) = 3 /\
  (forall i, i < 3 ->
     nth_error (getBinaryString 3 5) i
     = Some (if varValue 3 5 i then "1"%char else "0"%char)) /\
  (forall a, (a < 2 ^ N.of_nat 3)%N ->
     (evalTerm 3 (getBinaryString 3 5) a = true <-> a = 5%N)).
Proof.
  apply (getBinaryString_reads_assignment 3 5).
  - lia.
  - reflexivity.
Defined.

End TableRows.
